(** * OpenEXR codecs of FreeImage: Pxr24 compressor and FastHuf decoder

    A shallow embedding of [Source/OpenEXR/OpenEXR/ImfPxr24Compressor.cpp]
    and [Source/OpenEXR/OpenEXR/ImfFastHuf.cpp], with the properties the
    specification states about them.

    Conventions.
    - [unsigned int] and [uint64_t] values are integers of [Z] kept in
      [0, 2^32) and [0, 2^64) by an explicit [wrap32] / [wrap64] wherever the
      C++ arithmetic can leave the range.
    - [int] values are integers of [Z]; signed overflow is undefined in C++
      and none of the modelled paths relies on it.
    - A [float] is its IEEE-754 binary32 bit pattern (the [u.i] view of the
      union in [floatToFloat24]); a [double] is a [spec_float] of the
      Standard Library at precision 53.
    - Memory is a [list byte]; a pointer is an index into it. *)

From Stdlib Require Import ZArith Lia Bool List.
From Stdlib Require Import Strings.Byte.
From Stdlib Require Import Floats.SpecFloat.
From stdpp Require Import base list numbers.
Import ListNotations.
Open Scope Z_scope.

(** ** Machine words *)

Definition wrap32 (z : Z) : Z := z mod 2 ^ 32.
Definition wrap64 (z : Z) : Z := z mod 2 ^ 64.

(** ** Results of fallible code

    [Throw] is a C++ exception; [Undef] stands for what C++ leaves undefined
    (an access outside a buffer) and for a loop of the model that used up
    its fuel. *)

Inductive result (E A : Type) : Type :=
| Ret (a : A)
| Throw (e : E)
| Undef.
Arguments Ret {E A} a.
Arguments Throw {E A} e.
Arguments Undef {E A}.

Definition bind {E A B : Type} (m : result E A) (k : A -> result E B) : result E B :=
  match m with
  | Ret a => k a
  | Throw e => Throw e
  | Undef => Undef
  end.

Declare Scope result_scope.
Delimit Scope result_scope with result.
Notation "x <- m ;; k" := (bind m (fun x => k))
  (at level 20, m at level 99, k at level 200, only parsing) : result_scope.
Notation "' p <- m ;; k" := (bind m (fun x => match x with p => k end))
  (at level 20, p pattern, m at level 99, k at level 200, only parsing) : result_scope.
Open Scope result_scope.

(** ** Loops

    [for (i = a; i <= b; ++i)] runs [count a b] times. *)

Definition count (a b : Z) : nat := Z.to_nat (b - a + 1).

Fixpoint for_up {St : Type} (n : nat) (i : Z) (body : Z -> St -> St) (s : St) : St :=
  match n with
  | O => s
  | S n' => for_up n' (i + 1) body (body i s)
  end.

Fixpoint for_down {St : Type} (n : nat) (i : Z) (body : Z -> St -> St) (s : St)
    : St :=
  match n with
  | O => s
  | S n' => for_down n' (i - 1) body (body i s)
  end.

Fixpoint for_upM {E St : Type} (n : nat) (i : Z) (body : Z -> St -> result E St)
    (s : St) : result E St :=
  match n with
  | O => Ret s
  | S n' => s <- body i s ;; for_upM n' (i + 1) body s
  end.

(** A loop over the elements of a container. *)
Fixpoint foldM {E A St : Type} (f : A -> St -> result E St) (l : list A)
    (st : St) : result E St :=
  match l with
  | [] => Ret st
  | a :: l' => st <- f a st ;; foldM f l' st
  end.

(** Sums over a range of integers: [sum_range f a b] is the sum of [f k]
    for [a <= k <= b]. *)
Fixpoint sum_from (n : nat) (i : Z) (f : Z -> Z) : Z :=
  match n with
  | O => 0
  | S n' => f i + sum_from n' (i + 1) f
  end.

Definition sum_range (f : Z -> Z) (a b : Z) : Z := sum_from (count a b) a f.

(** ** Bytes and buffers *)

Definition byte_to_Z (b : byte) : Z := Z.of_N (Byte.to_N b).

(** Conversion of an integer to [unsigned char]: the low eight bits. *)
Definition Z_to_byte (z : Z) : byte :=
  match Byte.of_N (Z.to_N (z mod 256)) with
  | Some b => b
  | None => x00
  end.

(** [buf[p]] for a pointer [p] into [buf]. *)
Definition load {E A} (buf : list A) (p : Z) : result E A :=
  if p <? 0 then Undef
  else match buf !! Z.to_nat p with
       | Some b => Ret b
       | None => Undef
       end.

(** [buf[p] = b]. *)
Definition store {E A} (buf : list A) (p : Z) (b : A) : result E (list A) :=
  if (0 <=? p) && (p <? Z.of_nat (length buf))
  then Ret (<[Z.to_nat p := b]> buf)
  else Undef.

(** Arrays that are members or locals of fixed size, read and written at
    indices the code keeps in range. *)
Definition arr_get (a : list Z) (i : Z) : Z := nth (Z.to_nat i) a 0.
Definition arr_set (a : list Z) (i : Z) (v : Z) : list Z := <[Z.to_nat i := v]> a.

(** ** Double precision

    A [double] is an IEEE-754 binary64 number, here the [spec_float] of the
    Standard Library with a 53-bit significand; conversion from an integer
    and the arithmetic round to nearest, ties to even. *)

Definition double : Type := spec_float.
Definition double_zero : double := S754_zero false.
Definition double_of_Z (z : Z) : double := binary_normalize 53 1024 z 0 false.
Definition double_mul : double -> double -> double := SFmul 53 1024.
Definition double_add : double -> double -> double := SFadd 53 1024.
Definition double_div : double -> double -> double := SFdiv 53 1024.

(** The double of value [a * 2 ^ t], for [a] of at most 53 digits: its
    significand has 53 digits. *)
Definition dyadic (a t : Z) : double :=
  S754_finite false (Z.to_pos (2 ^ (53 - Zdigits2 a) * a)) (t + Zdigits2 a - 53).

(** The integer [ceil x], for a finite [x]. *)
Definition double_ceil (x : double) : option Z :=
  match x with
  | S754_zero _ => Some 0
  | S754_finite s m e =>
      let sm := if s then Z.neg m else Z.pos m in
      Some (if 0 <=? e then sm * 2 ^ e else - ((- sm) / 2 ^ (- e)))
  | S754_infinity _ | S754_nan => None
  end.

(** [(uint64_t) ceil (x)]: the conversion is defined when the value fits. *)
Definition ceil_to_uint64 {E} (x : double) : result E Z :=
  match double_ceil x with
  | Some c => if (0 <=? c) && (c <? 2 ^ 64) then Ret c else Undef
  | None => Undef
  end.

(** Host byte order is little-endian (the decoder is enabled on x86 only). *)
Definition bytes_of_u32 (x : Z) : list byte :=
  [Z_to_byte x; Z_to_byte (Z.shiftr x 8); Z_to_byte (Z.shiftr x 16);
   Z_to_byte (Z.shiftr x 24)].

Definition bytes_of_u16 (x : Z) : list byte :=
  [Z_to_byte x; Z_to_byte (Z.shiftr x 8)].

(** ** Pxr24: conversion from 32-bit to 24-bit floating-point numbers *)

Module Pxr24.

(** [floatToFloat24], lines 65-133.  The argument is the bit pattern of [f]. *)
Definition floatToFloat24 (u : Z) : Z :=
  let s := Z.land u 0x80000000 in
  let e := Z.land u 0x7f800000 in
  let m := Z.land u 0x007fffff in
  let i :=
    if e =? 0x7f800000 then
      if negb (m =? 0) then
        let m := Z.shiftr m 8 in
        Z.lor (Z.lor (Z.shiftr e 8) m) (if m =? 0 then 1 else 0)
      else
        Z.shiftr e 8
    else
      let i := Z.shiftr (wrap32 (Z.lor e m + Z.land m 0x00000080)) 8 in
      if 0x7f8000 <=? i then Z.shiftr (Z.lor e m) 8 else i
  in
  Z.lor (Z.shiftr s 8) i.

(** "Conversion back to 32 bits is simply an 8-bit shift to the left"
    (line 62); this is what the FLOAT branch of [uncompress] rebuilds. *)
Definition float24ToFloat (x : Z) : Z := wrap32 (Z.shiftl x 8).

(** Fields of a binary32 bit pattern. *)
Definition sign_bits (u : Z) : Z := Z.land u 0x80000000.
Definition exponent_bits (u : Z) : Z := Z.land u 0x7f800000.
Definition significand_bits (u : Z) : Z := Z.land u 0x007fffff.

Definition is_infinity (u : Z) : Prop :=
  exponent_bits u = 0x7f800000 /\ significand_bits u = 0.
Definition is_nan (u : Z) : Prop :=
  exponent_bits u = 0x7f800000 /\ significand_bits u <> 0.
Definition is_finite (u : Z) : Prop :=
  exponent_bits u <> 0x7f800000.

(** *** The compressor *)

Inductive PixelType := UINT | HALF | FLOAT.

Record Channel := {
  ctype : PixelType;
  xSampling : Z;
  ySampling : Z
}.

Record Box2i := { min_x : Z; min_y : Z; max_x : Z; max_y : Z }.

(** The fields of [Pxr24Compressor].  [_channels] is listed in the order in
    which [ChannelList::ConstIterator] visits it; [tmpBuffer] is the content
    of [_tmpBuffer], an array of [maxScanLineSize * numScanLines] bytes.
    [_outBuffer] only carries the bytes a call returns, which the model
    returns as a list: its size, [maxScanLineSize * numScanLines] bytes and
    some more (lines 163-171), is not part of the model, and what is said
    of [uncompress] is said of blocks of at most that many bytes. *)
Record Pxr24Compressor := {
  maxScanLineSize : Z;
  numScanLines : Z;
  tmpBuffer : list byte;
  channels : list Channel;
  minX : Z;
  maxX : Z;
  maxY : Z
}.

Inductive error :=
| CompressionFailure     (* "Data compression (zlib) failed." *)
| DecompressionFailure   (* "Data decompression (zlib) failed." *)
| NotEnoughData          (* "input data are shorter than expected" *)
| TooMuchData.           (* "input data are longer than expected" *)

Definition res := result error.

(** Reading a sample through [inPtr]: the four bytes copied into an
    [unsigned int] or a [float], the two bytes of a [half]. *)
Definition read_u32 (inPtr : list byte) : res (Z * list byte) :=
  match inPtr with
  | b0 :: b1 :: b2 :: b3 :: rest =>
      Ret (byte_to_Z b0 + byte_to_Z b1 * 2 ^ 8 + byte_to_Z b2 * 2 ^ 16
           + byte_to_Z b3 * 2 ^ 24, rest)
  | _ => Undef
  end.

Definition read_u16 (inPtr : list byte) : res (Z * list byte) :=
  match inPtr with
  | b0 :: b1 :: rest => Ret (byte_to_Z b0 + byte_to_Z b1 * 2 ^ 8, rest)
  | _ => Undef
  end.

(** The three sample loops of [compress] (lines 298-313, 323-335, 346-361). *)
Fixpoint compress_UINT (n : nat) (inPtr tmp : list byte)
    (ptr0 ptr1 ptr2 ptr3 previousPixel : Z) : res (list byte * list byte) :=
  match n with
  | O => Ret (inPtr, tmp)
  | S n' =>
      '(pixel, inPtr) <- read_u32 inPtr ;;
      let diff := wrap32 (pixel - previousPixel) in
      let previousPixel := pixel in
      tmp <- store tmp ptr0 (Z_to_byte (Z.shiftr diff 24)) ;;
      tmp <- store tmp ptr1 (Z_to_byte (Z.shiftr diff 16)) ;;
      tmp <- store tmp ptr2 (Z_to_byte (Z.shiftr diff 8)) ;;
      tmp <- store tmp ptr3 (Z_to_byte diff) ;;
      compress_UINT n' inPtr tmp (ptr0 + 1) (ptr1 + 1) (ptr2 + 1) (ptr3 + 1)
        previousPixel
  end.

Fixpoint compress_HALF (n : nat) (inPtr tmp : list byte)
    (ptr0 ptr1 previousPixel : Z) : res (list byte * list byte) :=
  match n with
  | O => Ret (inPtr, tmp)
  | S n' =>
      '(bits, inPtr) <- read_u16 inPtr ;;
      let diff := wrap32 (bits - previousPixel) in
      let previousPixel := bits in
      tmp <- store tmp ptr0 (Z_to_byte (Z.shiftr diff 8)) ;;
      tmp <- store tmp ptr1 (Z_to_byte diff) ;;
      compress_HALF n' inPtr tmp (ptr0 + 1) (ptr1 + 1) previousPixel
  end.

Fixpoint compress_FLOAT (n : nat) (inPtr tmp : list byte)
    (ptr0 ptr1 ptr2 previousPixel : Z) : res (list byte * list byte) :=
  match n with
  | O => Ret (inPtr, tmp)
  | S n' =>
      '(pixel, inPtr) <- read_u32 inPtr ;;
      let pixel24 := floatToFloat24 pixel in
      let diff := wrap32 (pixel24 - previousPixel) in
      let previousPixel := pixel24 in
      tmp <- store tmp ptr0 (Z_to_byte (Z.shiftr diff 16)) ;;
      tmp <- store tmp ptr1 (Z_to_byte (Z.shiftr diff 8)) ;;
      tmp <- store tmp ptr2 (Z_to_byte diff) ;;
      compress_FLOAT n' inPtr tmp (ptr0 + 1) (ptr1 + 1) (ptr2 + 1) previousPixel
  end.

(** The three sample loops of [uncompress] (lines 450-463, 476-486,
    500-511); [out] is what has been written through [writePtr]. *)
Fixpoint uncompress_UINT (n : nat) (tmp : list byte)
    (ptr0 ptr1 ptr2 ptr3 pixel : Z) (out : list byte) : res (list byte) :=
  match n with
  | O => Ret out
  | S n' =>
      b0 <- load tmp ptr0 ;;
      b1 <- load tmp ptr1 ;;
      b2 <- load tmp ptr2 ;;
      b3 <- load tmp ptr3 ;;
      let diff :=
        wrap32 (Z.lor (Z.lor (Z.lor (Z.shiftl (byte_to_Z b0) 24)
                                    (Z.shiftl (byte_to_Z b1) 16))
                             (Z.shiftl (byte_to_Z b2) 8))
                      (byte_to_Z b3)) in
      let pixel := wrap32 (pixel + diff) in
      uncompress_UINT n' tmp (ptr0 + 1) (ptr1 + 1) (ptr2 + 1) (ptr3 + 1) pixel
        (out ++ bytes_of_u32 pixel)
  end.

Fixpoint uncompress_HALF (n : nat) (tmp : list byte)
    (ptr0 ptr1 pixel : Z) (out : list byte) : res (list byte) :=
  match n with
  | O => Ret out
  | S n' =>
      b0 <- load tmp ptr0 ;;
      b1 <- load tmp ptr1 ;;
      let diff := wrap32 (Z.lor (Z.shiftl (byte_to_Z b0) 8) (byte_to_Z b1)) in
      let pixel := wrap32 (pixel + diff) in
      uncompress_HALF n' tmp (ptr0 + 1) (ptr1 + 1) pixel
        (out ++ bytes_of_u16 (pixel mod 2 ^ 16))
  end.

Fixpoint uncompress_FLOAT (n : nat) (tmp : list byte)
    (ptr0 ptr1 ptr2 pixel : Z) (out : list byte) : res (list byte) :=
  match n with
  | O => Ret out
  | S n' =>
      b0 <- load tmp ptr0 ;;
      b1 <- load tmp ptr1 ;;
      b2 <- load tmp ptr2 ;;
      let diff :=
        wrap32 (Z.lor (Z.lor (Z.shiftl (byte_to_Z b0) 24)
                             (Z.shiftl (byte_to_Z b1) 16))
                      (Z.shiftl (byte_to_Z b2) 8)) in
      let pixel := wrap32 (pixel + diff) in
      uncompress_FLOAT n' tmp (ptr0 + 1) (ptr1 + 1) (ptr2 + 1) pixel
        (out ++ bytes_of_u32 pixel)
  end.

(** The [switch (c.type)] of [compress] (lines 285-368) for a channel with
    [n] samples; the state is [inPtr], [_tmpBuffer] and [tmpBufferEnd]. *)
Definition compress_switch (t : PixelType) (n : Z)
    (st : list byte * list byte * Z) : res (list byte * list byte * Z) :=
  let '(inPtr, tmp, tmpBufferEnd) := st in
  match t with
  | UINT =>
      let ptr0 := tmpBufferEnd in
      let ptr1 := ptr0 + n in
      let ptr2 := ptr1 + n in
      let ptr3 := ptr2 + n in
      let tmpBufferEnd := ptr3 + n in
      '(inPtr, tmp) <- compress_UINT (Z.to_nat n) inPtr tmp ptr0 ptr1 ptr2 ptr3 0 ;;
      Ret (inPtr, tmp, tmpBufferEnd)
  | HALF =>
      let ptr0 := tmpBufferEnd in
      let ptr1 := ptr0 + n in
      let tmpBufferEnd := ptr1 + n in
      '(inPtr, tmp) <- compress_HALF (Z.to_nat n) inPtr tmp ptr0 ptr1 0 ;;
      Ret (inPtr, tmp, tmpBufferEnd)
  | FLOAT =>
      let ptr0 := tmpBufferEnd in
      let ptr1 := ptr0 + n in
      let ptr2 := ptr1 + n in
      let tmpBufferEnd := ptr2 + n in
      '(inPtr, tmp) <- compress_FLOAT (Z.to_nat n) inPtr tmp ptr0 ptr1 ptr2 0 ;;
      Ret (inPtr, tmp, tmpBufferEnd)
  end.

(** The [switch (c.type)] of [uncompress] (lines 434-518); the state is
    [tmpBufferEnd] and the bytes written through [writePtr]. *)
Definition uncompress_switch (tmp : list byte) (tmpSize : Z) (t : PixelType)
    (n : Z) (st : Z * list byte) : res (Z * list byte) :=
  let '(tmpBufferEnd, out) := st in
  match t with
  | UINT =>
      let ptr0 := tmpBufferEnd in
      let ptr1 := ptr0 + n in
      let ptr2 := ptr1 + n in
      let ptr3 := ptr2 + n in
      let tmpBufferEnd := ptr3 + n in
      if tmpSize <? wrap64 tmpBufferEnd then Throw NotEnoughData
      else
        out <- uncompress_UINT (Z.to_nat n) tmp ptr0 ptr1 ptr2 ptr3 0 out ;;
        Ret (tmpBufferEnd, out)
  | HALF =>
      let ptr0 := tmpBufferEnd in
      let ptr1 := ptr0 + n in
      let tmpBufferEnd := ptr1 + n in
      if tmpSize <? wrap64 tmpBufferEnd then Throw NotEnoughData
      else
        out <- uncompress_HALF (Z.to_nat n) tmp ptr0 ptr1 0 out ;;
        Ret (tmpBufferEnd, out)
  | FLOAT =>
      let ptr0 := tmpBufferEnd in
      let ptr1 := ptr0 + n in
      let ptr2 := ptr1 + n in
      let tmpBufferEnd := ptr2 + n in
      if tmpSize <? wrap64 tmpBufferEnd then Throw NotEnoughData
      else
        out <- uncompress_FLOAT (Z.to_nat n) tmp ptr0 ptr1 ptr2 0 out ;;
        Ret (tmpBufferEnd, out)
  end.

Section Codec.

(** [modp] (ImathFun.h) and [numSamples] (ImfMisc.h) are not part of the
    sources at hand; the codec is parametrised by them.  The deflate backend
    is zlib: [zlib_compress d] is the content [::compress] leaves in its
    destination, [None] when it does not return [Z_OK];
    [zlib_uncompress cap d] likewise for [::uncompress] into a destination
    of [cap] bytes. *)
Variable modp : Z -> Z -> Z.
Variable numSamples : Z -> Z -> Z -> Z.
Variable zlib_compress : list byte -> option (list byte).
Variable zlib_uncompress : Z -> list byte -> option (list byte).

(** The body of the channel loop of [compress] (lines 278-368), for scan
    line [y]. *)
Definition compress_channel (minX maxX y : Z) (c : Channel)
    (st : list byte * list byte * Z) : res (list byte * list byte * Z) :=
  if negb (modp y (ySampling c) =? 0) then Ret st
  else compress_switch (ctype c) (numSamples (xSampling c) minX maxX) st.

Fixpoint compress_channels (minX maxX y : Z) (cs : list Channel)
    (st : list byte * list byte * Z) : res (list byte * list byte * Z) :=
  match cs with
  | [] => Ret st
  | c :: cs' =>
      st <- compress_channel minX maxX y c st ;;
      compress_channels minX maxX y cs' st
  end.

(** [for (int y = minY; y <= maxY; ++y)], with [rows] lines left. *)
Fixpoint compress_rows (rows : nat) (minX maxX y : Z) (cs : list Channel)
    (st : list byte * list byte * Z) : res (list byte * list byte * Z) :=
  match rows with
  | O => Ret st
  | S rows' =>
      st <- compress_channels minX maxX y cs st ;;
      compress_rows rows' minX maxX (y + 1) cs st
  end.

(** [Pxr24Compressor::compress] (lines 253-386); the result is the content
    of [_outBuffer] up to the returned size. *)
Definition compress (p : Pxr24Compressor) (inPtr : list byte) (inSize : Z)
    (range : Box2i) : res (list byte) :=
  if inSize =? 0 then Ret []
  else
    let minX := min_x range in
    let maxX := Z.min (max_x range) (maxX p) in
    let minY := min_y range in
    let maxY := Z.min (max_y range) (maxY p) in
    '(_, tmp, tmpBufferEnd) <-
      compress_rows (Z.to_nat (maxY - minY + 1)) minX maxX minY (channels p)
        (inPtr, tmpBuffer p, 0) ;;
    if tmpBufferEnd <? 0 then Undef
    else
      match zlib_compress (take (Z.to_nat tmpBufferEnd) tmp) with
      | Some out => Ret out
      | None => Throw CompressionFailure
      end.

(** The body of the channel loop of [uncompress] (lines 427-518). *)
Definition uncompress_channel (tmp : list byte) (tmpSize : Z) (minX maxX y : Z)
    (c : Channel) (st : Z * list byte) : res (Z * list byte) :=
  if negb (modp y (ySampling c) =? 0) then Ret st
  else
    uncompress_switch tmp tmpSize (ctype c)
      (numSamples (xSampling c) minX maxX) st.

Fixpoint uncompress_channels (tmp : list byte) (tmpSize : Z) (minX maxX y : Z)
    (cs : list Channel) (st : Z * list byte) : res (Z * list byte) :=
  match cs with
  | [] => Ret st
  | c :: cs' =>
      st <- uncompress_channel tmp tmpSize minX maxX y c st ;;
      uncompress_channels tmp tmpSize minX maxX y cs' st
  end.

Fixpoint uncompress_rows (rows : nat) (tmp : list byte) (tmpSize : Z)
    (minX maxX y : Z) (cs : list Channel) (st : Z * list byte)
    : res (Z * list byte) :=
  match rows with
  | O => Ret st
  | S rows' =>
      st <- uncompress_channels tmp tmpSize minX maxX y cs st ;;
      uncompress_rows rows' tmp tmpSize minX maxX (y + 1) cs st
  end.

(** [Pxr24Compressor::uncompress] (lines 389-526).  zlib leaves the inflated
    bytes at the start of [_tmpBuffer] and their number in [tmpSize]. *)
Definition uncompress (p : Pxr24Compressor) (inPtr : list byte) (inSize : Z)
    (range : Box2i) : res (list byte) :=
  if inSize =? 0 then Ret []
  else
    match zlib_uncompress (maxScanLineSize p * numScanLines p)
            (take (Z.to_nat inSize) inPtr) with
    | None => Throw DecompressionFailure
    | Some d =>
        let tmpSize := Z.of_nat (length d) in
        let tmp := d ++ drop (length d) (tmpBuffer p) in
        let minX := min_x range in
        let maxX := Z.min (max_x range) (maxX p) in
        let minY := min_y range in
        let maxY := Z.min (max_y range) (maxY p) in
        '(tmpBufferEnd, out) <-
          uncompress_rows (Z.to_nat (maxY - minY + 1)) tmp tmpSize minX maxX
            minY (channels p) (0, []) ;;
        if wrap64 tmpBufferEnd <? tmpSize then Throw TooMuchData
        else Ret out
    end.

(** The entry points for a block of scan lines (lines 205-216 and 229-240)
    and for a tile (lines 219-226 and 243-250). *)
Definition lines_range (p : Pxr24Compressor) (minY : Z) : Box2i :=
  {| min_x := minX p; min_y := minY;
     max_x := maxX p; max_y := minY + numScanLines p - 1 |}.

Definition compress_lines (p : Pxr24Compressor) (inPtr : list byte) (inSize minY : Z)
    : res (list byte) :=
  compress p inPtr inSize (lines_range p minY).

Definition compressTile (p : Pxr24Compressor) (inPtr : list byte) (inSize : Z)
    (range : Box2i) : res (list byte) :=
  compress p inPtr inSize range.

Definition uncompress_lines (p : Pxr24Compressor) (inPtr : list byte)
    (inSize minY : Z) : res (list byte) :=
  uncompress p inPtr inSize (lines_range p minY).

Definition uncompressTile (p : Pxr24Compressor) (inPtr : list byte) (inSize : Z)
    (range : Box2i) : res (list byte) :=
  uncompress p inPtr inSize range.

(** *** Pixel blocks

    The block handed to [compress] holds, for each scan line of the range and
    each channel that is sampled on it, the samples of that channel
    side by side: four bytes for a UINT or FLOAT sample, two for a HALF.  A
    [row] is the pixel type of such a run with its samples, UINT and HALF
    samples as integers and FLOAT samples as bit patterns. *)

Definition row : Type := PixelType * list Z.

Definition sample_ok (t : PixelType) (x : Z) : Prop :=
  match t with
  | HALF => 0 <= x < 2 ^ 16
  | UINT | FLOAT => 0 <= x < 2 ^ 32
  end.

Definition sample_bytes (t : PixelType) (x : Z) : list byte :=
  match t with
  | HALF => bytes_of_u16 x
  | UINT | FLOAT => bytes_of_u32 x
  end.

Definition row_bytes (r : row) : list byte :=
  flat_map (sample_bytes (fst r)) (snd r).

Definition block_bytes (blk : list row) : list byte := flat_map row_bytes blk.

Definition row_ok (r : row) : Prop := Forall (sample_ok (fst r)) (snd r).

(** The runs [compress] and [uncompress] traverse: pixel type and number of
    samples of every channel that is not skipped, scan line by scan line. *)
Definition visit_channel (minX maxX y : Z) (c : Channel) : list (PixelType * Z) :=
  if negb (modp y (ySampling c) =? 0) then []
  else [(ctype c, numSamples (xSampling c) minX maxX)].

Fixpoint visit_rows (rows : nat) (minX maxX y : Z) (cs : list Channel)
    : list (PixelType * Z) :=
  match rows with
  | O => []
  | S rows' =>
      flat_map (visit_channel minX maxX y) cs
      ++ visit_rows rows' minX maxX (y + 1) cs
  end.

Definition visits (p : Pxr24Compressor) (range : Box2i) : list (PixelType * Z) :=
  let minX := min_x range in
  let maxX := Z.min (max_x range) (maxX p) in
  let minY := min_y range in
  let maxY := Z.min (max_y range) (maxY p) in
  visit_rows (Z.to_nat (maxY - minY + 1)) minX maxX minY (channels p).

Definition block_shape (blk : list row) : list (PixelType * Z) :=
  map (fun r : row => (fst r, Z.of_nat (length (snd r)))) blk.

(** [blk] is a pixel block of the range for this compressor: it has the
    runs of the traversal, its samples fit their types, and its bytes fit
    the scratch buffer the compressor was constructed with, whose size is a
    [size_t]. *)
Definition is_block (p : Pxr24Compressor) (range : Box2i) (blk : list row) : Prop :=
  block_shape blk = visits p range /\
  Forall row_ok blk /\
  Z.of_nat (length (block_bytes blk)) <= maxScanLineSize p * numScanLines p /\
  Z.of_nat (length (tmpBuffer p)) = maxScanLineSize p * numScanLines p /\
  maxScanLineSize p * numScanLines p < 2 ^ 64.

(** What a FLOAT sample becomes: quantised to 24 bits and shifted back. *)
Definition requantize_row (r : row) : row :=
  match fst r with
  | FLOAT => (FLOAT, map (fun f => Z.shiftl (floatToFloat24 f) 8) (snd r))
  | UINT | HALF => r
  end.

End Codec.

(** The same block as plain bytes: [inPtr] holds as many bytes as the
    traversal reads. *)
Definition bytes_per_sample (t : PixelType) : Z :=
  match t with
  | HALF => 2
  | UINT | FLOAT => 4
  end.

Definition raw_size (shape : list (PixelType * Z)) : Z :=
  fold_right (fun v acc => bytes_per_sample (fst v) * snd v + acc) 0 shape.

Definition is_raw_block (modp : Z -> Z -> Z) (numSamples : Z -> Z -> Z -> Z)
    (p : Pxr24Compressor) (range : Box2i) (inp : list byte) : Prop :=
  Forall (fun v => 0 <= snd v) (visits modp numSamples p range) /\
  Z.of_nat (length inp) = raw_size (visits modp numSamples p range) /\
  Z.of_nat (length inp) <= maxScanLineSize p * numScanLines p /\
  Z.of_nat (length (tmpBuffer p)) = maxScanLineSize p * numScanLines p /\
  maxScanLineSize p * numScanLines p < 2 ^ 64.

(** Bytes a run takes in [_tmpBuffer]: one plane per stored byte. *)
Definition planes (t : PixelType) : Z :=
  match t with UINT => 4 | HALF => 2 | FLOAT => 3 end.

Definition planes_size (blk : list row) : Z :=
  fold_right (fun r acc => planes (fst r) * Z.of_nat (length (snd r)) + acc) 0 blk.

(** Bytes the runs of a traversal take in [_tmpBuffer]. *)
Definition planes_total (shape : list (PixelType * Z)) : Z :=
  fold_right (fun v acc => planes (fst v) * snd v + acc) 0 shape.

(** The differences [compress] stores for the samples [xs]. *)
Fixpoint deltas (previousPixel : Z) (xs : list Z) : list Z :=
  match xs with
  | [] => []
  | x :: xs' => wrap32 (x - previousPixel) :: deltas x xs'
  end.

(** The planes that [compress] lays out in [_tmpBuffer] for a run of
    samples (lines 285-368): the differences of consecutive samples, the
    first one against zero, one plane for each of their bytes, the most
    significant byte first; a FLOAT sample is quantised before. *)
Definition plane (k : Z) (ds : list Z) : list byte :=
  map (fun d => Z_to_byte (Z.shiftr d k)) ds.

Definition row_planes (r : row) : list byte :=
  match fst r with
  | UINT =>
      let ds := deltas 0 (snd r) in
      plane 24 ds ++ plane 16 ds ++ plane 8 ds ++ plane 0 ds
  | HALF =>
      let ds := deltas 0 (snd r) in
      plane 8 ds ++ plane 0 ds
  | FLOAT =>
      let ds := deltas 0 (map floatToFloat24 (snd r)) in
      plane 16 ds ++ plane 8 ds ++ plane 0 ds
  end.

Definition block_planes (blk : list row) : list byte := flat_map row_planes blk.

(** *** An instance to run the codec on

    [divp]-based sample counting as in OpenEXR for positive sampling rates,
    and a backend that stores its input behind one header byte. *)
Definition example_modp (x y : Z) : Z := x mod y.

Definition example_numSamples (s a b : Z) : Z :=
  b / s - a / s + (if (a / s) * s <? a then 0 else 1).

Definition stored_compress (d : list byte) : option (list byte) := Some (x78 :: d).

Definition stored_uncompress (cap : Z) (c : list byte) : option (list byte) :=
  match c with
  | [] => None
  | _ :: d => if Z.of_nat (length d) <=? cap then Some d else None
  end.

Definition example_codec (cs : list Channel) (size : Z) : Pxr24Compressor :=
  {| maxScanLineSize := size; numScanLines := 1;
     tmpBuffer := repeat x00 (Z.to_nat size);
     channels := cs; minX := 0; maxX := 1; maxY := 0 |}.

Definition example_range : Box2i :=
  {| min_x := 0; min_y := 0; max_x := 1; max_y := 0 |}.

End Pxr24.

(** ** FastHuf: the canonical Huffman decoder *)

Module FastHuf.

(** [ImfFastHuf.h] is not among the sources; the two constants are the ones
    the specification gives, and the members of the class have the types
    the code uses them at. *)
Definition MAX_CODE_LEN : Z := 58.
Definition TABLE_LOOKUP_BITS : Z := 12.

(** [0xffffffffffffffffULL], the dummy value of an unused code length. *)
Definition ALL_ONES : Z := 0xffffffffffffffff.

Inductive error :=
| TableTruncated     (* "Error decoding Huffman table (Truncated table data)." *)
| TableOverrun       (* "Error decoding Huffman table (Run beyond end of table)." *)
| InvalidTable       (* "Huffman decode error (Invalid symbol in header)." and
                        "Huffman decode error (Overrun)." *)
| InsufficientBits   (* "... (insufficient number of bits)." *)
| InvalidSymbol      (* "Huffman decode error (Decoded an invalid symbol)." *)
| RleBeforeFirst     (* "Huffman decode error (RLE code with no previous symbol)." *)
| RleOverrun         (* "... (Symbol run beyond expected output buffer length)." *)
| RleInvalid         (* "Huffman decode error (Invalid RLE length)" *)
| TrailingData.      (* "... (Compressed data remains after filling expected
                        output buffer)." *)

Definition res := result error.

Record FastHufDecoder := {
  rleSymbol : Z;            (* int *)
  numSymbols : Z;           (* int *)
  minCodeLength : Z;        (* unsigned char *)
  maxCodeLength : Z;        (* unsigned char *)
  idToSymbol : list Z;      (* int [numSymbols] *)
  ljBase : list Z;          (* uint64_t [MAX_CODE_LEN + 1] *)
  ljOffset : list Z;        (* uint64_t [MAX_CODE_LEN + 1] *)
  tableSymbol : list Z;     (* int [1 << TABLE_LOOKUP_BITS] *)
  tableCodeLen : list Z;    (* unsigned char [1 << TABLE_LOOKUP_BITS] *)
  tableMin : Z              (* uint64_t *)
}.

(** Conversion of a [uint64_t] to [int]. *)
Definition to_int (z : Z) : Z :=
  let w := z mod 2 ^ 32 in if w <? 2 ^ 31 then w else w - 2 ^ 32.

(** *** [readBits] (lines 551-566)

    The [while] loop adds eight bits per turn, so [numBits] turns are
    enough.  The result is the value read with the updated [buffer],
    [bufferNumBits] and [currByte]. *)
Fixpoint readBits_fill (fuel : nat) (numBits : Z) (table : list byte)
    (buffer bufferNumBits currByte : Z) : res (Z * Z * Z) :=
  if bufferNumBits <? numBits then
    match fuel with
    | O => Undef
    | S fuel' =>
        b <- load table currByte ;;
        readBits_fill fuel' numBits table
          (Z.lor (wrap64 (Z.shiftl buffer 8)) (byte_to_Z b))
          (bufferNumBits + 8) (currByte + 1)
    end
  else Ret (buffer, bufferNumBits, currByte).

(** [(1 << numBits) - 1] (line 565) is formed in [int]: the shift and the
    subtraction are defined for [0 <= numBits <= 30] only. *)
Definition int_mask (numBits : Z) : res Z :=
  if (0 <=? numBits) && (numBits <=? 30) then Ret (Z.shiftl 1 numBits - 1)
  else Undef.

Definition readBits (numBits : Z) (table : list byte)
    (buffer bufferNumBits currByte : Z) : res (Z * Z * Z * Z) :=
  '(buffer, bufferNumBits, currByte) <-
    readBits_fill (Z.to_nat numBits) numBits table buffer bufferNumBits currByte ;;
  let bufferNumBits := bufferNumBits - numBits in
  mask <- int_mask numBits ;;
  Ret (Z.land (Z.shiftr buffer bufferNumBits) mask,
       buffer, bufferNumBits, currByte).

(** *** The constructor (lines 66-285) *)

Definition SHORT_ZEROCODE_RUN : Z := 59.
Definition LONG_ZEROCODE_RUN : Z := 63.
Definition SHORTEST_LONG_RUN : Z := 2 + LONG_ZEROCODE_RUN - SHORT_ZEROCODE_RUN.

(** What the scan of the code lengths updates: the vector [symbols], the two
    extreme code lengths, [codeCount], and the bit reader ([currByte] as an
    offset from [table]). *)
Record scan_state := {
  symbols : list Z;
  scanMinCodeLength : Z;
  scanMaxCodeLength : Z;
  codeCount : list Z;
  currByte : Z;
  currBits : Z;
  currBitCount : Z
}.

Definition set_reader (st : scan_state) (bits bitCount byte : Z) : scan_state :=
  {| symbols := symbols st;
     scanMinCodeLength := scanMinCodeLength st;
     scanMaxCodeLength := scanMaxCodeLength st;
     codeCount := codeCount st;
     currByte := byte; currBits := bits; currBitCount := bitCount |}.

(** The body of the loop over the symbols (lines 133-192); the result
    carries [symbol] as the body leaves it. *)
Definition scan_symbol (table : list byte) (numBytes maxSymbol symbol : Z)
    (st : scan_state) : res (Z * scan_state) :=
  if numBytes <=? currByte st then Throw TableTruncated
  else
    '(codeLen, bits, bitCount, byte) <-
      readBits 6 table (currBits st) (currBitCount st) (currByte st) ;;
    if codeLen =? LONG_ZEROCODE_RUN then
      if numBytes <=? byte then Throw TableTruncated
      else
        '(r, bits, bitCount, byte) <- readBits 8 table bits bitCount byte ;;
        let runLen := r + SHORTEST_LONG_RUN in
        if wrap64 (maxSymbol + 1) <? wrap64 (symbol + runLen)
        then Throw TableOverrun
        else Ret (wrap64 (symbol + (runLen - 1)), set_reader st bits bitCount byte)
    else if SHORT_ZEROCODE_RUN <=? codeLen then
      let runLen := codeLen - SHORT_ZEROCODE_RUN + 2 in
      if wrap64 (maxSymbol + 1) <? wrap64 (symbol + runLen)
      then Throw TableOverrun
      else Ret (wrap64 (symbol + (runLen - 1)), set_reader st bits bitCount byte)
    else if negb (codeLen =? 0) then
      Ret (symbol,
           {| symbols :=
                symbols st ++ [Z.lor (wrap64 (Z.shiftl symbol 6)) (Z.land codeLen 63)];
              scanMinCodeLength :=
                if codeLen <? scanMinCodeLength st then codeLen
                else scanMinCodeLength st;
              scanMaxCodeLength :=
                if scanMaxCodeLength st <? codeLen then codeLen
                else scanMaxCodeLength st;
              codeCount :=
                arr_set (codeCount st) codeLen (arr_get (codeCount st) codeLen + 1);
              currByte := byte; currBits := bits; currBitCount := bitCount |})
    else Ret (symbol, set_reader st bits bitCount byte).

(** [for (symbol = minSymbol; symbol <= maxSymbol; symbol++)] over
    [uint64_t].  Every turn reads six bits of the [numBytes] bytes or
    throws, so the loop takes at most [max 0 (8 * numBytes) + 1] turns,
    which is the fuel the constructor gives. *)
Fixpoint scan (fuel : nat) (table : list byte) (numBytes maxSymbol symbol : Z)
    (st : scan_state) : res scan_state :=
  if symbol <=? wrap64 maxSymbol then
    match fuel with
    | O => Undef
    | S fuel' =>
        '(symbol, st) <- scan_symbol table numBytes maxSymbol symbol st ;;
        scan fuel' table numBytes maxSymbol (wrap64 (symbol + 1)) st
    end
  else Ret st.

(** "Compute base" (lines 205-227). *)
Definition compute_countTmp (minCL maxCL : Z) (codeCount : list Z) : list double :=
  for_up (count minCL maxCL) minCL
    (fun l countTmp =>
       <[Z.to_nat l :=
           double_mul (double_of_Z (arr_get codeCount l))
                      (double_of_Z (Z.shiftl 2 (maxCL - l)))]> countTmp)
    (repeat double_zero (Z.to_nat (maxCL + 1))).

Definition base_of (maxCL : Z) (countTmp : list double) (l : Z) : res Z :=
  let tmp :=
    for_up (count (l + 1) maxCL) (l + 1)
      (fun k tmp => double_add tmp (nth (Z.to_nat k) countTmp double_zero))
      double_zero in
  let tmp := double_div tmp (double_of_Z (Z.shiftl 2 (maxCL - l))) in
  ceil_to_uint64 tmp.

Definition compute_base (minCL maxCL : Z) (codeCount base : list Z) : res (list Z) :=
  let countTmp := compute_countTmp minCL maxCL codeCount in
  for_upM (count minCL maxCL) minCL
    (fun l base => b <- base_of maxCL countTmp l ;; Ret (arr_set base l b))
    base.

(** "Compute offset" (lines 234-237). *)
Definition compute_offset (minCL maxCL : Z) (codeCount offset : list Z) : list Z :=
  let offset := arr_set offset maxCL 0 in
  for_down (count minCL (maxCL - 1)) (maxCL - 1)
    (fun i offset =>
       arr_set offset i (wrap64 (arr_get offset (i + 1) + arr_get codeCount (i + 1))))
    offset.

(** The symbol-to-id mapping (lines 246-270); the state is [_idToSymbol]
    and [mapping]. *)
Definition assign_id (numSymbols : Z) (x : Z) (st : list Z * list Z)
    : res (list Z * list Z) :=
  let '(idToSymbol, mapping) := st in
  let codeLen := Z.land x 63 in
  let symbol := to_int (Z.shiftr x 6) in
  if wrap64 numSymbols <=? arr_get mapping codeLen then Throw InvalidTable
  else
    idToSymbol <- store idToSymbol (arr_get mapping codeLen) symbol ;;
    Ret (idToSymbol,
         arr_set mapping codeLen (wrap64 (arr_get mapping codeLen + 1))).

Definition fill_idToSymbol (numSymbols minCL maxCL : Z) (offset symbols : list Z)
    : res (list Z) :=
  let idToSymbol := repeat 0 (Z.to_nat numSymbols) in
  let mapping := repeat ALL_ONES (Z.to_nat (MAX_CODE_LEN + 1)) in
  let mapping :=
    for_up (count minCL maxCL) minCL
      (fun i mapping => arr_set mapping i (arr_get offset i)) mapping in
  '(idToSymbol, _) <- foldM (assign_id numSymbols) symbols (idToSymbol, mapping) ;;
  Ret idToSymbol.

(** *** [buildTables] (lines 345-436) *)

Definition build_ljBase (base : list Z) : list Z :=
  for_up (count 0 MAX_CODE_LEN) 0
    (fun i ljBase =>
       arr_set ljBase i
         (if negb (arr_get base i =? ALL_ONES)
          then wrap64 (Z.shiftl (arr_get base i) (64 - i))
          else ALL_ONES))
    (repeat 0 (Z.to_nat (MAX_CODE_LEN + 1))).

Definition build_ljOffset (offset ljBase : list Z) : list Z :=
  let ljOffset :=
    arr_set (repeat 0 (Z.to_nat (MAX_CODE_LEN + 1))) 0
      (wrap64 (arr_get offset 0 - arr_get ljBase 0)) in
  for_up (count 1 MAX_CODE_LEN) 1
    (fun i ljOffset =>
       arr_set ljOffset i
         (wrap64 (arr_get offset i - Z.shiftr (arr_get ljBase i) (64 - i))))
    ljOffset.

(** The loop over [codeLen] that fills entry [i] of the acceleration
    tables (lines 391-409), leaving at the first length that matches. *)
Fixpoint accel_search (n : nat) (codeLen : Z) (numSymbols : Z)
    (idToSymbol ljBase ljOffset : list Z) (i value : Z)
    (tabs : list Z * list Z) : res (list Z * list Z) :=
  match n with
  | O => Ret tabs
  | S n' =>
      if arr_get ljBase codeLen <=? value then
        let '(tableSymbol, tableCodeLen) := tabs in
        let tableCodeLen := arr_set tableCodeLen i codeLen in
        let id := wrap64 (arr_get ljOffset codeLen + Z.shiftr value (64 - codeLen)) in
        if id <? wrap64 numSymbols
        then Ret (arr_set tableSymbol i (arr_get idToSymbol id), tableCodeLen)
        else Throw InvalidTable
      else
        accel_search n' (codeLen + 1) numSymbols idToSymbol ljBase ljOffset i value tabs
  end.

Definition accel_entry (numSymbols minCL maxCL : Z)
    (idToSymbol ljBase ljOffset : list Z) (i : Z) (tabs : list Z * list Z)
    : res (list Z * list Z) :=
  let value := wrap64 (Z.shiftl i (64 - TABLE_LOOKUP_BITS)) in
  let '(tableSymbol, tableCodeLen) := tabs in
  let tableSymbol := arr_set tableSymbol i 0xffff in
  let tableCodeLen := arr_set tableCodeLen i 0 in
  accel_search (count minCL maxCL) minCL numSymbols idToSymbol ljBase ljOffset
    i value (tableSymbol, tableCodeLen).

(** [while (minIdx > 0 && _ljBase[minIdx] == ALL_ONES) minIdx--], which
    takes at most [TABLE_LOOKUP_BITS] turns. *)
Fixpoint find_minIdx (fuel : nat) (ljBase : list Z) (minIdx : Z) : Z :=
  match fuel with
  | O => minIdx
  | S fuel' =>
      if (0 <? minIdx) && (arr_get ljBase minIdx =? ALL_ONES)
      then find_minIdx fuel' ljBase (minIdx - 1)
      else minIdx
  end.

Definition buildTables (rleSymbol numSymbols minCL maxCL : Z)
    (idToSymbol base offset : list Z) : res FastHufDecoder :=
  let ljBase := build_ljBase base in
  let ljOffset := build_ljOffset offset ljBase in
  '(tableSymbol, tableCodeLen) <-
    for_upM (Z.to_nat (Z.shiftl 1 TABLE_LOOKUP_BITS)) 0
      (accel_entry numSymbols minCL maxCL idToSymbol ljBase ljOffset)
      (repeat 0 (Z.to_nat (Z.shiftl 1 TABLE_LOOKUP_BITS)),
       repeat 0 (Z.to_nat (Z.shiftl 1 TABLE_LOOKUP_BITS))) ;;
  let minIdx := find_minIdx (Z.to_nat TABLE_LOOKUP_BITS) ljBase TABLE_LOOKUP_BITS in
  let tableMin := if minIdx <? 0 then ALL_ONES else arr_get ljBase minIdx in
  Ret {| rleSymbol := rleSymbol; numSymbols := numSymbols;
         minCodeLength := minCL; maxCodeLength := maxCL;
         idToSymbol := idToSymbol; ljBase := ljBase; ljOffset := ljOffset;
         tableSymbol := tableSymbol; tableCodeLen := tableCodeLen;
         tableMin := tableMin |}.

(** What the constructor computes before it builds the tables: the scan
    (lines 110-198), [_numSymbols], [base] and [offset]. *)
Definition scan_table (table : list byte) (numBytes minSymbol maxSymbol : Z)
    : res scan_state :=
  scan (Z.to_nat (Z.max 0 (8 * numBytes) + 1)) table numBytes maxSymbol
    (wrap64 minSymbol)
    {| symbols := [];
       scanMinCodeLength := 255; scanMaxCodeLength := 0;
       codeCount := repeat 0 (Z.to_nat (MAX_CODE_LEN + 1));
       currByte := 0; currBits := 0; currBitCount := 0 |}.

(** [for (int i = 0; i < MAX_CODE_LEN; ++i) _numSymbols += codeCount[i];]
    (lines 195-196): the sum is formed in [size_t] and stored in an [int]. *)
Definition count_symbols (codeCount : list Z) : Z :=
  for_up (Z.to_nat MAX_CODE_LEN) 0
    (fun i numSymbols => to_int (numSymbols + arr_get codeCount i)) 0.

(** [FastHufDecoder::FastHufDecoder]; the result is the decoder and the
    position [table] is left at. *)
Definition new (table : list byte) (numBytes minSymbol maxSymbol rleSymbol : Z)
    : res (FastHufDecoder * Z) :=
  st <- scan_table table numBytes minSymbol maxSymbol ;;
  let minCL := scanMinCodeLength st in
  let maxCL := scanMaxCodeLength st in
  let numSymbols := count_symbols (codeCount st) in
  base <- compute_base minCL maxCL (codeCount st)
            (repeat ALL_ONES (Z.to_nat (MAX_CODE_LEN + 1))) ;;
  let offset :=
    compute_offset minCL maxCL (codeCount st)
      (repeat 0 (Z.to_nat (MAX_CODE_LEN + 1))) in
  idToSymbol <- fill_idToSymbol numSymbols minCL maxCL offset (symbols st) ;;
  d <- buildTables rleSymbol numSymbols minCL maxCL idToSymbol base offset ;;
  Ret (d, currByte st).

(** *** The bit stream of [decode] *)

(** [READ64 (c)] at offset [p]: eight bytes, most significant first. *)
Definition READ64 (c : list byte) (p : Z) : res Z :=
  b0 <- load c p ;;
  b1 <- load c (p + 1) ;;
  b2 <- load c (p + 2) ;;
  b3 <- load c (p + 3) ;;
  b4 <- load c (p + 4) ;;
  b5 <- load c (p + 5) ;;
  b6 <- load c (p + 6) ;;
  b7 <- load c (p + 7) ;;
  Ret (Z.lor (Z.shiftl (byte_to_Z b0) 56)
      (Z.lor (Z.shiftl (byte_to_Z b1) 48)
      (Z.lor (Z.shiftl (byte_to_Z b2) 40)
      (Z.lor (Z.shiftl (byte_to_Z b3) 32)
      (Z.lor (Z.shiftl (byte_to_Z b4) 24)
      (Z.lor (Z.shiftl (byte_to_Z b5) 16)
      (Z.lor (Z.shiftl (byte_to_Z b6) 8) (byte_to_Z b7)))))))).

(** The registers of [decode] and its output. *)
Record dstate := {
  buffer : Z;
  bufferNumBits : Z;
  bufferBack : Z;
  bufferBackNumBits : Z;
  srcByte : Z;          (* [currByte], as an offset from [src] *)
  numSrcBits : Z;
  dst : list Z;
  dstIdx : Z
}.

(** The last bytes of the stream (lines 502-520): fewer than 64 bits are
    left, so the loop takes at most eight turns. *)
Fixpoint refill_tail (fuel : nat) (src : list byte)
    (bufferBack shift currByte currBitsLeft : Z) : res (Z * Z * Z) :=
  if 0 <? currBitsLeft then
    match fuel with
    | O => Undef
    | S fuel' =>
        b <- load src currByte ;;
        refill_tail fuel' src
          (Z.lor bufferBack (wrap64 (Z.shiftl (byte_to_Z b) shift)))
          (shift - 8) (currByte + 1) (currBitsLeft - 8)
    end
  else Ret (bufferBack, currByte, currBitsLeft).

(** [refill] (lines 463-543) on the registers of [st].  [decode] calls it
    when [buffer] lacks bits, for [64 - bufferNumBits] of them; for no bit
    at all the shift of line 477 would be one by 64, a call that the
    statements about [refill] leave out. *)
Definition refill (src : list byte) (numBits : Z) (st : dstate) : res dstate :=
  let buffer := Z.lor (buffer st) (Z.shiftr (bufferBack st) (64 - numBits)) in
  '(buffer, numBits, bufferBack, bufferBackNumBits, currByte, currBitsLeft) <-
    (if bufferBackNumBits st <? numBits then
       let numBits := numBits - bufferBackNumBits st in
       '(bufferBack, currByte, currBitsLeft) <-
         (if 64 <=? numSrcBits st then
            w <- READ64 src (srcByte st) ;;
            Ret (w, srcByte st + 8, numSrcBits st - 64)
          else
            '(bufferBack, currByte, currBitsLeft) <-
              refill_tail 8 src 0 56 (srcByte st) (numSrcBits st) ;;
            Ret (bufferBack, currByte,
                 if currBitsLeft <? 0 then 0 else currBitsLeft)) ;;
       Ret (Z.lor buffer (Z.shiftr bufferBack (64 - numBits)), numBits,
            bufferBack, 64, currByte, currBitsLeft)
     else
       Ret (buffer, numBits, bufferBack st, bufferBackNumBits st, srcByte st,
            numSrcBits st)) ;;
  let bufferBack :=
    if bufferBackNumBits <=? numBits then 0
    else wrap64 (Z.shiftl bufferBack numBits) in
  Ret {| buffer := buffer; bufferNumBits := bufferNumBits st;
         bufferBack := bufferBack;
         bufferBackNumBits := bufferBackNumBits - numBits;
         srcByte := currByte; numSrcBits := currBitsLeft;
         dst := dst st; dstIdx := dstIdx st |}.

(** [refill (buffer, 64 - bufferNumBits, ...); bufferNumBits = 64;] *)
Definition refill_full (src : list byte) (st : dstate) : res dstate :=
  st' <- refill src (64 - bufferNumBits st) st ;;
  Ret {| buffer := buffer st'; bufferNumBits := 64;
         bufferBack := bufferBack st';
         bufferBackNumBits := bufferBackNumBits st';
         srcByte := srcByte st'; numSrcBits := numSrcBits st';
         dst := dst st'; dstIdx := dstIdx st' |}.

(** [if (bufferNumBits < n) { refill (...); bufferNumBits = 64; }], as
    lines 647-657, 703-713 and 754-764 have it. *)
Definition ensure_bits (src : list byte) (n : Z) (st : dstate) : res dstate :=
  if bufferNumBits st <? n then refill_full src st else Ret st.

Definition set_buffer (st : dstate) (b n : Z) : dstate :=
  {| buffer := b; bufferNumBits := n;
     bufferBack := bufferBack st; bufferBackNumBits := bufferBackNumBits st;
     srcByte := srcByte st; numSrcBits := numSrcBits st;
     dst := dst st; dstIdx := dstIdx st |}.

Definition set_dst (st : dstate) (d : list Z) (i : Z) : dstate :=
  {| buffer := buffer st; bufferNumBits := bufferNumBits st;
     bufferBack := bufferBack st; bufferBackNumBits := bufferBackNumBits st;
     srcByte := srcByte st; numSrcBits := numSrcBits st;
     dst := d; dstIdx := i |}.

(** *** [decode] (lines 579-772) *)

(** The accelerated path (lines 630-644). *)
Definition table_lookup (d : FastHufDecoder) (buffer : Z) : Z * Z :=
  let tableIdx := Z.shiftr buffer (64 - TABLE_LOOKUP_BITS) in
  (arr_get (tableCodeLen d) tableIdx, arr_get (tableSymbol d) tableIdx).

(** [while (_ljBase[codeLen] > buffer && codeLen <= _maxCodeLength)
    codeLen++], from [codeLen] on; the loop stops at [_maxCodeLength + 1]
    at the latest. *)
Fixpoint search_codeLen (fuel : nat) (d : FastHufDecoder) (buffer codeLen : Z) : Z :=
  match fuel with
  | O => codeLen
  | S fuel' =>
      if (buffer <? arr_get (ljBase d) codeLen) && (codeLen <=? maxCodeLength d)
      then search_codeLen fuel' d buffer (codeLen + 1)
      else codeLen
  end.

(** The search path (lines 659-684), from the first length the table does
    not cover. *)
Definition search_lookup (d : FastHufDecoder) (buffer : Z) : res (Z * Z) :=
  let codeLen :=
    search_codeLen (Z.to_nat (maxCodeLength d - TABLE_LOOKUP_BITS)) d buffer
      (TABLE_LOOKUP_BITS + 1) in
  if maxCodeLength d <? codeLen then Throw InvalidSymbol
  else
    let id := wrap64 (arr_get (ljOffset d) codeLen + Z.shiftr buffer (64 - codeLen)) in
    if id <? wrap64 (numSymbols d) then Ret (codeLen, arr_get (idToSymbol d) id)
    else Throw InvalidSymbol.

(** Lines 630-692: the next code, taken off [buffer]. *)
Definition next_symbol (d : FastHufDecoder) (src : list byte) (st : dstate)
    : res (Z * dstate) :=
  '(codeLen, symbol, st) <-
    (if tableMin d <=? buffer st then
       let '(codeLen, symbol) := table_lookup d (buffer st) in
       Ret (codeLen, symbol, st)
     else
       st <- ensure_bits src 64 st ;;
       '(codeLen, symbol) <- search_lookup d (buffer st) ;;
       Ret (codeLen, symbol, st)) ;;
  Ret (symbol,
       set_buffer st (wrap64 (Z.shiftl (buffer st) codeLen))
         (bufferNumBits st - codeLen)).

(** [dst[dstIdx + i] = dst[dstIdx - 1]] (line 736). *)
Definition rle_copy (dstIdx i : Z) (out : list Z) : res (list Z) :=
  prev <- load out (dstIdx - 1) ;; store out (dstIdx + i) prev.

(** Lines 701-742: a run of the previous symbol. *)
Definition rle_run (src : list byte) (numDstElems : Z) (st : dstate) : res dstate :=
  st <- ensure_bits src 8 st ;;
  let rleCount := Z.shiftr (buffer st) 56 in
  if dstIdx st <? 1 then Throw RleBeforeFirst
  else if numDstElems <? dstIdx st + rleCount then Throw RleOverrun
  else if rleCount <=? 0 then Throw RleInvalid
  else
    out <- for_upM (Z.to_nat rleCount) 0 (rle_copy (dstIdx st)) (dst st) ;;
    Ret (set_dst
           (set_buffer st (wrap64 (Z.shiftl (buffer st) 8)) (bufferNumBits st - 8))
           out (dstIdx st + rleCount)).

(** One turn of [while (dstIdx < numDstElems)] (lines 617-764). *)
Definition decode_step (d : FastHufDecoder) (src : list byte) (numDstElems : Z)
    (st : dstate) : res dstate :=
  '(symbol, st) <- next_symbol d src st ;;
  st <- (if symbol =? rleSymbol d then rle_run src numDstElems st
         else
           out <- store (dst st) (dstIdx st) (symbol mod 2 ^ 16) ;;
           Ret (set_dst st out (dstIdx st + 1))) ;;
  ensure_bits src TABLE_LOOKUP_BITS st.

(** The loop: every turn that does not throw advances [dstIdx], so
    [numDstElems] turns are enough.  A turn throws before it writes, so the
    output of a failed run is the one the last complete turn left. *)
Fixpoint decode_loop (fuel : nat) (d : FastHufDecoder) (src : list byte)
    (numDstElems : Z) (st : dstate) : dstate * res unit :=
  if dstIdx st <? numDstElems then
    match fuel with
    | O => (st, Undef)
    | S fuel' =>
        match decode_step d src numDstElems st with
        | Ret st' => decode_loop fuel' d src numDstElems st'
        | Throw e => (st, Throw e)
        | Undef => (st, Undef)
        end
    end
  else (st, Ret tt).

(** [FastHufDecoder::decode]: the content of [dst] when the call ends,
    with the way it ends. *)
Definition decode (d : FastHufDecoder) (src : list byte) (numSrcBits : Z)
    (dst : list Z) (numDstElems : Z) : list Z * res unit :=
  if numSrcBits <? 128 then (dst, Throw InsufficientBits)
  else
    match READ64 src 0, READ64 src 8 with
    | Ret buffer, Ret bufferBack =>
        let st :=
          {| buffer := buffer; bufferNumBits := 64;
             bufferBack := bufferBack; bufferBackNumBits := 64;
             srcByte := 16; numSrcBits := numSrcBits - 128;
             dst := dst; dstIdx := 0 |} in
        let '(st, r) := decode_loop (Z.to_nat numDstElems) d src numDstElems st in
        match r with
        | Ret _ =>
            if negb (FastHuf.numSrcBits st =? 0) then (FastHuf.dst st, Throw TrailingData)
            else (FastHuf.dst st, Ret tt)
        | _ => (FastHuf.dst st, r)
        end
    | _, _ => (dst, Undef)
    end.

(** *** A small code book

    Symbols 5 and 7 with codes of one bit, symbol 6 without a code: the
    lengths 1, 0, 1 on six bits each.  Code [0] is symbol 5 and code [1] is
    symbol 7, which is the RLE symbol. *)
Definition empty_decoder : FastHufDecoder :=
  {| rleSymbol := 0; numSymbols := 0; minCodeLength := 255; maxCodeLength := 0;
     idToSymbol := []; ljBase := []; ljOffset := [];
     tableSymbol := []; tableCodeLen := []; tableMin := ALL_ONES |}.

Definition rle_table : list byte := [x04; x00; x40].

Definition rle_decoder : FastHufDecoder :=
  Eval vm_compute in
    match new rle_table 3 5 7 7 with
    | Ret (d, _) => d
    | _ => empty_decoder
    end.

(** The bits [0], [1], [00000011] and zeros up to 128 bits: symbol 5, the
    RLE symbol, a count of three. *)
Definition rle_payload : list byte :=
  [x40; xc0; x00; x00; x00; x00; x00; x00; x00; x00; x00; x00; x00; x00; x00; x00].

(** The bits [1], [00001001]: the RLE symbol first, with a count of nine. *)
Definition rle_first_payload : list byte :=
  [x84; x80; x00; x00; x00; x00; x00; x00; x00; x00; x00; x00; x00; x00; x00; x00].

(** The registers of [decode] on [rle_payload] after its first turn, and
    on [rle_first_payload] when it enters the loop. *)
Definition rle_second_state : dstate :=
  {| buffer := 0x8180000000000000; bufferNumBits := 63;
     bufferBack := 0; bufferBackNumBits := 64;
     srcByte := 16; numSrcBits := 0;
     dst := [5; 0; 0; 0]; dstIdx := 1 |}.

Definition rle_first_state : dstate :=
  {| buffer := 0x8480000000000000; bufferNumBits := 64;
     bufferBack := 0; bufferBackNumBits := 64;
     srcByte := 16; numSrcBits := 0;
     dst := [0; 0; 0; 0]; dstIdx := 0 |}.

(** *** What the constructor is checked against *)

(** The number of entries of [symbols] with code length [L]. *)
Fixpoint count_len (L : Z) (l : list Z) : Z :=
  match l with
  | [] => 0
  | x :: l' => (if Z.land x 63 =? L then 1 else 0) + count_len L l'
  end.

(** What the scan keeps true of its state. *)
Definition scan_inv (st : scan_state) : Prop :=
  length (codeCount st) = 59%nat /\
  (forall L, 0 <= L <= 58 -> arr_get (codeCount st) L = count_len L (symbols st)) /\
  Forall (fun x => scanMinCodeLength st <= Z.land x 63 <= scanMaxCodeLength st /\
                   1 <= Z.land x 63 <= 58) (symbols st) /\
  (symbols st = [] /\ scanMinCodeLength st = 255 /\ scanMaxCodeLength st = 0 \/
   1 <= count_len (scanMinCodeLength st) (symbols st) /\
   1 <= count_len (scanMaxCodeLength st) (symbols st)).

(** The linear path in the words of the specification: the smallest [L] of
    [min_code_len .. max_code_len] with [lj_base[L] <= b], and the symbol
    of the id [lj_offset[L] + (b >> (64 - L))]. *)
Fixpoint spec_smallest_len (n : nat) (L : Z) (ljBase : list Z) (b : Z) : option Z :=
  match n with
  | O => None
  | S n' =>
      if arr_get ljBase L <=? b then Some L
      else spec_smallest_len n' (L + 1) ljBase b
  end.

Definition spec_linear_lookup (d : FastHufDecoder) (b : Z) : option (Z * Z) :=
  match spec_smallest_len (count (minCodeLength d) (maxCodeLength d)) (minCodeLength d)
          (ljBase d) b with
  | Some L =>
      Some (L, arr_get (idToSymbol d)
                 (wrap64 (arr_get (ljOffset d) L + Z.shiftr b (64 - L))))
  | None => None
  end.

(** Entry [i] of the acceleration tables as lines 381-409 fill it: the code
    length and the symbol, or nothing when the constructor throws. *)
Definition accel_expected (N minCL maxCL : Z) (ids ljB ljO : list Z) (i : Z)
    : option (Z * Z) :=
  let value := wrap64 (Z.shiftl i (64 - TABLE_LOOKUP_BITS)) in
  match spec_smallest_len (count minCL maxCL) minCL ljB value with
  | Some L =>
      let id := wrap64 (arr_get ljO L + Z.shiftr value (64 - L)) in
      if id <? wrap64 N then Some (L, arr_get ids id) else None
  | None => Some (0, 0xffff)
  end.

(** The closed form of the specification:
    [ceil (sum over k > L of code_count[k] * 2^(max - k) / 2^(max - L))]. *)
Definition base_closed_form (cc : Z -> Z) (maxCL L : Z) : Z :=
  - (- sum_range (fun k => cc k * 2 ^ (maxCL - k)) (L + 1) maxCL / 2 ^ (maxCL - L)).

(** The sum the code forms in [tmp] (lines 219-220). *)
Definition base_sum (cc : Z -> Z) (maxCL L : Z) : Z :=
  sum_range (fun k => 2 ^ (maxCL - k + 1) * cc k) (L + 1) maxCL.

(** *** Code books with a gap, with a long code, and with the longest code

    [gap_table]: symbols 0, 1, 2 with code lengths 1, 3, 3, so that no code
    has length 2.  [slip_table]: lengths 4, 5, 5, 57.  [long_table]:
    lengths 1 and 58. *)
Definition empty_scan : scan_state :=
  {| symbols := []; scanMinCodeLength := 255; scanMaxCodeLength := 0;
     codeCount := repeat 0 (Z.to_nat (MAX_CODE_LEN + 1));
     currByte := 0; currBits := 0; currBitCount := 0 |}.

(** The scan and the base of [rle_table]. *)
Definition rle_scan : scan_state :=
  Eval vm_compute in
    match scan_table rle_table 3 5 7 with
    | Ret st => st
    | _ => empty_scan
    end.

Definition rle_base : list Z :=
  Eval vm_compute in
    match compute_base 1 1 (codeCount rle_scan)
            (repeat ALL_ONES (Z.to_nat (MAX_CODE_LEN + 1))) with
    | Ret base => base
    | _ => []
    end.

Definition gap_table : list byte := [x04; x30; xc0].

Definition gap_scan : scan_state :=
  Eval vm_compute in
    match scan_table gap_table 3 0 2 with
    | Ret st => st
    | _ => empty_scan
    end.

Definition gap_base : list Z :=
  Eval vm_compute in
    match compute_base 1 3 (codeCount gap_scan)
            (repeat ALL_ONES (Z.to_nat (MAX_CODE_LEN + 1))) with
    | Ret base => base
    | _ => []
    end.

Definition slip_table : list byte := [x10; x51; x79; x00].

Definition slip_scan : scan_state :=
  Eval vm_compute in
    match scan_table slip_table 4 0 3 with
    | Ret st => st
    | _ => empty_scan
    end.

Definition slip_base : list Z :=
  Eval vm_compute in
    match compute_base 4 57 (codeCount slip_scan)
            (repeat ALL_ONES (Z.to_nat (MAX_CODE_LEN + 1))) with
    | Ret base => base
    | _ => []
    end.

Definition long_table : list byte := [x07; xa0].

(** *** The bit stream of the constructor

    The number a sequence of bytes spells, most significant byte first. *)
Fixpoint be_value (bs : list byte) : Z :=
  match bs with
  | [] => 0
  | b :: bs' => byte_to_Z b * 2 ^ (8 * Z.of_nat (length bs')) + be_value bs'
  end.

(** The bits of [table] a reader has not handed out: the low
    [bufferNumBits] bits of [buffer], then the bytes from [currByte] on;
    their number and the number they spell. *)
Definition bits_avail (table : list byte) (bufferNumBits currByte : Z) : Z :=
  bufferNumBits + 8 * (Z.of_nat (length table) - currByte).

Definition bits_pending (table : list byte) (buffer bufferNumBits currByte : Z) : Z :=
  (buffer mod 2 ^ bufferNumBits) * 2 ^ (8 * (Z.of_nat (length table) - currByte))
  + be_value (drop (Z.to_nat currByte) table).

(** The reader of the scan: [currByte] lies in the table, and the buffer
    holds [currBitCount] bits. *)
Definition reader_ok (numBytes : Z) (st : scan_state) : Prop :=
  0 <= currByte st <= Z.max 0 numBytes /\ 0 <= currBitCount st.

(** The bits of the table the scan has not consumed. *)
Definition bits_left (numBytes : Z) (st : scan_state) : Z :=
  8 * (numBytes - currByte st) + currBitCount st.

(** *** The registers of [decode] and the buffers

    What is left of the stream lies inside [src]. *)
Definition stream_ok (src : list byte) (st : dstate) : Prop :=
  0 <= srcByte st /\ 0 <= numSrcBits st /\
  8 * srcByte st + numSrcBits st <= 8 * Z.of_nat (length src).

(** The elements below [dstIdx] are values of an [unsigned short]. *)
Definition written (st : dstate) : Prop :=
  forall j : nat, Z.of_nat j < dstIdx st ->
    exists v, dst st !! j = Some v /\ 0 <= v < 2 ^ 16.

(** *** The stream that [decode] reads

    The bits of [src], the most significant bit of a byte first, followed
    by zeros: [stream_window src pos n] is the number that the [n] bits from
    position [pos] on spell. *)
Definition stream_window (src : list byte) (pos n : Z) : Z :=
  (be_value src * 2 ^ (pos + n) / 2 ^ (8 * Z.of_nat (length src))) mod 2 ^ n.

(** The registers of [decode] at position [pos] of the stream: [buffer]
    holds the next [bufferNumBits] bits, left-justified, [bufferBack] the
    [bufferBackNumBits] bits behind them, and [srcByte] is where the bits
    behind these start, as long as bits are left to read; [src] holds the
    bytes of the stream and no more. *)
Definition window_ok (src : list byte) (st : dstate) (pos : Z) : Prop :=
  0 <= pos /\
  0 <= bufferNumBits st <= 64 /\ 0 <= bufferBackNumBits st <= 64 /\
  buffer st = stream_window src pos (bufferNumBits st) * 2 ^ (64 - bufferNumBits st) /\
  bufferBack st =
    stream_window src (pos + bufferNumBits st) (bufferBackNumBits st)
    * 2 ^ (64 - bufferBackNumBits st) /\
  0 <= srcByte st /\ 0 <= numSrcBits st /\
  (0 < numSrcBits st ->
   pos + bufferNumBits st + bufferBackNumBits st = 8 * srcByte st /\
   8 * Z.of_nat (length src) - 8 < 8 * srcByte st + numSrcBits st
     <= 8 * Z.of_nat (length src)) /\
  (numSrcBits st = 0 ->
   8 * Z.of_nat (length src) <= pos + bufferNumBits st + bufferBackNumBits st).

(** *** The code lengths in the words of the specification

    The code book is a stream of lengths, one of six bits for a symbol,
    from [min_symbol] on: a value up to 58 is the length of the code of the
    symbol, 0 for a symbol without a code; a value [v] from 59 to 62 stands
    for [v - 59 + 2] symbols without a code; the value 63 is followed by
    eight more bits [k] and stands for [k + 6] symbols without a code.
    [spec_code_lengths n table pos symbol maxSymbol] lists the symbols from
    [symbol] to [maxSymbol] that the stream of [table] gives a length, with
    this length, reading from bit [pos] on; [n] bounds the number of symbols
    it goes through. *)
Fixpoint spec_code_lengths (n : nat) (table : list byte) (pos symbol maxSymbol : Z)
    : list (Z * Z) :=
  match n with
  | O => []
  | S n' =>
      if maxSymbol <? symbol then []
      else
        let v := stream_window table pos 6 in
        if v =? 63 then
          spec_code_lengths n' table (pos + 14)
            (symbol + (stream_window table (pos + 6) 8 + 6)) maxSymbol
        else if 59 <=? v then
          spec_code_lengths n' table (pos + 6) (symbol + (v - 59 + 2)) maxSymbol
        else (symbol, v) :: spec_code_lengths n' table (pos + 6) (symbol + 1) maxSymbol
  end.

(** The symbols of [minSymbol .. maxSymbol] with a code length that is not
    zero, with their lengths. *)
Definition spec_coded_symbols (table : list byte) (minSymbol maxSymbol : Z)
    : list (Z * Z) :=
  List.filter (fun sl => negb (snd sl =? 0))
    (spec_code_lengths (Z.to_nat (maxSymbol - minSymbol + 1)) table 0 minSymbol
       maxSymbol).

(** The entry of the vector [symbols] for a symbol and its length (line
    183): the length in the low six bits, the symbol above them. *)
Definition symbol_entry (sl : Z * Z) : Z :=
  Z.lor (wrap64 (Z.shiftl (fst sl) 6)) (Z.land (snd sl) 63).

(** The reader of the scan stands at bit [pos] of the table: [bits] holds
    in its low [bitCount] bits the bits from [pos] on, and the bytes from
    [byte] on come behind them. *)
Definition reader_at (table : list byte) (bits bitCount byte pos : Z) : Prop :=
  0 <= bitCount /\ 0 <= pos /\ pos = 8 * byte - bitCount /\
  bits mod 2 ^ bitCount = stream_window table pos bitCount.

(** *** More code books

    [deep_table]: symbols 0 and 1 with code lengths 1 and 13, so that one
    code is longer than [TABLE_LOOKUP_BITS]. *)
Definition deep_table : list byte := [x04; xd0].

Definition deep_scan : scan_state :=
  Eval vm_compute in
    match scan_table deep_table 2 0 1 with
    | Ret st => st
    | _ => empty_scan
    end.

Definition deep_base : list Z :=
  Eval vm_compute in
    match compute_base 1 13 (codeCount deep_scan)
            (repeat ALL_ONES (Z.to_nat (MAX_CODE_LEN + 1))) with
    | Ret base => base
    | _ => []
    end.

Definition deep_decoder : FastHufDecoder :=
  Eval vm_compute in
    match new deep_table 2 0 1 7 with
    | Ret (d, _) => d
    | _ => empty_decoder
    end.

(** The decoder of a code book without codes: the range of symbols from
    1 to 0 is empty. *)
Definition blank_decoder : FastHufDecoder :=
  Eval vm_compute in
    match new [] 0 1 0 7 with
    | Ret (d, _) => d
    | _ => empty_decoder
    end.

(** Sixteen bytes of one-bits. *)
Definition ones_payload : list byte := repeat xff 16.

(** Seventeen bytes, 136 bits: one-bits up to the last byte, which is
    [10000000]. *)
Definition tail_payload : list byte := repeat xff 16 ++ [x80].

(** Registers at position 123 of [tail_payload]: two bits in [buffer],
    three behind them, and the last byte still to read. *)
Definition tail_state : dstate :=
  {| buffer := 0xc000000000000000; bufferNumBits := 2;
     bufferBack := 0xe000000000000000; bufferBackNumBits := 3;
     srcByte := 16; numSrcBits := 8;
     dst := []; dstIdx := 0 |}.

(** The registers of [decode] on [rle_payload] after its second turn. *)
Definition rle_third_state : dstate :=
  Eval vm_compute in
    match decode_step rle_decoder rle_payload 4 rle_second_state with
    | Ret st => st
    | _ => rle_second_state
    end.


End FastHuf.

(** * Properties *)

(** ** Bit-field arithmetic *)

Lemma land_ones_shifted (u k j : Z) :
  0 <= k -> 0 <= j ->
  Z.land u (Z.shiftl (Z.ones k) j) = ((u / 2 ^ j) mod 2 ^ k) * 2 ^ j.
Proof.
  intros Hk Hj.
  rewrite <- Z.shiftr_div_pow2, <- Z.land_ones, <- Z.shiftl_mul_pow2 by lia.
  apply Z.bits_inj'. intros n Hn.
  rewrite Z.land_spec.
  destruct (Z.lt_ge_cases n j) as [Hlt | Hge].
  - rewrite !Z.shiftl_spec_low by lia. now rewrite andb_false_r.
  - rewrite !Z.shiftl_spec by lia.
    rewrite Z.land_spec, Z.shiftr_spec by lia.
    now replace (n - j + j) with n by lia.
Qed.

Lemma lor_high_low (a b k : Z) :
  0 <= k -> 0 <= b < 2 ^ k -> Z.lor (a * 2 ^ k) b = a * 2 ^ k + b.
Proof.
  intros Hk Hb. symmetry. apply Z.add_nocarry_lor.
  apply Z.bits_inj'. intros n Hn.
  rewrite Z.land_spec, Z.bits_0.
  destruct (Z.lt_ge_cases n k) as [Hlt | Hge].
  - rewrite Z.mul_pow2_bits_low by lia. reflexivity.
  - replace b with (b mod 2 ^ k) by (apply Z.mod_small; lia).
    rewrite Z.mod_pow2_bits_high by lia. apply andb_false_r.
Qed.

Lemma sign_bits_eq (u : Z) : Pxr24.sign_bits u = ((u / 2 ^ 31) mod 2 ^ 1) * 2 ^ 31.
Proof. apply (land_ones_shifted u 1 31); lia. Qed.

Lemma exponent_bits_eq (u : Z) :
  Pxr24.exponent_bits u = ((u / 2 ^ 23) mod 2 ^ 8) * 2 ^ 23.
Proof. apply (land_ones_shifted u 8 23); lia. Qed.

Lemma significand_bits_eq (u : Z) : Pxr24.significand_bits u = u mod 2 ^ 23.
Proof. apply (Z.land_ones u 23); lia. Qed.

Lemma bit7_eq (m : Z) : Z.land m 0x80 = ((m / 2 ^ 7) mod 2 ^ 1) * 2 ^ 7.
Proof. apply (land_ones_shifted m 1 7); lia. Qed.

(** ** Pxr24: the 24-bit float *)

Section Float24.
Import Pxr24.

Lemma floatToFloat24_arith (u : Z) :
  let S := (u / 2 ^ 31) mod 2 in
  let E := (u / 2 ^ 23) mod 256 in
  let M := u mod 2 ^ 23 in
  floatToFloat24 u =
    S * 2 ^ 23 +
    (if E =? 255 then
       if M =? 0 then 255 * 2 ^ 15
       else 255 * 2 ^ 15 + (if M / 256 =? 0 then 1 else M / 256)
     else
       let i := (E * 2 ^ 23 + M + ((M / 128) mod 2) * 128) / 256 in
       if 0x7f8000 <=? i then (E * 2 ^ 23 + M) / 256 else i).
Proof.
  intros S E M. unfold floatToFloat24.
  fold (sign_bits u) (exponent_bits u) (significand_bits u).
  rewrite sign_bits_eq, exponent_bits_eq, significand_bits_eq, bit7_eq.
  change (2 ^ 1) with 2. change (2 ^ 8) with 256. change (2^7) with 128.
  fold S E M.
  assert (HS : 0 <= S < 2) by (apply Z.mod_pos_bound; lia).
  assert (HE : 0 <= E < 256) by (apply Z.mod_pos_bound; lia).
  assert (HM : 0 <= M < 2 ^ 23) by (apply Z.mod_pos_bound; lia).
  rewrite !Z.shiftr_div_pow2 by lia.
  replace (S * 2 ^ 31 / 2 ^ 8) with (S * 2 ^ 23)
    by (change (2 ^ 31) with (2 ^ 23 * 2 ^ 8); rewrite Z.mul_assoc, Z.div_mul; lia).
  replace (E * 2 ^ 23 / 2 ^ 8) with (E * 2 ^ 15)
    by (change (2 ^ 23) with (2 ^ 15 * 2 ^ 8); rewrite Z.mul_assoc, Z.div_mul; lia).
  rewrite (lor_high_low E M 23) by lia.
  replace (E * 2 ^ 23 =? 2139095040) with (E =? 255)
    by (destruct (E =? 255) eqn:H1, (E * 2 ^ 23 =? 2139095040) eqn:H2; lia).
  change (2 ^ 8) with 256.
  assert (HM8 : 0 <= M / 256 < 2 ^ 15)
    by (split; [apply Z.div_pos; lia | apply Z.div_lt_upper_bound; lia]).
  assert (Hr : 0 <= (M / 128) mod 2 < 2) by (apply Z.mod_pos_bound; lia).
  unfold wrap32. rewrite (Z.mod_small (E * 2 ^ 23 + M + _)) by lia.
  destruct (E =? 255) eqn:HE255.
  - destruct (M =? 0) eqn:HM0; cbn [negb].
    + apply Z.eqb_eq in HE255. rewrite HE255. apply lor_high_low; lia.
    + rewrite (lor_high_low E (M / 256) 15) by lia.
      apply Z.eqb_eq in HE255. rewrite HE255.
      destruct (M / 256 =? 0) eqn:HM256.
      * apply Z.eqb_eq in HM256. rewrite HM256.
        change (Z.lor (255 * 2 ^ 15 + 0) 1) with (255 * 2 ^ 15 + 1).
        apply lor_high_low; lia.
      * rewrite Z.lor_0_r. apply lor_high_low; lia.
  - cbv zeta. apply Z.eqb_neq in HE255.
    assert (Hi : 0 <= (E * 2 ^ 23 + M + (M / 128) mod 2 * 128) / 256 <= 0x7f8000).
    { split; [apply Z.div_pos; lia|].
      apply Z.lt_succ_r, Z.div_lt_upper_bound; lia. }
    assert (Hj : 0 <= (E * 2 ^ 23 + M) / 256 < 0x7f8000).
    { split; [apply Z.div_pos; lia|]. apply Z.div_lt_upper_bound; lia. }
    destruct (8355840 <=? _) eqn:Hov; apply lor_high_low; lia.
Qed.

Lemma floatToFloat24_range (u : Z) : 0 <= floatToFloat24 u < 2 ^ 24.
Proof.
  rewrite floatToFloat24_arith. cbv zeta.
  set (S := (u / 2 ^ 31) mod 2). set (E := (u / 2 ^ 23) mod 256).
  set (M := u mod 2 ^ 23).
  assert (HS : 0 <= S < 2) by (apply Z.mod_pos_bound; lia).
  assert (HE : 0 <= E < 256) by (apply Z.mod_pos_bound; lia).
  assert (HM : 0 <= M < 2 ^ 23) by (apply Z.mod_pos_bound; lia).
  assert (HM8 : 0 <= M / 256 < 2 ^ 15)
    by (split; [apply Z.div_pos; lia | apply Z.div_lt_upper_bound; lia]).
  destruct (E =? 255) eqn:HE255.
  - destruct (M =? 0); [lia|]. destruct (M / 256 =? 0); lia.
  - apply Z.eqb_neq in HE255.
    assert (Hj : 0 <= (E * 2 ^ 23 + M) / 256 < 0x7f8000).
    { split; [apply Z.div_pos; lia|]. apply Z.div_lt_upper_bound; lia. }
    assert (Hr : 0 <= (M / 128) mod 2 < 2) by (apply Z.mod_pos_bound; lia).
    assert (Hi : 0 <= (E * 2 ^ 23 + M + (M / 128) mod 2 * 128) / 256)
      by (apply Z.div_pos; lia).
    destruct (8355840 <=? _) eqn:Hov; [lia|]. apply Z.leb_gt in Hov. lia.
Qed.

Lemma float24ToFloat_small (x : Z) :
  0 <= x < 2 ^ 24 -> float24ToFloat x = x * 256.
Proof.
  intros Hx. unfold float24ToFloat, wrap32.
  rewrite Z.shiftl_mul_pow2 by lia. apply Z.mod_small. lia.
Qed.

Lemma decoded_fields (S i : Z) :
  0 <= S < 2 -> 0 <= i < 2 ^ 23 ->
  let r := float24ToFloat (S * 2 ^ 23 + i) in
  sign_bits r = S * 2 ^ 31 /\
  exponent_bits r = (i / 2 ^ 15) * 2 ^ 23 /\
  significand_bits r = (i mod 2 ^ 15) * 256.
Proof.
  intros HS Hi r. subst r. rewrite float24ToFloat_small by lia.
  rewrite sign_bits_eq, exponent_bits_eq, significand_bits_eq.
  repeat split; Z.div_mod_to_equations; lia.
Qed.

(** C3.  Special values survive the 24-bit round trip: an infinity decodes to
    an infinity of the same sign, a NaN decodes to a NaN (its significand
    field stays nonzero), and a finite input never decodes to a pattern whose
    exponent field is all ones, also when the significand of an input near
    FLT_MAX would round up. *)
Theorem float24_special_values (u : Z) :
  let r := float24ToFloat (floatToFloat24 u) in
  (is_infinity u -> is_infinity r /\ sign_bits r = sign_bits u) /\
  (is_nan u -> is_nan r) /\
  (is_finite u -> is_finite r).
Proof.
  cbv zeta. unfold is_infinity, is_nan, is_finite.
  rewrite floatToFloat24_arith. cbv zeta.
  rewrite (sign_bits_eq u), (exponent_bits_eq u), (significand_bits_eq u).
  change (2 ^ 1) with 2. change (2 ^ 8) with 256.
  set (S := (u / 2 ^ 31) mod 2). set (E := (u / 2 ^ 23) mod 256).
  set (M := u mod 2 ^ 23).
  assert (HS : 0 <= S < 2) by (apply Z.mod_pos_bound; lia).
  assert (HE : 0 <= E < 256) by (apply Z.mod_pos_bound; lia).
  assert (HM : 0 <= M < 2 ^ 23) by (apply Z.mod_pos_bound; lia).
  assert (HM8 : 0 <= M / 256 < 2 ^ 15)
    by (split; [apply Z.div_pos; lia | apply Z.div_lt_upper_bound; lia]).
  destruct (E =? 255) eqn:HE255.
  - apply Z.eqb_eq in HE255.
    destruct (M =? 0) eqn:HM0.
    + apply Z.eqb_eq in HM0.
      destruct (decoded_fields S (255 * 2 ^ 15)) as (Hs & He & Hm); [lia..|].
      cbv zeta in *. rewrite Hs, He, Hm.
      repeat split; intros; try lia; reflexivity.
    + apply Z.eqb_neq in HM0.
      set (m := if M / 256 =? 0 then 1 else M / 256).
      assert (Hm' : 0 < m < 2 ^ 15) by (subst m; destruct (M / 256 =? 0) eqn:Hz; lia).
      destruct (decoded_fields S (255 * 2 ^ 15 + m)) as (Hs & He & Hm); [lia..|].
      cbv zeta in *. rewrite Hs, He, Hm.
      replace ((255 * 2 ^ 15 + m) / 2 ^ 15) with 255
        by (apply Z.div_unique with m; lia).
      replace ((255 * 2 ^ 15 + m) mod 2 ^ 15) with m
        by (apply Z.mod_unique with 255; lia).
      repeat split; intros; try lia.
  - apply Z.eqb_neq in HE255.
    set (i := if 0x7f8000 <=? (E * 2 ^ 23 + M + (M / 128) mod 2 * 128) / 256
              then (E * 2 ^ 23 + M) / 256
              else (E * 2 ^ 23 + M + (M / 128) mod 2 * 128) / 256).
    assert (Hi : 0 <= i < 0x7f8000).
    { subst i.
      assert (Hj : 0 <= (E * 2 ^ 23 + M) / 256 < 0x7f8000).
      { split; [apply Z.div_pos; lia|]. apply Z.div_lt_upper_bound; lia. }
      assert (Hr : 0 <= (M / 128) mod 2 < 2) by (apply Z.mod_pos_bound; lia).
      assert (0 <= (E * 2 ^ 23 + M + (M / 128) mod 2 * 128) / 256)
        by (apply Z.div_pos; lia).
      destruct (8355840 <=? _) eqn:Hov; [lia|]. apply Z.leb_gt in Hov. lia. }
    destruct (decoded_fields S i) as (Hs & He & Hm); [lia..|].
    cbv zeta in *. rewrite He.
    assert (i / 2 ^ 15 < 255) by (apply Z.div_lt_upper_bound; lia).
    repeat split; intros; try lia.
Qed.

Lemma float24_special_values_witness :
  (Pxr24.is_infinity (Pxr24.float24ToFloat (Pxr24.floatToFloat24 0xff800000)) /\
   Pxr24.sign_bits (Pxr24.float24ToFloat (Pxr24.floatToFloat24 0xff800000)) =
   Pxr24.sign_bits 0xff800000) /\
  Pxr24.is_nan (Pxr24.float24ToFloat (Pxr24.floatToFloat24 0x7f800001)) /\
  Pxr24.is_finite (Pxr24.float24ToFloat (Pxr24.floatToFloat24 0x7f7fffff)).
Proof.
  split; [|split].
  - apply (float24_special_values 0xff800000). split; reflexivity.
  - apply (float24_special_values 0x7f800001). split; [reflexivity | discriminate].
  - apply (float24_special_values 0x7f7fffff). discriminate.
Defined.

(** C7 as stated fails: [1.0f + 2^-15] is the bit pattern [0x3F800100]; bit 8
    of the significand is one of the 15 bits that [floatToFloat24] keeps, so
    the value is not rounded to [1.0f]. *)
Lemma float24_one_plus_2m15_not_rounded :
  ~ (floatToFloat24 0x3F800000 = 0x3F8000 /\
     float24ToFloat 0x3F8000 = 0x3F800000 /\
     float24ToFloat (floatToFloat24 0x3F800100) = 0x3F800000).
Proof. intros (_ & _ & H). vm_compute in H. discriminate H. Qed.

(** C7, amended.  [1.0f] encodes to [0x3F8000] and decodes to [1.0f];
    [1.0f + 2^-15] encodes to [0x3F8001] and decodes to itself; an excess
    below half a unit of the 15-bit significand, such as [1.0f + 2^-17]
    ([0x3F800040]), is rounded away and decodes to [1.0f]. *)
Theorem float24_quantization_examples :
  floatToFloat24 0x3F800000 = 0x3F8000 /\
  float24ToFloat 0x3F8000 = 0x3F800000 /\
  floatToFloat24 0x3F800100 = 0x3F8001 /\
  float24ToFloat (floatToFloat24 0x3F800100) = 0x3F800100 /\
  float24ToFloat (floatToFloat24 0x3F800040) = 0x3F800000.
Proof. repeat split; reflexivity. Qed.

End Float24.

(** ** Pxr24: the codec *)

Section Pxr24Loops.
Import Pxr24.

(** ** Bytes *)

Lemma byte_to_Z_range (b : byte) : 0 <= byte_to_Z b < 256.
Proof.
  unfold byte_to_Z. pose proof (Byte.to_N_bounded b). lia.
Qed.

Lemma Z_to_byte_to_Z (b : byte) : Z_to_byte (byte_to_Z b) = b.
Proof.
  unfold Z_to_byte, byte_to_Z.
  pose proof (Byte.to_N_bounded b) as Hb.
  rewrite Z.mod_small by lia. rewrite N2Z.id.
  now rewrite Byte.of_to_N.
Qed.

Lemma byte_to_Z_to_byte (z : Z) : byte_to_Z (Z_to_byte z) = z mod 256.
Proof.
  unfold Z_to_byte, byte_to_Z.
  assert (Hz : 0 <= z mod 256 < 256) by (apply Z.mod_pos_bound; lia).
  destruct (Byte.of_N (Z.to_N (z mod 256))) as [b|] eqn:Hb.
  - apply Byte.to_of_N in Hb. rewrite Hb. lia.
  - apply Byte.of_N_None_iff in Hb. lia.
Qed.

Lemma shiftr_byte (d k : Z) :
  0 <= k -> byte_to_Z (Z_to_byte (Z.shiftr d k)) = (d / 2 ^ k) mod 256.
Proof.
  intros Hk. rewrite byte_to_Z_to_byte, Z.shiftr_div_pow2 by lia. reflexivity.
Qed.

(** ** Reassembling a difference from its byte planes *)

Lemma gather_u32 (d : Z) :
  0 <= d < 2 ^ 32 ->
  wrap32 (Z.lor (Z.lor (Z.lor (Z.shiftl ((d / 2 ^ 24) mod 256) 24)
                              (Z.shiftl ((d / 2 ^ 16) mod 256) 16))
                       (Z.shiftl ((d / 2 ^ 8) mod 256) 8))
                (d mod 256)) = d.
Proof.
  intros Hd. rewrite !Z.shiftl_mul_pow2 by lia.
  assert (H3 : 0 <= (d / 2 ^ 24) mod 256 < 256) by (apply Z.mod_pos_bound; lia).
  assert (H2 : 0 <= (d / 2 ^ 16) mod 256 < 256) by (apply Z.mod_pos_bound; lia).
  assert (H1 : 0 <= (d / 2 ^ 8) mod 256 < 256) by (apply Z.mod_pos_bound; lia).
  assert (H0 : 0 <= d mod 256 < 256) by (apply Z.mod_pos_bound; lia).
  rewrite (lor_high_low _ ((d / 2 ^ 16) mod 256 * 2 ^ 16) 24) by lia.
  replace ((d / 2 ^ 24) mod 256 * 2 ^ 24 + (d / 2 ^ 16) mod 256 * 2 ^ 16)
    with (((d / 2 ^ 24) mod 256 * 2 ^ 8 + (d / 2 ^ 16) mod 256) * 2 ^ 16) by lia.
  rewrite (lor_high_low _ ((d / 2 ^ 8) mod 256 * 2 ^ 8) 16) by lia.
  replace (((d / 2 ^ 24) mod 256 * 2 ^ 8 + (d / 2 ^ 16) mod 256) * 2 ^ 16
           + (d / 2 ^ 8) mod 256 * 2 ^ 8)
    with (((d / 2 ^ 24) mod 256 * 2 ^ 16 + (d / 2 ^ 16) mod 256 * 2 ^ 8
           + (d / 2 ^ 8) mod 256) * 2 ^ 8) by lia.
  rewrite (lor_high_low _ (d mod 256) 8) by lia.
  unfold wrap32. Z.div_mod_to_equations. lia.
Qed.

Lemma gather_u16 (d : Z) :
  wrap32 (Z.lor (Z.shiftl ((d / 2 ^ 8) mod 256) 8) (d mod 256)) = d mod 2 ^ 16.
Proof.
  rewrite !Z.shiftl_mul_pow2 by lia.
  assert (H1 : 0 <= (d / 2 ^ 8) mod 256 < 256) by (apply Z.mod_pos_bound; lia).
  assert (H0 : 0 <= d mod 256 < 256) by (apply Z.mod_pos_bound; lia).
  rewrite (lor_high_low _ (d mod 256) 8) by lia.
  unfold wrap32. Z.div_mod_to_equations. lia.
Qed.

Lemma gather_u24 (d : Z) :
  wrap32 (Z.lor (Z.lor (Z.shiftl ((d / 2 ^ 16) mod 256) 24)
                       (Z.shiftl ((d / 2 ^ 8) mod 256) 16))
                (Z.shiftl (d mod 256) 8)) = (d mod 2 ^ 24) * 256.
Proof.
  rewrite !Z.shiftl_mul_pow2 by lia.
  assert (H2 : 0 <= (d / 2 ^ 16) mod 256 < 256) by (apply Z.mod_pos_bound; lia).
  assert (H1 : 0 <= (d / 2 ^ 8) mod 256 < 256) by (apply Z.mod_pos_bound; lia).
  assert (H0 : 0 <= d mod 256 < 256) by (apply Z.mod_pos_bound; lia).
  rewrite (lor_high_low _ ((d / 2 ^ 8) mod 256 * 2 ^ 16) 24) by lia.
  replace ((d / 2 ^ 16) mod 256 * 2 ^ 24 + (d / 2 ^ 8) mod 256 * 2 ^ 16)
    with (((d / 2 ^ 16) mod 256 * 2 ^ 8 + (d / 2 ^ 8) mod 256) * 2 ^ 16) by lia.
  rewrite (lor_high_low _ (d mod 256 * 2 ^ 8) 16) by lia.
  unfold wrap32. Z.div_mod_to_equations. lia.
Qed.


Lemma shiftr_u32_bytes (x : Z) :
  0 <= x < 2 ^ 32 ->
  byte_to_Z (Z_to_byte x)
  + byte_to_Z (Z_to_byte (Z.shiftr x 8)) * 2 ^ 8
  + byte_to_Z (Z_to_byte (Z.shiftr x 16)) * 2 ^ 16
  + byte_to_Z (Z_to_byte (Z.shiftr x 24)) * 2 ^ 24 = x.
Proof.
  intros Hx. rewrite !shiftr_byte, byte_to_Z_to_byte by lia.
  Z.div_mod_to_equations. lia.
Qed.

Lemma read_u32_bytes (x : Z) (rest : list byte) :
  0 <= x < 2 ^ 32 -> read_u32 (bytes_of_u32 x ++ rest) = Ret (x, rest).
Proof.
  intros Hx. cbn. now rewrite shiftr_u32_bytes.
Qed.

Lemma read_u16_bytes (x : Z) (rest : list byte) :
  0 <= x < 2 ^ 16 -> read_u16 (bytes_of_u16 x ++ rest) = Ret (x, rest).
Proof.
  intros Hx. cbn. rewrite !shiftr_byte, byte_to_Z_to_byte by lia.
  do 2 f_equal. Z.div_mod_to_equations. lia.
Qed.

(** ** Loads and stores *)

Lemma store_ok {E A} (buf : list A) (p : Z) (b : A) :
  0 <= p < Z.of_nat (length buf) ->
  @store E A buf p b = Ret (<[Z.to_nat p := b]> buf).
Proof.
  intros Hp. unfold store.
  destruct (0 <=? p) eqn:H0; [|lia]. destruct (p <? _) eqn:H1; [|lia]. reflexivity.
Qed.

Lemma load_ok {E A} (buf : list A) (p : Z) (b : A) :
  0 <= p -> buf !! Z.to_nat p = Some b -> @load E A buf p = Ret b.
Proof.
  intros Hp Hb. unfold load. destruct (p <? 0) eqn:H0; [lia|]. now rewrite Hb.
Qed.

Lemma lookup_store_same {A} (buf : list A) (p : Z) (b : A) :
  0 <= p < Z.of_nat (length buf) -> <[Z.to_nat p := b]> buf !! Z.to_nat p = Some b.
Proof. intros Hp. apply list_lookup_insert_eq. lia. Qed.

Lemma lookup_store_other {A} (buf : list A) (p : Z) (b : A) (i : nat) :
  0 <= p -> Z.of_nat i <> p -> <[Z.to_nat p := b]> buf !! i = buf !! i.
Proof. intros Hp Hi. apply list_lookup_insert_ne. lia. Qed.

Lemma compress_UINT_spec (xs : list Z) :
  forall (rest tmp : list byte) (p0 p1 p2 p3 prev : Z),
  let n := Z.of_nat (length xs) in
  0 <= p0 -> p0 + n <= p1 -> p1 + n <= p2 -> p2 + n <= p3 ->
  p3 + n <= Z.of_nat (length tmp) ->
  Forall (fun x => 0 <= x < 2 ^ 32) xs ->
  exists tmp',
    compress_UINT (length xs) (flat_map bytes_of_u32 xs ++ rest) tmp p0 p1 p2 p3 prev
      = Ret (rest, tmp') /\
    length tmp' = length tmp /\
    (forall i : nat,
        ~ p0 <= Z.of_nat i < p0 + n -> ~ p1 <= Z.of_nat i < p1 + n ->
        ~ p2 <= Z.of_nat i < p2 + n -> ~ p3 <= Z.of_nat i < p3 + n ->
        tmp' !! i = tmp !! i) /\
    (forall (j : nat) (d : Z), deltas prev xs !! j = Some d ->
        tmp' !! Z.to_nat (p0 + Z.of_nat j) = Some (Z_to_byte (Z.shiftr d 24)) /\
        tmp' !! Z.to_nat (p1 + Z.of_nat j) = Some (Z_to_byte (Z.shiftr d 16)) /\
        tmp' !! Z.to_nat (p2 + Z.of_nat j) = Some (Z_to_byte (Z.shiftr d 8)) /\
        tmp' !! Z.to_nat (p3 + Z.of_nat j) = Some (Z_to_byte d)).
Proof.
  induction xs as [|x xs IH]; intros rest tmp p0 p1 p2 p3 prev n H0 H1 H2 H3 H4 Hxs.
  - exists tmp. cbn. repeat split; try done.
  - subst n. cbn [length] in *. rewrite Nat2Z.inj_succ in *.
    inversion Hxs as [|? ? Hx Hxs']; subst.
    cbn [flat_map compress_UINT]. rewrite <- app_assoc, read_u32_bytes by done.
    cbn [bind].
    set (d := wrap32 (x - prev)).
    rewrite store_ok by lia. cbn [bind].
    rewrite store_ok by (rewrite !length_insert; lia). cbn [bind].
    rewrite store_ok by (rewrite !length_insert; lia). cbn [bind].
    rewrite store_ok by (rewrite !length_insert; lia). cbn [bind].
    set (tmp4 := <[Z.to_nat p3 := _]> _).
    assert (Hlen4 : length tmp4 = length tmp) by (subst tmp4; now rewrite !length_insert).
    destruct (IH rest tmp4 (p0 + 1) (p1 + 1) (p2 + 1) (p3 + 1) x)
      as (tmp' & Hrun & Hlen & Hout & Hin); try lia; try done.
    exists tmp'. split; [exact Hrun|]. split; [congruence|]. split.
    + intros i Hi0 Hi1 Hi2 Hi3. rewrite Hout by lia. subst tmp4.
      rewrite !lookup_store_other by lia. reflexivity.
    + intros [|j] dj Hj.
      * cbn in Hj. injection Hj as <-. fold d. rewrite !Z.add_0_r.
        rewrite !Hout by lia. subst tmp4.
        repeat split.
        -- rewrite !lookup_store_other by lia. apply lookup_store_same. lia.
        -- rewrite !lookup_store_other by lia. apply lookup_store_same.
           rewrite !length_insert. lia.
        -- rewrite !lookup_store_other by lia. apply lookup_store_same.
           rewrite !length_insert. lia.
        -- apply lookup_store_same. rewrite !length_insert. lia.
      * cbn in Hj. destruct (Hin j dj Hj) as (E0 & E1 & E2 & E3).
        rewrite Nat2Z.inj_succ.
        replace (p0 + Z.succ (Z.of_nat j)) with (p0 + 1 + Z.of_nat j) by lia.
        replace (p1 + Z.succ (Z.of_nat j)) with (p1 + 1 + Z.of_nat j) by lia.
        replace (p2 + Z.succ (Z.of_nat j)) with (p2 + 1 + Z.of_nat j) by lia.
        replace (p3 + Z.succ (Z.of_nat j)) with (p3 + 1 + Z.of_nat j) by lia.
        done.
Qed.

Lemma compress_HALF_spec (xs : list Z) :
  forall (rest tmp : list byte) (p0 p1 prev : Z),
  let n := Z.of_nat (length xs) in
  0 <= p0 -> p0 + n <= p1 -> p1 + n <= Z.of_nat (length tmp) ->
  Forall (fun x => 0 <= x < 2 ^ 16) xs ->
  exists tmp',
    compress_HALF (length xs) (flat_map bytes_of_u16 xs ++ rest) tmp p0 p1 prev
      = Ret (rest, tmp') /\
    length tmp' = length tmp /\
    (forall i : nat,
        ~ p0 <= Z.of_nat i < p0 + n -> ~ p1 <= Z.of_nat i < p1 + n ->
        tmp' !! i = tmp !! i) /\
    (forall (j : nat) (d : Z), deltas prev xs !! j = Some d ->
        tmp' !! Z.to_nat (p0 + Z.of_nat j) = Some (Z_to_byte (Z.shiftr d 8)) /\
        tmp' !! Z.to_nat (p1 + Z.of_nat j) = Some (Z_to_byte d)).
Proof.
  induction xs as [|x xs IH]; intros rest tmp p0 p1 prev n H0 H1 H2 Hxs.
  - exists tmp. cbn. repeat split; try done.
  - subst n. cbn [length] in *. rewrite Nat2Z.inj_succ in *.
    inversion Hxs as [|? ? Hx Hxs']; subst.
    cbn [flat_map compress_HALF]. rewrite <- app_assoc, read_u16_bytes by done.
    cbn [bind].
    set (d := wrap32 (x - prev)).
    rewrite store_ok by lia. cbn [bind].
    rewrite store_ok by (rewrite !length_insert; lia). cbn [bind].
    set (tmp2 := <[Z.to_nat p1 := _]> _).
    assert (Hlen2 : length tmp2 = length tmp) by (subst tmp2; now rewrite !length_insert).
    destruct (IH rest tmp2 (p0 + 1) (p1 + 1) x)
      as (tmp' & Hrun & Hlen & Hout & Hin); try lia; try done.
    exists tmp'. split; [exact Hrun|]. split; [congruence|]. split.
    + intros i Hi0 Hi1. rewrite Hout by lia. subst tmp2.
      rewrite !lookup_store_other by lia. reflexivity.
    + intros [|j] dj Hj.
      * cbn in Hj. injection Hj as <-. fold d. rewrite !Z.add_0_r.
        rewrite !Hout by lia. subst tmp2.
        repeat split.
        -- rewrite !lookup_store_other by lia. apply lookup_store_same. lia.
        -- apply lookup_store_same. rewrite !length_insert. lia.
      * cbn in Hj. destruct (Hin j dj Hj) as (E0 & E1).
        rewrite Nat2Z.inj_succ.
        replace (p0 + Z.succ (Z.of_nat j)) with (p0 + 1 + Z.of_nat j) by lia.
        replace (p1 + Z.succ (Z.of_nat j)) with (p1 + 1 + Z.of_nat j) by lia.
        done.
Qed.

Lemma compress_FLOAT_spec (xs : list Z) :
  forall (rest tmp : list byte) (p0 p1 p2 prev : Z),
  let n := Z.of_nat (length xs) in
  0 <= p0 -> p0 + n <= p1 -> p1 + n <= p2 -> p2 + n <= Z.of_nat (length tmp) ->
  Forall (fun x => 0 <= x < 2 ^ 32) xs ->
  exists tmp',
    compress_FLOAT (length xs) (flat_map bytes_of_u32 xs ++ rest) tmp p0 p1 p2 prev
      = Ret (rest, tmp') /\
    length tmp' = length tmp /\
    (forall i : nat,
        ~ p0 <= Z.of_nat i < p0 + n -> ~ p1 <= Z.of_nat i < p1 + n ->
        ~ p2 <= Z.of_nat i < p2 + n ->
        tmp' !! i = tmp !! i) /\
    (forall (j : nat) (d : Z),
        deltas prev (map floatToFloat24 xs) !! j = Some d ->
        tmp' !! Z.to_nat (p0 + Z.of_nat j) = Some (Z_to_byte (Z.shiftr d 16)) /\
        tmp' !! Z.to_nat (p1 + Z.of_nat j) = Some (Z_to_byte (Z.shiftr d 8)) /\
        tmp' !! Z.to_nat (p2 + Z.of_nat j) = Some (Z_to_byte d)).
Proof.
  induction xs as [|x xs IH]; intros rest tmp p0 p1 p2 prev n H0 H1 H2 H3 Hxs.
  - exists tmp. cbn. repeat split; try done.
  - subst n. cbn [length] in *. rewrite Nat2Z.inj_succ in *.
    inversion Hxs as [|? ? Hx Hxs']; subst.
    cbn [flat_map compress_FLOAT]. rewrite <- app_assoc, read_u32_bytes by done.
    cbn [bind].
    set (d := wrap32 (floatToFloat24 x - prev)).
    rewrite store_ok by lia. cbn [bind].
    rewrite store_ok by (rewrite !length_insert; lia). cbn [bind].
    rewrite store_ok by (rewrite !length_insert; lia). cbn [bind].
    set (tmp3 := <[Z.to_nat p2 := _]> _).
    assert (Hlen3 : length tmp3 = length tmp) by (subst tmp3; now rewrite !length_insert).
    destruct (IH rest tmp3 (p0 + 1) (p1 + 1) (p2 + 1) (floatToFloat24 x))
      as (tmp' & Hrun & Hlen & Hout & Hin); try lia; try done.
    exists tmp'. split; [exact Hrun|]. split; [congruence|]. split.
    + intros i Hi0 Hi1 Hi2. rewrite Hout by lia. subst tmp3.
      rewrite !lookup_store_other by lia. reflexivity.
    + intros [|j] dj Hj.
      * cbn in Hj. injection Hj as <-. fold d. rewrite !Z.add_0_r.
        rewrite !Hout by lia. subst tmp3.
        repeat split.
        -- rewrite !lookup_store_other by lia. apply lookup_store_same. lia.
        -- rewrite !lookup_store_other by lia. apply lookup_store_same.
           rewrite !length_insert. lia.
        -- apply lookup_store_same. rewrite !length_insert. lia.
      * cbn in Hj. destruct (Hin j dj Hj) as (E0 & E1 & E2).
        rewrite Nat2Z.inj_succ.
        replace (p0 + Z.succ (Z.of_nat j)) with (p0 + 1 + Z.of_nat j) by lia.
        replace (p1 + Z.succ (Z.of_nat j)) with (p1 + 1 + Z.of_nat j) by lia.
        replace (p2 + Z.succ (Z.of_nat j)) with (p2 + 1 + Z.of_nat j) by lia.
        done.
Qed.

(** ** The sample loops of [uncompress] *)

Lemma wrap32_range (z : Z) : 0 <= wrap32 z < 2 ^ 32.
Proof. apply Z.mod_pos_bound. lia. Qed.

Lemma uncompress_UINT_spec (xs : list Z) :
  forall (tmp : list byte) (p0 p1 p2 p3 prev : Z) (out : list byte),
  0 <= p0 -> 0 <= p1 -> 0 <= p2 -> 0 <= p3 ->
  0 <= prev < 2 ^ 32 ->
  Forall (fun x => 0 <= x < 2 ^ 32) xs ->
  (forall (j : nat) (d : Z), deltas prev xs !! j = Some d ->
        tmp !! Z.to_nat (p0 + Z.of_nat j) = Some (Z_to_byte (Z.shiftr d 24)) /\
        tmp !! Z.to_nat (p1 + Z.of_nat j) = Some (Z_to_byte (Z.shiftr d 16)) /\
        tmp !! Z.to_nat (p2 + Z.of_nat j) = Some (Z_to_byte (Z.shiftr d 8)) /\
        tmp !! Z.to_nat (p3 + Z.of_nat j) = Some (Z_to_byte d)) ->
  uncompress_UINT (length xs) tmp p0 p1 p2 p3 prev out
    = Ret (out ++ flat_map bytes_of_u32 xs).
Proof.
  induction xs as [|x xs IH]; intros tmp p0 p1 p2 p3 prev out H0 H1 H2 H3 Hp Hxs Hin.
  - cbn. now rewrite app_nil_r.
  - inversion Hxs as [|? ? Hx Hxs']; subst.
    destruct (Hin 0%nat _ eq_refl) as (E0 & E1 & E2 & E3).
    rewrite !Z.add_0_r in *.
    cbn [length uncompress_UINT].
    rewrite (load_ok _ _ _ H0 E0), (load_ok _ _ _ H1 E1),
      (load_ok _ _ _ H2 E2), (load_ok _ _ _ H3 E3). cbn [bind].
    rewrite !shiftr_byte, byte_to_Z_to_byte by lia.
    pose proof (wrap32_range (x - prev)) as Hd.
    rewrite gather_u32 by done.
    replace (wrap32 (prev + wrap32 (x - prev))) with x
      by (unfold wrap32; Z.div_mod_to_equations; lia).
    rewrite IH; try lia; try done.
    + cbn [flat_map]. now rewrite <- app_assoc.
    + intros j d Hj. destruct (Hin (S j) d Hj) as (F0 & F1 & F2 & F3).
      rewrite Nat2Z.inj_succ in *.
      replace (p0 + 1 + Z.of_nat j) with (p0 + Z.succ (Z.of_nat j)) by lia.
      replace (p1 + 1 + Z.of_nat j) with (p1 + Z.succ (Z.of_nat j)) by lia.
      replace (p2 + 1 + Z.of_nat j) with (p2 + Z.succ (Z.of_nat j)) by lia.
      replace (p3 + 1 + Z.of_nat j) with (p3 + Z.succ (Z.of_nat j)) by lia.
      done.
Qed.

Lemma uncompress_HALF_spec (xs : list Z) :
  forall (tmp : list byte) (p0 p1 prev pixel : Z) (out : list byte),
  0 <= p0 -> 0 <= p1 ->
  0 <= prev < 2 ^ 16 -> pixel mod 2 ^ 16 = prev ->
  Forall (fun x => 0 <= x < 2 ^ 16) xs ->
  (forall (j : nat) (d : Z), deltas prev xs !! j = Some d ->
        tmp !! Z.to_nat (p0 + Z.of_nat j) = Some (Z_to_byte (Z.shiftr d 8)) /\
        tmp !! Z.to_nat (p1 + Z.of_nat j) = Some (Z_to_byte d)) ->
  uncompress_HALF (length xs) tmp p0 p1 pixel out
    = Ret (out ++ flat_map bytes_of_u16 xs).
Proof.
  induction xs as [|x xs IH]; intros tmp p0 p1 prev pixel out H0 H1 Hp Hpix Hxs Hin.
  - cbn. now rewrite app_nil_r.
  - inversion Hxs as [|? ? Hx Hxs']; subst.
    destruct (Hin 0%nat _ eq_refl) as (E0 & E1).
    rewrite !Z.add_0_r in *.
    cbn [length uncompress_HALF].
    rewrite (load_ok _ _ _ H0 E0), (load_ok _ _ _ H1 E1). cbn [bind].
    rewrite !shiftr_byte, byte_to_Z_to_byte by lia.
    rewrite gather_u16.
    assert (Hnew : wrap32 (pixel + wrap32 (x - pixel mod 2 ^ 16) mod 2 ^ 16) mod 2 ^ 16 = x)
      by (unfold wrap32; Z.div_mod_to_equations; lia).
    rewrite Hnew.
    rewrite (IH tmp (p0 + 1) (p1 + 1) x); try lia; try done.
    + cbn [flat_map]. now rewrite <- app_assoc.
    + intros j d Hj. destruct (Hin (S j) d Hj) as (F0 & F1).
      rewrite Nat2Z.inj_succ in *.
      replace (p0 + 1 + Z.of_nat j) with (p0 + Z.succ (Z.of_nat j)) by lia.
      replace (p1 + 1 + Z.of_nat j) with (p1 + Z.succ (Z.of_nat j)) by lia.
      done.
Qed.

Lemma uncompress_FLOAT_spec (ys : list Z) :
  forall (tmp : list byte) (p0 p1 p2 prev : Z) (out : list byte),
  0 <= p0 -> 0 <= p1 -> 0 <= p2 ->
  0 <= prev < 2 ^ 24 ->
  Forall (fun y => 0 <= y < 2 ^ 24) ys ->
  (forall (j : nat) (d : Z), deltas prev ys !! j = Some d ->
        tmp !! Z.to_nat (p0 + Z.of_nat j) = Some (Z_to_byte (Z.shiftr d 16)) /\
        tmp !! Z.to_nat (p1 + Z.of_nat j) = Some (Z_to_byte (Z.shiftr d 8)) /\
        tmp !! Z.to_nat (p2 + Z.of_nat j) = Some (Z_to_byte d)) ->
  uncompress_FLOAT (length ys) tmp p0 p1 p2 (prev * 256) out
    = Ret (out ++ flat_map bytes_of_u32 (map (fun y => y * 256) ys)).
Proof.
  induction ys as [|y ys IH]; intros tmp p0 p1 p2 prev out H0 H1 H2 Hp Hys Hin.
  - cbn. now rewrite app_nil_r.
  - inversion Hys as [|? ? Hy Hys']; subst.
    destruct (Hin 0%nat _ eq_refl) as (E0 & E1 & E2).
    rewrite !Z.add_0_r in *.
    cbn [length uncompress_FLOAT].
    rewrite (load_ok _ _ _ H0 E0), (load_ok _ _ _ H1 E1), (load_ok _ _ _ H2 E2).
    cbn [bind].
    rewrite !shiftr_byte, byte_to_Z_to_byte by lia.
    rewrite gather_u24.
    replace (wrap32 (prev * 256 + wrap32 (y - prev) mod 2 ^ 24 * 256)) with (y * 256)
      by (unfold wrap32; Z.div_mod_to_equations; lia).
    rewrite (IH tmp (p0 + 1) (p1 + 1) (p2 + 1) y); try lia; try done.
    + cbn [flat_map map]. now rewrite <- app_assoc.
    + intros j d Hj. destruct (Hin (S j) d Hj) as (F0 & F1 & F2).
      rewrite Nat2Z.inj_succ in *.
      replace (p0 + 1 + Z.of_nat j) with (p0 + Z.succ (Z.of_nat j)) by lia.
      replace (p1 + 1 + Z.of_nat j) with (p1 + Z.succ (Z.of_nat j)) by lia.
      replace (p2 + 1 + Z.of_nat j) with (p2 + Z.succ (Z.of_nat j)) by lia.
      done.
Qed.

(** ** One run of samples *)

Lemma length_deltas (prev : Z) (xs : list Z) :
  length (deltas prev xs) = length xs.
Proof. revert prev. induction xs; intros prev; cbn; [done | now rewrite IHxs]. Qed.

Lemma visit_spec (t : PixelType) (xs : list Z) (rest tmp : list byte) (e : Z) :
  let n := Z.of_nat (length xs) in
  0 <= e -> e + planes t * n <= Z.of_nat (length tmp) ->
  Forall (sample_ok t) xs ->
  exists tmp',
    compress_switch t n (row_bytes (t, xs) ++ rest, tmp, e)
      = Ret (rest, tmp', e + planes t * n) /\
    length tmp' = length tmp /\
    (forall i : nat, ~ e <= Z.of_nat i < e + planes t * n -> tmp' !! i = tmp !! i) /\
    (forall (tmpD : list byte) (tmpSize : Z) (out : list byte),
        (forall i : nat, e <= Z.of_nat i < e + planes t * n -> tmpD !! i = tmp' !! i) ->
        e + planes t * n <= tmpSize < 2 ^ 64 ->
        uncompress_switch tmpD tmpSize t n (e, out)
          = Ret (e + planes t * n, out ++ row_bytes (requantize_row (t, xs)))).
Proof.
  intros n He Hfit Hxs. unfold row_bytes. cbn [fst snd].
  assert (Hn : 0 <= n) by (subst n; lia).
  destruct t; cbn [planes sample_ok sample_bytes] in *;
    unfold compress_switch, uncompress_switch, requantize_row; cbn [fst snd];
    cbv beta iota zeta; subst n; rewrite Nat2Z.id;
    change (sample_bytes UINT) with bytes_of_u32;
    change (sample_bytes HALF) with bytes_of_u16;
    change (sample_bytes FLOAT) with bytes_of_u32.
  - (* UINT *)
    destruct (compress_UINT_spec xs rest tmp e
                (e + Z.of_nat (length xs))
                (e + Z.of_nat (length xs) + Z.of_nat (length xs))
                (e + Z.of_nat (length xs) + Z.of_nat (length xs) + Z.of_nat (length xs)) 0)
      as (tmp' & Hrun & Hlen & Hout & Hin); try lia; try done.
    exists tmp'. rewrite Hrun. cbn [bind].
    split; [do 2 f_equal; lia|]. split; [done|]. split.
    + intros i Hi. apply Hout; lia.
    + intros tmpD tmpSize out Hagree Hsize.
      unfold wrap64. rewrite Z.mod_small by lia.
      destruct (tmpSize <? _) eqn:Hlt; [lia|].
      rewrite (uncompress_UINT_spec xs); try lia; try done.
      * cbn [bind]. do 2 f_equal. lia.
      * intros j d Hj.
        assert (Hjn : (j < length xs)%nat)
          by (apply lookup_lt_Some in Hj; now rewrite length_deltas in Hj).
        destruct (Hin j d Hj) as (E0 & E1 & E2 & E3).
        rewrite !Hagree by lia. done.
  - (* HALF *)
    destruct (compress_HALF_spec xs rest tmp e (e + Z.of_nat (length xs)) 0)
      as (tmp' & Hrun & Hlen & Hout & Hin); try lia; try done.
    exists tmp'. rewrite Hrun. cbn [bind].
    split; [do 2 f_equal; lia|]. split; [done|]. split.
    + intros i Hi. apply Hout; lia.
    + intros tmpD tmpSize out Hagree Hsize.
      unfold wrap64. rewrite Z.mod_small by lia.
      destruct (tmpSize <? _) eqn:Hlt; [lia|].
      rewrite (uncompress_HALF_spec xs tmpD _ _ 0); try lia; try done.
      * cbn [bind]. do 2 f_equal. lia.
      * intros j d Hj.
        assert (Hjn : (j < length xs)%nat)
          by (apply lookup_lt_Some in Hj; now rewrite length_deltas in Hj).
        destruct (Hin j d Hj) as (E0 & E1).
        rewrite !Hagree by lia. done.
  - (* FLOAT *)
    destruct (compress_FLOAT_spec xs rest tmp e
                (e + Z.of_nat (length xs))
                (e + Z.of_nat (length xs) + Z.of_nat (length xs)) 0)
      as (tmp' & Hrun & Hlen & Hout & Hin); try lia; try done.
    exists tmp'. rewrite Hrun. cbn [bind].
    split; [do 2 f_equal; lia|]. split; [done|]. split.
    + intros i Hi. apply Hout; lia.
    + intros tmpD tmpSize out Hagree Hsize.
      unfold wrap64. rewrite Z.mod_small by lia.
      destruct (tmpSize <? _) eqn:Hlt; [lia|].
      pose proof (uncompress_FLOAT_spec (map floatToFloat24 xs) tmpD e
                    (e + Z.of_nat (length xs))
                    (e + Z.of_nat (length xs) + Z.of_nat (length xs)) 0 out) as HU.
      rewrite length_map in HU. change (0 * 256) with 0 in HU.
      rewrite HU; try lia.
      * cbn [bind]. rewrite map_map. f_equal. apply f_equal2; [lia|].
        do 2 f_equal. apply map_ext. intros f.
        now rewrite Z.shiftl_mul_pow2 by lia.
      * apply Forall_forall. intros y Hy. apply in_map_iff in Hy as (f & <- & _).
        apply floatToFloat24_range.
      * intros j d Hj.
        assert (Hjn : (j < length xs)%nat)
          by (apply lookup_lt_Some in Hj;
              now rewrite length_deltas, length_map in Hj).
        destruct (Hin j d Hj) as (E0 & E1 & E2).
        rewrite !Hagree by lia. done.
Qed.

(** ** The traversal as one loop *)

Lemma foldM_app {E A St : Type} (f : A -> St -> result E St) (l1 l2 : list A)
    (st : St) :
  foldM f (l1 ++ l2) st = bind (foldM f l1 st) (foldM f l2).
Proof.
  revert st. induction l1 as [|a l1 IH]; intros st; cbn; [done|].
  destruct (f a st); cbn; auto.
Qed.

Lemma planes_size_nonneg (blk : list row) : 0 <= planes_size blk.
Proof.
  induction blk as [|[t xs] blk IH]; [cbn; lia|].
  unfold planes_size. cbn [fold_right fst snd]. fold (planes_size blk).
  destruct t; cbn [planes]; lia.
Qed.

Lemma planes_size_le_bytes (blk : list row) :
  planes_size blk <= Z.of_nat (length (block_bytes blk)).
Proof.
  induction blk as [|[t xs] blk IH]; [cbn; lia|].
  unfold planes_size, block_bytes. cbn [fold_right flat_map fst snd].
  fold (planes_size blk) (block_bytes blk).
  rewrite length_app, Nat2Z.inj_add.
  assert (planes t * Z.of_nat (length xs) <= Z.of_nat (length (row_bytes (t, xs)))).
  { unfold row_bytes. cbn [fst snd]. clear.
    induction xs as [|x xs IH]; cbn [flat_map length]; [lia|].
    rewrite length_app, !Nat2Z.inj_add, Nat2Z.inj_succ.
    destruct t; cbn [planes sample_bytes bytes_of_u32 bytes_of_u16 length] in *; lia. }
  lia.
Qed.

Lemma traversal_spec (blk : list row) :
  forall (rest tmp : list byte) (e : Z),
  0 <= e -> e + planes_size blk <= Z.of_nat (length tmp) ->
  Forall row_ok blk ->
  exists tmp',
    foldM (fun v => compress_switch (fst v) (snd v)) (block_shape blk)
      (block_bytes blk ++ rest, tmp, e) = Ret (rest, tmp', e + planes_size blk) /\
    length tmp' = length tmp /\
    (forall i : nat, Z.of_nat i < e -> tmp' !! i = tmp !! i) /\
    (forall (tmpD : list byte) (tmpSize : Z) (out : list byte),
        (forall i : nat, e <= Z.of_nat i < e + planes_size blk ->
                         tmpD !! i = tmp' !! i) ->
        e + planes_size blk <= tmpSize < 2 ^ 64 ->
        foldM (fun v => uncompress_switch tmpD tmpSize (fst v) (snd v))
          (block_shape blk) (e, out)
          = Ret (e + planes_size blk,
                 out ++ block_bytes (map requantize_row blk))).
Proof.
  induction blk as [|[t xs] blk IH]; intros rest tmp e He Hfit Hok.
  - exists tmp. cbn. rewrite Z.add_0_r. repeat split; try done.
    intros. now rewrite app_nil_r.
  - inversion Hok as [|? ? Hr Hok']; subst.
    pose proof (planes_size_nonneg blk) as Hps.
    cbn [planes_size fold_right fst snd] in Hfit. fold (planes_size blk) in Hfit.
    set (n := Z.of_nat (length xs)) in *.
    assert (Hn : 0 <= planes t * n) by (destruct t; cbn; lia).
    destruct (visit_spec t xs (block_bytes blk ++ rest) tmp e)
      as (tmp1 & Hrun1 & Hlen1 & Hout1 & Hun1); [lia|fold n; lia|exact Hr|].
    fold n in Hrun1, Hout1, Hun1.
    destruct (IH rest tmp1 (e + planes t * n))
      as (tmp' & Hrun & Hlen & Hout & Hun); [lia|lia|exact Hok'|].
    exists tmp'.
    cbn [block_shape map foldM block_bytes flat_map fst snd planes_size fold_right].
    fold (block_bytes blk) (planes_size blk) n (block_shape blk).
    rewrite <- app_assoc, Hrun1. cbn [bind]. rewrite Hrun.
    split; [do 2 f_equal; lia|]. split; [congruence|]. split.
    + intros i Hi. rewrite Hout by lia. apply Hout1. lia.
    + intros tmpD tmpSize out Hagree Hsize.
      rewrite (Hun1 tmpD tmpSize out).
      * cbn [bind]. rewrite (Hun tmpD tmpSize).
        -- f_equal. apply f_equal2; [lia|]. now rewrite <- app_assoc.
        -- intros i Hi. apply Hagree. lia.
        -- lia.
      * intros i Hi. rewrite Hagree by lia. apply Hout. lia.
      * lia.
Qed.

(** ** Every byte sequence of the right size is a block *)

Lemma Z_to_byte_mod (z : Z) : Z_to_byte (z mod 256) = Z_to_byte z.
Proof. unfold Z_to_byte. now rewrite Z.mod_mod by lia. Qed.

Lemma Z_to_byte_eq (z : Z) (b : byte) : z mod 256 = byte_to_Z b -> Z_to_byte z = b.
Proof. intros H. now rewrite <- Z_to_byte_mod, H, Z_to_byte_to_Z. Qed.

Lemma u32_of_bytes (b0 b1 b2 b3 : byte) :
  let x := byte_to_Z b0 + byte_to_Z b1 * 2 ^ 8 + byte_to_Z b2 * 2 ^ 16
           + byte_to_Z b3 * 2 ^ 24 in
  0 <= x < 2 ^ 32 /\ bytes_of_u32 x = [b0; b1; b2; b3].
Proof.
  intros x. subst x.
  pose proof (byte_to_Z_range b0). pose proof (byte_to_Z_range b1).
  pose proof (byte_to_Z_range b2). pose proof (byte_to_Z_range b3).
  split; [lia|]. unfold bytes_of_u32. rewrite !Z.shiftr_div_pow2 by lia.
  repeat f_equal; apply Z_to_byte_eq; Z.div_mod_to_equations; lia.
Qed.

Lemma u16_of_bytes (b0 b1 : byte) :
  let x := byte_to_Z b0 + byte_to_Z b1 * 2 ^ 8 in
  0 <= x < 2 ^ 16 /\ bytes_of_u16 x = [b0; b1].
Proof.
  intros x. subst x.
  pose proof (byte_to_Z_range b0). pose proof (byte_to_Z_range b1).
  split; [lia|]. unfold bytes_of_u16. rewrite !Z.shiftr_div_pow2 by lia.
  repeat f_equal; apply Z_to_byte_eq; Z.div_mod_to_equations; lia.
Qed.

Lemma row_of_bytes (t : PixelType) (n : nat) :
  forall l : list byte,
  Z.of_nat (length l) = bytes_per_sample t * Z.of_nat n ->
  exists xs : list Z,
    length xs = n /\ Forall (sample_ok t) xs /\ row_bytes (t, xs) = l.
Proof.
  unfold row_bytes. cbn [fst snd].
  induction n as [|n IH]; intros l Hl.
  - exists []. destruct l; [done|]. destruct t; cbn in Hl; lia.
  - destruct t; cbn [bytes_per_sample] in *.
    + destruct l as [|b0 [|b1 [|b2 [|b3 l]]]]; cbn [length] in Hl; try lia.
      destruct (IH l) as (xs & Hn & Hok & Hb); [lia|].
      destruct (u32_of_bytes b0 b1 b2 b3) as [Hr Hx].
      eexists (_ :: xs). split; [cbn; now rewrite Hn|]. split.
      * constructor; [exact Hr | exact Hok].
      * cbn [flat_map sample_bytes]. cbn [sample_bytes] in Hb. now rewrite Hx, Hb.
    + destruct l as [|b0 [|b1 l]]; cbn [length] in Hl; try lia.
      destruct (IH l) as (xs & Hn & Hok & Hb); [lia|].
      destruct (u16_of_bytes b0 b1) as [Hr Hx].
      eexists (_ :: xs). split; [cbn; now rewrite Hn|]. split.
      * constructor; [exact Hr | exact Hok].
      * cbn [flat_map sample_bytes]. cbn [sample_bytes] in Hb. now rewrite Hx, Hb.
    + destruct l as [|b0 [|b1 [|b2 [|b3 l]]]]; cbn [length] in Hl; try lia.
      destruct (IH l) as (xs & Hn & Hok & Hb); [lia|].
      destruct (u32_of_bytes b0 b1 b2 b3) as [Hr Hx].
      eexists (_ :: xs). split; [cbn; now rewrite Hn|]. split.
      * constructor; [exact Hr | exact Hok].
      * cbn [flat_map sample_bytes]. cbn [sample_bytes] in Hb. now rewrite Hx, Hb.
Qed.

Lemma block_of_bytes (shape : list (PixelType * Z)) :
  forall inp : list byte,
  Forall (fun v => 0 <= snd v) shape ->
  Z.of_nat (length inp) = raw_size shape ->
  exists blk : list row,
    block_shape blk = shape /\ Forall row_ok blk /\ block_bytes blk = inp.
Proof.
  induction shape as [|[t n] shape IH]; intros inp Hnn Hlen.
  - exists []. destruct inp; [done | cbn in Hlen; lia].
  - inversion Hnn as [|? ? Hn Hnn']; subst. cbn [snd] in Hn.
    unfold raw_size in Hlen. cbn [fold_right fst snd] in Hlen.
    fold (raw_size shape) in Hlen.
    assert (Hrs : 0 <= raw_size shape).
    { clear -Hnn'. induction shape as [|[t' n'] shape IH]; [cbn; lia|].
      inversion Hnn'; subst. unfold raw_size. cbn [fold_right fst snd] in *.
      fold (raw_size shape). specialize (IH ltac:(assumption)).
      destruct t'; cbn [bytes_per_sample]; lia. }
    set (k := Z.to_nat (bytes_per_sample t * n)).
    assert (Hk : Z.of_nat k = bytes_per_sample t * n)
      by (subst k; destruct t; cbn [bytes_per_sample]; lia).
    destruct (row_of_bytes t (Z.to_nat n) (take k inp)) as (xs & Hxn & Hxok & Hxb).
    { rewrite length_take, (Z2Nat.id n) by lia. lia. }
    destruct (IH (drop k inp)) as (blk & Hshape & Hok & Hbytes); [done| |].
    { rewrite length_drop. lia. }
    exists ((t, xs) :: blk). split; [|split].
    + cbn [block_shape map fst snd]. fold (block_shape blk).
      rewrite Hshape, Hxn. do 2 f_equal. lia.
    + constructor; [exact Hxok | exact Hok].
    + unfold block_bytes. cbn [flat_map]. fold (block_bytes blk).
      rewrite Hxb, Hbytes. apply take_drop.
Qed.

Section Roundtrip.

Variable modp : Z -> Z -> Z.
Variable numSamples : Z -> Z -> Z -> Z.
Variable zlib_compress : list byte -> option (list byte).
Variable zlib_uncompress : Z -> list byte -> option (list byte).

(** The deflate backend is a faithful pair: [::compress] succeeds and leaves
    at least one byte, and [::uncompress] gives its input back whenever the
    destination has room for it. *)
Hypothesis zlib_faithful :
  forall d : list byte, exists c : list byte,
    zlib_compress d = Some c /\ c <> [] /\
    forall cap : Z, Z.of_nat (length d) <= cap -> zlib_uncompress cap c = Some d.

Lemma compress_channels_visits (minX maxX y : Z) (cs : list Channel) st :
  compress_channels modp numSamples minX maxX y cs st =
  foldM (fun v => compress_switch (fst v) (snd v))
    (flat_map (visit_channel modp numSamples minX maxX y) cs) st.
Proof.
  revert st. induction cs as [|c cs IH]; intros st; cbn [compress_channels flat_map]; [done|].
  rewrite foldM_app. unfold compress_channel, visit_channel at 1.
  destruct (negb _); cbn [foldM bind fst snd].
  - apply IH.
  - destruct (compress_switch _ _ st); cbn [bind]; auto.
Qed.

Lemma compress_rows_visits (rows : nat) (minX maxX y : Z) (cs : list Channel) st :
  compress_rows modp numSamples rows minX maxX y cs st =
  foldM (fun v => compress_switch (fst v) (snd v))
    (visit_rows modp numSamples rows minX maxX y cs) st.
Proof.
  revert y st. induction rows as [|rows IH]; intros y st; cbn [compress_rows visit_rows]; [done|].
  rewrite foldM_app, compress_channels_visits.
  destruct (foldM _ _ st); cbn [bind]; auto.
Qed.

Lemma uncompress_channels_visits tmp tmpSize (minX maxX y : Z) (cs : list Channel) st :
  uncompress_channels modp numSamples tmp tmpSize minX maxX y cs st =
  foldM (fun v => uncompress_switch tmp tmpSize (fst v) (snd v))
    (flat_map (visit_channel modp numSamples minX maxX y) cs) st.
Proof.
  revert st. induction cs as [|c cs IH]; intros st; cbn [uncompress_channels flat_map]; [done|].
  rewrite foldM_app. unfold uncompress_channel, visit_channel at 1.
  destruct (negb _); cbn [foldM bind fst snd].
  - apply IH.
  - destruct (uncompress_switch _ _ _ _ st); cbn [bind]; auto.
Qed.

Lemma uncompress_rows_visits (rows : nat) tmp tmpSize (minX maxX y : Z)
    (cs : list Channel) st :
  uncompress_rows modp numSamples rows tmp tmpSize minX maxX y cs st =
  foldM (fun v => uncompress_switch tmp tmpSize (fst v) (snd v))
    (visit_rows modp numSamples rows minX maxX y cs) st.
Proof.
  revert y st. induction rows as [|rows IH]; intros y st;
    cbn [uncompress_rows visit_rows]; [done|].
  rewrite foldM_app, uncompress_channels_visits.
  destruct (foldM _ _ st); cbn [bind]; auto.
Qed.

(** The round trip of a block: every sample comes back, a FLOAT sample
    quantised to 24 bits. *)
Lemma roundtrip_requantized (p : Pxr24Compressor) (range : Box2i) (blk : list row) :
  is_block modp numSamples p range blk ->
  exists out : list byte,
    compress modp numSamples zlib_compress p (block_bytes blk)
      (Z.of_nat (length (block_bytes blk))) range = Ret out /\
    uncompress modp numSamples zlib_uncompress p out (Z.of_nat (length out)) range
      = Ret (block_bytes (map requantize_row blk)).
Proof.
  intros (Hshape & Hok & Hfit & Hcap & Hword).
  pose proof (planes_size_le_bytes blk) as Hple.
  pose proof (planes_size_nonneg blk) as Hpnn.
  destruct (traversal_spec blk [] (tmpBuffer p) 0) as (tmp' & Hrun & Hlen & _ & Hun);
    [lia|lia|exact Hok|].
  rewrite app_nil_r, Z.add_0_l in Hrun. rewrite Z.add_0_l in Hun.
  destruct (zlib_faithful (take (Z.to_nat (planes_size blk)) tmp'))
    as (c & Hc & Hne & Hinv).
  unfold compress, uncompress.
  destruct (Z.of_nat (length (block_bytes blk)) =? 0) eqn:Hempty.
  - (* an empty block: both calls return at once *)
    exists []. split; [done|]. cbn [length].
    change (Z.of_nat 0 =? 0) with true. cbv iota.
    apply Z.eqb_eq in Hempty.
    assert (Hnil : block_bytes blk = []) by (apply length_zero_iff_nil; lia).
    assert (Hq : block_bytes (map requantize_row blk) = []).
    { clear -Hnil. induction blk as [|[t xs] blk IH]; [done|].
      unfold block_bytes in *. cbn [map flat_map] in *.
      apply app_eq_nil in Hnil as [Hr Hb].
      rewrite (IH Hb), app_nil_r.
      destruct xs as [|x xs]; [now destruct t|].
      destruct t; discriminate Hr. }
    now rewrite Hq.
  - exists c. rewrite compress_rows_visits.
    fold (visits modp numSamples p range). rewrite <- Hshape, Hrun. cbn [bind].
    destruct (planes_size blk <? 0) eqn:Hneg; [lia|].
    rewrite Hc. split; [done|].
    destruct (Z.of_nat (length c) =? 0) eqn:Hc0.
    { apply Z.eqb_eq in Hc0. destruct c; [done | cbn in Hc0; lia]. }
    rewrite Nat2Z.id, firstn_all.
    assert (Hlen_take : length (take (Z.to_nat (planes_size blk)) tmp')
                        = Z.to_nat (planes_size blk))
      by (rewrite length_take; lia).
    rewrite Hinv by lia.
    rewrite uncompress_rows_visits. fold (visits modp numSamples p range).
    rewrite <- Hshape, Hlen_take, Z2Nat.id by lia.
    rewrite Hun.
    + cbn [bind]. unfold wrap64. rewrite Z.mod_small by lia.
      destruct (planes_size blk <? planes_size blk) eqn:Hlt; [lia|]. done.
    + intros i Hi. rewrite lookup_app_l by lia.
      apply lookup_take_lt. lia.
    + lia.
Qed.

Lemma visits_types (p : Pxr24Compressor) (range : Box2i) (P : PixelType -> Prop) :
  Forall (fun c => P (ctype c)) (channels p) ->
  Forall (fun v => P (fst v)) (visits modp numSamples p range).
Proof.
  intros Hcs. unfold visits.
  generalize (Z.to_nat (Z.min (max_y range) (maxY p) - min_y range + 1)).
  generalize (min_y range) as y.
  intros y rows. revert y.
  induction rows as [|rows IH]; intros y; cbn [visit_rows]; [constructor|].
  apply Forall_app. split; [|apply IH]. clear IH.
  induction Hcs as [|c cs Hc Hcs IHcs]; cbn [flat_map]; [constructor|].
  apply Forall_app. split; [|exact IHcs].
  unfold visit_channel. destruct (negb _); repeat constructor. exact Hc.
Qed.

(** C1.  A block of UINT and HALF channels comes back byte for byte. *)
Theorem pxr24_lossless_roundtrip (p : Pxr24Compressor) (range : Box2i)
    (inp : list byte) :
  Forall (fun c => ctype c <> FLOAT) (channels p) ->
  is_raw_block modp numSamples p range inp ->
  exists out : list byte,
    compress modp numSamples zlib_compress p inp (Z.of_nat (length inp)) range
      = Ret out /\
    uncompress modp numSamples zlib_uncompress p out (Z.of_nat (length out)) range
      = Ret inp.
Proof.
  intros Hlossless (Hnn & Hlen & Hfit & Hcap & Hword).
  destruct (block_of_bytes _ inp Hnn Hlen) as (blk & Hshape & Hok & Hbytes).
  destruct (roundtrip_requantized p range blk) as (out & Hc & Hu).
  { unfold is_block. rewrite Hbytes. done. }
  exists out. rewrite Hbytes in Hc. split; [exact Hc|].
  rewrite Hu, <- Hbytes. do 2 f_equal.
  pose proof (visits_types p range (fun t => t <> FLOAT) Hlossless) as Hty.
  rewrite <- Hshape in Hty. clear -Hty.
  induction blk as [|[t xs] blk IH]; [done|].
  cbn [block_shape map] in Hty. inversion Hty as [|? ? Ht Hty']; subst.
  cbn [map]. rewrite (IH Hty'). f_equal.
  cbn [fst] in Ht. unfold requantize_row. cbn [fst]. now destruct t.
Qed.

(** C2.  A FLOAT sample [f] comes back as [floatToFloat24 f] shifted left by
    eight bits, which is [float24ToFloat (floatToFloat24 f)], a word whose
    low eight bits are zero; UINT and HALF samples of the same block are
    unchanged. *)
Theorem pxr24_float_roundtrip (p : Pxr24Compressor) (range : Box2i)
    (blk : list row) :
  is_block modp numSamples p range blk ->
  exists out : list byte,
    compress modp numSamples zlib_compress p (block_bytes blk)
      (Z.of_nat (length (block_bytes blk))) range = Ret out /\
    uncompress modp numSamples zlib_uncompress p out (Z.of_nat (length out)) range
      = Ret (block_bytes (map requantize_row blk)) /\
    Forall (fun r : row =>
              match fst r with
              | FLOAT =>
                  snd (requantize_row r)
                    = map (fun f => float24ToFloat (floatToFloat24 f)) (snd r) /\
                  Forall (fun w => Z.land w 0xff = 0 /\ 0 <= w < 2 ^ 32)
                    (snd (requantize_row r))
              | UINT | HALF => requantize_row r = r
              end) blk.
Proof.
  intros Hblk.
  destruct (roundtrip_requantized p range blk Hblk) as (out & Hc & Hu).
  exists out. split; [exact Hc|]. split; [exact Hu|].
  apply Forall_forall. intros [t xs] _. cbn [fst snd].
  destruct t; try reflexivity.
  unfold requantize_row. cbn [fst snd]. split.
  - apply map_ext. intros f.
    rewrite float24ToFloat_small by apply floatToFloat24_range.
    now rewrite Z.shiftl_mul_pow2 by lia.
  - apply Forall_forall. intros w Hw. apply in_map_iff in Hw as (f & <- & _).
    pose proof (floatToFloat24_range f) as Hf.
    rewrite Z.shiftl_mul_pow2 by lia. split; [|lia].
    change 255 with (Z.ones 8). rewrite Z.land_ones by lia.
    apply Z.mod_mul. lia.
Qed.

End Roundtrip.

End Pxr24Loops.

Lemma stored_faithful :
  forall d : list byte, exists c : list byte,
    Pxr24.stored_compress d = Some c /\ c <> [] /\
    forall cap : Z, Z.of_nat (length d) <= cap ->
                    Pxr24.stored_uncompress cap c = Some d.
Proof.
  intros d. exists (x78 :: d). split; [reflexivity|]. split; [discriminate|].
  intros cap Hcap. cbn. destruct (Z.of_nat (length d) <=? cap) eqn:H; [reflexivity | lia].
Qed.

Lemma pxr24_lossless_roundtrip_witness :
  let cs := [ {| Pxr24.ctype := Pxr24.HALF; Pxr24.xSampling := 1; Pxr24.ySampling := 1 |};
              {| Pxr24.ctype := Pxr24.UINT; Pxr24.xSampling := 1; Pxr24.ySampling := 1 |} ] in
  let inp := [x00; x3c; x00; xc0; xff; xff; xff; xff; x01; x00; x00; x80] in
  exists out : list byte,
    Pxr24.compress Pxr24.example_modp Pxr24.example_numSamples Pxr24.stored_compress
      (Pxr24.example_codec cs 12) inp (Z.of_nat (length inp)) Pxr24.example_range
      = Ret out /\
    Pxr24.uncompress Pxr24.example_modp Pxr24.example_numSamples
      Pxr24.stored_uncompress (Pxr24.example_codec cs 12) out
      (Z.of_nat (length out)) Pxr24.example_range = Ret inp.
Proof.
  intros cs inp.
  apply (pxr24_lossless_roundtrip Pxr24.example_modp Pxr24.example_numSamples
           Pxr24.stored_compress Pxr24.stored_uncompress stored_faithful).
  - repeat constructor; discriminate.
  - unfold Pxr24.is_raw_block. split; [|split; [|split; [|split]]].
    + vm_compute. repeat constructor; discriminate.
    + vm_compute. reflexivity.
    + vm_compute. discriminate.
    + vm_compute. reflexivity.
    + vm_compute. reflexivity.
Defined.

Lemma pxr24_float_roundtrip_witness :
  let cs := [ {| Pxr24.ctype := Pxr24.FLOAT; Pxr24.xSampling := 1; Pxr24.ySampling := 1 |} ] in
  let blk := [ (Pxr24.FLOAT, [0x3F800100; 0x7F7FFFFF]) ] in
  exists out : list byte,
    Pxr24.compress Pxr24.example_modp Pxr24.example_numSamples Pxr24.stored_compress
      (Pxr24.example_codec cs 8) (Pxr24.block_bytes blk)
      (Z.of_nat (length (Pxr24.block_bytes blk))) Pxr24.example_range = Ret out /\
    Pxr24.uncompress Pxr24.example_modp Pxr24.example_numSamples
      Pxr24.stored_uncompress (Pxr24.example_codec cs 8) out
      (Z.of_nat (length out)) Pxr24.example_range
      = Ret (Pxr24.block_bytes [ (Pxr24.FLOAT, [0x3F800100; 0x7F7FFF00]) ]).
Proof.
  intros cs blk.
  destruct (pxr24_float_roundtrip Pxr24.example_modp Pxr24.example_numSamples
              Pxr24.stored_compress Pxr24.stored_uncompress stored_faithful
              (Pxr24.example_codec cs 8) Pxr24.example_range blk)
    as (out & Hc & Hu & _).
  - unfold Pxr24.is_block. split; [|split; [|split; [|split]]].
    + vm_compute. reflexivity.
    + constructor; [|constructor]. unfold Pxr24.row_ok. cbn [fst snd].
      repeat (constructor; [cbn [Pxr24.sample_ok]; lia|]). constructor.
    + vm_compute. discriminate.
    + vm_compute. reflexivity.
    + vm_compute. reflexivity.
  - exists out. split; [exact Hc | exact Hu].
Defined.

(** ** FastHuf: the decode loop *)

Section Decode.
Import FastHuf.

Lemma load_in_range {E A} (buf : list A) (p : Z) :
  0 <= p < Z.of_nat (length buf) -> exists b, @load E A buf p = Ret b.
Proof.
  intros Hp. unfold load. destruct (p <? 0) eqn:H0; [lia|].
  destruct (buf !! Z.to_nat p) as [b|] eqn:Hb; [eauto|].
  apply lookup_ge_None in Hb. lia.
Qed.

Lemma READ64_in_range (c : list byte) (p : Z) :
  0 <= p -> p + 8 <= Z.of_nat (length c) -> exists w, READ64 c p = Ret w.
Proof.
  intros H0 H8. unfold READ64.
  destruct (@load_in_range error _ c p) as [b0 ->]; [lia|].
  destruct (@load_in_range error _ c (p + 1)) as [b1 ->]; [lia|].
  destruct (@load_in_range error _ c (p + 2)) as [b2 ->]; [lia|].
  destruct (@load_in_range error _ c (p + 3)) as [b3 ->]; [lia|].
  destruct (@load_in_range error _ c (p + 4)) as [b4 ->]; [lia|].
  destruct (@load_in_range error _ c (p + 5)) as [b5 ->]; [lia|].
  destruct (@load_in_range error _ c (p + 6)) as [b6 ->]; [lia|].
  destruct (@load_in_range error _ c (p + 7)) as [b7 ->]; [lia|].
  cbn [bind]. eauto.
Qed.

Lemma decode_loop_done (fuel : nat) (d : FastHufDecoder) (src : list byte)
    (numDstElems : Z) (st : dstate) :
  numDstElems <= dstIdx st ->
  decode_loop fuel d src numDstElems st = (st, Ret tt).
Proof.
  intros H. destruct fuel; cbn [decode_loop];
    destruct (dstIdx st <? numDstElems) eqn:Hlt; try reflexivity; lia.
Qed.

(** C10.  With no element to produce, [decode] leaves [dst] as it is; it
    throws for fewer than 128 bits, succeeds for exactly 128 and reports
    trailing data for more. *)
Theorem decode_zero_elements (d : FastHufDecoder) (src : list byte)
    (numSrcBits : Z) (dst : list Z) :
  numSrcBits <= 8 * Z.of_nat (length src) ->
  decode d src numSrcBits dst 0 =
    (dst,
     if numSrcBits <? 128 then Throw InsufficientBits
     else if numSrcBits =? 128 then Ret tt
     else Throw TrailingData).
Proof.
  intros Hsrc. unfold decode.
  destruct (numSrcBits <? 128) eqn:Hlt; [reflexivity|].
  apply Z.ltb_ge in Hlt.
  destruct (READ64_in_range src 0) as [w0 ->]; [lia..|].
  destruct (READ64_in_range src 8) as [w1 ->]; [lia..|].
  rewrite decode_loop_done by (cbn; lia).
  cbn [FastHuf.numSrcBits FastHuf.dst].
  destruct (numSrcBits =? 128) eqn:H128.
  - apply Z.eqb_eq in H128. subst. reflexivity.
  - apply Z.eqb_neq in H128.
    destruct (numSrcBits - 128 =? 0) eqn:H0; [lia|]. reflexivity.
Qed.


(** ** What a turn of the loop may change *)

Lemma bind_Ret {E A B} (m : result E A) (k : A -> result E B) (b : B) :
  bind m k = Ret b -> exists a, m = Ret a /\ k a = Ret b.
Proof. destruct m; cbn; intros H; try discriminate. eauto. Qed.

Lemma refill_frame (src : list byte) (n : Z) (st st' : dstate) :
  refill src n st = Ret st' ->
  dst st' = dst st /\ dstIdx st' = dstIdx st /\ bufferNumBits st' = bufferNumBits st.
Proof.
  unfold refill. intros H. apply bind_Ret in H as ([[[[[b nb] bb] bbn] cb] cl] & _ & H).
  injection H as <-. cbn. auto.
Qed.

Lemma refill_full_frame (src : list byte) (st st' : dstate) :
  refill_full src st = Ret st' ->
  dst st' = dst st /\ dstIdx st' = dstIdx st /\ bufferNumBits st' = 64.
Proof.
  unfold refill_full. intros H. apply bind_Ret in H as (st1 & H1 & H).
  apply refill_frame in H1 as (Hd & Hi & _). injection H as <-. cbn. auto.
Qed.

Lemma refill_if_frame (src : list byte) (n : Z) (st st' : dstate) :
  ensure_bits src n st = Ret st' ->
  dst st' = dst st /\ dstIdx st' = dstIdx st.
Proof.
  unfold ensure_bits. destruct (_ <? n); intros H.
  - apply refill_full_frame in H. tauto.
  - injection H as <-. auto.
Qed.

Lemma next_symbol_frame (d : FastHufDecoder) (src : list byte) (st st' : dstate)
    (symbol : Z) :
  next_symbol d src st = Ret (symbol, st') ->
  dst st' = dst st /\ dstIdx st' = dstIdx st.
Proof.
  unfold next_symbol. intros H.
  apply bind_Ret in H as ([[codeLen sym] st1] & H1 & H).
  injection H as <- <-. cbn [set_buffer dst dstIdx].
  destruct (tableMin d <=? buffer st).
  - destruct (table_lookup d (buffer st)). injection H1 as <- <- <-. auto.
  - apply bind_Ret in H1 as (st2 & H2 & H1).
    apply refill_if_frame in H2.
    apply bind_Ret in H1 as ([cl sy] & _ & H1). injection H1 as <- <- <-. exact H2.
Qed.

Lemma store_Ret {E A} (buf buf' : list A) (p : Z) (b : A) :
  @store E A buf p b = Ret buf' ->
  0 <= p < Z.of_nat (length buf) /\ buf' = <[Z.to_nat p := b]> buf.
Proof.
  unfold store. destruct (0 <=? p) eqn:H0, (p <? Z.of_nat (length buf)) eqn:H1;
    cbn; intros H; try discriminate. injection H as <-. split; [lia | reflexivity].
Qed.

(** The copies of the previous symbol, [n] of them from index [idx + i0]:
    what the loop leaves when it ends, and that it ends when the run fits. *)
Lemma rle_copies_frame (idx : Z) (n : nat) :
  forall (i0 : Z) (out out' : list Z),
  0 <= idx + i0 ->
  for_upM n i0 (rle_copy idx) out = Ret out' ->
  length out' = length out /\
  forall j : nat,
    Z.of_nat j < idx + i0 \/ idx + i0 + Z.of_nat n <= Z.of_nat j ->
    out' !! j = out !! j.
Proof.
  induction n as [|n IH]; intros i0 out out' Hi H; cbn [for_upM] in H.
  - injection H as <-. auto.
  - apply bind_Ret in H as (out1 & H1 & H).
    unfold rle_copy in H1. apply bind_Ret in H1 as (prev & _ & H1).
    apply store_Ret in H1 as (Hr & ->).
    apply IH in H as (Hlen & Hframe); [|lia].
    rewrite length_insert in Hlen. split; [exact Hlen|].
    intros j Hj. rewrite Hframe by lia. apply list_lookup_insert_ne. lia.
Qed.

Lemma rle_copies_run (idx : Z) (n : nat) :
  forall (i0 : Z) (out : list Z) (prev : Z),
  1 <= idx -> 0 <= i0 ->
  idx + i0 + Z.of_nat n <= Z.of_nat (length out) ->
  out !! Z.to_nat (idx - 1) = Some prev ->
  exists out',
    for_upM n i0 (rle_copy idx) out = Ret out' /\
    forall j : nat,
      idx + i0 <= Z.of_nat j < idx + i0 + Z.of_nat n -> out' !! j = Some prev.
Proof.
  induction n as [|n IH]; intros i0 out prev Hidx Hi Hfit Hprev; cbn [for_upM].
  - exists out. split; [reflexivity|]. intros j Hj. lia.
  - unfold rle_copy at 1. rewrite (load_ok out (idx - 1) prev) by (lia || done).
    cbn [bind]. rewrite store_ok by lia. cbn [bind].
    destruct (IH (i0 + 1) (<[Z.to_nat (idx + i0) := prev]> out) prev)
      as (out' & Hrun & Hin); try lia.
    { rewrite length_insert. lia. }
    { rewrite list_lookup_insert_ne by lia. exact Hprev. }
    exists out'. split; [exact Hrun|].
    intros j Hj.
    destruct (Z.eq_dec (Z.of_nat j) (idx + i0)) as [Heq | Hne].
    + apply rle_copies_frame in Hrun as (_ & Hframe); [|lia].
      rewrite Hframe by lia.
      replace j with (Z.to_nat (idx + i0)) by lia.
      apply list_lookup_insert_eq. lia.
    + apply Hin. lia.
Qed.

Lemma rle_run_frame (src : list byte) (numDstElems : Z) (st st' : dstate) :
  rle_run src numDstElems st = Ret st' ->
  dstIdx st < dstIdx st' <= numDstElems /\
  length (dst st') = length (dst st) /\
  forall j : nat,
    Z.of_nat j < dstIdx st \/ dstIdx st' <= Z.of_nat j ->
    dst st' !! j = dst st !! j.
Proof.
  unfold rle_run. intros H. apply bind_Ret in H as (st1 & H1 & H).
  apply refill_if_frame in H1 as (Hd & Hi). rewrite Hd, Hi in H.
  destruct (dstIdx st <? 1) eqn:H1; [discriminate|].
  destruct (numDstElems <? _) eqn:H2; [discriminate|].
  destruct (_ <=? 0) eqn:H3; [discriminate|].
  apply bind_Ret in H as (out & Hout & H). injection H as <-.
  cbn [set_dst dst dstIdx].
  apply rle_copies_frame in Hout as (Hlen & Hframe); [|lia].
  rewrite Z2Nat.id in Hframe by lia.
  split; [lia|]. split; [exact Hlen|].
  intros j Hj. apply Hframe. lia.
Qed.

Lemma decode_step_frame (d : FastHufDecoder) (src : list byte) (numDstElems : Z)
    (st st' : dstate) :
  decode_step d src numDstElems st = Ret st' ->
  dstIdx st < numDstElems ->
  dstIdx st < dstIdx st' <= numDstElems /\
  length (dst st') = length (dst st) /\
  forall j : nat,
    Z.of_nat j < dstIdx st \/ dstIdx st' <= Z.of_nat j ->
    dst st' !! j = dst st !! j.
Proof.
  unfold decode_step. intros H Hlt.
  apply bind_Ret in H as ([symbol st1] & H1 & H).
  apply next_symbol_frame in H1 as (Hd1 & Hi1).
  apply bind_Ret in H as (st2 & H2 & H).
  apply refill_if_frame in H as (Hd3 & Hi3). rewrite Hd3, Hi3.
  destruct (symbol =? rleSymbol d).
  - apply rle_run_frame in H2. rewrite Hd1, Hi1 in H2. exact H2.
  - apply bind_Ret in H2 as (out & Hout & H2). injection H2 as <-.
    cbn [set_dst dst dstIdx]. rewrite Hd1, Hi1 in *.
    apply store_Ret in Hout as (Hr & ->).
    split; [lia|]. split; [apply length_insert|].
    intros j Hj. apply list_lookup_insert_ne. lia.
Qed.

Lemma decode_loop_frame (fuel : nat) (d : FastHufDecoder) (src : list byte)
    (numDstElems : Z) :
  forall (st st' : dstate) (r : res unit),
  decode_loop fuel d src numDstElems st = (st', r) ->
  dstIdx st <= dstIdx st' <= Z.max (dstIdx st) numDstElems /\
  length (dst st') = length (dst st) /\
  forall j : nat, dstIdx st' <= Z.of_nat j -> dst st' !! j = dst st !! j.
Proof.
  induction fuel as [|fuel IH]; intros st st' r H; cbn [decode_loop] in H;
    destruct (dstIdx st <? numDstElems) eqn:Hlt;
    try (injection H as <- <-; repeat split; auto; lia).
  destruct (decode_step d src numDstElems st) as [st1| |] eqn:Hstep;
    try (injection H as <- <-; repeat split; auto; lia).
  apply decode_step_frame in Hstep as (Hi & Hlen & Hframe); [|lia].
  apply IH in H as (Hi' & Hlen' & Hframe').
  split; [lia|]. split; [congruence|].
  intros j Hj. rewrite Hframe' by lia. apply Hframe. lia.
Qed.

(** ** The errors a turn of the loop can raise *)

Lemma bind_Throw {E A B} (m : result E A) (k : A -> result E B) (e : E) :
  bind m k = Throw e -> m = Throw e \/ exists a, m = Ret a /\ k a = Throw e.
Proof.
  destruct m; cbn; intros H; [right; eauto | left; congruence | discriminate].
Qed.

Lemma load_no_throw {A} (buf : list A) (p : Z) (e : error) : load buf p <> Throw e.
Proof. unfold load. destruct (p <? 0); [discriminate|]. now destruct (buf !! _). Qed.

Lemma store_no_throw {A} (buf : list A) (p : Z) (b : A) (e : error) :
  store buf p b <> Throw e.
Proof. unfold store. now destruct (_ && _). Qed.

Lemma READ64_no_throw (c : list byte) (p : Z) (e : error) : READ64 c p <> Throw e.
Proof.
  unfold READ64. intros H.
  repeat (apply bind_Throw in H as [H | (? & _ & H)];
          [now apply load_no_throw in H|]).
  discriminate.
Qed.

Lemma refill_tail_no_throw (fuel : nat) (src : list byte) (e : error) :
  forall bb shift cb cl, refill_tail fuel src bb shift cb cl <> Throw e.
Proof.
  induction fuel as [|fuel IH]; intros bb shift cb cl H; cbn [refill_tail] in H;
    destruct (0 <? cl); try discriminate.
  apply bind_Throw in H as [H | (? & _ & H)]; [now apply load_no_throw in H|].
  now apply IH in H.
Qed.

Lemma refill_no_throw (src : list byte) (n : Z) (st : dstate) (e : error) :
  refill src n st <> Throw e.
Proof.
  unfold refill. intros H.
  apply bind_Throw in H as [H | ([[[[[? ?] ?] ?] ?] ?] & _ & H)]; [|discriminate].
  destruct (bufferBackNumBits st <? n); [|discriminate].
  apply bind_Throw in H as [H | ([[? ?] ?] & _ & H)]; [|discriminate].
  destruct (64 <=? FastHuf.numSrcBits st).
  - apply bind_Throw in H as [H | (? & _ & H)]; [now apply READ64_no_throw in H|].
    discriminate.
  - apply bind_Throw in H as [H | ([[? ?] ?] & _ & H)]; [|discriminate].
    now apply refill_tail_no_throw in H.
Qed.

Lemma refill_full_no_throw (src : list byte) (st : dstate) (e : error) :
  refill_full src st <> Throw e.
Proof.
  unfold refill_full. intros H.
  apply bind_Throw in H as [H | (? & _ & H)]; [now apply refill_no_throw in H|].
  discriminate.
Qed.

Lemma refill_if_no_throw (src : list byte) (n : Z) (st : dstate) (e : error) :
  ensure_bits src n st <> Throw e.
Proof.
  unfold ensure_bits. destruct (_ <? n); [apply refill_full_no_throw | discriminate].
Qed.

Lemma rle_copies_no_throw (idx : Z) (n : nat) (e : error) :
  forall i0 out, for_upM n i0 (rle_copy idx) out <> Throw e.
Proof.
  induction n as [|n IH]; intros i0 out H; cbn [for_upM] in H; [discriminate|].
  apply bind_Throw in H as [H | (? & _ & H)]; [|now apply IH in H].
  unfold rle_copy in H.
  apply bind_Throw in H as [H | (? & _ & H)]; [now apply load_no_throw in H|].
  now apply store_no_throw in H.
Qed.



(** ** Runs *)

Lemma rle_run_result (src : list byte) (numDstElems : Z) (st st2 : dstate) :
  ensure_bits src 8 st = Ret st2 ->
  let rleCount := Z.shiftr (buffer st2) 56 in
  rle_run src numDstElems st =
    if dstIdx st <? 1 then Throw RleBeforeFirst
    else if numDstElems <? dstIdx st + rleCount then Throw RleOverrun
    else if rleCount <=? 0 then Throw RleInvalid
    else
      out <- for_upM (Z.to_nat rleCount) 0 (rle_copy (dstIdx st)) (dst st) ;;
      Ret (set_dst
             (set_buffer st2 (wrap64 (Z.shiftl (buffer st2) 8)) (bufferNumBits st2 - 8))
             out (dstIdx st + rleCount)).
Proof.
  intros H2 rleCount. unfold rle_run. rewrite H2. cbn [bind].
  destruct (refill_if_frame _ _ _ _ H2) as (-> & ->). reflexivity.
Qed.

Lemma rle_copies_list (idx : Z) (n : nat) (out out' : list Z) (prev : Z) :
  1 <= idx -> idx + Z.of_nat n <= Z.of_nat (length out) ->
  for_upM n 0 (rle_copy idx) out = Ret out' ->
  (forall j : nat, idx <= Z.of_nat j < idx + Z.of_nat n -> out' !! j = Some prev) ->
  out' = take (Z.to_nat idx) out ++ replicate n prev ++ drop (Z.to_nat idx + n) out.
Proof.
  intros Hidx Hfit Hrun Hin.
  apply rle_copies_frame in Hrun as (Hlen & Hframe); [|lia].
  apply list_eq. intros j.
  destruct (Z.lt_ge_cases (Z.of_nat j) idx) as [Hlo | Hlo].
  - rewrite Hframe by lia. rewrite lookup_app_l by (rewrite length_take; lia).
    symmetry. apply lookup_take_lt. lia.
  - rewrite lookup_app_r by (rewrite length_take; lia).
    rewrite length_take, Nat.min_l by lia.
    destruct (Z.lt_ge_cases (Z.of_nat j) (idx + Z.of_nat n)) as [Hhi | Hhi].
    + rewrite Hin by lia. rewrite lookup_app_l by (rewrite length_replicate; lia).
      symmetry. apply lookup_replicate_2. lia.
    + rewrite Hframe by lia.
      rewrite lookup_app_r by (rewrite length_replicate; lia).
      rewrite length_replicate, lookup_drop. f_equal. lia.
Qed.

(** C8, amended.  The checks of a run are made in order: when the loop has
    decoded the RLE symbol and the eight bits of the count are in [buffer],
    the turn raises [RleBeforeFirst] exactly when [dstIdx < 1]; otherwise
    [RleOverrun] exactly when [dstIdx + rleCount > numDstElems]; otherwise
    [RleInvalid] exactly when [rleCount <= 0]; otherwise it appends
    [rleCount] copies of [dst[dstIdx - 1]] and takes the eight bits off
    [buffer], before the refill that ends every turn.  The stream of symbol
    5, the RLE symbol 7 and the count 3 decodes to [5; 5; 5; 5]. *)
Theorem rle_semantics :
  (forall (d : FastHufDecoder) (src : list byte) (numDstElems : Z)
          (st st1 st2 : dstate),
     next_symbol d src st = Ret (rleSymbol d, st1) ->
     ensure_bits src 8 st1 = Ret st2 ->
     let rleCount := Z.shiftr (buffer st2) 56 in
     (decode_step d src numDstElems st = Throw RleBeforeFirst <-> dstIdx st < 1) /\
     (decode_step d src numDstElems st = Throw RleOverrun <->
        1 <= dstIdx st /\ numDstElems < dstIdx st + rleCount) /\
     (decode_step d src numDstElems st = Throw RleInvalid <->
        1 <= dstIdx st /\ dstIdx st + rleCount <= numDstElems /\ rleCount <= 0) /\
     (1 <= dstIdx st -> dstIdx st + rleCount <= numDstElems -> 0 < rleCount ->
      numDstElems <= Z.of_nat (length (dst st)) ->
      exists (prev : Z) (st3 : dstate),
        dst st !! Z.to_nat (dstIdx st - 1) = Some prev /\
        dst st3 = take (Z.to_nat (dstIdx st)) (dst st)
                  ++ replicate (Z.to_nat rleCount) prev
                  ++ drop (Z.to_nat (dstIdx st) + Z.to_nat rleCount) (dst st) /\
        dstIdx st3 = dstIdx st + rleCount /\
        buffer st3 = wrap64 (Z.shiftl (buffer st2) 8) /\
        bufferNumBits st3 = bufferNumBits st2 - 8 /\
        decode_step d src numDstElems st = ensure_bits src TABLE_LOOKUP_BITS st3)) /\
  decode rle_decoder rle_payload 128 [0; 0; 0; 0] 4 = ([5; 5; 5; 5], Ret tt).
Proof.
  split; [|vm_compute; reflexivity].
  intros d src numDstElems st st1 st2 Hnext Hready rleCount.
  destruct (next_symbol_frame _ _ _ _ _ Hnext) as (Hd1 & Hi1).
  assert (Hstep : decode_step d src numDstElems st =
                  bind (rle_run src numDstElems st1)
                    (ensure_bits src TABLE_LOOKUP_BITS)).
  { unfold decode_step. rewrite Hnext. cbn [bind]. now rewrite Z.eqb_refl. }
  pose proof (rle_run_result src numDstElems st1 st2 Hready) as Hrun.
  cbv zeta in Hrun. fold rleCount in Hrun. rewrite Hi1, Hd1 in Hrun.
  assert (Hthrow : forall e, decode_step d src numDstElems st = Throw e <->
                             rle_run src numDstElems st1 = Throw e).
  { intros e. rewrite Hstep. split.
    - intros H. apply bind_Throw in H as [H | (st' & _ & H)]; [exact H|].
      now apply refill_if_no_throw in H.
    - intros ->. reflexivity. }
  rewrite !Hthrow, Hrun.
  destruct (dstIdx st <? 1) eqn:H1;
    [repeat split; intros; try discriminate; try lia|].
  destruct (numDstElems <? dstIdx st + rleCount) eqn:H2;
    [repeat split; intros; try discriminate; try lia|].
  destruct (rleCount <=? 0) eqn:H3;
    [repeat split; intros; try discriminate; try lia|].
  assert (Hno : forall e, bind (for_upM (Z.to_nat rleCount) 0 (rle_copy (dstIdx st)) (dst st))
                  (fun out => Ret (set_dst (set_buffer st2 (wrap64 (Z.shiftl (buffer st2) 8))
                      (bufferNumBits st2 - 8)) out (dstIdx st + rleCount))) <> Throw e).
  { intros e H. apply bind_Throw in H as [H | (? & _ & H)]; [|discriminate].
    now apply rle_copies_no_throw in H. }
  split; [split; [intros H; now apply Hno in H | lia]|].
  split; [split; [intros H; now apply Hno in H | lia]|].
  split; [split; [intros H; now apply Hno in H | lia]|].
  intros Hge Hfit Hpos Hlen.
  destruct (dst st !! Z.to_nat (dstIdx st - 1)) as [prev|] eqn:Hprev;
    [|apply lookup_ge_None in Hprev; lia].
  destruct (rle_copies_run (dstIdx st) (Z.to_nat rleCount) 0 (dst st) prev)
    as (out & Hout & Hin); try lia; try done.
  rewrite Z.add_0_r in Hin.
  exists prev, (set_dst (set_buffer st2 (wrap64 (Z.shiftl (buffer st2) 8))
                  (bufferNumBits st2 - 8)) out (dstIdx st + rleCount)).
  cbn [set_dst set_buffer dst dstIdx buffer bufferNumBits].
  split; [reflexivity|]. split.
  { apply rle_copies_list; try lia; done. }
  do 3 (split; [reflexivity|]).
  rewrite Hstep, Hrun, Hout. reflexivity.
Qed.

End Decode.

Lemma decode_zero_elements_witness :
  FastHuf.decode FastHuf.rle_decoder FastHuf.rle_payload 128 [7; 7] 0 = ([7; 7], Ret tt).
Proof.
  apply (decode_zero_elements FastHuf.rle_decoder FastHuf.rle_payload 128 [7; 7]).
  cbn. lia.
Defined.

Lemma rle_semantics_witness :
  (FastHuf.decode_step FastHuf.rle_decoder FastHuf.rle_payload 4 FastHuf.rle_second_state
     = Throw FastHuf.RleBeforeFirst <-> FastHuf.dstIdx FastHuf.rle_second_state < 1) /\
  (FastHuf.decode_step FastHuf.rle_decoder FastHuf.rle_payload 4 FastHuf.rle_second_state
     = Throw FastHuf.RleOverrun <->
   1 <= FastHuf.dstIdx FastHuf.rle_second_state /\
   4 < FastHuf.dstIdx FastHuf.rle_second_state + 3).
Proof.
  pose (st1 := FastHuf.set_buffer FastHuf.rle_second_state 0x0300000000000000 62).
  destruct (proj1 rle_semantics FastHuf.rle_decoder FastHuf.rle_payload 4
              FastHuf.rle_second_state st1 st1) as (H1 & H2 & _).
  - vm_compute. reflexivity.
  - vm_compute. reflexivity.
  - split; [exact H1 | exact H2].
Defined.

(** C8 as stated fails: when the RLE symbol comes first, with a count of
    nine for four elements, [dstIdx + rleCount > numDstElems] holds and the
    error is [RleBeforeFirst], not [RleOverrun]. *)
Lemma rle_overrun_not_exact :
  let st1 := FastHuf.set_buffer FastHuf.rle_first_state 0x0900000000000000 63 in
  FastHuf.next_symbol FastHuf.rle_decoder FastHuf.rle_first_payload FastHuf.rle_first_state
    = Ret (FastHuf.rleSymbol FastHuf.rle_decoder, st1) /\
  FastHuf.ensure_bits FastHuf.rle_first_payload 8 st1 = Ret st1 /\
  Z.shiftr (FastHuf.buffer st1) 56 = 9 /\
  FastHuf.decode_step FastHuf.rle_decoder FastHuf.rle_first_payload 4 FastHuf.rle_first_state
    = Throw FastHuf.RleBeforeFirst /\
  ~ (FastHuf.decode_step FastHuf.rle_decoder FastHuf.rle_first_payload 4
       FastHuf.rle_first_state = Throw FastHuf.RleOverrun <->
     FastHuf.dstIdx FastHuf.rle_first_state + 9 > 4).
Proof.
  repeat split; try (vm_compute; reflexivity).
  intros [_ H]. assert (Hstep : FastHuf.decode_step FastHuf.rle_decoder
    FastHuf.rle_first_payload 4 FastHuf.rle_first_state = Throw FastHuf.RleOverrun)
    by (apply H; vm_compute; reflexivity).
  vm_compute in Hstep. discriminate Hstep.
Qed.


(** ** FastHuf: the constructor *)

(** ** Loops and arrays *)

Lemma for_up_inv {St : Type} (P : Z -> St -> Prop) (body : Z -> St -> St) (n : nat) :
  forall (i0 : Z) (s : St),
  P i0 s ->
  (forall i s, i0 <= i < i0 + Z.of_nat n -> P i s -> P (i + 1) (body i s)) ->
  P (i0 + Z.of_nat n) (for_up n i0 body s).
Proof.
  induction n as [|n IH]; intros i0 s H0 Hstep; cbn [for_up].
  - now rewrite Z.add_0_r.
  - replace (i0 + Z.of_nat (S n)) with (i0 + 1 + Z.of_nat n) by lia.
    apply IH.
    + apply Hstep; [lia | exact H0].
    + intros i s' Hi. apply Hstep. lia.
Qed.

Lemma for_down_inv {St : Type} (P : Z -> St -> Prop) (body : Z -> St -> St) (n : nat) :
  forall (i0 : Z) (s : St),
  P i0 s ->
  (forall i s, i0 - Z.of_nat n < i <= i0 -> P i s -> P (i - 1) (body i s)) ->
  P (i0 - Z.of_nat n) (for_down n i0 body s).
Proof.
  induction n as [|n IH]; intros i0 s H0 Hstep; cbn [for_down].
  - now rewrite Z.sub_0_r.
  - replace (i0 - Z.of_nat (S n)) with (i0 - 1 - Z.of_nat n) by lia.
    apply IH.
    + apply Hstep; [lia | exact H0].
    + intros i s' Hi. apply Hstep. lia.
Qed.

Lemma for_upM_inv {E St : Type} (P : Z -> St -> Prop) (body : Z -> St -> result E St)
    (n : nat) :
  forall (i0 : Z) (s s' : St),
  P i0 s ->
  (forall i s s', i0 <= i < i0 + Z.of_nat n -> P i s -> body i s = Ret s' ->
                  P (i + 1) s') ->
  for_upM n i0 body s = Ret s' ->
  P (i0 + Z.of_nat n) s'.
Proof.
  induction n as [|n IH]; intros i0 s s' H0 Hstep Hrun; cbn [for_upM] in Hrun.
  - injection Hrun as <-. now rewrite Z.add_0_r.
  - destruct (body i0 s) as [s1| |] eqn:Hb; try discriminate. cbn [bind] in Hrun.
    replace (i0 + Z.of_nat (S n)) with (i0 + 1 + Z.of_nat n) by lia.
    apply (IH (i0 + 1) s1 s'); [|intros i t t' Hi; apply Hstep; lia | exact Hrun].
    apply (Hstep i0 s s1); [lia | exact H0 | exact Hb].
Qed.

Lemma foldM_inv {E A St : Type} (P : list A -> St -> Prop) (f : A -> St -> result E St)
    (l : list A) :
  forall (done : list A) (s s' : St),
  P done s ->
  (forall a done s s', P done s -> f a s = Ret s' -> P (done ++ [a]) s') ->
  foldM f l s = Ret s' ->
  P (done ++ l) s'.
Proof.
  induction l as [|a l IH]; intros done s s' H0 Hstep Hrun; cbn [foldM] in Hrun.
  - injection Hrun as <-. now rewrite app_nil_r.
  - destruct (f a s) as [s1| |] eqn:Hf; try discriminate. cbn [bind] in Hrun.
    replace (done ++ a :: l) with ((done ++ [a]) ++ l) by now rewrite <- app_assoc.
    apply (IH (done ++ [a]) s1 s'); [|exact Hstep | exact Hrun].
    apply (Hstep a done s s1); assumption.
Qed.

Lemma arr_get_set_same (a : list Z) (i v : Z) :
  0 <= i < Z.of_nat (length a) -> arr_get (arr_set a i v) i = v.
Proof.
  intros Hi. unfold arr_get, arr_set.
  apply nth_lookup_Some with (d := 0). apply list_lookup_insert_eq. lia.
Qed.

Lemma arr_get_set_other (a : list Z) (i j v : Z) :
  0 <= i -> 0 <= j -> i <> j -> arr_get (arr_set a i v) j = arr_get a j.
Proof.
  intros Hi Hj Hne. unfold arr_get, arr_set.
  rewrite !nth_lookup. now rewrite list_lookup_insert_ne by lia.
Qed.

Lemma length_arr_set (a : list Z) (i v : Z) : length (arr_set a i v) = length a.
Proof. apply length_insert. Qed.

Lemma arr_get_repeat (v : Z) (n : nat) (i : Z) :
  0 <= i < Z.of_nat n -> arr_get (repeat v n) i = v.
Proof.
  intros Hi. unfold arr_get. apply nth_repeat_lt. lia.
Qed.

(** ** The scan of the code lengths *)

Section Scan.
Import FastHuf.

Lemma count_len_app (L : Z) (l1 l2 : list Z) :
  count_len L (l1 ++ l2) = count_len L l1 + count_len L l2.
Proof. induction l1 as [|x l1 IH]; cbn [count_len app]; lia. Qed.

Lemma count_len_nonneg (L : Z) (l : list Z) : 0 <= count_len L l.
Proof. induction l as [|x l IH]; cbn [count_len]; [lia|]. destruct (_ =? L); lia. Qed.

Lemma int_mask_small (n : Z) :
  0 <= n <= 30 -> int_mask n = Ret (Z.shiftl 1 n - 1).
Proof.
  intros Hn. unfold int_mask.
  destruct (Z.leb_spec 0 n); [|lia]. destruct (Z.leb_spec n 30); [reflexivity | lia].
Qed.

Lemma readBits_range (n : Z) (table : list byte) (b bc cb v b' bc' cb' : Z) :
  0 <= n ->
  readBits n table b bc cb = Ret (v, b', bc', cb') -> 0 <= v < 2 ^ n.
Proof.
  intros Hn H. unfold readBits, int_mask in H.
  destruct (readBits_fill _ _ _ _ _ _) as [[[x y] z]| |]; try discriminate.
  cbn [bind] in H. destruct (_ && _); [|discriminate].
  cbn [bind] in H. injection H as <- _ _ _.
  rewrite Z.shiftl_1_l. change (2 ^ n - 1) with (Z.pred (2 ^ n)).
  rewrite <- Z.ones_equiv, Z.land_ones by lia. apply Z.mod_pos_bound. lia.
Qed.

Lemma entry_len (symbol codeLen : Z) :
  0 <= codeLen < 64 ->
  Z.land (Z.lor (wrap64 (Z.shiftl symbol 6)) (Z.land codeLen 63)) 63 = codeLen.
Proof.
  intros Hc. change 63 with (Z.ones 6). rewrite !Z.land_ones by lia.
  rewrite (Z.mod_small codeLen) by lia.
  unfold wrap64. rewrite Z.shiftl_mul_pow2 by lia.
  assert (Hq : (symbol * 2 ^ 6) mod 2 ^ 64 = ((symbol * 2 ^ 6) mod 2 ^ 64 / 2 ^ 6) * 2 ^ 6).
  { Z.div_mod_to_equations. lia. }
  rewrite Hq, lor_high_low by lia.
  rewrite Z.add_comm, Z.mod_add by lia. apply Z.mod_small. lia.
Qed.

Lemma scan_symbol_inv (table : list byte) (numBytes maxSymbol symbol symbol' : Z)
    (st st' : scan_state) :
  scan_inv st ->
  scan_symbol table numBytes maxSymbol symbol st = Ret (symbol', st') ->
  scan_inv st' /\ (length (symbols st') <= S (length (symbols st)))%nat.
Proof.
  intros Hinv H. unfold scan_symbol in H.
  destruct (numBytes <=? currByte st); [discriminate|].
  destruct (readBits 6 _ _ _ _) as [[[[codeLen bits] bitCount] byte]| |] eqn:Hread;
    try discriminate.
  apply readBits_range in Hread; [|lia]. cbn [bind] in H.
  assert (Hkeep : forall b c y, scan_inv (set_reader st b c y) /\
             (length (symbols (set_reader st b c y)) <= S (length (symbols st)))%nat).
  { intros. split; [exact Hinv | cbn; lia]. }
  destruct (codeLen =? LONG_ZEROCODE_RUN) eqn:H63.
  { destruct (numBytes <=? byte); [discriminate|].
    destruct (readBits 8 _ _ _ _) as [[[[r bits'] bitCount'] byte']| |];
      try discriminate.
    cbn [bind] in H. destruct (_ <? _); [discriminate|]. injection H as _ <-.
    apply Hkeep. }
  destruct (SHORT_ZEROCODE_RUN <=? codeLen) eqn:H59.
  { destruct (_ <? _); [discriminate|]. injection H as _ <-. apply Hkeep. }
  destruct (codeLen =? 0) eqn:H0; cbn [negb] in H.
  { injection H as _ <-. apply Hkeep. }
  injection H as _ <-.
  apply Z.eqb_neq in H0. apply Z.leb_gt in H59. unfold SHORT_ZEROCODE_RUN in H59.
  destruct Hinv as (Hlen & Hcount & Hall & Hext).
  pose proof (entry_len symbol codeLen ltac:(lia)) as Hentry.
  split; [|cbn; rewrite length_app; cbn; lia].
  unfold scan_inv. cbn [symbols codeCount scanMinCodeLength scanMaxCodeLength].
  split; [now rewrite length_arr_set|]. split; [|split].
  - intros L HL. rewrite count_len_app. cbn [count_len]. rewrite Hentry.
    destruct (Z.eq_dec codeLen L) as [-> | Hne].
    + rewrite arr_get_set_same by lia. rewrite Z.eqb_refl, Hcount by lia. lia.
    + rewrite arr_get_set_other by lia.
      destruct (codeLen =? L) eqn:HL'; [lia|]. rewrite Hcount by lia. lia.
  - apply Forall_app. split.
    + eapply Forall_impl; [|exact Hall]. cbn. intros x (Hx1 & Hx2).
      destruct (codeLen <? _) eqn:Hmin, (_ <? codeLen) eqn:Hmax; lia.
    + constructor; [|constructor]. rewrite Hentry.
      destruct (codeLen <? _) eqn:Hmin, (_ <? codeLen) eqn:Hmax; lia.
  - right. rewrite !count_len_app. cbn [count_len]. rewrite Hentry.
    pose proof (count_len_nonneg (scanMinCodeLength st) (symbols st)).
    pose proof (count_len_nonneg (scanMaxCodeLength st) (symbols st)).
    pose proof (count_len_nonneg codeLen (symbols st)).
    destruct Hext as [(Hnil & Hmin0 & Hmax0) | (Hmin1 & Hmax1)].
    + rewrite Hmin0, Hmax0.
      destruct (codeLen <? 255) eqn:Hmin, (0 <? codeLen) eqn:Hmax; try lia.
      rewrite Z.eqb_refl. lia.
    + split.
      * destruct (codeLen <? _) eqn:Hmin; [rewrite Z.eqb_refl; lia|].
        destruct (codeLen =? scanMinCodeLength st); lia.
      * destruct (_ <? codeLen) eqn:Hmax; [rewrite Z.eqb_refl; lia|].
        destruct (codeLen =? scanMaxCodeLength st); lia.
Qed.

Lemma scan_inv_run (fuel : nat) (table : list byte) (numBytes maxSymbol : Z) :
  forall (symbol : Z) (st st' : scan_state),
  scan_inv st ->
  scan fuel table numBytes maxSymbol symbol st = Ret st' ->
  scan_inv st' /\ (length (symbols st') <= length (symbols st) + fuel)%nat.
Proof.
  induction fuel as [|fuel IH]; intros symbol st st' Hinv H; cbn [scan] in H;
    destruct (symbol <=? wrap64 maxSymbol); try discriminate;
    try (injection H as <-; split; [exact Hinv | lia]).
  destruct (scan_symbol _ _ _ _ _) as [[symbol1 st1]| |] eqn:Hsym; try discriminate.
  cbn [bind] in H.
  apply scan_symbol_inv in Hsym as (Hinv1 & Hlen1); [|exact Hinv].
  apply IH in H as (Hinv' & Hlen'); [|exact Hinv1].
  split; [exact Hinv' | lia].
Qed.

Lemma scan_table_inv (table : list byte) (numBytes minSymbol maxSymbol : Z)
    (st : scan_state) :
  scan_table table numBytes minSymbol maxSymbol = Ret st ->
  scan_inv st /\ Z.of_nat (length (symbols st)) <= Z.max 0 (8 * numBytes) + 1.
Proof.
  unfold scan_table. intros H. apply scan_inv_run in H as (Hinv & Hlen).
  - split; [exact Hinv|]. cbn [symbols length] in Hlen. lia.
  - unfold scan_inv. cbn [symbols codeCount scanMinCodeLength scanMaxCodeLength].
    split; [reflexivity|]. split; [|split; [constructor | left; auto]].
    intros L HL. cbn [count_len]. apply arr_get_repeat. unfold MAX_CODE_LEN. lia.
Qed.

(** ** Sums of code counts *)

Lemma sum_from_ext (n : nat) :
  forall (i : Z) (f g : Z -> Z),
  (forall k, i <= k < i + Z.of_nat n -> f k = g k) ->
  sum_from n i f = sum_from n i g.
Proof.
  induction n as [|n IH]; intros i f g H; cbn [sum_from]; [reflexivity|].
  rewrite (H i) by lia. f_equal. apply IH. intros k Hk. apply H. lia.
Qed.

Lemma sum_from_app (n m : nat) :
  forall (i : Z) (f : Z -> Z),
  sum_from (n + m) i f = sum_from n i f + sum_from m (i + Z.of_nat n) f.
Proof.
  induction n as [|n IH]; intros i f; cbn [sum_from Nat.add].
  - now rewrite Z.add_0_r.
  - rewrite IH. replace (i + 1 + Z.of_nat n) with (i + Z.of_nat (S n)) by lia. ring.
Qed.

Lemma sum_from_zero (n : nat) :
  forall (i : Z) (f : Z -> Z),
  (forall k, i <= k < i + Z.of_nat n -> f k = 0) -> sum_from n i f = 0.
Proof.
  induction n as [|n IH]; intros i f H; cbn [sum_from]; [reflexivity|].
  rewrite (H i) by lia. rewrite IH; [reflexivity|]. intros k Hk. apply H. lia.
Qed.

Lemma sum_from_nonneg (n : nat) :
  forall (i : Z) (f : Z -> Z),
  (forall k, i <= k < i + Z.of_nat n -> 0 <= f k) -> 0 <= sum_from n i f.
Proof.
  induction n as [|n IH]; intros i f H; cbn [sum_from]; [lia|].
  specialize (H i ltac:(lia)) as H0.
  specialize (IH (i + 1) f ltac:(intros k Hk; apply H; lia)). lia.
Qed.

Lemma sum_from_add (n : nat) :
  forall (i : Z) (f g : Z -> Z),
  sum_from n i (fun k => f k + g k) = sum_from n i f + sum_from n i g.
Proof.
  induction n as [|n IH]; intros i f g; cbn [sum_from]; [reflexivity|].
  rewrite IH. lia.
Qed.

Lemma sum_from_indicator (n : nat) (c : Z) :
  forall i : Z,
  sum_from n i (fun k => if c =? k then 1 else 0) =
  if (i <=? c) && (c <? i + Z.of_nat n) then 1 else 0.
Proof.
  induction n as [|n IH]; intros i; cbn [sum_from].
  - destruct (Z.leb_spec i c), (Z.ltb_spec c (i + Z.of_nat 0)); cbn [andb]; lia.
  - rewrite IH.
    destruct (Z.eqb_spec c i), (Z.leb_spec (i + 1) c),
      (Z.ltb_spec c (i + 1 + Z.of_nat n)), (Z.leb_spec i c),
      (Z.ltb_spec c (i + Z.of_nat (S n))); cbn [andb]; lia.
Qed.

Lemma sum_range_split (f : Z -> Z) (a b c : Z) :
  a <= b + 1 -> b <= c ->
  sum_range f a c = sum_range f a b + sum_range f (b + 1) c.
Proof.
  intros Hab Hbc. unfold sum_range, count.
  replace (Z.to_nat (c - a + 1))
    with (Z.to_nat (b - a + 1) + Z.to_nat (c - (b + 1) + 1))%nat by lia.
  rewrite sum_from_app. do 2 f_equal. lia.
Qed.

Lemma sum_range_one (f : Z -> Z) (a : Z) : sum_range f a a = f a.
Proof.
  unfold sum_range, count. replace (Z.to_nat (a - a + 1)) with 1%nat by lia.
  cbn. lia.
Qed.

Lemma sum_range_empty (f : Z -> Z) (a b : Z) : b < a -> sum_range f a b = 0.
Proof.
  intros H. unfold sum_range, count. now replace (Z.to_nat (b - a + 1)) with 0%nat by lia.
Qed.

Lemma sum_count_len (l : list Z) :
  Forall (fun x => 1 <= Z.land x 63 <= 58) l ->
  sum_range (fun L => count_len L l) 0 58 = Z.of_nat (length l).
Proof.
  unfold sum_range. change (count 0 58) with 59%nat.
  induction 1 as [|x l Hx Hl IH]; cbn [count_len length].
  - apply sum_from_zero. reflexivity.
  - rewrite sum_from_add, IH, sum_from_indicator.
    destruct (Z.leb_spec 0 (Z.land x 63)),
      (Z.ltb_spec (Z.land x 63) (0 + Z.of_nat 59)); cbn [andb]; lia.
Qed.

Lemma sum_from_prefix_le (n m : nat) (i : Z) (f : Z -> Z) :
  (m <= n)%nat ->
  (forall k, i <= k < i + Z.of_nat n -> 0 <= f k) ->
  sum_from m i f <= sum_from n i f.
Proof.
  intros Hmn Hf. replace n with (m + (n - m))%nat by lia. rewrite sum_from_app.
  pose proof (sum_from_nonneg (n - m) (i + Z.of_nat m) f) as H.
  specialize (H ltac:(intros k Hk; apply Hf; lia)). lia.
Qed.

Lemma sum_range_nonneg (f : Z -> Z) (a b : Z) :
  (forall k, a <= k <= b -> 0 <= f k) -> 0 <= sum_range f a b.
Proof.
  intros Hf. apply sum_from_nonneg. intros k Hk. apply Hf. unfold count in Hk. lia.
Qed.

Lemma sum_range_zero (f : Z -> Z) (a b : Z) :
  (forall k, a <= k <= b -> f k = 0) -> sum_range f a b = 0.
Proof.
  intros Hf. apply sum_from_zero. intros k Hk. apply Hf. unfold count in Hk. lia.
Qed.

Lemma sum_range_first (f : Z -> Z) (a b : Z) :
  a <= b -> sum_range f a b = f a + sum_range f (a + 1) b.
Proof.
  intros Hab. rewrite (sum_range_split f a a b) by lia. now rewrite sum_range_one.
Qed.

Lemma sum_range_last (f : Z -> Z) (a b : Z) :
  a <= b -> sum_range f a b = sum_range f a (b - 1) + f b.
Proof.
  intros Hab. rewrite (sum_range_split f a (b - 1) b) by lia.
  replace (b - 1 + 1) with b by lia. now rewrite sum_range_one.
Qed.

(** A sum over a part of the range, of terms that are not negative. *)
Lemma sum_range_sub (f : Z -> Z) (a b a' b' : Z) :
  (forall k, a <= k <= b -> 0 <= f k) -> a <= a' -> b' <= b ->
  sum_range f a' b' <= sum_range f a b.
Proof.
  intros Hf Ha Hb. destruct (Z.lt_ge_cases b' a') as [Hlt | Hge].
  - rewrite (sum_range_empty f a' b') by lia. now apply sum_range_nonneg.
  - rewrite (sum_range_split f a (a' - 1) b) by lia.
    replace (a' - 1 + 1) with a' by lia.
    rewrite (sum_range_split f a' b' b) by lia.
    pose proof (sum_range_nonneg f a (a' - 1) ltac:(intros; apply Hf; lia)).
    pose proof (sum_range_nonneg f (b' + 1) b ltac:(intros; apply Hf; lia)).
    lia.
Qed.

Lemma to_int_small (z : Z) : 0 <= z < 2 ^ 31 -> to_int z = z.
Proof.
  intros H. unfold to_int. rewrite Z.mod_small by lia.
  destruct (Z.ltb_spec z (2 ^ 31)); lia.
Qed.

Lemma wrap64_small (z : Z) : 0 <= z < 2 ^ 64 -> wrap64 z = z.
Proof. apply Z.mod_small. Qed.

(** What the scan tells about the counts. *)
Lemma scan_counts (st : scan_state) :
  scan_inv st ->
  let cc := arr_get (codeCount st) in
  (forall L, 0 <= L <= 58 -> 0 <= cc L) /\
  sum_range cc 0 58 = Z.of_nat (length (symbols st)) /\
  (forall L, 0 <= L <= 58 ->
     ~ scanMinCodeLength st <= L <= scanMaxCodeLength st -> cc L = 0) /\
  (symbols st = [] /\ scanMinCodeLength st = 255 /\ scanMaxCodeLength st = 0 \/
   1 <= scanMinCodeLength st <= scanMaxCodeLength st /\
   scanMaxCodeLength st <= 58 /\
   1 <= cc (scanMinCodeLength st) /\ 1 <= cc (scanMaxCodeLength st)).
Proof.
  intros (Hlen & Hcount & Hall & Hext) cc. subst cc.
  assert (Hzero : forall L, ~ scanMinCodeLength st <= L <= scanMaxCodeLength st ->
                            count_len L (symbols st) = 0).
  { intros L HL. clear Hext Hcount.
    induction Hall as [|x l (Hx & _) Hl IH]; cbn [count_len]; [reflexivity|].
    rewrite IH. destruct (Z.land x 63 =? L) eqn:E; lia. }
  split; [|split; [|split]].
  - intros L HL. rewrite Hcount by lia. apply count_len_nonneg.
  - rewrite <- sum_count_len.
    + apply sum_from_ext. intros k Hk. apply Hcount. unfold count in Hk. lia.
    + eapply Forall_impl; [|exact Hall]. cbn. tauto.
  - intros L HL Hout. rewrite Hcount by lia. now apply Hzero.
  - destruct Hext as [Hnil | (Hmin & Hmax)]; [left; exact Hnil | right].
    assert (Hin : forall L, 1 <= count_len L (symbols st) ->
                            scanMinCodeLength st <= L <= scanMaxCodeLength st /\
                            1 <= L <= 58).
    { intros L HL. clear Hcount Hzero Hmin Hmax.
      induction Hall as [|x l (Hx1 & Hx2) Hl IH]; cbn [count_len] in HL; [lia|].
      destruct (Z.land x 63 =? L) eqn:E; [lia | apply IH; lia]. }
    pose proof (Hin _ Hmin). pose proof (Hin _ Hmax).
    rewrite !Hcount by lia. lia.
Qed.

(** ** Offsets and ids *)

Lemma compute_offset_spec (minCL maxCL : Z) (cc off0 : list Z) :
  length off0 = 59%nat ->
  0 <= minCL <= maxCL -> maxCL <= 58 ->
  (forall L, 0 <= L <= 58 -> 0 <= arr_get cc L) ->
  sum_range (arr_get cc) 0 58 < 2 ^ 64 ->
  let off := compute_offset minCL maxCL cc off0 in
  length off = 59%nat /\
  forall j, minCL <= j <= maxCL -> arr_get off j = sum_range (arr_get cc) (j + 1) maxCL.
Proof.
  intros Hlen Hmm Hmax Hcc Hlt. unfold compute_offset.
  pose proof (for_down_inv
    (fun i off => length off = 59%nat /\
       forall j, i < j <= maxCL -> arr_get off j = sum_range (arr_get cc) (j + 1) maxCL)
    (fun i offset =>
       arr_set offset i (wrap64 (arr_get offset (i + 1) + arr_get cc (i + 1))))
    (count minCL (maxCL - 1)) (maxCL - 1) (arr_set off0 maxCL 0)) as H.
  cbv beta in H.
  replace (maxCL - 1 - Z.of_nat (count minCL (maxCL - 1))) with (minCL - 1) in H
    by (unfold count; lia).
  destruct H as (Hl & Hv).
  - split; [now rewrite length_arr_set|]. intros j Hj.
    replace j with maxCL by lia.
    rewrite arr_get_set_same by lia. now rewrite sum_range_empty by lia.
  - intros i off Hi (Hl & Hv). split; [now rewrite length_arr_set|].
    unfold count in Hi. intros j Hj. destruct (Z.eq_dec j i) as [-> | Hne].
    + rewrite arr_get_set_same by lia. rewrite Hv by lia.
      pose proof (sum_range_nonneg (arr_get cc) (i + 1) maxCL
                    ltac:(intros; apply Hcc; lia)) as H0.
      pose proof (sum_range_sub (arr_get cc) 0 58 (i + 1) maxCL Hcc
                    ltac:(lia) ltac:(lia)) as H1.
      rewrite (sum_range_first (arr_get cc) (i + 1) maxCL) in * by lia.
      rewrite wrap64_small; lia.
    + rewrite arr_get_set_other by lia. apply Hv. lia.
  - split; [exact Hl|]. intros j Hj. apply Hv. lia.
Qed.

Lemma land_63_range (x : Z) : 0 <= Z.land x 63 < 64.
Proof.
  change 63 with (Z.ones 6). rewrite Z.land_ones by lia. apply Z.mod_pos_bound. lia.
Qed.

Lemma Ret_inj {E A : Type} (a b : A) : @Ret E A a = Ret b -> a = b.
Proof. intros H. now injection H. Qed.

Lemma buildTables_fields (rle N minCL maxCL : Z) (ids base offset : list Z)
    (d : FastHufDecoder) :
  buildTables rle N minCL maxCL ids base offset = Ret d ->
  numSymbols d = N /\ minCodeLength d = minCL /\ maxCodeLength d = maxCL /\
  idToSymbol d = ids /\ ljBase d = build_ljBase base /\
  ljOffset d = build_ljOffset offset (build_ljBase base) /\
  for_upM (Z.to_nat (Z.shiftl 1 TABLE_LOOKUP_BITS)) 0
    (accel_entry N minCL maxCL ids (build_ljBase base)
       (build_ljOffset offset (build_ljBase base)))
    (repeat 0 (Z.to_nat (Z.shiftl 1 TABLE_LOOKUP_BITS)),
     repeat 0 (Z.to_nat (Z.shiftl 1 TABLE_LOOKUP_BITS))) =
  Ret (tableSymbol d, tableCodeLen d).
Proof.
  unfold buildTables. intros H.
  apply bind_Ret in H as ([ts tcl] & Hloop & H). rewrite Hloop.
  apply Ret_inj in H. subst d.
  cbn [numSymbols minCodeLength maxCodeLength idToSymbol ljBase ljOffset
       tableSymbol tableCodeLen].
  repeat split; reflexivity.
Qed.

Lemma new_inv (table : list byte) (numBytes minSymbol maxSymbol rleSymbol : Z)
    (d : FastHufDecoder) (c : Z) :
  new table numBytes minSymbol maxSymbol rleSymbol = Ret (d, c) ->
  exists st base offset,
    scan_table table numBytes minSymbol maxSymbol = Ret st /\
    compute_base (scanMinCodeLength st) (scanMaxCodeLength st) (codeCount st)
      (repeat ALL_ONES (Z.to_nat (MAX_CODE_LEN + 1))) = Ret base /\
    offset = compute_offset (scanMinCodeLength st) (scanMaxCodeLength st)
               (codeCount st) (repeat 0 (Z.to_nat (MAX_CODE_LEN + 1))) /\
    fill_idToSymbol (count_symbols (codeCount st)) (scanMinCodeLength st)
      (scanMaxCodeLength st) offset (symbols st) = Ret (idToSymbol d) /\
    buildTables rleSymbol (count_symbols (codeCount st)) (scanMinCodeLength st)
      (scanMaxCodeLength st) (idToSymbol d) base offset = Ret d.
Proof.
  unfold new. intros H.
  apply bind_Ret in H as (st & Hscan & H).
  apply bind_Ret in H as (base & Hbase & H).
  apply bind_Ret in H as (ids & Hfill & H).
  apply bind_Ret in H as (d' & Hb & H).
  apply Ret_inj in H. assert (d' = d) as -> by congruence.
  pose proof (buildTables_fields _ _ _ _ _ _ _ _ Hb) as (_ & _ & _ & Hids & _).
  subst ids. eexists st, base, _.
  split; [exact Hscan|]. split; [exact Hbase|]. split; [reflexivity|].
  split; [exact Hfill | exact Hb].
Qed.

End Scan.

(** ** Doubles: the size of a significand *)

Lemma digits2_pos_bounds (p : positive) :
  2 ^ (Z.pos (digits2_pos p) - 1) <= Z.pos p < 2 ^ Z.pos (digits2_pos p).
Proof.
  induction p as [p IH | p IH |]; cbn [digits2_pos].
  - rewrite Pos2Z.inj_succ, Z.pow_succ_r by lia.
    replace (Z.succ (Z.pos (digits2_pos p)) - 1)
      with (Z.succ (Z.pos (digits2_pos p) - 1)) by lia.
    rewrite Z.pow_succ_r by lia. lia.
  - rewrite Pos2Z.inj_succ, Z.pow_succ_r by lia.
    replace (Z.succ (Z.pos (digits2_pos p)) - 1)
      with (Z.succ (Z.pos (digits2_pos p) - 1)) by lia.
    rewrite Z.pow_succ_r by lia. lia.
  - cbn. lia.
Qed.

Lemma Zdigits2_bounds (m : Z) :
  0 < m -> 2 ^ (Zdigits2 m - 1) <= m < 2 ^ Zdigits2 m.
Proof. destruct m as [|p|p]; try lia. intros _. apply digits2_pos_bounds. Qed.

Lemma Zdigits2_nonneg (m : Z) : 0 <= Zdigits2 m.
Proof. destruct m; cbn; lia. Qed.

Lemma Zdigits2_upper (m : Z) : 0 <= m -> m < 2 ^ Zdigits2 m.
Proof.
  intros H. destruct (Z.eq_dec m 0) as [-> | Hne]; [cbn; lia|].
  apply Zdigits2_bounds. lia.
Qed.

Lemma Zdigits2_unique (m d : Z) : 2 ^ (d - 1) <= m < 2 ^ d -> 0 < m -> Zdigits2 m = d.
Proof.
  intros Hd Hm. pose proof (Zdigits2_bounds m Hm) as Hb.
  pose proof (Zdigits2_nonneg m) as Hn.
  assert (Hd0 : 0 < d).
  { destruct (Z.lt_ge_cases 0 d) as [|Hle]; [assumption|].
    destruct (Z.eq_dec d 0) as [-> | Hne]; [cbn in Hd; lia|].
    rewrite (Z.pow_neg_r 2 d) in Hd by lia. lia. }
  assert (H0 : Zdigits2 m <> 0) by (destruct m; cbn; lia).
  destruct (Z.lt_trichotomy (Zdigits2 m) d) as [Hlt | [Heq | Hgt]]; [|exact Heq|].
  - assert (2 ^ Zdigits2 m <= 2 ^ (d - 1)) by (apply Z.pow_le_mono_r; lia). lia.
  - assert (2 ^ d <= 2 ^ (Zdigits2 m - 1)) by (apply Z.pow_le_mono_r; lia). lia.
Qed.

Lemma pow2_xO (p : positive) : 2 ^ Z.pos p~0 = 2 ^ Z.pos p * 2 ^ Z.pos p.
Proof.
  rewrite (Pos2Z.inj_xO p). replace (2 * Z.pos p) with (Z.pos p + Z.pos p) by lia.
  now rewrite Z.pow_add_r by lia.
Qed.

Lemma pow2_xI (p : positive) : 2 ^ Z.pos p~1 = 2 * (2 ^ Z.pos p * 2 ^ Z.pos p).
Proof.
  rewrite (Pos2Z.inj_xI p). replace (2 * Z.pos p + 1) with (Z.succ (Z.pos p + Z.pos p)) by lia.
  now rewrite Z.pow_succ_r, Z.pow_add_r by lia.
Qed.

(** A shift to the right by one place halves the significand. *)
Lemma shr_1_m (mrs : shr_record) :
  0 <= shr_m mrs -> shr_m (shr_1 mrs) = shr_m mrs / 2.
Proof.
  destruct mrs as [m r s]. cbn [shr_m]. intros Hm. unfold shr_1.
  destruct m as [|q|q]; [reflexivity | | lia].
  destruct q as [p|p|]; cbn [shr_m]; [| |reflexivity].
  - rewrite (Pos2Z.inj_xI p). apply Z.div_unique with (r := 1); lia.
  - rewrite (Pos2Z.inj_xO p). apply Z.div_unique with (r := 0); lia.
Qed.

Lemma iter_shr_1_m (p : positive) :
  forall mrs : shr_record,
  0 <= shr_m mrs -> shr_m (SpecFloat.iter_pos shr_1 p mrs) = shr_m mrs / 2 ^ Z.pos p.
Proof.
  assert (Hpow : forall q, 0 < 2 ^ Z.pos q) by (intros; apply Z.pow_pos_nonneg; lia).
  induction p as [p IH | p IH |]; intros mrs Hm; cbn [SpecFloat.iter_pos].
  - assert (H1 : 0 <= shr_m (shr_1 mrs)).
    { rewrite shr_1_m by lia. apply Z.div_pos; lia. }
    assert (H2 : 0 <= shr_m (SpecFloat.iter_pos shr_1 p (shr_1 mrs))).
    { rewrite IH by lia. apply Z.div_pos; [lia | apply Hpow]. }
    pose proof (Hpow p).
    rewrite IH, IH, shr_1_m by lia.
    rewrite !Z.div_div by lia. now rewrite pow2_xI.
  - assert (H2 : 0 <= shr_m (SpecFloat.iter_pos shr_1 p mrs)).
    { rewrite IH by lia. apply Z.div_pos; [lia | apply Hpow]. }
    pose proof (Hpow p).
    rewrite IH, IH by lia.
    rewrite !Z.div_div by lia. now rewrite pow2_xO.
  - now rewrite shr_1_m.
Qed.

Lemma shr_record_of_loc_m (m : Z) (l : location) : shr_m (shr_record_of_loc m l) = m.
Proof. now destruct l as [|[]]. Qed.

(** What [shr_fexp] leaves of a significand. *)
Lemma shr_fexp_m (m e : Z) (l : location) :
  0 <= m ->
  let n := fexp 53 1024 (Zdigits2 m + e) - e in
  shr_m (fst (shr_fexp 53 1024 m e l)) = (if 0 <? n then m / 2 ^ n else m).
Proof.
  intros Hm n. unfold shr_fexp, shr. fold n.
  destruct n as [|p|p]; cbn [fst]; try apply shr_record_of_loc_m.
  rewrite iter_shr_1_m by now rewrite shr_record_of_loc_m.
  now rewrite shr_record_of_loc_m.
Qed.

Lemma shr_fexp_bound (m e : Z) (l : location) :
  0 <= m -> 0 <= shr_m (fst (shr_fexp 53 1024 m e l)) < 2 ^ 53.
Proof.
  intros Hm. rewrite shr_fexp_m by exact Hm. cbv zeta.
  pose proof (Zdigits2_upper m Hm) as Hup. pose proof (Zdigits2_nonneg m) as Hd.
  set (n := fexp 53 1024 (Zdigits2 m + e) - e).
  assert (Hn : Zdigits2 m - 53 <= n) by (unfold n, fexp; lia).
  destruct (Z.ltb_spec 0 n) as [Hpos | Hneg].
  - split; [apply Z.div_pos; [lia | apply Z.pow_pos_nonneg; lia]|].
    apply Z.div_lt_upper_bound; [apply Z.pow_pos_nonneg; lia|].
    rewrite <- Z.pow_add_r by lia.
    assert (2 ^ Zdigits2 m <= 2 ^ (n + 53)) by (apply Z.pow_le_mono_r; lia). lia.
  - split; [lia|].
    assert (2 ^ Zdigits2 m <= 2 ^ 53) by (apply Z.pow_le_mono_r; lia). lia.
Qed.

Lemma round_nearest_even_nonneg (m : Z) (l : location) :
  0 <= m -> 0 <= round_nearest_even m l.
Proof.
  intros Hm. destruct l as [|[]]; cbn [round_nearest_even]; try lia.
  destruct (Z.even m); lia.
Qed.

(** The significand of a rounded number has at most 53 digits. *)
Lemma binary_round_aux_bound (sx s : bool) (mx ex : Z) (lx : location)
    (m : positive) (e : Z) :
  0 <= mx ->
  binary_round_aux 53 1024 sx mx ex lx = S754_finite s m e -> Z.pos m < 2 ^ 53.
Proof.
  intros Hmx. unfold binary_round_aux.
  pose proof (shr_fexp_bound mx ex lx Hmx) as H1.
  destruct (shr_fexp 53 1024 mx ex lx) as [mrs' e'] eqn:E1. cbn [fst] in H1.
  pose proof (round_nearest_even_nonneg (shr_m mrs') (loc_of_shr_record mrs')
                ltac:(lia)) as Hr.
  pose proof (shr_fexp_bound _ e' loc_Exact Hr) as H2.
  destruct (shr_fexp 53 1024 _ e' loc_Exact) as [mrs'' e''] eqn:E2. cbn [fst] in H2.
  destruct (shr_m mrs'') as [|p|p]; try discriminate.
  destruct (e'' <=? 1024 - 53); try discriminate.
  intros H. injection H as _ <- _. lia.
Qed.

Lemma double_div_bound (x y : double) (s : bool) (m : positive) (e : Z) :
  double_div x y = S754_finite s m e -> Z.pos m < 2 ^ 53.
Proof.
  unfold double_div, SFdiv.
  destruct x as [sx|sx| |sx mx ex], y as [sy|sy| |sy my ey]; try discriminate.
  unfold SFdiv_core_binary.
  set (m' := match _ - _ - _ with Z0 => _ | Z.pos _ => _ | Z.neg _ => _ end).
  assert (Hm' : 0 <= m').
  { subst m'. destruct (_ - _ - _); try lia. apply Z.shiftl_nonneg. lia. }
  pose proof (Z_div_mod m' (Z.pos my) ltac:(lia)) as Hdm.
  destruct (Z.div_eucl m' (Z.pos my)) as [q r]. destruct Hdm as (Hq & Hr).
  apply binary_round_aux_bound. nia.
Qed.

(** No [double] rounds up to [0xffffffffffffffff]. *)
Lemma ceil_to_uint64_not_all_ones (x y : double) (c : Z) :
  @ceil_to_uint64 FastHuf.error (double_div x y) = Ret c -> c <> FastHuf.ALL_ONES.
Proof.
  unfold ceil_to_uint64, double_ceil, FastHuf.ALL_ONES.
  destruct (double_div x y) as [s|s| |s m e] eqn:E; try discriminate.
  - cbn. intros H. injection H as <-. lia.
  - apply double_div_bound in E.
    destruct (Z.leb_spec 0 e) as [He | He].
    + destruct (_ && _); try discriminate. intros H. injection H as <-.
      destruct s; [lia|]. destruct (Z.eq_dec e 0) as [-> | Hne]; [lia|].
      replace e with (Z.succ (e - 1)) by lia. rewrite Z.pow_succ_r by lia. lia.
    + destruct (_ && _); try discriminate. intros H. injection H as <-.
      assert (Hp : 0 < 2 ^ (- e)) by (apply Z.pow_pos_nonneg; lia).
      destruct s.
      * replace (- Z.neg m) with (Z.pos m) by lia.
        pose proof (Z.div_pos (Z.pos m) (2 ^ (- e)) ltac:(lia) Hp). lia.
      * assert (- Z.pos m <= - Z.pos m / 2 ^ (- e)).
        { apply Z.div_le_lower_bound; [exact Hp|]. nia. }
        lia.
Qed.

Section Tables.
Import FastHuf.

Lemma spec_smallest_len_least (n : nat) (lj : list Z) (b : Z) :
  forall L0 L : Z,
  spec_smallest_len n L0 lj b = Some L <->
  L0 <= L < L0 + Z.of_nat n /\ arr_get lj L <= b /\
  forall L', L0 <= L' < L -> b < arr_get lj L'.
Proof.
  induction n as [|n IH]; intros L0 L; cbn [spec_smallest_len].
  - split; [discriminate | lia].
  - destruct (Z.leb_spec (arr_get lj L0) b) as [Hle | Hgt].
    + split.
      * intros H. injection H as <-. split; [lia|]. split; [exact Hle | lia].
      * intros (HL & _ & Hleast). f_equal.
        destruct (Z.eq_dec L0 L) as [|Hne]; [assumption|].
        specialize (Hleast L0 ltac:(lia)). lia.
    + rewrite IH. split.
      * intros (HL & Hb & Hleast). split; [lia|]. split; [exact Hb|].
        intros L' HL'. destruct (Z.eq_dec L' L0) as [-> | Hne]; [exact Hgt|].
        apply Hleast. lia.
      * intros (HL & Hb & Hleast).
        assert (L <> L0) by (intros ->; lia).
        split; [lia|]. split; [exact Hb|]. intros L' HL'. apply Hleast. lia.
Qed.

(** ** [base] and [_ljBase] *)

Lemma compute_base_spec (minCL maxCL : Z) (cc base0 base : list Z) :
  length base0 = 59%nat -> 0 <= minCL -> maxCL <= 58 ->
  compute_base minCL maxCL cc base0 = Ret base ->
  length base = 59%nat /\
  (forall L, 0 <= L <= 58 -> ~ minCL <= L <= maxCL ->
             arr_get base L = arr_get base0 L) /\
  (forall L, minCL <= L <= maxCL ->
             base_of maxCL (compute_countTmp minCL maxCL cc) L = Ret (arr_get base L)).
Proof.
  intros Hlen Hmin Hmax Hrun. unfold compute_base in Hrun.
  eapply (for_upM_inv
    (fun i b => length b = 59%nat /\
       (forall L, 0 <= L <= 58 -> ~ minCL <= L < i -> arr_get b L = arr_get base0 L) /\
       (forall L, minCL <= L < i ->
          base_of maxCL (compute_countTmp minCL maxCL cc) L = Ret (arr_get b L))))
    in Hrun.
  - destruct Hrun as (Hl & Hout & Hin). split; [exact Hl|]. unfold count in *. split.
    + intros L HL Hn. apply Hout; lia.
    + intros L HL. apply Hin. lia.
  - split; [exact Hlen|]. split; [reflexivity | lia].
  - cbv beta. intros i b b' Hi (Hl & Hout & Hin) Hb. unfold count in Hi.
    apply bind_Ret in Hb as (v & Hv & Hb). apply Ret_inj in Hb. subst b'.
    split; [now rewrite length_arr_set|]. split.
    + intros L HL Hn. rewrite arr_get_set_other by lia. apply Hout; lia.
    + intros L HL. destruct (Z.eq_dec L i) as [-> | Hne].
      * rewrite arr_get_set_same by lia. exact Hv.
      * rewrite arr_get_set_other by lia. apply Hin. lia.
Qed.

Lemma base_of_not_all_ones (maxCL : Z) (countTmp : list double) (l c : Z) :
  base_of maxCL countTmp l = Ret c -> c <> ALL_ONES /\ 0 <= c < 2 ^ 64.
Proof.
  unfold base_of. cbv zeta. intros H. split.
  - eapply ceil_to_uint64_not_all_ones, H.
  - unfold ceil_to_uint64 in H. destruct (double_ceil _) as [c'|]; [|discriminate].
    destruct (Z.leb_spec 0 c'), (Z.ltb_spec c' (2 ^ 64)); cbn [andb] in H;
      try discriminate.
    apply Ret_inj in H. lia.
Qed.

Lemma build_ljBase_spec (base : list Z) :
  length (build_ljBase base) = 59%nat /\
  forall i, 0 <= i <= 58 ->
    arr_get (build_ljBase base) i =
    if negb (arr_get base i =? ALL_ONES)
    then wrap64 (Z.shiftl (arr_get base i) (64 - i)) else ALL_ONES.
Proof.
  unfold build_ljBase.
  pose proof (for_up_inv
    (fun k lj => length lj = 59%nat /\
       forall i, 0 <= i < k ->
         arr_get lj i =
         if negb (arr_get base i =? ALL_ONES)
         then wrap64 (Z.shiftl (arr_get base i) (64 - i)) else ALL_ONES)
    (fun i ljBase =>
       arr_set ljBase i
         (if negb (arr_get base i =? ALL_ONES)
          then wrap64 (Z.shiftl (arr_get base i) (64 - i)) else ALL_ONES))
    (count 0 MAX_CODE_LEN) 0 (repeat 0 (Z.to_nat (MAX_CODE_LEN + 1)))) as H.
  cbv beta in H. destruct H as (Hl & Hv).
  - split; [apply repeat_length | lia].
  - intros i lj Hi (Hl & Hv). unfold count, MAX_CODE_LEN in Hi.
    split; [now rewrite length_arr_set|]. intros j Hj.
    destruct (Z.eq_dec j i) as [-> | Hne].
    + rewrite arr_get_set_same by lia. reflexivity.
    + rewrite arr_get_set_other by lia. apply Hv. lia.
  - split; [exact Hl|]. intros i Hi. apply Hv. unfold count, MAX_CODE_LEN. lia.
Qed.

(** ** The acceleration tables *)

Lemma accel_search_spec (N : Z) (ids ljB ljO : list Z) (i v : Z) (n : nat) :
  forall (cl : Z) (ts tcl ts' tcl' : list Z),
  accel_search n cl N ids ljB ljO i v (ts, tcl) = Ret (ts', tcl') ->
  match spec_smallest_len n cl ljB v with
  | Some L =>
      ts' = arr_set ts i (arr_get ids (wrap64 (arr_get ljO L + Z.shiftr v (64 - L)))) /\
      tcl' = arr_set tcl i L
  | None => ts' = ts /\ tcl' = tcl
  end.
Proof.
  induction n as [|n IH]; intros cl ts tcl ts' tcl' H;
    cbn [accel_search spec_smallest_len] in *.
  - apply Ret_inj in H. now inversion H.
  - destruct (arr_get ljB cl <=? v); [|now apply IH].
    destruct (_ <? wrap64 N); [|discriminate].
    apply Ret_inj in H. now inversion H.
Qed.

Lemma accel_tables_spec (N minCL maxCL : Z) (ids ljB ljO ts tcl : list Z) :
  for_upM (Z.to_nat (Z.shiftl 1 TABLE_LOOKUP_BITS)) 0
    (accel_entry N minCL maxCL ids ljB ljO)
    (repeat 0 (Z.to_nat (Z.shiftl 1 TABLE_LOOKUP_BITS)),
     repeat 0 (Z.to_nat (Z.shiftl 1 TABLE_LOOKUP_BITS))) = Ret (ts, tcl) ->
  forall i, 0 <= i < 4096 ->
    (arr_get tcl i, arr_get ts i) =
    match spec_smallest_len (count minCL maxCL) minCL ljB
            (wrap64 (Z.shiftl i (64 - TABLE_LOOKUP_BITS))) with
    | Some L =>
        (L, arr_get ids
              (wrap64 (arr_get ljO L +
                       Z.shiftr (wrap64 (Z.shiftl i (64 - TABLE_LOOKUP_BITS))) (64 - L))))
    | None => (0, 0xffff)
    end.
Proof.
  intros Hrun.
  set (expected := fun i : Z =>
    match spec_smallest_len (count minCL maxCL) minCL ljB
            (wrap64 (Z.shiftl i (64 - TABLE_LOOKUP_BITS))) with
    | Some L =>
        (L, arr_get ids
              (wrap64 (arr_get ljO L +
                       Z.shiftr (wrap64 (Z.shiftl i (64 - TABLE_LOOKUP_BITS))) (64 - L))))
    | None => (0, 0xffff)
    end).
  change (Z.shiftl 1 TABLE_LOOKUP_BITS) with 4096 in Hrun.
  eapply (for_upM_inv
    (fun k (s : list Z * list Z) =>
       Z.of_nat (length (fst s)) = 4096 /\ Z.of_nat (length (snd s)) = 4096 /\
       forall i, 0 <= i < k -> (arr_get (snd s) i, arr_get (fst s) i) = expected i))
    in Hrun.
  - cbn [fst snd] in Hrun. destruct Hrun as (_ & _ & H). intros i Hi. apply H. lia.
  - cbn [fst snd]. rewrite !repeat_length. split; [lia|]. split; [lia|]. lia.
  - cbv beta. intros k [ts0 tcl0] [ts1 tcl1] Hk (Hl1 & Hl2 & Hv) Hstep.
    cbn [fst snd] in *. unfold accel_entry in Hstep.
    apply accel_search_spec in Hstep.
    assert (Hexp : (arr_get tcl1 k, arr_get ts1 k) = expected k /\
                   length ts1 = length ts0 /\ length tcl1 = length tcl0 /\
                   forall j, 0 <= j -> j <> k ->
                     arr_get ts1 j = arr_get ts0 j /\ arr_get tcl1 j = arr_get tcl0 j).
    { unfold expected.
      destruct (spec_smallest_len _ _ _ _) as [L|]; destruct Hstep as (-> & ->);
        rewrite ?length_arr_set; (split; [|split; [|split]]); try reflexivity.
      - rewrite 2 arr_get_set_same by (rewrite ?length_arr_set; lia). reflexivity.
      - intros j Hj Hne. rewrite 4 arr_get_set_other by lia. split; reflexivity.
      - rewrite 2 arr_get_set_same by lia. reflexivity.
      - intros j Hj Hne. rewrite 2 arr_get_set_other by lia. split; reflexivity. }
    destruct Hexp as (Hk' & Hl1' & Hl2' & Hother).
    split; [lia|]. split; [lia|]. intros j Hj.
    destruct (Z.eq_dec j k) as [-> | Hne]; [exact Hk'|].
    destruct (Hother j ltac:(lia) Hne) as (-> & ->). apply Hv. lia.
Qed.

Lemma spec_smallest_len_none (n : nat) (lj : list Z) (b : Z) :
  forall L0 : Z,
  spec_smallest_len n L0 lj b = None ->
  forall L, L0 <= L < L0 + Z.of_nat n -> b < arr_get lj L.
Proof.
  induction n as [|n IH]; intros L0 H L HL; cbn [spec_smallest_len] in H; [lia|].
  destruct (Z.leb_spec (arr_get lj L0) b) as [Hle | Hgt]; [discriminate|].
  destruct (Z.eq_dec L L0) as [-> | Hne]; [exact Hgt|].
  apply (IH (L0 + 1)); [exact H | lia].
Qed.

(** ** The prefix of a buffer *)

Lemma prefix_value (b : Z) :
  0 <= b < 2 ^ 64 ->
  let p := Z.shiftr b (64 - TABLE_LOOKUP_BITS) in
  let v := Z.shiftl p (64 - TABLE_LOOKUP_BITS) in
  0 <= p < 4096 /\ v = p * 2 ^ 52 /\ v <= b < v + 2 ^ 52 /\ wrap64 v = v.
Proof.
  intros Hb p v. subst p v. change (64 - TABLE_LOOKUP_BITS) with 52.
  rewrite Z.shiftl_mul_pow2, Z.shiftr_div_pow2 by lia.
  pose proof (Z.div_mod b (2 ^ 52) ltac:(lia)) as Hdm.
  pose proof (Z.mod_pos_bound b (2 ^ 52) ltac:(lia)) as Hm.
  assert (Hp : 0 <= b / 2 ^ 52 < 4096).
  { split; [apply Z.div_pos; lia|]. apply Z.div_lt_upper_bound; lia. }
  split; [exact Hp|]. split; [reflexivity|]. split; [lia|].
  apply wrap64_small. lia.
Qed.

Lemma shiftr_prefix (b L : Z) :
  0 <= b -> 0 <= L <= TABLE_LOOKUP_BITS ->
  Z.shiftr (Z.shiftl (Z.shiftr b (64 - TABLE_LOOKUP_BITS)) (64 - TABLE_LOOKUP_BITS))
    (64 - L) = Z.shiftr b (64 - L).
Proof.
  unfold TABLE_LOOKUP_BITS. intros Hb HL. change (64 - 12) with 52.
  rewrite Z.shiftl_mul_pow2, !Z.shiftr_div_pow2 by lia.
  replace (64 - L) with (52 + (12 - L)) by lia. rewrite Z.pow_add_r by lia.
  assert (0 < 2 ^ (12 - L)) by (apply Z.pow_pos_nonneg; lia).
  rewrite <- !Z.div_div by lia. now rewrite Z.div_mul by lia.
Qed.

Lemma left_justified_multiple (c L : Z) :
  0 <= L <= TABLE_LOOKUP_BITS ->
  exists k, wrap64 (Z.shiftl c (64 - L)) = k * 2 ^ 52.
Proof.
  unfold TABLE_LOOKUP_BITS, wrap64. intros HL. rewrite Z.shiftl_mul_pow2 by lia.
  replace (64 - L) with ((12 - L) + 52) by lia.
  change (2 ^ 64) with (2 ^ 12 * 2 ^ 52). rewrite Z.pow_add_r by lia.
  rewrite Z.mul_assoc, Z.mul_mod_distr_r by lia. eauto.
Qed.

(** A left-justified base of a short code is above a prefix when it is
    above every buffer that starts with the prefix. *)
Lemma multiple_above (k p b : Z) :
  p * 2 ^ 52 <= b < p * 2 ^ 52 + 2 ^ 52 ->
  p * 2 ^ 52 < k * 2 ^ 52 -> b < k * 2 ^ 52.
Proof. intros Hb Hk. assert (p + 1 <= k) by nia. nia. Qed.

(** The left-justified bases the constructor leaves. *)
Lemma ljBase_spec (table : list byte) (numBytes minSymbol maxSymbol rleSymbol : Z)
    (d : FastHufDecoder) (c : Z) :
  new table numBytes minSymbol maxSymbol rleSymbol = Ret (d, c) ->
  0 <= minCodeLength d /\ maxCodeLength d <= 58 /\
  (forall L, 0 <= L <= 58 -> ~ minCodeLength d <= L <= maxCodeLength d ->
             arr_get (ljBase d) L = ALL_ONES) /\
  (forall L, minCodeLength d <= L <= maxCodeLength d ->
             exists v, v <> ALL_ONES /\ 0 <= v < 2 ^ 64 /\
                       arr_get (ljBase d) L = wrap64 (Z.shiftl v (64 - L))).
Proof.
  intros Hnew.
  apply new_inv in Hnew as (st & base & offset & Hscan & Hbase & _ & _ & Hb).
  apply buildTables_fields in Hb as (_ & -> & -> & _ & -> & _).
  apply scan_table_inv in Hscan as (Hinv & _).
  pose proof (scan_counts st Hinv) as (_ & _ & _ & Hext). cbv zeta in Hext.
  assert (Hmm : 0 <= scanMinCodeLength st /\ scanMaxCodeLength st <= 58) by lia.
  destruct Hmm as (Hmin & Hmax).
  apply compute_base_spec in Hbase as (Hlen & Hout & Hin);
    [|apply repeat_length | exact Hmin | exact Hmax].
  pose proof (build_ljBase_spec base) as (_ & Hlj).
  split; [exact Hmin|]. split; [exact Hmax|]. split.
  - intros L HL Hn. rewrite Hlj, Hout by assumption.
    rewrite arr_get_repeat by (unfold MAX_CODE_LEN; lia).
    now rewrite Z.eqb_refl.
  - intros L HL. specialize (Hin L HL). apply base_of_not_all_ones in Hin as (Hne & Hr).
    exists (arr_get base L). split; [exact Hne|]. split; [exact Hr|].
    rewrite Hlj by lia. destruct (Z.eqb_spec (arr_get base L) ALL_ONES); [lia|].
    reflexivity.
Qed.

(** C4: for every decoder that the constructor returns and every 64-bit
    buffer [b] whose prefix of [TABLE_LOOKUP_BITS] bits has a matching length
    [L <= TABLE_LOOKUP_BITS] (that is, [lj_base[L] <= p << (64 -
    TABLE_LOOKUP_BITS)] for the prefix [p]), the accelerated path, [table_lookup],
    yields the pair of code length and symbol of the linear search,
    [spec_linear_lookup].  Such a buffer is not below [table_min] in the cases the
    claim considers; the agreement does not depend on it. *)
Theorem acceleration_agrees_with_linear_search (table : list byte)
    (numBytes minSymbol maxSymbol rleSymbol : Z) (d : FastHufDecoder) (c b : Z) :
  new table numBytes minSymbol maxSymbol rleSymbol = Ret (d, c) ->
  0 <= b < 2 ^ 64 ->
  (exists L, 0 <= L <= TABLE_LOOKUP_BITS /\
     arr_get (ljBase d) L <=
     Z.shiftl (Z.shiftr b (64 - TABLE_LOOKUP_BITS)) (64 - TABLE_LOOKUP_BITS)) ->
  spec_linear_lookup d b = Some (table_lookup d b).
Proof.
  intros Hnew Hb (L0 & HL0 & Hmatch).
  pose proof (ljBase_spec _ _ _ _ _ _ _ Hnew) as (Hmin & Hmax & Hout & Hin).
  apply new_inv in Hnew as (st & base & offset & _ & _ & _ & _ & Hbt).
  apply buildTables_fields in Hbt as (_ & Emin & Emax & _ & ElB & ElO & Htab).
  rewrite <- ElO, <- ElB, <- Emin, <- Emax in Htab. clear Emin Emax ElB ElO.
  pose proof (prefix_value b Hb) as (Hp & Hv & Hvb & Hwrap). cbv zeta in *.
  set (p := Z.shiftr b (64 - TABLE_LOOKUP_BITS)) in *.
  set (v := Z.shiftl p (64 - TABLE_LOOKUP_BITS)) in *.
  unfold TABLE_LOOKUP_BITS in HL0.
  (* the matching length is one of the code book *)
  assert (HL0in : minCodeLength d <= L0 <= maxCodeLength d).
  { destruct (Z_le_dec (minCodeLength d) L0) as [H1|H1];
      [destruct (Z_le_dec L0 (maxCodeLength d)) as [H2|H2]; [lia|]|];
      rewrite Hout in Hmatch by lia; unfold ALL_ONES in Hmatch; lia. }
  set (n := count (minCodeLength d) (maxCodeLength d)).
  (* the length the table holds for the prefix *)
  destruct (spec_smallest_len n (minCodeLength d) (ljBase d) v) as [Lv|] eqn:Ev.
  2:{ pose proof (spec_smallest_len_none _ _ _ _ Ev L0) as Hnone.
      unfold n, count in Hnone. lia. }
  pose proof Ev as Hleast. apply spec_smallest_len_least in Hleast as (HLv & Hle & Hleast).
  assert (HLv12 : Lv <= 12).
  { destruct (Z_le_dec Lv L0) as [|Hgt]; [lia|]. specialize (Hleast L0 ltac:(lia)). lia. }
  (* the linear search finds the same length *)
  assert (Eb : spec_smallest_len n (minCodeLength d) (ljBase d) b = Some Lv).
  { apply spec_smallest_len_least. split; [exact HLv|]. split; [lia|].
    intros L' HL'. specialize (Hleast L' HL').
    destruct (Hin L' ltac:(unfold n, count in HLv; lia)) as (x & _ & _ & Ex).
    destruct (left_justified_multiple x L' ltac:(unfold TABLE_LOOKUP_BITS; lia))
      as (k & Ek).
    rewrite Ex, Ek in *. apply (multiple_above k p b); lia. }
  unfold spec_linear_lookup. fold n. rewrite Eb. f_equal.
  unfold table_lookup. fold p.
  rewrite (accel_tables_spec _ _ _ _ _ _ _ _ Htab p Hp).
  fold v. fold n. rewrite Hwrap, Ev.
  do 4 f_equal. symmetry. apply shiftr_prefix; unfold TABLE_LOOKUP_BITS; lia.
Qed.

(** ** A run of the constructor

    The result of the constructor from the results of its parts, with the
    acceleration tables given entry by entry. *)

Lemma accel_search_run (N : Z) (ids ljB ljO : list Z) (i v : Z) (n : nat) :
  forall (cl : Z) (ts tcl : list Z),
  accel_search n cl N ids ljB ljO i v (ts, tcl) =
  match spec_smallest_len n cl ljB v with
  | Some L =>
      let id := wrap64 (arr_get ljO L + Z.shiftr v (64 - L)) in
      if id <? wrap64 N then Ret (arr_set ts i (arr_get ids id), arr_set tcl i L)
      else Throw InvalidTable
  | None => Ret (ts, tcl)
  end.
Proof.
  induction n as [|n IH]; intros cl ts tcl; cbn [accel_search spec_smallest_len];
    [reflexivity|].
  destruct (arr_get ljB cl <=? v); [reflexivity | apply IH].
Qed.

Lemma arr_set_twice (a : list Z) (i x y : Z) :
  arr_set (arr_set a i x) i y = arr_set a i y.
Proof. unfold arr_set. apply list_insert_insert_eq. Qed.

Lemma arr_set_same (a : list Z) (i : Z) :
  0 <= i -> arr_set a i (arr_get a i) = a.
Proof.
  intros Hi. unfold arr_set, arr_get.
  destruct (a !! Z.to_nat i) as [x|] eqn:E.
  - rewrite (nth_lookup_Some _ _ _ _ E). now apply list_insert_id.
  - apply list_insert_ge. now apply lookup_ge_None.
Qed.

Lemma accel_entry_run (N minCL maxCL : Z) (ids ljB ljO ts tcl : list Z) (i : Z) :
  accel_entry N minCL maxCL ids ljB ljO i (ts, tcl) =
  match accel_expected N minCL maxCL ids ljB ljO i with
  | Some (L, sym) => Ret (arr_set ts i sym, arr_set tcl i L)
  | None => Throw InvalidTable
  end.
Proof.
  unfold accel_entry, accel_expected. cbv zeta. rewrite accel_search_run. cbv zeta.
  destruct (spec_smallest_len _ _ _ _) as [L|]; [|reflexivity].
  destruct (_ <? wrap64 N); [|reflexivity]. now rewrite !arr_set_twice.
Qed.

(** The loop of lines 381-409, from entry [k] on. *)
Lemma accel_loop_run (N minCL maxCL : Z) (ids ljB ljO : list Z) (n : nat) :
  forall (k : nat) (ts tcl : list Z) (es : list (Z * Z)),
  (k + n <= length ts)%nat -> (k + n <= length tcl)%nat ->
  map (accel_expected N minCL maxCL ids ljB ljO) (map Z.of_nat (seq k n)) =
  map Some es ->
  for_upM n (Z.of_nat k) (accel_entry N minCL maxCL ids ljB ljO) (ts, tcl) =
  Ret (take k ts ++ map snd es ++ drop (k + n) ts,
       take k tcl ++ map fst es ++ drop (k + n) tcl).
Proof.
  induction n as [|n IH]; intros k ts tcl es Hts Htcl Hes; cbn [for_upM seq map] in *.
  - destruct es; [|discriminate]. cbn [map app].
    now rewrite Nat.add_0_r, !take_drop.
  - destruct es as [|[L sym] es]; [discriminate|]. cbn [map] in Hes.
    injection Hes as He Hes.
    rewrite accel_entry_run, He. cbn [bind].
    replace (Z.of_nat k + 1) with (Z.of_nat (S k)) by lia.
    unfold arr_set. rewrite Nat2Z.id.
    rewrite (IH (S k) _ _ es) by (rewrite ?length_insert; (lia || exact Hes)).
    cbn [map fst snd].
    rewrite (take_S_r (<[k := sym]> ts) k sym) by (apply list_lookup_insert_eq; lia).
    rewrite (take_S_r (<[k := L]> tcl) k L) by (apply list_lookup_insert_eq; lia).
    rewrite !take_insert_ge by lia.
    rewrite !drop_insert_lt by lia.
    rewrite <- !app_assoc. cbn [app].
    now replace (S k + n)%nat with (k + S n)%nat by lia.
Qed.

Lemma buildTables_run (rle N minCL maxCL : Z) (ids base offset : list Z)
    (es : list (Z * Z)) :
  let ljB := build_ljBase base in
  let ljO := build_ljOffset offset ljB in
  map (accel_expected N minCL maxCL ids ljB ljO)
    (map Z.of_nat (seq 0 (Z.to_nat (Z.shiftl 1 TABLE_LOOKUP_BITS)))) = map Some es ->
  buildTables rle N minCL maxCL ids base offset =
  Ret {| rleSymbol := rle; numSymbols := N;
         minCodeLength := minCL; maxCodeLength := maxCL;
         idToSymbol := ids; ljBase := ljB; ljOffset := ljO;
         tableSymbol := map snd es; tableCodeLen := map fst es;
         tableMin :=
           let minIdx :=
             find_minIdx (Z.to_nat TABLE_LOOKUP_BITS) ljB TABLE_LOOKUP_BITS in
           if minIdx <? 0 then ALL_ONES else arr_get ljB minIdx |}.
Proof.
  intros ljB ljO Hes. unfold buildTables. fold ljB. fold ljO.
  change 0 with (Z.of_nat 0) at 1.
  rewrite (accel_loop_run _ _ _ _ _ _ _ 0 _ _ es);
    [|rewrite repeat_length; lia|rewrite repeat_length; lia|exact Hes].
  cbn [bind take app Nat.add].
  rewrite !drop_ge by (rewrite repeat_length; lia).
  now rewrite !app_nil_r.
Qed.

Lemma new_run (table : list byte) (numBytes minSymbol maxSymbol rle : Z)
    (st : scan_state) (base ids : list Z) (d : FastHufDecoder) :
  scan_table table numBytes minSymbol maxSymbol = Ret st ->
  compute_base (scanMinCodeLength st) (scanMaxCodeLength st) (codeCount st)
    (repeat ALL_ONES (Z.to_nat (MAX_CODE_LEN + 1))) = Ret base ->
  fill_idToSymbol (count_symbols (codeCount st)) (scanMinCodeLength st)
    (scanMaxCodeLength st)
    (compute_offset (scanMinCodeLength st) (scanMaxCodeLength st) (codeCount st)
       (repeat 0 (Z.to_nat (MAX_CODE_LEN + 1))))
    (symbols st) = Ret ids ->
  buildTables rle (count_symbols (codeCount st)) (scanMinCodeLength st)
    (scanMaxCodeLength st) ids base
    (compute_offset (scanMinCodeLength st) (scanMaxCodeLength st) (codeCount st)
       (repeat 0 (Z.to_nat (MAX_CODE_LEN + 1)))) = Ret d ->
  new table numBytes minSymbol maxSymbol rle = Ret (d, currByte st).
Proof.
  intros E1 E2 E3 E4. unfold new. rewrite E1. cbn [bind]. rewrite E2. cbn [bind].
  rewrite E3. cbn [bind]. rewrite E4. reflexivity.
Qed.

End Tables.

(** ** Doubles: exact results *)

Lemma shr_1_exact (m : Z) :
  0 <= m ->
  shr_1 {| shr_m := 2 * m; shr_r := false; shr_s := false |} =
  {| shr_m := m; shr_r := false; shr_s := false |}.
Proof. intros H. destruct m as [|p|p]; [reflexivity | reflexivity | lia]. Qed.

Lemma iter_shr_1_exact (q : positive) :
  forall m : Z,
  0 <= m ->
  SpecFloat.iter_pos shr_1 q
    {| shr_m := 2 ^ Z.pos q * m; shr_r := false; shr_s := false |} =
  {| shr_m := m; shr_r := false; shr_s := false |}.
Proof.
  assert (Hpow : forall q, 0 < 2 ^ Z.pos q) by (intros; apply Z.pow_pos_nonneg; lia).
  induction q as [q IH | q IH |]; intros m Hm; cbn [SpecFloat.iter_pos].
  - pose proof (Hpow q). rewrite pow2_xI.
    replace (2 * (2 ^ Z.pos q * 2 ^ Z.pos q) * m)
      with (2 * (2 ^ Z.pos q * (2 ^ Z.pos q * m))) by ring.
    rewrite shr_1_exact by nia. rewrite IH by nia. apply IH, Hm.
  - pose proof (Hpow q). rewrite pow2_xO.
    replace (2 ^ Z.pos q * 2 ^ Z.pos q * m)
      with (2 ^ Z.pos q * (2 ^ Z.pos q * m)) by ring.
    rewrite IH by nia. apply IH, Hm.
  - change (2 ^ 1) with 2. apply shr_1_exact, Hm.
Qed.

Lemma Zdigits2_shift (m n : Z) :
  0 < m -> 0 <= n -> Zdigits2 (2 ^ n * m) = Zdigits2 m + n.
Proof.
  intros Hm Hn. pose proof (Zdigits2_bounds m Hm) as Hb.
  assert (Hd : 0 < Zdigits2 m) by (destruct m; cbn; lia).
  assert (Hp : 0 < 2 ^ n) by (apply Z.pow_pos_nonneg; lia).
  apply Zdigits2_unique; [|nia].
  replace (Zdigits2 m + n - 1) with (n + (Zdigits2 m - 1)) by lia.
  rewrite (Z.add_comm (Zdigits2 m) n), !Z.pow_add_r by lia. nia.
Qed.

(** A significand of [53 + n] digits that ends in [n] zeros loses them. *)
Lemma shr_fexp_exact (m n e : Z) :
  Zdigits2 m = 53 -> 0 < m -> 0 <= n -> -1074 <= e + n ->
  shr_fexp 53 1024 (2 ^ n * m) e loc_Exact =
  ({| shr_m := m; shr_r := false; shr_s := false |}, e + n).
Proof.
  intros Hd Hm Hn He. unfold shr_fexp. rewrite Zdigits2_shift, Hd by lia.
  replace (fexp 53 1024 (53 + n + e) - e) with n by (unfold fexp, emin; lia).
  destruct n as [|q|q]; [| |lia]; cbn [shr shr_record_of_loc].
  - rewrite Z.pow_0_r, Z.mul_1_l, Z.add_0_r. reflexivity.
  - now rewrite iter_shr_1_exact by lia.
Qed.

Lemma binary_round_aux_exact (s : bool) (m n e : Z) :
  Zdigits2 m = 53 -> 0 < m -> 0 <= n -> -1074 <= e + n <= 971 ->
  binary_round_aux 53 1024 s (2 ^ n * m) e loc_Exact =
  S754_finite s (Z.to_pos m) (e + n).
Proof.
  intros Hd Hm Hn He. unfold binary_round_aux.
  rewrite shr_fexp_exact by lia.
  cbn [loc_of_shr_record shr_m round_nearest_even].
  pose proof (shr_fexp_exact m 0 (e + n) Hd Hm ltac:(lia) ltac:(lia)) as H0.
  rewrite Z.pow_0_r, Z.mul_1_l, Z.add_0_r in H0. rewrite H0. cbn [shr_m].
  destruct m as [|p|p]; try lia.
  destruct (Z.leb_spec (e + n) (1024 - 53)); [reflexivity | lia].
Qed.

Lemma Zdigits2_normal (a : Z) :
  0 < a -> Zdigits2 a <= 53 ->
  Zdigits2 (2 ^ (53 - Zdigits2 a) * a) = 53 /\ 0 < 2 ^ (53 - Zdigits2 a) * a.
Proof.
  intros Ha Hd. rewrite Zdigits2_shift by lia. split; [lia|].
  assert (0 < 2 ^ (53 - Zdigits2 a)) by (apply Z.pow_pos_nonneg; lia). nia.
Qed.

Lemma pos_iter_xO (p d : positive) : Z.pos (Pos.iter xO p d) = 2 ^ Z.pos d * Z.pos p.
Proof.
  induction d as [|d IH] using Pos.peano_ind.
  - reflexivity.
  - rewrite Pos.iter_succ, Pos2Z.inj_succ, Z.pow_succ_r by lia.
    rewrite (Pos2Z.inj_xO (Pos.iter xO p d)), IH. ring.
Qed.

(** [binary_round] of a number that needs no rounding. *)
Lemma binary_round_dyadic (a u e : Z) :
  0 < a -> Zdigits2 a <= 53 -> 0 <= u ->
  -1074 <= u + e + Zdigits2 a - 53 <= 971 ->
  binary_round 53 1024 false (Z.to_pos (2 ^ u * a)) e = dyadic a (u + e).
Proof.
  intros Ha Hd Hu He. unfold binary_round, dyadic.
  pose proof (Zdigits2_normal a Ha Hd) as (Hn53 & Hnpos).
  assert (Hpu : 0 < 2 ^ u) by (apply Z.pow_pos_nonneg; lia).
  assert (Hpos : 0 < 2 ^ u * a) by nia.
  change (Z.pos (digits2_pos (Z.to_pos (2 ^ u * a))))
    with (Zdigits2 (Z.pos (Z.to_pos (2 ^ u * a)))).
  rewrite Z2Pos.id, Zdigits2_shift by lia.
  replace (fexp 53 1024 (Zdigits2 a + u + e)) with (Zdigits2 a + u + e - 53)
    by (unfold fexp, emin; lia).
  unfold shl_align.
  set (m := 2 ^ (53 - Zdigits2 a) * a) in *.
  destruct (Zdigits2 a + u + e - 53 - e) as [|k|k] eqn:Ek.
  - rewrite Z2Pos.id by lia.
    replace (2 ^ u * a) with (2 ^ 0 * m)
      by (subst m; replace u with (53 - Zdigits2 a) by lia; now rewrite Z.mul_1_l).
    rewrite binary_round_aux_exact by lia. f_equal. lia.
  - rewrite Z2Pos.id by lia.
    replace (2 ^ u * a) with (2 ^ Z.pos k * m).
    2:{ subst m. rewrite Z.mul_assoc, <- Z.pow_add_r by lia. do 2 f_equal. lia. }
    rewrite binary_round_aux_exact by lia. f_equal. lia.
  - rewrite pos_iter_xO, Z2Pos.id by lia.
    replace (2 ^ Z.pos k * (2 ^ u * a)) with (2 ^ 0 * m).
    2:{ subst m. rewrite Z.mul_1_l, Z.mul_assoc, <- Z.pow_add_r by lia.
        do 2 f_equal. lia. }
    rewrite binary_round_aux_exact by lia. f_equal. lia.
Qed.

Lemma double_of_Z_dyadic (a t : Z) :
  0 < a -> Zdigits2 a <= 53 -> 0 <= t <= 900 ->
  double_of_Z (2 ^ t * a) = dyadic a t.
Proof.
  intros Ha Hd Ht. unfold double_of_Z, binary_normalize.
  assert (Hpu : 0 < 2 ^ t) by (apply Z.pow_pos_nonneg; lia).
  pose proof (Zdigits2_nonneg a).
  destruct (2 ^ t * a) as [|p|p] eqn:E; try nia.
  replace p with (Z.to_pos (2 ^ t * a)) by (rewrite E; reflexivity).
  rewrite binary_round_dyadic by lia. f_equal. lia.
Qed.

Lemma Zdigits2_small (n : Z) : 0 < n < 2 ^ 53 -> Zdigits2 n <= 53.
Proof.
  intros Hn. pose proof (Zdigits2_bounds n ltac:(lia)) as Hb.
  destruct (Z_le_dec (Zdigits2 n) 53) as [|Hgt]; [assumption|].
  assert (2 ^ 53 <= 2 ^ (Zdigits2 n - 1)) by (apply Z.pow_le_mono_r; lia). lia.
Qed.

Lemma double_of_Z_small (n : Z) : 0 < n < 2 ^ 53 -> double_of_Z n = dyadic n 0.
Proof.
  intros Hn. rewrite <- double_of_Z_dyadic; [|lia|now apply Zdigits2_small|lia].
  now rewrite Z.pow_0_r, Z.mul_1_l.
Qed.

Lemma double_of_pow2 (j : Z) : 0 <= j <= 900 -> double_of_Z (2 ^ j) = dyadic 1 j.
Proof.
  intros Hj. rewrite <- double_of_Z_dyadic; [|lia|cbn; lia|lia].
  now rewrite Z.mul_1_r.
Qed.

Lemma dyadic_1 (j : Z) : dyadic 1 j = S754_finite false 4503599627370496 (j - 52).
Proof. unfold dyadic. f_equal. cbn. lia. Qed.

(** Multiplication by a power of two. *)
Lemma double_mul_pow2 (a t j : Z) :
  0 < a -> Zdigits2 a <= 53 -> -1074 <= t + j + Zdigits2 a - 53 <= 971 ->
  double_mul (dyadic a t) (dyadic 1 j) = dyadic a (t + j).
Proof.
  intros Ha Hd He. rewrite dyadic_1. unfold dyadic, double_mul, SFmul. cbn [xorb].
  pose proof (Zdigits2_normal a Ha Hd) as (Hn53 & Hnpos).
  rewrite Pos2Z.inj_mul, Z2Pos.id by lia.
  rewrite Z.mul_comm. change (Z.pos 4503599627370496) with (2 ^ 52).
  rewrite binary_round_aux_exact by lia. f_equal. lia.
Qed.

(** Division by a power of two. *)
Lemma double_div_pow2 (a t j : Z) :
  0 < a -> Zdigits2 a <= 53 -> -1020 <= t - j + Zdigits2 a - 53 <= 971 ->
  double_div (dyadic a t) (dyadic 1 j) = dyadic a (t - j).
Proof.
  intros Ha Hd He. rewrite dyadic_1. unfold dyadic, double_div, SFdiv. cbn [xorb].
  pose proof (Zdigits2_normal a Ha Hd) as (Hn53 & Hnpos).
  set (m := 2 ^ (53 - Zdigits2 a) * a) in *.
  unfold SFdiv_core_binary. rewrite Z2Pos.id by lia. rewrite Hn53.
  change (Zdigits2 (Z.pos 4503599627370496)) with 53.
  set (e1 := t + Zdigits2 a - 53). set (e2 := j - 52).
  replace (Z.min (fexp 53 1024 (53 + e1 - (53 + e2))) (e1 - e2)) with (e1 - e2 - 53)
    by (unfold fexp, emin; lia).
  replace (e1 - e2 - (e1 - e2 - 53)) with 53 by lia.
  assert (Hq : Z.div_eucl (Z.shiftl m 53) (Z.pos 4503599627370496) = (2 ^ 1 * m, 0)).
  { pose proof (Z_div_mod (Z.shiftl m 53) (Z.pos 4503599627370496) ltac:(lia)) as H.
    destruct (Z.div_eucl _ _) as [q r]. rewrite Z.shiftl_mul_pow2 in H by lia.
    change (2 ^ 53) with 9007199254740992 in H. f_equal; lia. }
  rewrite Hq. cbn [new_location Z.even new_location_even Z.eqb].
  rewrite binary_round_aux_exact by lia. f_equal. lia.
Qed.

Lemma shl_align_fst (m : positive) (e e' : Z) :
  e' <= e -> Z.pos (fst (shl_align m e e')) = 2 ^ (e - e') * Z.pos m.
Proof.
  intros He. unfold shl_align. destruct (e' - e) as [|k|k] eqn:Ek; cbn [fst]; try lia.
  - replace (e - e') with 0 by lia. lia.
  - rewrite pos_iter_xO. do 2 f_equal. lia.
Qed.

(** Addition of two numbers whose sum has at most 53 digits. *)
Lemma double_add_dyadic (a b t : Z) :
  0 < a -> 0 < b -> Zdigits2 (a + b) <= 53 ->
  -1021 <= t <= 900 ->
  double_add (dyadic a t) (dyadic b t) = dyadic (a + b) t.
Proof.
  intros Ha Hb Hd Ht.
  assert (Hda : Zdigits2 a <= Zdigits2 (a + b) /\ Zdigits2 b <= Zdigits2 (a + b)).
  { pose proof (Zdigits2_bounds a Ha). pose proof (Zdigits2_bounds b Hb).
    pose proof (Zdigits2_bounds (a + b) ltac:(lia)).
    split.
    - destruct (Z_le_dec (Zdigits2 a) (Zdigits2 (a + b))) as [|Hgt]; [assumption|].
      assert (2 ^ Zdigits2 (a + b) <= 2 ^ (Zdigits2 a - 1))
        by (apply Z.pow_le_mono_r; lia). lia.
    - destruct (Z_le_dec (Zdigits2 b) (Zdigits2 (a + b))) as [|Hgt]; [assumption|].
      assert (2 ^ Zdigits2 (a + b) <= 2 ^ (Zdigits2 b - 1))
        by (apply Z.pow_le_mono_r; lia). lia. }
  destruct Hda as (Hda & Hdb).
  assert (H1a : 0 < Zdigits2 a) by (destruct a; cbn; lia).
  assert (H1b : 0 < Zdigits2 b) by (destruct b; cbn; lia).
  set (r := dyadic (a + b) t). unfold double_add, SFadd, dyadic. cbn [cond_Zopp].
  pose proof (Zdigits2_normal a Ha ltac:(lia)) as (_ & Hma).
  pose proof (Zdigits2_normal b Hb ltac:(lia)) as (_ & Hmb).
  set (ea := t + Zdigits2 a - 53). set (eb := t + Zdigits2 b - 53).
  set (ez := Z.min ea eb).
  rewrite !shl_align_fst by lia. rewrite !Z2Pos.id by lia.
  rewrite !Z.mul_assoc, <- !Z.pow_add_r by lia.
  replace (ea - ez + (53 - Zdigits2 a)) with (t - ez) by lia.
  replace (eb - ez + (53 - Zdigits2 b)) with (t - ez) by lia.
  rewrite <- Z.mul_add_distr_l.
  assert (Hp : 0 < 2 ^ (t - ez)) by (apply Z.pow_pos_nonneg; lia).
  unfold binary_normalize.
  destruct (2 ^ (t - ez) * (a + b)) as [|p|p] eqn:E; try nia.
  replace p with (Z.to_pos (2 ^ (t - ez) * (a + b))) by (rewrite E; reflexivity).
  rewrite binary_round_dyadic by lia. subst r. f_equal. lia.
Qed.

(** The integer above a quotient by a power of two. *)
Lemma double_ceil_dyadic (a j : Z) :
  0 < a -> Zdigits2 a <= 53 -> 0 <= j ->
  double_ceil (dyadic a (- j)) = Some (- (- a / 2 ^ j)).
Proof.
  intros Ha Hd Hj. unfold double_ceil, dyadic.
  pose proof (Zdigits2_normal a Ha Hd) as (_ & Hm).
  rewrite Z2Pos.id by lia. f_equal.
  destruct (Z.leb_spec 0 (- j + Zdigits2 a - 53)) as [He | He].
  - replace j with 0 by lia. replace (Zdigits2 a) with 53 by lia.
    cbn. rewrite Z.div_1_r. lia.
  - f_equal. replace (- (- j + Zdigits2 a - 53)) with (53 - Zdigits2 a + j) by lia.
    rewrite Z.pow_add_r by lia.
    assert (0 < 2 ^ (53 - Zdigits2 a)) by (apply Z.pow_pos_nonneg; lia).
    assert (0 < 2 ^ j) by (apply Z.pow_pos_nonneg; lia).
    rewrite <- Z.mul_opp_r. apply Z.div_mul_cancel_l; lia.
Qed.

(** ** Doubles of small integers *)

Lemma double_of_Z_0 : double_of_Z 0 = double_zero.
Proof. reflexivity. Qed.

Lemma double_mul_exact (c j : Z) :
  0 <= c -> 0 <= j <= 900 -> 2 ^ j * c < 2 ^ 53 ->
  double_mul (double_of_Z c) (double_of_Z (2 ^ j)) = double_of_Z (2 ^ j * c).
Proof.
  intros Hc Hj Hlt. rewrite double_of_pow2 by lia.
  destruct (Z.eq_dec c 0) as [-> | Hne].
  - rewrite Z.mul_0_r, dyadic_1. reflexivity.
  - assert (Hp : 0 < 2 ^ j) by (apply Z.pow_pos_nonneg; lia).
    assert (Hd : Zdigits2 c <= 53) by (apply Zdigits2_small; nia).
    pose proof (Zdigits2_nonneg c).
    rewrite double_of_Z_small by nia.
    rewrite double_mul_pow2 by lia.
    now rewrite double_of_Z_dyadic by lia.
Qed.

Lemma double_add_exact (a b : Z) :
  0 <= a -> 0 <= b -> a + b < 2 ^ 53 ->
  double_add (double_of_Z a) (double_of_Z b) = double_of_Z (a + b).
Proof.
  intros Ha Hb Hlt.
  destruct (Z.eq_dec a 0) as [-> | Hna].
  - rewrite Z.add_0_l. destruct (Z.eq_dec b 0) as [-> | Hnb]; [reflexivity|].
    rewrite (double_of_Z_small b) by lia. reflexivity.
  - destruct (Z.eq_dec b 0) as [-> | Hnb].
    + rewrite Z.add_0_r, (double_of_Z_small a) by lia. reflexivity.
    + rewrite !double_of_Z_small by lia.
      apply double_add_dyadic; try lia. apply Zdigits2_small. lia.
Qed.

Lemma ceil_div_exact (s j : Z) :
  0 <= s < 2 ^ 53 -> 0 <= j <= 900 ->
  @ceil_to_uint64 FastHuf.error (double_div (double_of_Z s) (double_of_Z (2 ^ j))) =
  Ret (- (- s / 2 ^ j)).
Proof.
  intros Hs Hj. rewrite double_of_pow2 by lia.
  assert (Hp : 0 < 2 ^ j) by (apply Z.pow_pos_nonneg; lia).
  destruct (Z.eq_dec s 0) as [-> | Hne].
  - rewrite dyadic_1. cbn -[Z.pow]. rewrite Z.div_0_l by lia. reflexivity.
  - assert (Hd : Zdigits2 s <= 53) by (apply Zdigits2_small; lia).
    pose proof (Zdigits2_nonneg s).
    assert (0 < Zdigits2 s) by (destruct s; cbn; lia).
    rewrite double_of_Z_small by lia.
    rewrite double_div_pow2 by lia. unfold ceil_to_uint64.
    replace (0 - j) with (- j) by lia.
    rewrite double_ceil_dyadic by lia.
    assert (Hr : 0 <= - (- s / 2 ^ j) <= s).
    { assert (- s <= - s / 2 ^ j) by (apply Z.div_le_lower_bound; nia).
      assert (- s / 2 ^ j <= 0).
      { apply Z.lt_succ_r. apply Z.div_lt_upper_bound; lia. }
      lia. }
    destruct (Z.leb_spec 0 (- (- s / 2 ^ j))),
      (Z.ltb_spec (- (- s / 2 ^ j)) (2 ^ 64)); cbn [andb]; try reflexivity; lia.
Qed.

Section Base.
Import FastHuf.

Lemma nth_insert_same {A} (l : list A) (i : nat) (x d : A) :
  (i < length l)%nat -> nth i (<[i := x]> l) d = x.
Proof. intros Hi. apply nth_lookup_Some. now apply list_lookup_insert_eq. Qed.

Lemma nth_insert_other {A} (l : list A) (i j : nat) (x d : A) :
  i <> j -> nth j (<[i := x]> l) d = nth j l d.
Proof. intros Hne. rewrite !nth_lookup. now rewrite list_lookup_insert_ne. Qed.

Lemma compute_countTmp_spec (minCL maxCL : Z) (cc : list Z) :
  0 <= minCL ->
  forall k, minCL <= k <= maxCL ->
    nth (Z.to_nat k) (compute_countTmp minCL maxCL cc) double_zero =
    double_mul (double_of_Z (arr_get cc k)) (double_of_Z (Z.shiftl 2 (maxCL - k))).
Proof.
  intros Hmin. unfold compute_countTmp.
  pose proof (for_up_inv
    (fun i ct => length ct = Z.to_nat (maxCL + 1) /\
       forall k, minCL <= k < i ->
         nth (Z.to_nat k) ct double_zero =
         double_mul (double_of_Z (arr_get cc k)) (double_of_Z (Z.shiftl 2 (maxCL - k))))
    (fun l countTmp =>
       <[Z.to_nat l :=
           double_mul (double_of_Z (arr_get cc l))
                      (double_of_Z (Z.shiftl 2 (maxCL - l)))]> countTmp)
    (count minCL maxCL) minCL (repeat double_zero (Z.to_nat (maxCL + 1)))) as H.
  cbv beta in H. destruct H as (Hl & Hv).
  - split; [apply repeat_length | lia].
  - intros i ct Hi (Hl & Hv). unfold count in Hi.
    split; [now rewrite length_insert|]. intros k Hk.
    destruct (Z.eq_dec k i) as [-> | Hne].
    + apply nth_insert_same. lia.
    + rewrite nth_insert_other by lia. apply Hv. lia.
  - intros k Hk. apply Hv. unfold count. lia.
Qed.

Lemma for_up_double_sum (ct : list double) (f : Z -> Z) (n : nat) :
  forall i acc : Z,
  0 <= acc ->
  (forall k, i <= k < i + Z.of_nat n ->
     nth (Z.to_nat k) ct double_zero = double_of_Z (f k) /\ 0 <= f k) ->
  acc + sum_from n i f < 2 ^ 53 ->
  for_up n i (fun k tmp => double_add tmp (nth (Z.to_nat k) ct double_zero))
    (double_of_Z acc) = double_of_Z (acc + sum_from n i f).
Proof.
  induction n as [|n IH]; intros i acc Hacc Hct Hlt; cbn [for_up sum_from] in *.
  - now rewrite Z.add_0_r.
  - destruct (Hct i ltac:(lia)) as (-> & Hfi).
    pose proof (sum_from_nonneg n (i + 1) f
                  ltac:(intros k Hk; apply Hct; lia)) as Hrest.
    rewrite double_add_exact by lia.
    rewrite IH; [f_equal; lia | lia | intros k Hk; apply Hct; lia | lia].
Qed.

Lemma sum_range_term_le (f : Z -> Z) (a b k : Z) :
  (forall j, a <= j <= b -> 0 <= f j) -> a <= k <= b -> f k <= sum_range f a b.
Proof.
  intros Hf Hk. rewrite <- (sum_range_one f k). apply sum_range_sub; [exact Hf|lia|lia].
Qed.

Lemma sum_from_scale (c : Z) (f : Z -> Z) (n : nat) :
  forall i, sum_from n i (fun k => c * f k) = c * sum_from n i f.
Proof. induction n as [|n IH]; intros i; cbn [sum_from]; [lia|]. rewrite IH. ring. Qed.

(** The value [base_of] computes when the doubles are exact. *)
Lemma base_of_exact (minCL maxCL L : Z) (cc : list Z) :
  0 <= minCL <= L -> L <= maxCL <= 58 ->
  (forall k, 0 <= k <= 58 -> 0 <= arr_get cc k) ->
  base_sum (arr_get cc) maxCL L < 2 ^ 53 ->
  base_of maxCL (compute_countTmp minCL maxCL cc) L =
  Ret (- (- base_sum (arr_get cc) maxCL L / 2 ^ (maxCL - L + 1))).
Proof.
  intros Hmin Hmax Hcc Hlt. unfold base_of. cbv zeta.
  set (f := fun k => 2 ^ (maxCL - k + 1) * arr_get cc k).
  assert (Hf : forall k, L + 1 <= k <= maxCL -> 0 <= f k).
  { intros k Hk. unfold f. specialize (Hcc k ltac:(lia)).
    assert (0 < 2 ^ (maxCL - k + 1)) by (apply Z.pow_pos_nonneg; lia). nia. }
  assert (Hsh : forall k, k <= maxCL -> Z.shiftl 2 (maxCL - k) = 2 ^ (maxCL - k + 1)).
  { intros k Hk. rewrite Z.shiftl_mul_pow2, Z.pow_add_r by lia. lia. }
  change double_zero with (double_of_Z 0) at 2.
  unfold base_sum in *. fold f in Hlt |- *. unfold sum_range in *.
  rewrite (for_up_double_sum _ f); [| lia | | lia].
  - rewrite Z.add_0_l, Hsh by lia. apply ceil_div_exact; [|lia].
    split; [|exact Hlt]. apply sum_from_nonneg. intros k Hk. apply Hf.
    unfold count in Hk. lia.
  - intros k Hk. unfold count in Hk. split; [|apply Hf; lia].
    rewrite compute_countTmp_spec, Hsh by lia. apply double_mul_exact.
    + apply Hcc. lia.
    + lia.
    + pose proof (sum_range_term_le f (L + 1) maxCL k Hf ltac:(lia)) as Hle.
      unfold sum_range, f in Hle. unfold f in Hlt. lia.
Qed.

Lemma base_sum_closed_form (cc : Z -> Z) (maxCL L : Z) :
  L <= maxCL ->
  - (- base_sum cc maxCL L / 2 ^ (maxCL - L + 1)) = base_closed_form cc maxCL L.
Proof.
  intros HL. unfold base_sum, base_closed_form, sum_range.
  rewrite (sum_from_ext _ (L + 1) _ (fun k => 2 * (cc k * 2 ^ (maxCL - k)))).
  2:{ intros k Hk. unfold count in Hk. rewrite Z.pow_add_r by lia. lia. }
  rewrite sum_from_scale, Z.pow_add_r by lia.
  assert (0 < 2 ^ (maxCL - L)) by (apply Z.pow_pos_nonneg; lia).
  rewrite (Z.mul_comm (2 ^ (maxCL - L)) (2 ^ 1)). change (2 ^ 1) with 2.
  rewrite <- Z.mul_opp_r, Z.div_mul_cancel_l by lia. reflexivity.
Qed.

Lemma wrap64_shiftl_even (x n : Z) : 1 <= n -> wrap64 (Z.shiftl x n) <> ALL_ONES.
Proof.
  intros Hn. unfold wrap64, ALL_ONES. rewrite Z.shiftl_mul_pow2 by lia.
  replace n with (Z.succ (n - 1)) by lia. rewrite Z.pow_succ_r by lia.
  change (2 ^ 64) with (2 * 2 ^ 63).
  rewrite (Z.mul_comm x), <- Z.mul_assoc, Z.mul_mod_distr_l by lia. lia.
Qed.

(** C6, amended: after the scan, [base[L]] keeps the sentinel exactly for the
    lengths [L] outside [min_code_len .. max_code_len], and so does
    [lj_base[L]]; for every [L] of that range, with [code_count[L] = 0] or
    not, [base[L]] is computed, and it is the closed form
    [ceil (sum over k > L of code_count[k] * 2^(max - k) / 2^(max - L))]
    when the sum that the code forms, of the [code_count[k] * 2^(max - k + 1)],
    is below 2^53, so that the doubles hold it exactly. *)
Theorem base_after_scan (table : list byte)
    (numBytes minSymbol maxSymbol : Z) (st : scan_state) (base : list Z) (L : Z) :
  scan_table table numBytes minSymbol maxSymbol = Ret st ->
  compute_base (scanMinCodeLength st) (scanMaxCodeLength st) (codeCount st)
    (repeat ALL_ONES (Z.to_nat (MAX_CODE_LEN + 1))) = Ret base ->
  0 <= L <= MAX_CODE_LEN ->
  (arr_get base L = ALL_ONES <->
   ~ scanMinCodeLength st <= L <= scanMaxCodeLength st) /\
  (arr_get (build_ljBase base) L = ALL_ONES <->
   ~ scanMinCodeLength st <= L <= scanMaxCodeLength st) /\
  (scanMinCodeLength st <= L <= scanMaxCodeLength st ->
   base_sum (arr_get (codeCount st)) (scanMaxCodeLength st) L < 2 ^ 53 ->
   arr_get base L = base_closed_form (arr_get (codeCount st)) (scanMaxCodeLength st) L).
Proof.
  intros Hscan Hbase HL. unfold MAX_CODE_LEN in HL.
  apply scan_table_inv in Hscan as (Hinv & _).
  pose proof (scan_counts st Hinv) as (Hcc & _ & _ & Hext). cbv zeta in Hcc, Hext.
  assert (Hmm : 0 <= scanMinCodeLength st /\ scanMaxCodeLength st <= 58) by lia.
  destruct Hmm as (Hmin & Hmax).
  apply compute_base_spec in Hbase as (Hlen & Hout & Hin);
    [|apply repeat_length | exact Hmin | exact Hmax].
  pose proof (build_ljBase_spec base) as (_ & Hlj).
  assert (Hiff : arr_get base L = ALL_ONES <->
                 ~ scanMinCodeLength st <= L <= scanMaxCodeLength st).
  { split.
    - intros E Hi. specialize (Hin L Hi).
      apply base_of_not_all_ones in Hin as (Hne & _). contradiction.
    - intros Hn. rewrite Hout by assumption.
      apply arr_get_repeat. unfold MAX_CODE_LEN. lia. }
  split; [exact Hiff|]. split.
  - rewrite Hlj by lia. destruct (Z.eqb_spec (arr_get base L) ALL_ONES) as [E | E];
      cbn [negb].
    + split; [intros _; now apply Hiff | reflexivity].
    + split.
      * intros Habs. exfalso. revert Habs. apply wrap64_shiftl_even. lia.
      * intros Hn. apply Hiff in Hn. contradiction.
  - intros Hi Hsum. specialize (Hin L Hi).
    rewrite base_of_exact in Hin by (try assumption; lia).
    apply Ret_inj in Hin. rewrite <- Hin. apply base_sum_closed_form. lia.
Qed.

End Base.

(** ** The constructor on the examples *)

(** The decoder of [rle_table] is the one the constructor returns. *)
Lemma rle_decoder_new :
  FastHuf.new FastHuf.rle_table 3 5 7 7 = Ret (FastHuf.rle_decoder, 3).
Proof.
  apply (new_run FastHuf.rle_table 3 5 7 7 FastHuf.rle_scan FastHuf.rle_base
           (FastHuf.idToSymbol FastHuf.rle_decoder) FastHuf.rle_decoder).
  - vm_compute. reflexivity.
  - vm_compute. reflexivity.
  - vm_compute. reflexivity.
  - rewrite (buildTables_run _ _ _ _ _ _ _
               (combine (FastHuf.tableCodeLen FastHuf.rle_decoder)
                        (FastHuf.tableSymbol FastHuf.rle_decoder))).
    + vm_compute. reflexivity.
    + vm_compute. reflexivity.
Qed.

(** A code book with a code of [MAX_CODE_LEN] bits, here the lengths 1 and
    58, is not accepted. *)
Lemma max_length_code_rejected :
  FastHuf.new FastHuf.long_table 2 0 1 7 = Throw FastHuf.InvalidTable.
Proof. vm_compute. reflexivity. Qed.

Lemma acceleration_agrees_with_linear_search_witness :
  FastHuf.spec_linear_lookup FastHuf.rle_decoder 0x8180000000000000 =
  Some (FastHuf.table_lookup FastHuf.rle_decoder 0x8180000000000000).
Proof.
  apply (acceleration_agrees_with_linear_search FastHuf.rle_table 3 5 7 7
           FastHuf.rle_decoder 3).
  - exact rle_decoder_new.
  - lia.
  - exists 1. split; [unfold FastHuf.TABLE_LOOKUP_BITS; lia|].
    vm_compute. discriminate.
Defined.

(** C6 as stated fails, in both halves.  In [gap_table] no code has length
    2, which lies between the lengths 1 and 3 in use: [base[2]] is 1 and
    [lj_base[2]] is [2^62], not the sentinel, also in the decoder that the
    constructor returns.  In [slip_table], of lengths 4, 5, 5 and 57, the sum
    [2^54 + 2] for length 4 is rounded to [2^54]: [base[4]] is 1, and the
    closed form is 2. *)
Lemma base_not_as_claimed :
  (FastHuf.scan_table FastHuf.gap_table 3 0 2 = Ret FastHuf.gap_scan /\
   FastHuf.compute_base (FastHuf.scanMinCodeLength FastHuf.gap_scan)
     (FastHuf.scanMaxCodeLength FastHuf.gap_scan) (FastHuf.codeCount FastHuf.gap_scan)
     (repeat FastHuf.ALL_ONES (Z.to_nat (FastHuf.MAX_CODE_LEN + 1))) =
   Ret FastHuf.gap_base /\
   FastHuf.scanMinCodeLength FastHuf.gap_scan = 1 /\
   FastHuf.scanMaxCodeLength FastHuf.gap_scan = 3 /\
   arr_get (FastHuf.codeCount FastHuf.gap_scan) 2 = 0 /\
   arr_get FastHuf.gap_base 2 = 1 /\
   arr_get (FastHuf.build_ljBase FastHuf.gap_base) 2 = 2 ^ 62 /\
   match FastHuf.new FastHuf.gap_table 3 0 2 7 with
   | Ret (d, _) => arr_get (FastHuf.ljBase d) 2 = 2 ^ 62
   | _ => False
   end) /\
  (FastHuf.scan_table FastHuf.slip_table 4 0 3 = Ret FastHuf.slip_scan /\
   FastHuf.compute_base (FastHuf.scanMinCodeLength FastHuf.slip_scan)
     (FastHuf.scanMaxCodeLength FastHuf.slip_scan) (FastHuf.codeCount FastHuf.slip_scan)
     (repeat FastHuf.ALL_ONES (Z.to_nat (FastHuf.MAX_CODE_LEN + 1))) =
   Ret FastHuf.slip_base /\
   arr_get (FastHuf.codeCount FastHuf.slip_scan) 4 = 1 /\
   arr_get FastHuf.slip_base 4 = 1 /\
   FastHuf.base_closed_form (arr_get (FastHuf.codeCount FastHuf.slip_scan)) 57 4 = 2).
Proof.
  split.
  - split; [vm_compute; reflexivity|]. split; [vm_compute; reflexivity|].
    split; [reflexivity|]. split; [reflexivity|]. split; [reflexivity|].
    split; [reflexivity|]. split; vm_compute; reflexivity.
  - split; [vm_compute; reflexivity|]. split; [vm_compute; reflexivity|].
    split; [reflexivity|]. split; [reflexivity|]. vm_compute. reflexivity.
Qed.

Lemma base_after_scan_witness :
  arr_get FastHuf.gap_base 2 <> FastHuf.ALL_ONES /\
  arr_get (FastHuf.build_ljBase FastHuf.gap_base) 2 <> FastHuf.ALL_ONES /\
  arr_get FastHuf.gap_base 2 =
  FastHuf.base_closed_form (arr_get (FastHuf.codeCount FastHuf.gap_scan)) 3 2.
Proof.
  destruct (base_after_scan FastHuf.gap_table 3 0 2 FastHuf.gap_scan
              FastHuf.gap_base 2) as (H1 & H2 & H3).
  - vm_compute. reflexivity.
  - vm_compute. reflexivity.
  - unfold FastHuf.MAX_CODE_LEN. lia.
  - split; [|split].
    + intros E. apply H1 in E. apply E. vm_compute. split; discriminate.
    + intros E. apply H2 in E. apply E. vm_compute. split; discriminate.
    + apply H3; [vm_compute; split; discriminate | vm_compute; reflexivity].
Defined.

(** * Further properties *)

(** ** Pxr24: the rounding of [floatToFloat24] *)

Section Float24Rounding.
Import Pxr24.

(** A finite input of sign [S] and magnitude [a]: the magnitude is divided
    by 256 and rounded to nearest, halves upwards, unless that reaches the
    exponent of the infinities. *)
Lemma floatToFloat24_finite (S a : Z) :
  0 <= S < 2 -> 0 <= a < 0x7f800000 ->
  floatToFloat24 (S * 2 ^ 31 + a) =
  S * 2 ^ 23 + (if 0x7f8000 <=? (a + 128) / 256 then a / 256 else (a + 128) / 256).
Proof.
  intros HS Ha. rewrite floatToFloat24_arith. cbv zeta.
  set (u := S * 2 ^ 31 + a).
  assert (ES : (u / 2 ^ 31) mod 2 = S).
  { subst u. rewrite Z.div_add_l, Z.div_small, Z.add_0_r by lia.
    apply Z.mod_small. lia. }
  assert (EE : (u / 2 ^ 23) mod 256 = a / 2 ^ 23).
  { subst u. change (2 ^ 31) with (256 * 2 ^ 23). rewrite Z.mul_assoc.
    rewrite Z.div_add_l by lia. rewrite Z.add_comm, Z.mod_add by lia.
    apply Z.mod_small. split; [apply Z.div_pos; lia|].
    apply Z.div_lt_upper_bound; lia. }
  assert (EM : u mod 2 ^ 23 = a mod 2 ^ 23).
  { subst u. change (2 ^ 31) with (256 * 2 ^ 23). rewrite Z.mul_assoc.
    rewrite Z.add_comm, Z.mod_add by lia. reflexivity. }
  rewrite ES, EE, EM.
  assert (HE : 0 <= a / 2 ^ 23 < 255).
  { split; [apply Z.div_pos; lia|]. apply Z.div_lt_upper_bound; lia. }
  destruct (Z.eqb_spec (a / 2 ^ 23) 255) as [|_]; [lia|].
  rewrite (Z.mul_comm (a / 2 ^ 23)), <- Z.div_mod by lia.
  replace ((a + (a mod 2 ^ 23 / 128) mod 2 * 128) / 256) with ((a + 128) / 256).
  - reflexivity.
  - Z.div_mod_to_equations. lia.
Qed.

Lemma finite_parts (u : Z) :
  0 <= u < 2 ^ 32 -> is_finite u ->
  let S := u / 2 ^ 31 in
  let a := u mod 2 ^ 31 in
  u = S * 2 ^ 31 + a /\ 0 <= S < 2 /\ 0 <= a < 0x7f800000.
Proof.
  unfold is_finite. rewrite exponent_bits_eq. cbv zeta. intros Hu Hfin.
  assert (HS : 0 <= u / 2 ^ 31 < 2).
  { split; [apply Z.div_pos; lia|]. apply Z.div_lt_upper_bound; lia. }
  pose proof (Z.mod_pos_bound u (2 ^ 31) ltac:(lia)) as Ha.
  split; [rewrite Z.mul_comm; apply Z.div_mod; lia|]. split; [exact HS|].
  split; [lia|].
  destruct (Z_lt_dec (u mod 2 ^ 31) 0x7f800000) as [|Hge]; [assumption|].
  exfalso. apply Hfin. Z.div_mod_to_equations. lia.
Qed.

(** X1.  Quantising a number that has 24 bits already changes nothing. *)
Theorem floatToFloat24_of_float24 (x : Z) :
  0 <= x < 2 ^ 24 -> floatToFloat24 (float24ToFloat x) = x.
Proof.
  intros Hx. rewrite float24ToFloat_small by exact Hx.
  rewrite floatToFloat24_arith. cbv zeta.
  replace ((x * 256 / 2 ^ 31) mod 2) with (x / 2 ^ 23)
    by (Z.div_mod_to_equations; lia).
  replace ((x * 256 / 2 ^ 23) mod 256) with ((x / 2 ^ 15) mod 256)
    by (Z.div_mod_to_equations; lia).
  replace ((x * 256) mod 2 ^ 23) with (x mod 2 ^ 15 * 256)
    by (Z.div_mod_to_equations; lia).
  rewrite Z.div_mul by lia.
  replace ((x mod 2 ^ 15 * 256 / 128) mod 2) with 0
    by (Z.div_mod_to_equations; lia).
  destruct (Z.eqb_spec ((x / 2 ^ 15) mod 256) 255) as [E | E].
  - destruct (Z.eqb_spec (x mod 2 ^ 15 * 256) 0) as [M0 | M0].
    + Z.div_mod_to_equations. lia.
    + destruct (Z.eqb_spec (x mod 2 ^ 15) 0) as [M1 | M1]; [lia|].
      Z.div_mod_to_equations. lia.
  - rewrite Z.mul_0_l, Z.add_0_r.
    replace (((x / 2 ^ 15) mod 256 * 2 ^ 23 + x mod 2 ^ 15 * 256) / 256)
      with ((x / 2 ^ 15) mod 256 * 2 ^ 15 + x mod 2 ^ 15)
      by (Z.div_mod_to_equations; lia).
    destruct (Z.leb_spec 0x7f8000 ((x / 2 ^ 15) mod 256 * 2 ^ 15 + x mod 2 ^ 15));
      Z.div_mod_to_equations; lia.
Qed.

(** X2.  The error of the quantisation of a finite number: the sign is kept, and
    the magnitude moves by at most half a unit of the 15-bit significand,
    128 units of the 23-bit one; only next to FLT_MAX, where rounding up would
    give an infinity, it is cut by up to 255 units. *)
Theorem floatToFloat24_error (u : Z) :
  0 <= u < 2 ^ 32 -> is_finite u ->
  let r := float24ToFloat (floatToFloat24 u) in
  sign_bits r = sign_bits u /\
  -255 <= r mod 2 ^ 31 - u mod 2 ^ 31 <= 128 /\
  (u mod 2 ^ 31 < 0x7f7fff80 -> -128 < r mod 2 ^ 31 - u mod 2 ^ 31).
Proof.
  intros Hu Hfin r. subst r.
  destruct (finite_parts u Hu Hfin) as (Eu & HS & Ha).
  remember (u / 2 ^ 31) as sg eqn:Esg. remember (u mod 2 ^ 31) as a eqn:Ea.
  clear Esg Ea Hu Hfin. subst u.
  rewrite floatToFloat24_finite by assumption.
  set (i := if 0x7f8000 <=? (a + 128) / 256 then a / 256 else (a + 128) / 256).
  assert (Hi : 0 <= i < 0x7f8000 /\ -255 <= i * 256 - a <= 128 /\
               (a < 0x7f7fff80 -> -128 < i * 256 - a)).
  { subst i. destruct (Z.leb_spec 0x7f8000 ((a + 128) / 256));
      Z.div_mod_to_equations; lia. }
  destruct Hi as (Hi & Herr & Herr').
  rewrite float24ToFloat_small by lia.
  rewrite !sign_bits_eq.
  replace ((sg * 2 ^ 23 + i) * 256 / 2 ^ 31) with sg by (Z.div_mod_to_equations; lia).
  replace ((sg * 2 ^ 23 + i) * 256 mod 2 ^ 31) with (i * 256)
    by (Z.div_mod_to_equations; lia).
  replace ((sg * 2 ^ 31 + a) / 2 ^ 31) with sg by (Z.div_mod_to_equations; lia).
  replace ((sg * 2 ^ 31 + a) mod 2 ^ 31) with a by (Z.div_mod_to_equations; lia).
  split; [reflexivity|]. split; assumption.
Qed.

(** X3.  The quantisation keeps the order of finite numbers that are not
    negative, whose bit patterns are ordered as the numbers are. *)
Theorem floatToFloat24_monotone (u v : Z) :
  0 <= u -> u <= v -> v < 0x7f800000 ->
  floatToFloat24 u <= floatToFloat24 v.
Proof.
  intros Hu Huv Hv.
  pose proof (floatToFloat24_finite 0 u ltac:(lia) ltac:(lia)) as Eu.
  pose proof (floatToFloat24_finite 0 v ltac:(lia) ltac:(lia)) as Ev.
  rewrite Z.mul_0_l, !Z.add_0_l in Eu, Ev. rewrite Eu, Ev.
  destruct (Z.leb_spec 0x7f8000 ((u + 128) / 256)),
    (Z.leb_spec 0x7f8000 ((v + 128) / 256)); Z.div_mod_to_equations; lia.
Qed.

End Float24Rounding.

Lemma floatToFloat24_of_float24_witness :
  Pxr24.floatToFloat24 (Pxr24.float24ToFloat 0x3F8001) = 0x3F8001.
Proof. apply (floatToFloat24_of_float24 0x3F8001). lia. Defined.

Lemma floatToFloat24_error_witness :
  let r := Pxr24.float24ToFloat (Pxr24.floatToFloat24 0xBF8000C1) in
  Pxr24.sign_bits r = Pxr24.sign_bits 0xBF8000C1 /\
  -255 <= r mod 2 ^ 31 - 0xBF8000C1 mod 2 ^ 31 <= 128 /\
  (0xBF8000C1 mod 2 ^ 31 < 0x7f7fff80 ->
   -128 < r mod 2 ^ 31 - 0xBF8000C1 mod 2 ^ 31).
Proof.
  apply (floatToFloat24_error 0xBF8000C1); [lia|]. vm_compute. discriminate.
Defined.

Lemma floatToFloat24_monotone_witness :
  Pxr24.floatToFloat24 0x3F80007F <= Pxr24.floatToFloat24 0x3F800080.
Proof. apply (floatToFloat24_monotone 0x3F80007F 0x3F800080); lia. Defined.

(** ** Pxr24: the planes of [_tmpBuffer] *)

Section Pxr24Planes.
Import Pxr24.

Lemma lookup_in_range {A} (l : list A) (p : Z) :
  0 <= p < Z.of_nat (length l) -> exists b, l !! Z.to_nat p = Some b.
Proof.
  intros Hp. destruct (l !! Z.to_nat p) as [b|] eqn:E; [eauto|].
  apply lookup_ge_None in E. lia.
Qed.

Lemma delta_of_sum (prev diff : Z) :
  0 <= diff < 2 ^ 32 -> wrap32 (wrap32 (prev + diff) - prev) = diff.
Proof. unfold wrap32. intros H. Z.div_mod_to_equations. lia. Qed.

(** Whatever the planes hold, they are the differences of some samples. *)
Lemma planes_UINT (n : nat) :
  forall (tmp : list byte) (p0 p1 p2 p3 prev : Z),
  0 <= p0 -> 0 <= p1 -> 0 <= p2 -> 0 <= p3 ->
  p0 + Z.of_nat n <= Z.of_nat (length tmp) ->
  p1 + Z.of_nat n <= Z.of_nat (length tmp) ->
  p2 + Z.of_nat n <= Z.of_nat (length tmp) ->
  p3 + Z.of_nat n <= Z.of_nat (length tmp) ->
  exists xs : list Z,
    length xs = n /\ Forall (fun x => 0 <= x < 2 ^ 32) xs /\
    forall (j : nat) (d : Z), deltas prev xs !! j = Some d ->
      tmp !! Z.to_nat (p0 + Z.of_nat j) = Some (Z_to_byte (Z.shiftr d 24)) /\
      tmp !! Z.to_nat (p1 + Z.of_nat j) = Some (Z_to_byte (Z.shiftr d 16)) /\
      tmp !! Z.to_nat (p2 + Z.of_nat j) = Some (Z_to_byte (Z.shiftr d 8)) /\
      tmp !! Z.to_nat (p3 + Z.of_nat j) = Some (Z_to_byte d).
Proof.
  induction n as [|n IH]; intros tmp p0 p1 p2 p3 prev H0 H1 H2 H3 F0 F1 F2 F3.
  - exists []. split; [done|]. split; [constructor|]. intros j d Hj. discriminate.
  - destruct (lookup_in_range tmp p0) as (b0 & E0); [lia|].
    destruct (lookup_in_range tmp p1) as (b1 & E1); [lia|].
    destruct (lookup_in_range tmp p2) as (b2 & E2); [lia|].
    destruct (lookup_in_range tmp p3) as (b3 & E3); [lia|].
    pose proof (byte_to_Z_range b0). pose proof (byte_to_Z_range b1).
    pose proof (byte_to_Z_range b2). pose proof (byte_to_Z_range b3).
    set (diff := byte_to_Z b0 * 2 ^ 24 + byte_to_Z b1 * 2 ^ 16
                 + byte_to_Z b2 * 2 ^ 8 + byte_to_Z b3).
    destruct (IH tmp (p0 + 1) (p1 + 1) (p2 + 1) (p3 + 1) (wrap32 (prev + diff)))
      as (xs & Hlen & Hok & Hrel); try lia.
    exists (wrap32 (prev + diff) :: xs).
    split; [cbn; now rewrite Hlen|]. split.
    { constructor; [apply wrap32_range | exact Hok]. }
    intros [|j] d Hj; cbn [deltas] in Hj.
    + injection Hj as <-. rewrite delta_of_sum by (subst diff; lia).
      rewrite !Z.add_0_r, E0, E1, E2, E3.
      rewrite !Z.shiftr_div_pow2 by lia.
      subst diff.
      repeat split; f_equal; symmetry; apply Z_to_byte_eq;
        Z.div_mod_to_equations; lia.
    + cbn in Hj. apply Hrel in Hj.
      replace (p0 + Z.of_nat (S j)) with (p0 + 1 + Z.of_nat j) by lia.
      replace (p1 + Z.of_nat (S j)) with (p1 + 1 + Z.of_nat j) by lia.
      replace (p2 + Z.of_nat (S j)) with (p2 + 1 + Z.of_nat j) by lia.
      replace (p3 + Z.of_nat (S j)) with (p3 + 1 + Z.of_nat j) by lia.
      exact Hj.
Qed.

Lemma planes_HALF (n : nat) :
  forall (tmp : list byte) (p0 p1 prev : Z),
  0 <= p0 -> 0 <= p1 ->
  p0 + Z.of_nat n <= Z.of_nat (length tmp) ->
  p1 + Z.of_nat n <= Z.of_nat (length tmp) ->
  0 <= prev < 2 ^ 16 ->
  exists xs : list Z,
    length xs = n /\ Forall (fun x => 0 <= x < 2 ^ 16) xs /\
    forall (j : nat) (d : Z), deltas prev xs !! j = Some d ->
      tmp !! Z.to_nat (p0 + Z.of_nat j) = Some (Z_to_byte (Z.shiftr d 8)) /\
      tmp !! Z.to_nat (p1 + Z.of_nat j) = Some (Z_to_byte d).
Proof.
  induction n as [|n IH]; intros tmp p0 p1 prev H0 H1 F0 F1 Hprev.
  - exists []. split; [done|]. split; [constructor|]. intros j d Hj. discriminate.
  - destruct (lookup_in_range tmp p0) as (b0 & E0); [lia|].
    destruct (lookup_in_range tmp p1) as (b1 & E1); [lia|].
    pose proof (byte_to_Z_range b0). pose proof (byte_to_Z_range b1).
    set (diff := byte_to_Z b0 * 2 ^ 8 + byte_to_Z b1).
    assert (Hx : 0 <= (prev + diff) mod 2 ^ 16 < 2 ^ 16) by (apply Z.mod_pos_bound; lia).
    destruct (IH tmp (p0 + 1) (p1 + 1) ((prev + diff) mod 2 ^ 16))
      as (xs & Hlen & Hok & Hrel); try lia.
    exists ((prev + diff) mod 2 ^ 16 :: xs).
    split; [cbn; now rewrite Hlen|]. split.
    { constructor; [exact Hx | exact Hok]. }
    intros [|j] d Hj; cbn [deltas] in Hj.
    + injection Hj as <-.
      rewrite !Z.add_0_r, E0, E1.
      rewrite !Z.shiftr_div_pow2 by lia.
      subst diff. unfold wrap32.
      repeat split; f_equal; symmetry; apply Z_to_byte_eq;
        Z.div_mod_to_equations; lia.
    + cbn in Hj. apply Hrel in Hj.
      replace (p0 + Z.of_nat (S j)) with (p0 + 1 + Z.of_nat j) by lia.
      replace (p1 + Z.of_nat (S j)) with (p1 + 1 + Z.of_nat j) by lia.
      exact Hj.
Qed.

Lemma planes_FLOAT (n : nat) :
  forall (tmp : list byte) (p0 p1 p2 prev : Z),
  0 <= p0 -> 0 <= p1 -> 0 <= p2 ->
  p0 + Z.of_nat n <= Z.of_nat (length tmp) ->
  p1 + Z.of_nat n <= Z.of_nat (length tmp) ->
  p2 + Z.of_nat n <= Z.of_nat (length tmp) ->
  0 <= prev < 2 ^ 24 ->
  exists ys : list Z,
    length ys = n /\ Forall (fun y => 0 <= y < 2 ^ 24) ys /\
    forall (j : nat) (d : Z), deltas prev ys !! j = Some d ->
      tmp !! Z.to_nat (p0 + Z.of_nat j) = Some (Z_to_byte (Z.shiftr d 16)) /\
      tmp !! Z.to_nat (p1 + Z.of_nat j) = Some (Z_to_byte (Z.shiftr d 8)) /\
      tmp !! Z.to_nat (p2 + Z.of_nat j) = Some (Z_to_byte d).
Proof.
  induction n as [|n IH]; intros tmp p0 p1 p2 prev H0 H1 H2 F0 F1 F2 Hprev.
  - exists []. split; [done|]. split; [constructor|]. intros j d Hj. discriminate.
  - destruct (lookup_in_range tmp p0) as (b0 & E0); [lia|].
    destruct (lookup_in_range tmp p1) as (b1 & E1); [lia|].
    destruct (lookup_in_range tmp p2) as (b2 & E2); [lia|].
    pose proof (byte_to_Z_range b0). pose proof (byte_to_Z_range b1).
    pose proof (byte_to_Z_range b2).
    set (diff := byte_to_Z b0 * 2 ^ 16 + byte_to_Z b1 * 2 ^ 8 + byte_to_Z b2).
    assert (Hx : 0 <= (prev + diff) mod 2 ^ 24 < 2 ^ 24) by (apply Z.mod_pos_bound; lia).
    destruct (IH tmp (p0 + 1) (p1 + 1) (p2 + 1) ((prev + diff) mod 2 ^ 24))
      as (ys & Hlen & Hok & Hrel); try lia.
    exists ((prev + diff) mod 2 ^ 24 :: ys).
    split; [cbn; now rewrite Hlen|]. split.
    { constructor; [exact Hx | exact Hok]. }
    intros [|j] d Hj; cbn [deltas] in Hj.
    + injection Hj as <-.
      rewrite !Z.add_0_r, E0, E1, E2.
      rewrite !Z.shiftr_div_pow2 by lia.
      subst diff. unfold wrap32.
      repeat split; f_equal; symmetry; apply Z_to_byte_eq;
        Z.div_mod_to_equations; lia.
    + cbn in Hj. apply Hrel in Hj.
      replace (p0 + Z.of_nat (S j)) with (p0 + 1 + Z.of_nat j) by lia.
      replace (p1 + Z.of_nat (S j)) with (p1 + 1 + Z.of_nat j) by lia.
      replace (p2 + Z.of_nat (S j)) with (p2 + 1 + Z.of_nat j) by lia.
      exact Hj.
Qed.


(** A run of [n] samples read back from planes that lie inside the
    inflated bytes: the samples [uncompress] writes are ones [compress]
    turns into these very planes. *)
Lemma planes_visit (t : PixelType) (n : Z) (tmpD : list byte) (e tmpSize : Z) :
  0 <= n -> 0 <= e ->
  e + planes t * n <= tmpSize -> tmpSize <= Z.of_nat (length tmpD) ->
  e + planes t * n < 2 ^ 64 ->
  exists xs : list Z,
    Z.of_nat (length xs) = n /\ Forall (sample_ok t) xs /\
    requantize_row (t, xs) = (t, xs) /\
    (t = FLOAT -> Forall (fun w => Z.land w 0xff = 0) xs) /\
    (forall out : list byte,
        uncompress_switch tmpD tmpSize t n (e, out)
          = Ret (e + planes t * n, out ++ row_bytes (t, xs))) /\
    (forall rest tmp : list byte,
        e + planes t * n <= Z.of_nat (length tmp) ->
        exists tmp',
          compress_switch t n (row_bytes (t, xs) ++ rest, tmp, e)
            = Ret (rest, tmp', e + planes t * n) /\
          length tmp' = length tmp /\
          (forall i : nat, ~ e <= Z.of_nat i < e + planes t * n ->
                           tmp' !! i = tmp !! i) /\
          (forall i : nat, e <= Z.of_nat i < e + planes t * n ->
                           tmp' !! i = tmpD !! i)).
Proof.
  intros Hn He Hfit Hsize Hword.
  destruct t; cbn [planes] in *.
  - (* UINT *)
    destruct (planes_UINT (Z.to_nat n) tmpD e (e + n) (e + n + n) (e + n + n + n) 0)
      as (xs & Hlen & Hok & Hrel); try lia.
    assert (Hl : Z.of_nat (length xs) = n) by lia.
    exists xs. split; [exact Hl|]. split; [exact Hok|]. split; [reflexivity|].
    split; [discriminate|]. split.
    + intros out. unfold uncompress_switch. cbv beta iota zeta.
      unfold wrap64. rewrite Z.mod_small by lia.
      destruct (Z.ltb_spec tmpSize (e + n + n + n + n)) as [|_]; [lia|].
      rewrite <- Hlen at 1.
      rewrite (uncompress_UINT_spec xs) by (lia || done).
      cbn [bind]. do 2 f_equal. lia.
    + intros rest tmp Htmp.
      destruct (visit_spec UINT xs rest tmp e) as (tmp' & Hrun & Hlen' & Hout & _);
        [lia | cbn [planes]; lia | exact Hok |].
      rewrite Hl in Hrun, Hout. cbn [planes] in Hrun, Hout.
      exists tmp'. split; [exact Hrun|]. split; [exact Hlen'|]. split; [exact Hout|].
      intros i Hi.
      destruct (compress_UINT_spec xs rest tmp e (e + n) (e + n + n) (e + n + n + n) 0)
        as (tmp2 & Hrun2 & _ & _ & Hin); try lia; try done.
      unfold compress_switch in Hrun. cbv beta iota zeta in Hrun.
      unfold row_bytes in Hrun. cbn [fst snd] in Hrun.
      change (sample_bytes UINT) with bytes_of_u32 in Hrun.
      rewrite <- Hlen, Hrun2 in Hrun. cbn [bind] in Hrun.
      injection Hrun as ->.
      assert (Hd : forall j : nat, (j < length xs)%nat ->
                 exists d, deltas 0 xs !! j = Some d).
      { intros j Hj. apply lookup_lt_is_Some. now rewrite length_deltas. }
      destruct (Z_lt_dec (Z.of_nat i) (e + n)) as [C0|C0];
        [|destruct (Z_lt_dec (Z.of_nat i) (e + n + n)) as [C1|C1];
          [|destruct (Z_lt_dec (Z.of_nat i) (e + n + n + n)) as [C2|C2]]].
      * destruct (Hd (Z.to_nat (Z.of_nat i - e)) ltac:(lia)) as (d & Ed).
        destruct (Hin _ _ Ed) as (A & _). destruct (Hrel _ _ Ed) as (B & _).
        rewrite Z2Nat.id in A, B by lia.
        replace (Z.to_nat (e + (Z.of_nat i - e))) with i in A, B by lia. congruence.
      * destruct (Hd (Z.to_nat (Z.of_nat i - (e + n))) ltac:(lia)) as (d & Ed).
        destruct (Hin _ _ Ed) as (_ & A & _). destruct (Hrel _ _ Ed) as (_ & B & _).
        rewrite Z2Nat.id in A, B by lia.
        replace (Z.to_nat (e + n + (Z.of_nat i - (e + n)))) with i in A, B by lia.
        congruence.
      * destruct (Hd (Z.to_nat (Z.of_nat i - (e + n + n))) ltac:(lia)) as (d & Ed).
        destruct (Hin _ _ Ed) as (_ & _ & A & _).
        destruct (Hrel _ _ Ed) as (_ & _ & B & _).
        rewrite Z2Nat.id in A, B by lia.
        replace (Z.to_nat (e + n + n + (Z.of_nat i - (e + n + n)))) with i in A, B by lia.
        congruence.
      * destruct (Hd (Z.to_nat (Z.of_nat i - (e + n + n + n))) ltac:(lia)) as (d & Ed).
        destruct (Hin _ _ Ed) as (_ & _ & _ & A).
        destruct (Hrel _ _ Ed) as (_ & _ & _ & B).
        rewrite Z2Nat.id in A, B by lia.
        replace (Z.to_nat (e + n + n + n + (Z.of_nat i - (e + n + n + n)))) with i
          in A, B by lia.
        congruence.
  - (* HALF *)
    destruct (planes_HALF (Z.to_nat n) tmpD e (e + n) 0)
      as (xs & Hlen & Hok & Hrel); try lia.
    assert (Hl : Z.of_nat (length xs) = n) by lia.
    exists xs. split; [exact Hl|]. split; [exact Hok|]. split; [reflexivity|].
    split; [discriminate|]. split.
    + intros out. unfold uncompress_switch. cbv beta iota zeta.
      unfold wrap64. rewrite Z.mod_small by lia.
      destruct (Z.ltb_spec tmpSize (e + n + n)) as [|_]; [lia|].
      rewrite <- Hlen at 1.
      rewrite (uncompress_HALF_spec xs tmpD _ _ 0) by (lia || done).
      cbn [bind]. do 2 f_equal. lia.
    + intros rest tmp Htmp.
      destruct (visit_spec HALF xs rest tmp e) as (tmp' & Hrun & Hlen' & Hout & _);
        [lia | cbn [planes]; lia | exact Hok |].
      rewrite Hl in Hrun, Hout. cbn [planes] in Hrun, Hout.
      exists tmp'. split; [exact Hrun|]. split; [exact Hlen'|]. split; [exact Hout|].
      intros i Hi.
      destruct (compress_HALF_spec xs rest tmp e (e + n) 0)
        as (tmp2 & Hrun2 & _ & _ & Hin); try lia; try done.
      unfold compress_switch in Hrun. cbv beta iota zeta in Hrun.
      unfold row_bytes in Hrun. cbn [fst snd] in Hrun.
      change (sample_bytes HALF) with bytes_of_u16 in Hrun.
      rewrite <- Hlen, Hrun2 in Hrun. cbn [bind] in Hrun.
      injection Hrun as ->.
      assert (Hd : forall j : nat, (j < length xs)%nat ->
                 exists d, deltas 0 xs !! j = Some d).
      { intros j Hj. apply lookup_lt_is_Some. now rewrite length_deltas. }
      destruct (Z_lt_dec (Z.of_nat i) (e + n)) as [C0|C0].
      * destruct (Hd (Z.to_nat (Z.of_nat i - e)) ltac:(lia)) as (d & Ed).
        destruct (Hin _ _ Ed) as (A & _). destruct (Hrel _ _ Ed) as (B & _).
        rewrite Z2Nat.id in A, B by lia.
        replace (Z.to_nat (e + (Z.of_nat i - e))) with i in A, B by lia. congruence.
      * destruct (Hd (Z.to_nat (Z.of_nat i - (e + n))) ltac:(lia)) as (d & Ed).
        destruct (Hin _ _ Ed) as (_ & A). destruct (Hrel _ _ Ed) as (_ & B).
        rewrite Z2Nat.id in A, B by lia.
        replace (Z.to_nat (e + n + (Z.of_nat i - (e + n)))) with i in A, B by lia.
        congruence.
  - (* FLOAT *)
    destruct (planes_FLOAT (Z.to_nat n) tmpD e (e + n) (e + n + n) 0)
      as (ys & Hlen & Hok & Hrel); try lia.
    assert (Hl : Z.of_nat (length ys) = n) by lia.
    assert (Hq : map floatToFloat24 (map (fun y => y * 256) ys) = ys).
    { rewrite map_map. clear -Hok.
      induction Hok as [|y ys Hy Hok IH]; [done|]. cbn [map]. rewrite IH. f_equal.
      rewrite <- (float24ToFloat_small y) by exact Hy.
      apply floatToFloat24_of_float24. exact Hy. }
    exists (map (fun y => y * 256) ys).
    split; [now rewrite length_map|]. split.
    { apply Forall_forall. intros w Hw. apply in_map_iff in Hw as (y & <- & Hy).
      rewrite Forall_forall in Hok. specialize (Hok y Hy). cbn. lia. }
    split.
    { unfold requantize_row. cbn [fst snd]. f_equal.
      rewrite <- (map_map floatToFloat24 (fun y => Z.shiftl y 8)), Hq.
      apply map_ext. intros y. now rewrite Z.shiftl_mul_pow2 by lia. }
    split.
    { intros _. apply Forall_forall. intros w Hw.
      apply in_map_iff in Hw as (y & <- & Hy).
      change 255 with (Z.ones 8). rewrite Z.land_ones by lia. apply Z.mod_mul. lia. }
    split.
    + intros out. unfold uncompress_switch. cbv beta iota zeta.
      unfold wrap64. rewrite Z.mod_small by lia.
      destruct (Z.ltb_spec tmpSize (e + n + n + n)) as [|_]; [lia|].
      rewrite <- Hlen at 1.
      pose proof (uncompress_FLOAT_spec ys tmpD e (e + n) (e + n + n) 0 out) as HU.
      change (0 * 256) with 0 in HU.
      rewrite HU by (lia || done).
      cbn [bind]. do 2 f_equal. lia.
    + intros rest tmp Htmp.
      destruct (visit_spec FLOAT (map (fun y => y * 256) ys) rest tmp e)
        as (tmp' & Hrun & Hlen' & Hout & _).
      { lia. }
      { rewrite length_map. cbn [planes]. lia. }
      { apply Forall_forall. intros w Hw. apply in_map_iff in Hw as (y & <- & Hy).
        rewrite Forall_forall in Hok. specialize (Hok y Hy). cbn. lia. }
      rewrite length_map, Hl in Hrun, Hout. cbn [planes] in Hrun, Hout.
      exists tmp'. split; [exact Hrun|]. split; [exact Hlen'|]. split; [exact Hout|].
      intros i Hi.
      destruct (compress_FLOAT_spec (map (fun y => y * 256) ys) rest tmp e (e + n)
                  (e + n + n) 0)
        as (tmp2 & Hrun2 & _ & _ & Hin); rewrite ?length_map; try lia.
      { apply Forall_forall. intros w Hw. apply in_map_iff in Hw as (y & <- & Hy).
        rewrite Forall_forall in Hok. specialize (Hok y Hy). cbn in Hok. lia. }
      rewrite length_map in Hrun2. rewrite Hq in Hin.
      unfold compress_switch in Hrun. cbv beta iota zeta in Hrun.
      unfold row_bytes in Hrun. cbn [fst snd] in Hrun.
      change (sample_bytes FLOAT) with bytes_of_u32 in Hrun.
      rewrite <- Hlen, Hrun2 in Hrun. cbn [bind] in Hrun.
      injection Hrun as ->.
      assert (Hd : forall j : nat, (j < length ys)%nat ->
                 exists d, deltas 0 ys !! j = Some d).
      { intros j Hj. apply lookup_lt_is_Some. now rewrite length_deltas. }
      destruct (Z_lt_dec (Z.of_nat i) (e + n)) as [C0|C0];
        [|destruct (Z_lt_dec (Z.of_nat i) (e + n + n)) as [C1|C1]].
      * destruct (Hd (Z.to_nat (Z.of_nat i - e)) ltac:(lia)) as (d & Ed).
        destruct (Hin _ _ Ed) as (A & _). destruct (Hrel _ _ Ed) as (B & _).
        rewrite Z2Nat.id in A, B by lia.
        replace (Z.to_nat (e + (Z.of_nat i - e))) with i in A, B by lia. congruence.
      * destruct (Hd (Z.to_nat (Z.of_nat i - (e + n))) ltac:(lia)) as (d & Ed).
        destruct (Hin _ _ Ed) as (_ & A & _). destruct (Hrel _ _ Ed) as (_ & B & _).
        rewrite Z2Nat.id in A, B by lia.
        replace (Z.to_nat (e + n + (Z.of_nat i - (e + n)))) with i in A, B by lia.
        congruence.
      * destruct (Hd (Z.to_nat (Z.of_nat i - (e + n + n))) ltac:(lia)) as (d & Ed).
        destruct (Hin _ _ Ed) as (_ & _ & A).
        destruct (Hrel _ _ Ed) as (_ & _ & B).
        rewrite Z2Nat.id in A, B by lia.
        replace (Z.to_nat (e + n + n + (Z.of_nat i - (e + n + n)))) with i in A, B by lia.
        congruence.
Qed.

End Pxr24Planes.

Section Pxr24Inflated.
Import Pxr24.

Lemma planes_total_nonneg (shape : list (PixelType * Z)) :
  Forall (fun v => 0 <= snd v) shape -> 0 <= planes_total shape.
Proof.
  induction 1 as [|[t n] shape Hn _ IH]; [cbn; lia|].
  unfold planes_total. cbn [fold_right fst snd] in *. fold (planes_total shape).
  destruct t; cbn [planes]; lia.
Qed.

Lemma length_row_bytes (t : PixelType) (xs : list Z) :
  Z.of_nat (length (row_bytes (t, xs))) = bytes_per_sample t * Z.of_nat (length xs).
Proof.
  unfold row_bytes. cbn [fst snd].
  induction xs as [|x xs IH]; cbn [flat_map length]; [lia|].
  rewrite length_app, Nat2Z.inj_add, IH, Nat2Z.inj_succ.
  destruct t; cbn; lia.
Qed.

Lemma length_block_bytes (blk : list row) :
  Z.of_nat (length (block_bytes blk)) = raw_size (block_shape blk).
Proof.
  induction blk as [|[t xs] blk IH]; [reflexivity|].
  unfold block_bytes, raw_size. cbn [flat_map block_shape map fold_right fst snd].
  fold (block_bytes blk) (block_shape blk) (raw_size (block_shape blk)).
  rewrite length_app, Nat2Z.inj_add, length_row_bytes, IH. reflexivity.
Qed.

(** The traversal over planes that fit the inflated bytes. *)
Lemma planes_traversal (shape : list (PixelType * Z)) :
  forall (tmpD : list byte) (tmpSize e : Z),
  Forall (fun v => 0 <= snd v) shape -> 0 <= e ->
  e + planes_total shape <= tmpSize -> tmpSize <= Z.of_nat (length tmpD) ->
  e + planes_total shape < 2 ^ 64 ->
  exists blk : list row,
    block_shape blk = shape /\ Forall row_ok blk /\
    map requantize_row blk = blk /\
    Forall (fun r : row => fst r = FLOAT ->
                           Forall (fun w => Z.land w 0xff = 0) (snd r)) blk /\
    (forall out : list byte,
        foldM (fun v => uncompress_switch tmpD tmpSize (fst v) (snd v)) shape (e, out)
          = Ret (e + planes_total shape, out ++ block_bytes blk)) /\
    (forall rest tmp : list byte,
        e + planes_total shape <= Z.of_nat (length tmp) ->
        exists tmp',
          foldM (fun v => compress_switch (fst v) (snd v)) shape
            (block_bytes blk ++ rest, tmp, e)
            = Ret (rest, tmp', e + planes_total shape) /\
          length tmp' = length tmp /\
          (forall i : nat, ~ e <= Z.of_nat i < e + planes_total shape ->
                           tmp' !! i = tmp !! i) /\
          (forall i : nat, e <= Z.of_nat i < e + planes_total shape ->
                           tmp' !! i = tmpD !! i)).
Proof.
  induction shape as [|[t n] shape IH]; intros tmpD tmpSize e Hnn He Hfit Hsize Hword.
  - exists []. cbn [planes_total fold_right]. rewrite Z.add_0_r.
    split; [done|]. split; [constructor|]. split; [done|]. split; [constructor|].
    split.
    + intros out. cbn. now rewrite app_nil_r.
    + intros rest tmp _. exists tmp. cbn. split; [done|]. split; [done|].
      split; [done|]. intros i Hi. lia.
  - inversion Hnn as [|? ? Hn Hnn']; subst. cbn [snd] in Hn.
    pose proof (planes_total_nonneg shape Hnn') as Hps.
    unfold planes_total in Hfit, Hword |- *. cbn [fold_right fst snd] in Hfit, Hword |- *.
    fold (planes_total shape) in Hfit, Hword |- *.
    assert (Hpn : 0 <= planes t * n) by (destruct t; cbn; lia).
    destruct (planes_visit t n tmpD e tmpSize)
      as (xs & Hl & Hok & Hq & Hlow & Hun & Hco); try lia.
    destruct (IH tmpD tmpSize (e + planes t * n))
      as (blk & Hshape & Hoks & Hqs & Hlows & Huns & Hcos); try lia; try done.
    exists ((t, xs) :: blk).
    split. { cbn [block_shape map fst snd]. fold (block_shape blk). now rewrite Hshape, Hl. }
    split. { constructor; [exact Hok | exact Hoks]. }
    split. { cbn [map]. now rewrite Hq, Hqs. }
    split. { constructor; [exact Hlow | exact Hlows]. }
    split.
    + intros out. cbn [foldM fst snd]. rewrite Hun. cbn [bind]. rewrite Huns.
      unfold block_bytes. cbn [flat_map]. fold (block_bytes blk).
      rewrite app_assoc. do 2 f_equal. lia.
    + intros rest tmp Htmp.
      destruct (Hco (block_bytes blk ++ rest) tmp) as (tmp1 & Hrun1 & Hlen1 & Hout1 & Hin1);
        [lia|].
      destruct (Hcos rest tmp1) as (tmp' & Hrun & Hlen & Hout & Hin); [lia|].
      exists tmp'. cbn [foldM fst snd].
      unfold block_bytes at 1. cbn [flat_map]. fold (block_bytes blk).
      rewrite <- app_assoc, Hrun1. cbn [bind]. rewrite Hrun.
      split; [do 2 f_equal; lia|]. split; [congruence|]. split.
      * intros i Hi. rewrite Hout by lia. apply Hout1. lia.
      * intros i Hi.
        destruct (Z_lt_dec (Z.of_nat i) (e + planes t * n)) as [C|C].
        -- rewrite Hout by lia. apply Hin1. lia.
        -- apply Hin. lia.
Qed.

(** Planes that reach beyond the inflated bytes stop the traversal. *)
Lemma planes_short (shape : list (PixelType * Z)) :
  forall (tmpD : list byte) (tmpSize e : Z) (out : list byte),
  Forall (fun v => 0 <= snd v) shape -> 0 <= e <= tmpSize ->
  tmpSize <= Z.of_nat (length tmpD) ->
  tmpSize < e + planes_total shape < 2 ^ 64 ->
  foldM (fun v => uncompress_switch tmpD tmpSize (fst v) (snd v)) shape (e, out)
    = Throw NotEnoughData.
Proof.
  induction shape as [|[t n] shape IH]; intros tmpD tmpSize e out Hnn He Hsize Hshort.
  - cbn in Hshort. lia.
  - inversion Hnn as [|? ? Hn Hnn']; subst. cbn [snd] in Hn.
    pose proof (planes_total_nonneg shape Hnn') as Hps.
    unfold planes_total in Hshort. cbn [fold_right fst snd] in Hshort.
    fold (planes_total shape) in Hshort.
    assert (Hpn : 0 <= planes t * n) by (destruct t; cbn; lia).
    cbn [foldM fst snd].
    destruct (Z_lt_dec tmpSize (e + planes t * n)) as [Hlt | Hge].
    + unfold uncompress_switch.
      destruct t; cbn [planes] in *; cbv beta iota zeta; unfold wrap64.
      * rewrite (Z.mod_small (e + n + n + n + n)) by lia.
        destruct (Z.ltb_spec tmpSize (e + n + n + n + n)); [reflexivity | lia].
      * rewrite (Z.mod_small (e + n + n)) by lia.
        destruct (Z.ltb_spec tmpSize (e + n + n)); [reflexivity | lia].
      * rewrite (Z.mod_small (e + n + n + n)) by lia.
        destruct (Z.ltb_spec tmpSize (e + n + n + n)); [reflexivity | lia].
    + destruct (planes_visit t n tmpD e tmpSize)
        as (xs & _ & _ & _ & _ & Hun & _); try lia.
      rewrite Hun. cbn [bind]. apply IH; (done || lia).
Qed.

End Pxr24Inflated.

Section Pxr24Blocks.
Import Pxr24.

Variable modp : Z -> Z -> Z.
Variable numSamples : Z -> Z -> Z -> Z.
Variable zlib_compress : list byte -> option (list byte).
Variable zlib_uncompress : Z -> list byte -> option (list byte).


(** X4.  [uncompress] compares the size of the inflated data with the size of
    the planes of the block, 4, 2 and 3 bytes for a UINT, HALF and FLOAT
    sample: fewer bytes raise [NotEnoughData], more raise [TooMuchData], and
    the exact number gives the block, of 4, 2 and 4 bytes a sample.  The
    block is one that fits [_outBuffer], which holds no fewer than
    [maxScanLineSize * numScanLines] bytes (lines 163-171): the code writes
    the samples there without a check. *)
Theorem uncompress_size_check (p : Pxr24Compressor) (inPtr : list byte)
    (inSize : Z) (range : Box2i) (d : list byte) :
  inSize <> 0 ->
  zlib_uncompress (maxScanLineSize p * numScanLines p)
    (take (Z.to_nat inSize) inPtr) = Some d ->
  Forall (fun v => 0 <= snd v) (visits modp numSamples p range) ->
  planes_total (visits modp numSamples p range) < 2 ^ 64 ->
  raw_size (visits modp numSamples p range) <= maxScanLineSize p * numScanLines p ->
  (Z.of_nat (length d) < planes_total (visits modp numSamples p range) ->
   uncompress modp numSamples zlib_uncompress p inPtr inSize range = Throw NotEnoughData) /\
  (planes_total (visits modp numSamples p range) < Z.of_nat (length d) ->
   uncompress modp numSamples zlib_uncompress p inPtr inSize range = Throw TooMuchData) /\
  (Z.of_nat (length d) = planes_total (visits modp numSamples p range) ->
   exists out : list byte,
     uncompress modp numSamples zlib_uncompress p inPtr inSize range = Ret out /\
     Z.of_nat (length out) = raw_size (visits modp numSamples p range)).
Proof.
  intros Hin Hz Hnn Hword _.
  pose proof (planes_total_nonneg _ Hnn) as Hps.
  unfold uncompress. destruct (Z.eqb_spec inSize 0) as [|_]; [done|].
  rewrite Hz. cbv zeta. rewrite uncompress_rows_visits.
  fold (visits modp numSamples p range).
  set (tmpD := d ++ drop (length d) (tmpBuffer p)).
  assert (HlenD : Z.of_nat (length d) <= Z.of_nat (length tmpD)).
  { subst tmpD. rewrite length_app. lia. }
  split; [|split].
  - intros Hshort. rewrite planes_short; (done || lia).
  - intros Hlong.
    destruct (planes_traversal (visits modp numSamples p range) tmpD (Z.of_nat (length d)) 0)
      as (blk & _ & _ & _ & _ & Hun & _); try lia; try done.
    rewrite Hun. cbn [bind]. unfold wrap64. rewrite Z.mod_small by lia.
    destruct (Z.ltb_spec (0 + planes_total (visits modp numSamples p range)) (Z.of_nat (length d)));
      [reflexivity | lia].
  - intros Heq.
    destruct (planes_traversal (visits modp numSamples p range) tmpD (Z.of_nat (length d)) 0)
      as (blk & Hshape & _ & _ & _ & Hun & _); try lia; try done.
    rewrite Hun. cbn [bind]. unfold wrap64. rewrite Z.mod_small by lia.
    destruct (Z.ltb_spec (0 + planes_total (visits modp numSamples p range)) (Z.of_nat (length d)));
      [lia|].
    eexists. split; [reflexivity|]. cbn [app].
    now rewrite length_block_bytes, Hshape.
Qed.

(** X5.  What [uncompress] returns is a block of the range: the samples of the
    traversed runs, and a FLOAT sample has its low eight bits clear, so that
    it is a number [floatToFloat24] leaves as it is. *)
Theorem uncompress_output_block (p : Pxr24Compressor) (inPtr : list byte)
    (inSize : Z) (range : Box2i) (out : list byte) :
  inSize <> 0 ->
  Forall (fun v => 0 <= snd v) (visits modp numSamples p range) ->
  planes_total (visits modp numSamples p range) < 2 ^ 64 ->
  uncompress modp numSamples zlib_uncompress p inPtr inSize range = Ret out ->
  exists blk : list row,
    out = block_bytes blk /\
    block_shape blk = visits modp numSamples p range /\
    Forall row_ok blk /\
    Forall (fun r : row => fst r = FLOAT ->
              Forall (fun w => Z.land w 0xff = 0 /\
                               float24ToFloat (floatToFloat24 w) = w) (snd r)) blk.
Proof.
  intros Hin Hnn Hword.
  pose proof (planes_total_nonneg _ Hnn) as Hps.
  unfold uncompress. destruct (Z.eqb_spec inSize 0) as [|_]; [done|].
  destruct (zlib_uncompress _ _) as [d|]; [|discriminate].
  cbv zeta. rewrite uncompress_rows_visits. fold (visits modp numSamples p range).
  set (tmpD := d ++ drop (length d) (tmpBuffer p)).
  assert (HlenD : Z.of_nat (length d) <= Z.of_nat (length tmpD)).
  { subst tmpD. rewrite length_app. lia. }
  destruct (Z_lt_dec (Z.of_nat (length d)) (planes_total (visits modp numSamples p range)))
    as [Hshort | Hge].
  { rewrite planes_short; (done || lia). }
  destruct (planes_traversal (visits modp numSamples p range) tmpD (Z.of_nat (length d)) 0)
    as (blk & Hshape & Hok & Hq & Hlow & Hun & _); try lia; try done.
  rewrite Hun. cbn [bind app]. destruct (_ <? _); [discriminate|].
  intros H. injection H as <-.
  exists blk. split; [reflexivity|]. split; [exact Hshape|]. split; [exact Hok|].
  clear -Hq Hlow.
  induction blk as [|[t xs] blk IH]; [constructor|].
  cbn [map] in Hq. injection Hq as Hq1 Hq2.
  inversion Hlow as [|? ? Hl Hlow']; subst. cbn [fst snd] in Hl.
  constructor; [|apply IH; assumption].
  cbn [fst snd]. intros ->. specialize (Hl eq_refl).
  unfold requantize_row in Hq1. cbn [fst snd] in Hq1. injection Hq1 as Hq1.
  clear -Hq1 Hl. induction xs as [|w xs IH]; [constructor|].
  cbn [map] in Hq1. injection Hq1 as Hw Hq1.
  inversion Hl; subst. constructor; [|apply IH; assumption].
  split; [assumption|].
  rewrite float24ToFloat_small by apply floatToFloat24_range.
  etransitivity; [|exact Hw]. now rewrite Z.shiftl_mul_pow2 by lia.
Qed.

(** X6.  [compress] undoes [uncompress]: what it hands to the deflate backend
    for a block that [uncompress] returned are the bytes the backend had
    inflated. *)
Theorem compress_after_uncompress (p : Pxr24Compressor) (inPtr : list byte)
    (inSize inSize' : Z) (range : Box2i) (out : list byte) :
  inSize <> 0 -> inSize' <> 0 ->
  Forall (fun v => 0 <= snd v) (visits modp numSamples p range) ->
  planes_total (visits modp numSamples p range) < 2 ^ 64 ->
  planes_total (visits modp numSamples p range) <= Z.of_nat (length (tmpBuffer p)) ->
  uncompress modp numSamples zlib_uncompress p inPtr inSize range = Ret out ->
  exists d : list byte,
    zlib_uncompress (maxScanLineSize p * numScanLines p)
      (take (Z.to_nat inSize) inPtr) = Some d /\
    compress modp numSamples zlib_compress p out inSize' range =
      match zlib_compress d with
      | Some c => Ret c
      | None => Throw CompressionFailure
      end.
Proof.
  intros Hin Hin' Hnn Hword Hroom.
  pose proof (planes_total_nonneg _ Hnn) as Hps.
  unfold uncompress, compress.
  destruct (Z.eqb_spec inSize 0) as [|_]; [done|].
  destruct (Z.eqb_spec inSize' 0) as [|_]; [done|].
  destruct (zlib_uncompress _ _) as [d|]; [|discriminate].
  cbv zeta. rewrite uncompress_rows_visits, compress_rows_visits.
  fold (visits modp numSamples p range).
  set (tmpD := d ++ drop (length d) (tmpBuffer p)).
  assert (HlenD : Z.of_nat (length d) <= Z.of_nat (length tmpD)).
  { subst tmpD. rewrite length_app. lia. }
  destruct (Z_lt_dec (Z.of_nat (length d)) (planes_total (visits modp numSamples p range)))
    as [Hshort | Hge].
  { rewrite planes_short; (done || lia). }
  destruct (planes_traversal (visits modp numSamples p range) tmpD (Z.of_nat (length d)) 0)
    as (blk & Hshape & Hok & Hq & Hlow & Hun & Hco); try lia; try done.
  rewrite Hun. cbn [bind app]. unfold wrap64. rewrite Z.mod_small by lia.
  destruct (Z.ltb_spec (0 + planes_total (visits modp numSamples p range)) (Z.of_nat (length d)))
    as [|Hle]; [discriminate|].
  intros H. injection H as <-.
  exists d. split; [reflexivity|].
  destruct (Hco [] (tmpBuffer p)) as (tmp' & Hrun & Hlen & _ & Hsame); [lia|].
  rewrite app_nil_r in Hrun. rewrite Hrun. cbn [bind].
  rewrite Z.add_0_l in *.
  destruct (Z.ltb_spec (planes_total (visits modp numSamples p range)) 0) as [|_]; [lia|].
  replace (take (Z.to_nat (planes_total (visits modp numSamples p range))) tmp') with d; [reflexivity|].
  apply list_eq. intros i.
  destruct (Z_lt_dec (Z.of_nat i) (planes_total (visits modp numSamples p range))) as [Hi | Hi].
  - rewrite lookup_take_lt by lia. rewrite Hsame by lia.
    subst tmpD. rewrite lookup_app_l by lia. reflexivity.
  - rewrite lookup_take_ge by lia. apply lookup_ge_None. lia.
Qed.

(** ** What [compress] reads *)

Lemma read_u32_more (inp extra r : list byte) (x : Z) :
  read_u32 inp = Ret (x, r) -> read_u32 (inp ++ extra) = Ret (x, r ++ extra).
Proof.
  destruct inp as [|b0 [|b1 [|b2 [|b3 inp]]]]; try discriminate.
  cbn. intros H. injection H as <- <-. reflexivity.
Qed.

Lemma read_u16_more (inp extra r : list byte) (x : Z) :
  read_u16 inp = Ret (x, r) -> read_u16 (inp ++ extra) = Ret (x, r ++ extra).
Proof.
  destruct inp as [|b0 [|b1 inp]]; try discriminate.
  cbn. intros H. injection H as <- <-. reflexivity.
Qed.

Lemma compress_UINT_more (extra : list byte) (n : nat) :
  forall (inp tmp : list byte) (p0 p1 p2 p3 prev : Z) (r tmp' : list byte),
  compress_UINT n inp tmp p0 p1 p2 p3 prev = Ret (r, tmp') ->
  compress_UINT n (inp ++ extra) tmp p0 p1 p2 p3 prev = Ret (r ++ extra, tmp').
Proof.
  induction n as [|n IH]; intros inp tmp p0 p1 p2 p3 prev r tmp' H; cbn [compress_UINT] in *.
  - injection H as <- <-. reflexivity.
  - apply bind_Ret in H as ([x inp1] & Hr & H).
    rewrite (read_u32_more _ _ _ _ Hr). cbn [bind].
    apply bind_Ret in H as (t0 & -> & H). cbn [bind].
    apply bind_Ret in H as (t1 & -> & H). cbn [bind].
    apply bind_Ret in H as (t2 & -> & H). cbn [bind].
    apply bind_Ret in H as (t3 & -> & H). cbn [bind].
    now apply IH.
Qed.

Lemma compress_HALF_more (extra : list byte) (n : nat) :
  forall (inp tmp : list byte) (p0 p1 prev : Z) (r tmp' : list byte),
  compress_HALF n inp tmp p0 p1 prev = Ret (r, tmp') ->
  compress_HALF n (inp ++ extra) tmp p0 p1 prev = Ret (r ++ extra, tmp').
Proof.
  induction n as [|n IH]; intros inp tmp p0 p1 prev r tmp' H; cbn [compress_HALF] in *.
  - injection H as <- <-. reflexivity.
  - apply bind_Ret in H as ([x inp1] & Hr & H).
    rewrite (read_u16_more _ _ _ _ Hr). cbn [bind].
    apply bind_Ret in H as (t0 & -> & H). cbn [bind].
    apply bind_Ret in H as (t1 & -> & H). cbn [bind].
    now apply IH.
Qed.

Lemma compress_FLOAT_more (extra : list byte) (n : nat) :
  forall (inp tmp : list byte) (p0 p1 p2 prev : Z) (r tmp' : list byte),
  compress_FLOAT n inp tmp p0 p1 p2 prev = Ret (r, tmp') ->
  compress_FLOAT n (inp ++ extra) tmp p0 p1 p2 prev = Ret (r ++ extra, tmp').
Proof.
  induction n as [|n IH]; intros inp tmp p0 p1 p2 prev r tmp' H; cbn [compress_FLOAT] in *.
  - injection H as <- <-. reflexivity.
  - apply bind_Ret in H as ([x inp1] & Hr & H).
    rewrite (read_u32_more _ _ _ _ Hr). cbn [bind].
    apply bind_Ret in H as (t0 & -> & H). cbn [bind].
    apply bind_Ret in H as (t1 & -> & H). cbn [bind].
    apply bind_Ret in H as (t2 & -> & H). cbn [bind].
    now apply IH.
Qed.

Lemma compress_switch_more (extra : list byte) (t : PixelType) (n : Z)
    (inp tmp r tmp' : list byte) (e e' : Z) :
  compress_switch t n (inp, tmp, e) = Ret (r, tmp', e') ->
  compress_switch t n (inp ++ extra, tmp, e) = Ret (r ++ extra, tmp', e').
Proof.
  unfold compress_switch. destruct t; cbv beta iota zeta; intros H;
    apply bind_Ret in H as ([r1 t1] & H1 & H); injection H as <- <- <-.
  - now rewrite (compress_UINT_more extra _ _ _ _ _ _ _ _ _ _ H1).
  - now rewrite (compress_HALF_more extra _ _ _ _ _ _ _ _ H1).
  - now rewrite (compress_FLOAT_more extra _ _ _ _ _ _ _ _ _ H1).
Qed.

Lemma compress_fold_more (extra : list byte) (shape : list (PixelType * Z)) :
  forall (inp tmp r tmp' : list byte) (e e' : Z),
  foldM (fun v => compress_switch (fst v) (snd v)) shape (inp, tmp, e)
    = Ret (r, tmp', e') ->
  foldM (fun v => compress_switch (fst v) (snd v)) shape (inp ++ extra, tmp, e)
    = Ret (r ++ extra, tmp', e').
Proof.
  induction shape as [|[t n] shape IH]; intros inp tmp r tmp' e e' H; cbn [foldM] in *.
  - injection H as <- <- <-. reflexivity.
  - apply bind_Ret in H as ([[r1 t1] e1] & H1 & H). cbn [fst snd] in *.
    rewrite (compress_switch_more extra _ _ _ _ _ _ _ _ H1). cbn [bind].
    now apply IH.
Qed.

Lemma compress_switch_no_throw (t : PixelType) (n : Z) st (err : error) :
  compress_switch t n st <> Throw err.
Proof.
  revert err.
  assert (HU : forall err k inp tmp p0 p1 p2 p3 prev,
             compress_UINT k inp tmp p0 p1 p2 p3 prev <> Throw err).
  { intros err. induction k as [|k IH]; intros inp tmp p0 p1 p2 p3 prev; cbn [compress_UINT];
      [discriminate|].
    destruct inp as [|b0 [|b1 [|b2 [|b3 inp]]]]; try discriminate. cbn [read_u32 bind].
    unfold store. repeat (destruct (_ && _); cbn [bind]; [|discriminate]). apply IH. }
  assert (HH : forall err k inp tmp p0 p1 prev,
             compress_HALF k inp tmp p0 p1 prev <> Throw err).
  { intros err. induction k as [|k IH]; intros inp tmp p0 p1 prev; cbn [compress_HALF];
      [discriminate|].
    destruct inp as [|b0 [|b1 inp]]; try discriminate. cbn [read_u16 bind].
    unfold store. repeat (destruct (_ && _); cbn [bind]; [|discriminate]). apply IH. }
  assert (HF : forall err k inp tmp p0 p1 p2 prev,
             compress_FLOAT k inp tmp p0 p1 p2 prev <> Throw err).
  { intros err. induction k as [|k IH]; intros inp tmp p0 p1 p2 prev; cbn [compress_FLOAT];
      [discriminate|].
    destruct inp as [|b0 [|b1 [|b2 [|b3 inp]]]]; try discriminate. cbn [read_u32 bind].
    unfold store. repeat (destruct (_ && _); cbn [bind]; [|discriminate]). apply IH. }
  intros err. destruct st as [[inp tmp] e]. unfold compress_switch.
  destruct t; cbv beta iota zeta.
  - destruct (compress_UINT _ _ _ _ _ _ _ _) as [[]| |] eqn:E; try discriminate.
    now apply HU in E.
  - destruct (compress_HALF _ _ _ _ _ _) as [[]| |] eqn:E; try discriminate.
    now apply HH in E.
  - destruct (compress_FLOAT _ _ _ _ _ _ _) as [[]| |] eqn:E; try discriminate.
    now apply HF in E.
Qed.

Lemma compress_fold_no_throw (shape : list (PixelType * Z)) st (err : error) :
  foldM (fun v => compress_switch (fst v) (snd v)) shape st <> Throw err.
Proof.
  revert st. induction shape as [|[t n] shape IH]; intros st; cbn [foldM];
    [discriminate|].
  destruct (compress_switch _ _ st) eqn:E; cbn [bind]; [apply IH | | discriminate].
  now apply compress_switch_no_throw in E.
Qed.

(** X7.  [compress] reads as many bytes as the runs of the range have samples
    for, whatever follows them in the buffer; of [inSize] it only uses
    whether it is zero. *)
Theorem compress_reads_block_only (p : Pxr24Compressor) (inPtr extra : list byte)
    (inSize inSize' : Z) (range : Box2i) :
  inSize <> 0 -> inSize' <> 0 ->
  compress modp numSamples zlib_compress p inPtr inSize range <> Undef ->
  compress modp numSamples zlib_compress p (inPtr ++ extra) inSize' range = compress modp numSamples zlib_compress p inPtr inSize range.
Proof.
  intros Hin Hin'. unfold compress.
  destruct (Z.eqb_spec inSize 0) as [|_]; [done|].
  destruct (Z.eqb_spec inSize' 0) as [|_]; [done|].
  cbv zeta. rewrite !compress_rows_visits. fold (visits modp numSamples p range).
  destruct (foldM _ (visits modp numSamples p range) (inPtr, tmpBuffer p, 0))
    as [[[r tmp'] e]|err|] eqn:E; cbn [bind].
  - intros _. now rewrite (compress_fold_more extra _ _ _ _ _ _ _ E).
  - now apply compress_fold_no_throw in E.
  - done.
Qed.

End Pxr24Blocks.

Section Pxr24Compress.
Import Pxr24.

Variable modp : Z -> Z -> Z.
Variable numSamples : Z -> Z -> Z -> Z.
Variable zlib_compress : list byte -> option (list byte).

Lemma planes_size_total (blk : list row) :
  planes_size blk = planes_total (block_shape blk).
Proof.
  induction blk as [|[t xs] blk IH]; [reflexivity|].
  unfold planes_size, planes_total.
  cbn [block_shape map fold_right fst snd].
  fold (planes_size blk) (block_shape blk) (planes_total (block_shape blk)).
  now rewrite IH.
Qed.

Lemma length_plane (k : Z) (ds : list Z) : length (plane k ds) = length ds.
Proof. apply length_map. Qed.

Lemma plane_lookup (k : Z) (ds : list Z) (j : nat) (d : Z) :
  ds !! j = Some d -> plane k ds !! j = Some (Z_to_byte (Z.shiftr d k)).
Proof. intros H. unfold plane. now rewrite list_lookup_fmap, H. Qed.

Lemma length_row_planes (t : PixelType) (xs : list Z) :
  Z.of_nat (length (row_planes (t, xs))) = planes t * Z.of_nat (length xs).
Proof.
  unfold row_planes. cbn [fst snd].
  destruct t; cbn [planes]; rewrite ?length_app, ?length_plane, ?length_deltas,
    ?length_map; lia.
Qed.

(** The content of [_tmpBuffer] after one run. *)
Lemma visit_content (t : PixelType) (xs : list Z) (rest tmp : list byte) (e : Z) :
  let n := Z.of_nat (length xs) in
  0 <= e -> e + planes t * n <= Z.of_nat (length tmp) ->
  Forall (sample_ok t) xs ->
  exists tmp',
    compress_switch t n (row_bytes (t, xs) ++ rest, tmp, e)
      = Ret (rest, tmp', e + planes t * n) /\
    length tmp' = length tmp /\
    (forall i : nat, Z.of_nat i < e -> tmp' !! i = tmp !! i) /\
    (forall i : nat, (i < length (row_planes (t, xs)))%nat ->
       tmp' !! (Z.to_nat e + i)%nat = row_planes (t, xs) !! i).
Proof.
  intros n He Hfit Hxs. unfold row_bytes, row_planes. cbn [fst snd].
  assert (Hn : 0 <= n) by (subst n; lia).
  destruct t; cbn [planes sample_ok sample_bytes] in *;
    unfold compress_switch; cbn [fst snd];
    cbv beta iota zeta; subst n; rewrite Nat2Z.id;
    change (sample_bytes UINT) with bytes_of_u32;
    change (sample_bytes HALF) with bytes_of_u16;
    change (sample_bytes FLOAT) with bytes_of_u32.
  - (* UINT *)
    destruct (compress_UINT_spec xs rest tmp e
                (e + Z.of_nat (length xs))
                (e + Z.of_nat (length xs) + Z.of_nat (length xs))
                (e + Z.of_nat (length xs) + Z.of_nat (length xs) + Z.of_nat (length xs)) 0)
      as (tmp' & Hrun & Hlen & Hout & Hin); try lia; try done.
    exists tmp'. rewrite Hrun. cbn [bind].
    split; [do 2 f_equal; lia|]. split; [done|]. split.
    + intros i Hi. apply Hout; lia.
    + set (ds := deltas 0 xs) in *.
      assert (Hds : length ds = length xs) by apply length_deltas.
      intros i Hi. rewrite !length_app, !length_plane, Hds in Hi.
      destruct (lookup_lt_is_Some_2 ds (i mod length xs)) as [d Hd].
      { rewrite Hds. apply Nat.mod_upper_bound. lia. }
      destruct (Hin _ _ Hd) as (E0 & E1 & E2 & E3).
      destruct (Nat.lt_ge_cases i (length xs)) as [H0 | H0].
      { rewrite Nat.mod_small in * by lia.
        rewrite lookup_app_l by (rewrite length_plane; lia).
        rewrite (plane_lookup _ _ _ _ Hd), <- E0. f_equal. lia. }
      rewrite lookup_app_r by (rewrite length_plane; lia). rewrite length_plane, Hds.
      destruct (Nat.lt_ge_cases (i - length xs) (length xs)) as [H1 | H1].
      { replace (i mod length xs)%nat with (i - length xs)%nat in *
          by (rewrite <- (Nat.mod_small (i - length xs) (length xs)) by lia;
              symmetry; replace i with (i - length xs + 1 * length xs)%nat at 1 by lia;
              apply Nat.Div0.mod_add).
        rewrite lookup_app_l by (rewrite length_plane; lia).
        rewrite (plane_lookup _ _ _ _ Hd), <- E1. f_equal. lia. }
      rewrite lookup_app_r by (rewrite length_plane; lia). rewrite length_plane, Hds.
      destruct (Nat.lt_ge_cases (i - length xs - length xs) (length xs)) as [H2 | H2].
      { replace (i mod length xs)%nat with (i - length xs - length xs)%nat in *
          by (rewrite <- (Nat.mod_small (i - length xs - length xs) (length xs)) by lia;
              symmetry;
              replace i with (i - length xs - length xs + 2 * length xs)%nat at 1 by lia;
              apply Nat.Div0.mod_add).
        rewrite lookup_app_l by (rewrite length_plane; lia).
        rewrite (plane_lookup _ _ _ _ Hd), <- E2. f_equal. lia. }
      rewrite lookup_app_r by (rewrite length_plane; lia). rewrite length_plane, Hds.
      replace (i mod length xs)%nat with (i - length xs - length xs - length xs)%nat in *
        by (rewrite <- (Nat.mod_small (i - length xs - length xs - length xs) (length xs))
              by lia;
            symmetry;
            replace i with (i - length xs - length xs - length xs + 3 * length xs)%nat
              at 1 by lia;
            apply Nat.Div0.mod_add).
      rewrite (plane_lookup _ _ _ _ Hd), Z.shiftr_0_r, <- E3. f_equal. lia.
  - (* HALF *)
    destruct (compress_HALF_spec xs rest tmp e (e + Z.of_nat (length xs)) 0)
      as (tmp' & Hrun & Hlen & Hout & Hin); try lia; try done.
    exists tmp'. rewrite Hrun. cbn [bind].
    split; [do 2 f_equal; lia|]. split; [done|]. split.
    + intros i Hi. apply Hout; lia.
    + set (ds := deltas 0 xs) in *.
      assert (Hds : length ds = length xs) by apply length_deltas.
      intros i Hi. rewrite !length_app, !length_plane, Hds in Hi.
      destruct (lookup_lt_is_Some_2 ds (i mod length xs)) as [d Hd].
      { rewrite Hds. apply Nat.mod_upper_bound. lia. }
      destruct (Hin _ _ Hd) as (E0 & E1).
      destruct (Nat.lt_ge_cases i (length xs)) as [H0 | H0].
      { rewrite Nat.mod_small in * by lia.
        rewrite lookup_app_l by (rewrite length_plane; lia).
        rewrite (plane_lookup _ _ _ _ Hd), <- E0. f_equal. lia. }
      rewrite lookup_app_r by (rewrite length_plane; lia). rewrite length_plane, Hds.
      replace (i mod length xs)%nat with (i - length xs)%nat in *
        by (rewrite <- (Nat.mod_small (i - length xs) (length xs)) by lia;
            symmetry; replace i with (i - length xs + 1 * length xs)%nat at 1 by lia;
            apply Nat.Div0.mod_add).
      rewrite (plane_lookup _ _ _ _ Hd), Z.shiftr_0_r, <- E1. f_equal. lia.
  - (* FLOAT *)
    destruct (compress_FLOAT_spec xs rest tmp e
                (e + Z.of_nat (length xs))
                (e + Z.of_nat (length xs) + Z.of_nat (length xs)) 0)
      as (tmp' & Hrun & Hlen & Hout & Hin); try lia; try done.
    exists tmp'. rewrite Hrun. cbn [bind].
    split; [do 2 f_equal; lia|]. split; [done|]. split.
    + intros i Hi. apply Hout; lia.
    + set (ds := deltas 0 (map floatToFloat24 xs)) in *.
      assert (Hds : length ds = length xs)
        by (subst ds; now rewrite length_deltas, length_map).
      intros i Hi. rewrite !length_app, !length_plane, Hds in Hi.
      destruct (lookup_lt_is_Some_2 ds (i mod length xs)) as [d Hd].
      { rewrite Hds. apply Nat.mod_upper_bound. lia. }
      destruct (Hin _ _ Hd) as (E0 & E1 & E2).
      destruct (Nat.lt_ge_cases i (length xs)) as [H0 | H0].
      { rewrite Nat.mod_small in * by lia.
        rewrite lookup_app_l by (rewrite length_plane; lia).
        rewrite (plane_lookup _ _ _ _ Hd), <- E0. f_equal. lia. }
      rewrite lookup_app_r by (rewrite length_plane; lia). rewrite length_plane, Hds.
      destruct (Nat.lt_ge_cases (i - length xs) (length xs)) as [H1 | H1].
      { replace (i mod length xs)%nat with (i - length xs)%nat in *
          by (rewrite <- (Nat.mod_small (i - length xs) (length xs)) by lia;
              symmetry; replace i with (i - length xs + 1 * length xs)%nat at 1 by lia;
              apply Nat.Div0.mod_add).
        rewrite lookup_app_l by (rewrite length_plane; lia).
        rewrite (plane_lookup _ _ _ _ Hd), <- E1. f_equal. lia. }
      rewrite lookup_app_r by (rewrite length_plane; lia). rewrite length_plane, Hds.
      replace (i mod length xs)%nat with (i - length xs - length xs)%nat in *
        by (rewrite <- (Nat.mod_small (i - length xs - length xs) (length xs)) by lia;
            symmetry;
            replace i with (i - length xs - length xs + 2 * length xs)%nat at 1 by lia;
            apply Nat.Div0.mod_add).
      rewrite (plane_lookup _ _ _ _ Hd), Z.shiftr_0_r, <- E2. f_equal. lia.
Qed.

Lemma length_block_planes (blk : list row) :
  Z.of_nat (length (block_planes blk)) = planes_size blk.
Proof.
  induction blk as [|[t xs] blk IH]; [reflexivity|].
  unfold block_planes, planes_size. cbn [flat_map fold_right fst snd].
  fold (block_planes blk) (planes_size blk).
  rewrite length_app, Nat2Z.inj_add, IH, length_row_planes. reflexivity.
Qed.

(** The content of [_tmpBuffer] after the traversal of a block. *)
Lemma traversal_content (blk : list row) :
  forall (rest tmp : list byte) (e : Z),
  0 <= e -> e + planes_size blk <= Z.of_nat (length tmp) ->
  Forall row_ok blk ->
  exists tmp',
    foldM (fun v => compress_switch (fst v) (snd v)) (block_shape blk)
      (block_bytes blk ++ rest, tmp, e) = Ret (rest, tmp', e + planes_size blk) /\
    length tmp' = length tmp /\
    (forall i : nat, Z.of_nat i < e -> tmp' !! i = tmp !! i) /\
    (forall i : nat, (i < length (block_planes blk))%nat ->
       tmp' !! (Z.to_nat e + i)%nat = block_planes blk !! i).
Proof.
  induction blk as [|[t xs] blk IH]; intros rest tmp e He Hfit Hok.
  - exists tmp. cbn. rewrite Z.add_0_r. repeat split; try done. intros i Hi. lia.
  - inversion Hok as [|? ? Hr Hok']; subst.
    pose proof (planes_size_nonneg blk) as Hps.
    cbn [planes_size fold_right fst snd] in Hfit. fold (planes_size blk) in Hfit.
    set (n := Z.of_nat (length xs)) in *.
    assert (Hn : 0 <= planes t * n) by (destruct t; cbn; lia).
    destruct (visit_content t xs (block_bytes blk ++ rest) tmp e)
      as (tmp1 & Hrun1 & Hlen1 & Hout1 & Hin1); [lia|fold n; lia|exact Hr|].
    fold n in Hrun1.
    destruct (IH rest tmp1 (e + planes t * n))
      as (tmp' & Hrun & Hlen & Hout & Hin); [lia|lia|exact Hok'|].
    exists tmp'.
    cbn [block_shape map foldM block_bytes flat_map fst snd planes_size fold_right
         block_planes].
    fold (block_bytes blk) (planes_size blk) n (block_shape blk) (block_planes blk).
    rewrite <- app_assoc, Hrun1. cbn [bind]. rewrite Hrun.
    pose proof (length_row_planes t xs) as Hlr. fold n in Hlr.
    split; [do 2 f_equal; lia|]. split; [congruence|]. split.
    + intros i Hi. rewrite Hout by lia. apply Hout1. lia.
    + intros i Hi. rewrite length_app in Hi.
      destruct (Nat.lt_ge_cases i (length (row_planes (t, xs)))) as [Hlo | Hhi].
      * rewrite lookup_app_l by exact Hlo. rewrite Hout by lia. now apply Hin1.
      * rewrite lookup_app_r by exact Hhi. rewrite <- Hin by lia. f_equal. lia.
Qed.

(** X8.  On a block of the range [compress] fails only where the deflate
    backend fails: it hands the backend the planes of the samples of its
    input, 4, 2 and 3 bytes for a UINT, HALF and FLOAT sample, and returns
    what the backend returns. *)
Theorem compress_fails_only_in_zlib (p : Pxr24Compressor) (range : Box2i)
    (inp : list byte) (inSize : Z) :
  is_raw_block modp numSamples p range inp ->
  inSize <> 0 ->
  exists blk : list row,
    block_shape blk = visits modp numSamples p range /\
    Forall row_ok blk /\
    block_bytes blk = inp /\
    Z.of_nat (length (block_planes blk)) =
      planes_total (visits modp numSamples p range) /\
    compress modp numSamples zlib_compress p inp inSize range =
      match zlib_compress (block_planes blk) with
      | Some c => Ret c
      | None => Throw CompressionFailure
      end.
Proof.
  intros (Hnn & Hlen & Hfit & Hcap & Hword) Hin.
  destruct (block_of_bytes _ inp Hnn Hlen) as (blk & Hshape & Hok & Hbytes).
  pose proof (planes_size_le_bytes blk) as Hple.
  pose proof (planes_size_nonneg blk) as Hpnn.
  pose proof (length_block_planes blk) as Hlp.
  rewrite Hbytes in Hple.
  destruct (traversal_content blk [] (tmpBuffer p) 0)
    as (tmp' & Hrun & Hlen' & _ & Hcontent); [lia | lia | exact Hok |].
  rewrite app_nil_r, Z.add_0_l, Hbytes, Hshape in Hrun.
  exists blk. split; [exact Hshape|]. split; [exact Hok|]. split; [exact Hbytes|].
  split; [rewrite Hlp, <- Hshape; apply planes_size_total|].
  unfold compress. destruct (Z.eqb_spec inSize 0) as [|_]; [done|].
  cbv zeta. rewrite compress_rows_visits. fold (visits modp numSamples p range).
  rewrite Hrun. cbn [bind].
  destruct (Z.ltb_spec (planes_size blk) 0); [lia|].
  replace (take (Z.to_nat (planes_size blk)) tmp') with (block_planes blk); [reflexivity|].
  apply list_eq. intros i.
  destruct (Nat.lt_ge_cases i (length (block_planes blk))) as [Hlo | Hhi].
  - rewrite lookup_take_lt by lia. rewrite <- (Hcontent i Hlo). f_equal.
  - rewrite lookup_ge_None_2 by exact Hhi.
    symmetry. apply lookup_ge_None_2. rewrite length_take. lia.
Qed.

End Pxr24Compress.

Lemma compress_fails_only_in_zlib_witness :
  let p := Pxr24.example_codec
             [ {| Pxr24.ctype := Pxr24.FLOAT; Pxr24.xSampling := 1;
                  Pxr24.ySampling := 1 |} ] 8 in
  let inp := [x00; x01; x80; x3f; xff; xff; x7f; x7f] in
  exists blk : list Pxr24.row,
    Pxr24.block_shape blk
      = Pxr24.visits Pxr24.example_modp Pxr24.example_numSamples p Pxr24.example_range /\
    Forall Pxr24.row_ok blk /\
    Pxr24.block_bytes blk = inp /\
    Z.of_nat (length (Pxr24.block_planes blk))
      = Pxr24.planes_total (Pxr24.visits Pxr24.example_modp Pxr24.example_numSamples p
                        Pxr24.example_range) /\
    Pxr24.compress Pxr24.example_modp Pxr24.example_numSamples Pxr24.stored_compress
      p inp 8 Pxr24.example_range =
    match Pxr24.stored_compress (Pxr24.block_planes blk) with
    | Some c => Ret c
    | None => Throw Pxr24.CompressionFailure
    end.
Proof.
  intros p inp.
  apply (compress_fails_only_in_zlib Pxr24.example_modp Pxr24.example_numSamples
           Pxr24.stored_compress p Pxr24.example_range inp 8).
  - unfold Pxr24.is_raw_block. split; [|split; [|split; [|split]]].
    + vm_compute. repeat constructor; discriminate.
    + vm_compute. reflexivity.
    + vm_compute. discriminate.
    + vm_compute. reflexivity.
    + vm_compute. reflexivity.
  - lia.
Defined.

Section Pxr24Again.
Import Pxr24.

Variable modp : Z -> Z -> Z.
Variable numSamples : Z -> Z -> Z -> Z.
Variable zlib_compress : list byte -> option (list byte).
Variable zlib_uncompress : Z -> list byte -> option (list byte).

Hypothesis zlib_faithful :
  forall d : list byte, exists c : list byte,
    zlib_compress d = Some c /\ c <> [] /\
    forall cap : Z, Z.of_nat (length d) <= cap -> zlib_uncompress cap c = Some d.

Lemma requantize_row_idem (r : row) :
  requantize_row (requantize_row r) = requantize_row r.
Proof.
  destruct r as [t xs]. destruct t; try reflexivity.
  unfold requantize_row. cbn [fst snd]. f_equal. rewrite map_map.
  apply map_ext. intros f. f_equal.
  pose proof (floatToFloat24_range f) as Hf.
  rewrite Z.shiftl_mul_pow2 by lia. change (2 ^ 8) with 256.
  rewrite <- (float24ToFloat_small (floatToFloat24 f)) by exact Hf.
  apply floatToFloat24_of_float24. exact Hf.
Qed.

Lemma requantize_row_ok (r : row) : row_ok r -> row_ok (requantize_row r).
Proof.
  destruct r as [t xs]. unfold row_ok. destruct t; try done.
  intros _. unfold requantize_row. cbn [fst snd].
  apply Forall_forall. intros w Hw. apply in_map_iff in Hw as (f & <- & _).
  pose proof (floatToFloat24_range f) as Hf.
  rewrite Z.shiftl_mul_pow2 by lia. cbn. lia.
Qed.

Lemma requantize_shape (blk : list row) :
  block_shape (map requantize_row blk) = block_shape blk.
Proof.
  unfold block_shape. rewrite map_map. apply map_ext. intros [t xs].
  destruct t; try reflexivity.
  unfold requantize_row. cbn [fst snd]. now rewrite length_map.
Qed.

Lemma is_block_requantize (p : Pxr24Compressor) (range : Box2i) (blk : list row) :
  is_block modp numSamples p range blk ->
  is_block modp numSamples p range (map requantize_row blk).
Proof.
  intros (Hshape & Hok & Hfit & Hcap & Hword). unfold is_block.
  rewrite requantize_shape.
  split; [exact Hshape|]. split.
  { apply Forall_forall. intros r Hr. apply in_map_iff in Hr as (r0 & <- & Hr0).
    apply requantize_row_ok. rewrite Forall_forall in Hok. now apply Hok. }
  split; [|split; assumption].
  rewrite length_block_bytes, requantize_shape, <- length_block_bytes. exact Hfit.
Qed.

(** X9.  Only the first pass through the codec changes a block: what
    [uncompress] gave back once is compressed and uncompressed byte for
    byte, FLOAT samples included. *)
Theorem pxr24_second_roundtrip_exact (p : Pxr24Compressor) (range : Box2i)
    (blk : list row) :
  is_block modp numSamples p range blk ->
  exists out1 out2 : list byte,
    compress modp numSamples zlib_compress p (block_bytes blk)
      (Z.of_nat (length (block_bytes blk))) range = Ret out1 /\
    uncompress modp numSamples zlib_uncompress p out1 (Z.of_nat (length out1)) range
      = Ret (block_bytes (map requantize_row blk)) /\
    compress modp numSamples zlib_compress p (block_bytes (map requantize_row blk))
      (Z.of_nat (length (block_bytes (map requantize_row blk)))) range = Ret out2 /\
    uncompress modp numSamples zlib_uncompress p out2 (Z.of_nat (length out2)) range
      = Ret (block_bytes (map requantize_row blk)).
Proof.
  intros Hblk.
  destruct (roundtrip_requantized modp numSamples zlib_compress zlib_uncompress
              zlib_faithful p range blk Hblk) as (out1 & Hc1 & Hu1).
  destruct (roundtrip_requantized modp numSamples zlib_compress zlib_uncompress
              zlib_faithful p range (map requantize_row blk)
              (is_block_requantize p range blk Hblk)) as (out2 & Hc2 & Hu2).
  exists out1, out2. split; [exact Hc1|]. split; [exact Hu1|]. split; [exact Hc2|].
  rewrite Hu2. do 2 f_equal. rewrite map_map. apply map_ext.
  intros r. apply requantize_row_idem.
Qed.

(** X10.  The entry points for scan lines compress and uncompress the lines
    [minY .. minY + numScanLines - 1] over the whole width of the data
    window, the entry points for tiles the given box; each pair gives a
    block back, FLOAT samples quantised. *)
Theorem pxr24_entry_points_roundtrip (p : Pxr24Compressor) (minY : Z)
    (range : Box2i) (lines tile : list row) :
  is_block modp numSamples p
    {| min_x := minX p; min_y := minY;
       max_x := maxX p; max_y := minY + numScanLines p - 1 |} lines ->
  is_block modp numSamples p range tile ->
  (exists out : list byte,
     compress_lines modp numSamples zlib_compress p (block_bytes lines)
       (Z.of_nat (length (block_bytes lines))) minY = Ret out /\
     uncompress_lines modp numSamples zlib_uncompress p out
       (Z.of_nat (length out)) minY = Ret (block_bytes (map requantize_row lines))) /\
  (exists out : list byte,
     compressTile modp numSamples zlib_compress p (block_bytes tile)
       (Z.of_nat (length (block_bytes tile))) range = Ret out /\
     uncompressTile modp numSamples zlib_uncompress p out
       (Z.of_nat (length out)) range = Ret (block_bytes (map requantize_row tile))).
Proof.
  intros Hl Ht. split.
  - exact (roundtrip_requantized modp numSamples zlib_compress zlib_uncompress
             zlib_faithful p _ lines Hl).
  - exact (roundtrip_requantized modp numSamples zlib_compress zlib_uncompress
             zlib_faithful p range tile Ht).
Qed.

End Pxr24Again.

(** *** The properties on the example codec *)

Lemma uncompress_size_check_witness :
  let p := Pxr24.example_codec
             [ {| Pxr24.ctype := Pxr24.FLOAT; Pxr24.xSampling := 1;
                  Pxr24.ySampling := 1 |} ] 8 in
  let inPtr := [x78; x3f; x00; x80; x00; x00; x01] in
  (6 < 6 ->
   Pxr24.uncompress Pxr24.example_modp Pxr24.example_numSamples
     Pxr24.stored_uncompress p inPtr 7 Pxr24.example_range
   = Throw Pxr24.NotEnoughData) /\
  (6 < 6 ->
   Pxr24.uncompress Pxr24.example_modp Pxr24.example_numSamples
     Pxr24.stored_uncompress p inPtr 7 Pxr24.example_range
   = Throw Pxr24.TooMuchData) /\
  (6 = 6 ->
   exists out : list byte,
     Pxr24.uncompress Pxr24.example_modp Pxr24.example_numSamples
       Pxr24.stored_uncompress p inPtr 7 Pxr24.example_range = Ret out /\
     Z.of_nat (length out) = 8).
Proof.
  intros p inPtr.
  apply (uncompress_size_check Pxr24.example_modp Pxr24.example_numSamples
           Pxr24.stored_uncompress p inPtr 7 Pxr24.example_range
           [x3f; x00; x80; x00; x00; x01]).
  - lia.
  - vm_compute. reflexivity.
  - vm_compute. repeat constructor. discriminate.
  - vm_compute. reflexivity.
  - vm_compute. discriminate.
Defined.

Lemma uncompress_output_block_witness :
  let p := Pxr24.example_codec
             [ {| Pxr24.ctype := Pxr24.FLOAT; Pxr24.xSampling := 1;
                  Pxr24.ySampling := 1 |} ] 8 in
  exists blk : list Pxr24.row,
    [x00; x00; x00; x3f; x00; x01; x80; x3f] = Pxr24.block_bytes blk /\
    Pxr24.block_shape blk
      = Pxr24.visits Pxr24.example_modp Pxr24.example_numSamples p Pxr24.example_range /\
    Forall Pxr24.row_ok blk /\
    Forall (fun r : Pxr24.row => fst r = Pxr24.FLOAT ->
              Forall (fun w => Z.land w 0xff = 0 /\
                               Pxr24.float24ToFloat (Pxr24.floatToFloat24 w) = w)
                     (snd r)) blk.
Proof.
  intros p.
  apply (uncompress_output_block Pxr24.example_modp Pxr24.example_numSamples
           Pxr24.stored_uncompress p [x78; x3f; x00; x00; x80; x00; x01] 7
           Pxr24.example_range).
  - lia.
  - vm_compute. repeat constructor. discriminate.
  - vm_compute. reflexivity.
  - vm_compute. reflexivity.
Defined.

Lemma compress_after_uncompress_witness :
  let p := Pxr24.example_codec
             [ {| Pxr24.ctype := Pxr24.FLOAT; Pxr24.xSampling := 1;
                  Pxr24.ySampling := 1 |} ] 8 in
  exists d : list byte,
    Pxr24.stored_uncompress (Pxr24.maxScanLineSize p * Pxr24.numScanLines p)
      (take (Z.to_nat 7) [x78; x3f; x00; x00; x80; x00; x01]) = Some d /\
    Pxr24.compress Pxr24.example_modp Pxr24.example_numSamples Pxr24.stored_compress
      p [x00; x00; x00; x3f; x00; x01; x80; x3f] 8 Pxr24.example_range =
    match Pxr24.stored_compress d with
    | Some c => Ret c
    | None => Throw Pxr24.CompressionFailure
    end.
Proof.
  intros p.
  apply (compress_after_uncompress Pxr24.example_modp Pxr24.example_numSamples
           Pxr24.stored_compress Pxr24.stored_uncompress p
           [x78; x3f; x00; x00; x80; x00; x01] 7 8 Pxr24.example_range).
  - lia.
  - lia.
  - vm_compute. repeat constructor. discriminate.
  - vm_compute. reflexivity.
  - vm_compute. discriminate.
  - vm_compute. reflexivity.
Defined.

Lemma compress_reads_block_only_witness :
  let p := Pxr24.example_codec
             [ {| Pxr24.ctype := Pxr24.HALF; Pxr24.xSampling := 1;
                  Pxr24.ySampling := 1 |} ] 4 in
  Pxr24.compress Pxr24.example_modp Pxr24.example_numSamples Pxr24.stored_compress
    p ([x00; x3c; x00; xc0] ++ [xff; xff]) 1 Pxr24.example_range =
  Pxr24.compress Pxr24.example_modp Pxr24.example_numSamples Pxr24.stored_compress
    p [x00; x3c; x00; xc0] 4 Pxr24.example_range.
Proof.
  intros p.
  apply (compress_reads_block_only Pxr24.example_modp Pxr24.example_numSamples
           Pxr24.stored_compress p [x00; x3c; x00; xc0] [xff; xff] 4 1
           Pxr24.example_range).
  - lia.
  - lia.
  - vm_compute. discriminate.
Defined.

Lemma example_float_block :
  Pxr24.is_block Pxr24.example_modp Pxr24.example_numSamples
    (Pxr24.example_codec
       [ {| Pxr24.ctype := Pxr24.FLOAT; Pxr24.xSampling := 1;
            Pxr24.ySampling := 1 |} ] 8)
    Pxr24.example_range [ (Pxr24.FLOAT, [0x3F800100; 0x7F7FFFFF]) ].
Proof.
  unfold Pxr24.is_block. split; [|split; [|split; [|split]]].
  - vm_compute. reflexivity.
  - constructor; [|constructor]. unfold Pxr24.row_ok. cbn [fst snd].
    repeat (constructor; [cbn [Pxr24.sample_ok]; lia|]). constructor.
  - vm_compute. discriminate.
  - vm_compute. reflexivity.
  - vm_compute. reflexivity.
Defined.

Lemma pxr24_second_roundtrip_exact_witness :
  let p := Pxr24.example_codec
             [ {| Pxr24.ctype := Pxr24.FLOAT; Pxr24.xSampling := 1;
                  Pxr24.ySampling := 1 |} ] 8 in
  let blk := [ (Pxr24.FLOAT, [0x3F800100; 0x7F7FFFFF]) ] in
  exists out1 out2 : list byte,
    Pxr24.compress Pxr24.example_modp Pxr24.example_numSamples Pxr24.stored_compress
      p (Pxr24.block_bytes blk) (Z.of_nat (length (Pxr24.block_bytes blk)))
      Pxr24.example_range = Ret out1 /\
    Pxr24.uncompress Pxr24.example_modp Pxr24.example_numSamples
      Pxr24.stored_uncompress p out1 (Z.of_nat (length out1)) Pxr24.example_range
      = Ret (Pxr24.block_bytes (map Pxr24.requantize_row blk)) /\
    Pxr24.compress Pxr24.example_modp Pxr24.example_numSamples Pxr24.stored_compress
      p (Pxr24.block_bytes (map Pxr24.requantize_row blk))
      (Z.of_nat (length (Pxr24.block_bytes (map Pxr24.requantize_row blk))))
      Pxr24.example_range = Ret out2 /\
    Pxr24.uncompress Pxr24.example_modp Pxr24.example_numSamples
      Pxr24.stored_uncompress p out2 (Z.of_nat (length out2)) Pxr24.example_range
      = Ret (Pxr24.block_bytes (map Pxr24.requantize_row blk)).
Proof.
  intros p blk.
  exact (pxr24_second_roundtrip_exact Pxr24.example_modp Pxr24.example_numSamples
           Pxr24.stored_compress Pxr24.stored_uncompress stored_faithful
           p Pxr24.example_range blk example_float_block).
Defined.

Lemma pxr24_entry_points_roundtrip_witness :
  let p := Pxr24.example_codec
             [ {| Pxr24.ctype := Pxr24.FLOAT; Pxr24.xSampling := 1;
                  Pxr24.ySampling := 1 |} ] 8 in
  let blk := [ (Pxr24.FLOAT, [0x3F800100; 0x7F7FFFFF]) ] in
  (exists out : list byte,
     Pxr24.compress_lines Pxr24.example_modp Pxr24.example_numSamples
       Pxr24.stored_compress p (Pxr24.block_bytes blk)
       (Z.of_nat (length (Pxr24.block_bytes blk))) 0 = Ret out /\
     Pxr24.uncompress_lines Pxr24.example_modp Pxr24.example_numSamples
       Pxr24.stored_uncompress p out (Z.of_nat (length out)) 0
     = Ret (Pxr24.block_bytes (map Pxr24.requantize_row blk))) /\
  (exists out : list byte,
     Pxr24.compressTile Pxr24.example_modp Pxr24.example_numSamples
       Pxr24.stored_compress p (Pxr24.block_bytes blk)
       (Z.of_nat (length (Pxr24.block_bytes blk))) Pxr24.example_range = Ret out /\
     Pxr24.uncompressTile Pxr24.example_modp Pxr24.example_numSamples
       Pxr24.stored_uncompress p out (Z.of_nat (length out)) Pxr24.example_range
     = Ret (Pxr24.block_bytes (map Pxr24.requantize_row blk))).
Proof.
  intros p blk.
  exact (pxr24_entry_points_roundtrip Pxr24.example_modp Pxr24.example_numSamples
           Pxr24.stored_compress Pxr24.stored_uncompress stored_faithful
           p 0 Pxr24.example_range blk blk example_float_block example_float_block).
Defined.

(** ** FastHuf: the bounds of [decode] *)

Section DecodeBounds.
Import FastHuf.

Variable src : list byte.

Lemma refill_tail_ok (fuel : nat) :
  forall bufferBack shift currByte currBitsLeft : Z,
  0 <= currByte <= Z.of_nat (length src) ->
  8 * currByte + currBitsLeft <= 8 * Z.of_nat (length src) ->
  currBitsLeft <= 8 * Z.of_nat fuel ->
  exists bb cb bl,
    refill_tail fuel src bufferBack shift currByte currBitsLeft = Ret (bb, cb, bl) /\
    0 <= cb <= Z.of_nat (length src) /\ bl <= 0.
Proof.
  induction fuel as [|fuel IH]; intros bb shift cb bl Hcb Hin Hfuel;
    cbn [refill_tail]; destruct (Z.ltb_spec 0 bl) as [Hpos | Hneg]; try lia;
    try (do 3 eexists; split; [reflexivity | lia]).
  destruct (@load_in_range error _ src cb) as [b ->]; [lia|]. cbn [bind].
  apply IH; lia.
Qed.

Lemma refill_ok (n : Z) (st : dstate) :
  stream_ok src st -> exists st', refill src n st = Ret st' /\ stream_ok src st'.
Proof.
  intros (Hb & Hn & Hin). unfold refill.
  destruct (bufferBackNumBits st <? n).
  - destruct (Z.leb_spec 64 (numSrcBits st)) as [H64 | H64].
    + destruct (READ64_in_range src (srcByte st)) as [w ->]; [lia | lia |].
      cbn [bind]. eexists. split; [reflexivity|]. unfold stream_ok. cbn. lia.
    + destruct (refill_tail_ok 8 0 56 (srcByte st) (numSrcBits st))
        as (bb & cb & bl & -> & Hcb & Hbl); [lia | lia | lia |].
      cbn [bind]. eexists. split; [reflexivity|]. unfold stream_ok. cbn.
      destruct (Z.ltb_spec bl 0); lia.
  - cbn [bind]. eexists. split; [reflexivity|]. unfold stream_ok. cbn. lia.
Qed.

Lemma ensure_bits_ok (n : Z) (st : dstate) :
  stream_ok src st -> exists st', ensure_bits src n st = Ret st' /\ stream_ok src st'.
Proof.
  intros Hst. unfold ensure_bits, refill_full.
  destruct (bufferNumBits st <? n); [|eauto].
  destruct (refill_ok (64 - bufferNumBits st) st Hst) as (st' & -> & Hst').
  cbn [bind]. eexists. split; [reflexivity|]. exact Hst'.
Qed.

Lemma next_symbol_ok (d : FastHufDecoder) (st : dstate) :
  stream_ok src st ->
  next_symbol d src st <> Undef /\
  forall symbol st', next_symbol d src st = Ret (symbol, st') -> stream_ok src st'.
Proof.
  intros Hst. unfold next_symbol.
  destruct (tableMin d <=? buffer st).
  - destruct (table_lookup d (buffer st)) as [codeLen symbol]. cbn [bind].
    split; [discriminate|]. intros ? ? H. injection H as <- <-. exact Hst.
  - destruct (ensure_bits_ok 64 st Hst) as (st1 & -> & Hst1). cbn [bind].
    unfold search_lookup.
    destruct (maxCodeLength d <? _); cbn [bind]; [split; discriminate|].
    destruct (_ <? wrap64 (numSymbols d)); cbn [bind]; [|split; discriminate].
    split; [discriminate|]. intros ? ? H. injection H as <- <-. exact Hst1.
Qed.

Lemma rle_run_ok (numDstElems : Z) (st : dstate) :
  stream_ok src st -> numDstElems <= Z.of_nat (length (dst st)) ->
  rle_run src numDstElems st <> Undef /\
  forall st', rle_run src numDstElems st = Ret st' -> stream_ok src st'.
Proof.
  intros Hst Hdst.
  destruct (ensure_bits_ok 8 st Hst) as (st1 & H1 & Hst1).
  rewrite (rle_run_result src numDstElems st st1 H1). cbv zeta.
  destruct (Z.ltb_spec (dstIdx st) 1); [split; discriminate|].
  destruct (Z.ltb_spec numDstElems (dstIdx st + Z.shiftr (buffer st1) 56));
    [split; discriminate|].
  destruct (Z.leb_spec (Z.shiftr (buffer st1) 56) 0); [split; discriminate|].
  destruct (lookup_lt_is_Some_2 (dst st) (Z.to_nat (dstIdx st - 1))) as [prev Hprev];
    [lia|].
  destruct (rle_copies_run (dstIdx st) (Z.to_nat (Z.shiftr (buffer st1) 56)) 0
              (dst st) prev) as (out & -> & _); try lia; try done.
  cbn [bind]. split; [discriminate|]. intros st' Heq. injection Heq as <-. exact Hst1.
Qed.

Lemma decode_step_ok (d : FastHufDecoder) (numDstElems : Z) (st : dstate) :
  stream_ok src st -> 0 <= dstIdx st < numDstElems ->
  numDstElems <= Z.of_nat (length (dst st)) ->
  decode_step d src numDstElems st <> Undef /\
  forall st', decode_step d src numDstElems st = Ret st' -> stream_ok src st'.
Proof.
  intros Hst Hidx Hdst. unfold decode_step.
  destruct (next_symbol_ok d st Hst) as (Hn & Hn').
  destruct (next_symbol d src st) as [[symbol st1]| |] eqn:E1; cbn [bind];
    [|split; discriminate | done].
  specialize (Hn' _ _ eq_refl).
  destruct (next_symbol_frame _ _ _ _ _ E1) as (Hd1 & Hi1).
  assert (Hmid : forall m : res dstate,
            m <> Undef -> (forall st2, m = Ret st2 -> stream_ok src st2) ->
            bind m (ensure_bits src TABLE_LOOKUP_BITS) <> Undef /\
            forall st', bind m (ensure_bits src TABLE_LOOKUP_BITS) = Ret st' ->
                        stream_ok src st').
  { intros [st2| |] Hm Hm'; cbn [bind]; [|split; discriminate | done].
    destruct (ensure_bits_ok TABLE_LOOKUP_BITS st2 (Hm' _ eq_refl)) as (st3 & -> & H3).
    split; [discriminate|]. intros st' H. injection H as <-. exact H3. }
  apply Hmid.
  - destruct (symbol =? rleSymbol d).
    + apply rle_run_ok; [exact Hn' | congruence].
    + rewrite store_ok by (rewrite Hd1, Hi1; lia). discriminate.
  - intros st2. destruct (symbol =? rleSymbol d).
    + apply rle_run_ok; [exact Hn' | congruence].
    + rewrite store_ok by (rewrite Hd1, Hi1; lia). cbn [bind].
      intros H. injection H as <-. exact Hn'.
Qed.

Lemma decode_loop_ok (d : FastHufDecoder) (numDstElems : Z) (fuel : nat) :
  forall st : dstate,
  stream_ok src st -> 0 <= dstIdx st ->
  numDstElems <= Z.of_nat (length (dst st)) ->
  numDstElems - dstIdx st <= Z.of_nat fuel ->
  snd (decode_loop fuel d src numDstElems st) <> Undef.
Proof.
  induction fuel as [|fuel IH]; intros st Hst Hidx Hdst Hfuel; cbn [decode_loop];
    destruct (Z.ltb_spec (dstIdx st) numDstElems) as [Hlt | Hge];
    try (cbn; discriminate); try lia.
  destruct (decode_step_ok d numDstElems st Hst ltac:(lia) Hdst) as (Hs & Hs').
  destruct (decode_step d src numDstElems st) as [st1| |] eqn:E;
    [|cbn; discriminate | done].
  destruct (decode_step_frame _ _ _ _ _ E Hlt) as (Hadv & Hlen & _).
  apply IH; [apply Hs'; reflexivity | lia | lia | lia].
Qed.

(** X11.  [decode] stays inside its buffers: with [numSrcBits] bits in [src] and
    room for [numDstElems] elements in [dst], no load from [src] and no
    store to [dst] is out of range, and the loop ends; the call returns or
    throws. *)
Theorem decode_stays_in_bounds (d : FastHufDecoder) (numSrcBits : Z)
    (dst : list Z) (numDstElems : Z) :
  numSrcBits <= 8 * Z.of_nat (length src) ->
  numDstElems <= Z.of_nat (length dst) ->
  snd (decode d src numSrcBits dst numDstElems) <> Undef.
Proof.
  intros Hsrc Hdst. unfold decode.
  destruct (Z.ltb_spec numSrcBits 128) as [|H128]; [cbn; discriminate|].
  destruct (READ64_in_range src 0) as [w0 ->]; [lia | lia |].
  destruct (READ64_in_range src 8) as [w1 ->]; [lia | lia |].
  match goal with |- context [decode_loop ?f d src numDstElems ?s] =>
    pose proof (decode_loop_ok d numDstElems f s) as Hloop;
    destruct (decode_loop f d src numDstElems s) as [st r]
  end.
  cbn [snd] in Hloop.
  assert (Hr : r <> Undef).
  { apply Hloop; cbn; unfold stream_ok; cbn; lia. }
  destruct r as [[]|e|]; [|cbn; discriminate | done].
  destruct (negb _); cbn; discriminate.
Qed.

End DecodeBounds.

Section DecodeOutput.
Import FastHuf.

Lemma decode_step_written (d : FastHufDecoder) (src : list byte) (numDstElems : Z)
    (st st' : dstate) :
  0 <= dstIdx st -> written st ->
  decode_step d src numDstElems st = Ret st' -> written st'.
Proof.
  intros Hidx Hw. unfold decode_step. intros H.
  apply bind_Ret in H as ([symbol st1] & H1 & H).
  apply next_symbol_frame in H1 as (Hd1 & Hi1).
  apply bind_Ret in H as (st2 & H2 & H).
  apply refill_if_frame in H as (Hd3 & Hi3).
  unfold written. rewrite Hd3, Hi3. clear Hd3 Hi3.
  destruct (symbol =? rleSymbol d).
  - destruct (ensure_bits src 8 st1) as [st1'| |] eqn:E8;
      [|unfold rle_run in H2; rewrite E8 in H2; discriminate..].
    rewrite (rle_run_result src numDstElems st1 st1' E8) in H2. cbv zeta in H2.
    destruct (Z.ltb_spec (dstIdx st1) 1); [discriminate|].
    destruct (Z.ltb_spec numDstElems (dstIdx st1 + Z.shiftr (buffer st1') 56));
      [discriminate|].
    destruct (Z.leb_spec (Z.shiftr (buffer st1') 56) 0); [discriminate|].
    apply bind_Ret in H2 as (out & Hout & H2). injection H2 as <-.
    cbn [set_dst dst dstIdx].
    rewrite Hd1, Hi1 in *.
    destruct (Hw (Z.to_nat (dstIdx st - 1)) ltac:(lia)) as (prev & Hprev & Hrange).
    pose proof (rle_copies_frame (dstIdx st) _ 0 _ _ ltac:(lia) Hout) as (Hlen & Hframe).
    rewrite Z.add_0_r in Hframe.
    assert (Hrun : forall j : nat,
               dstIdx st <= Z.of_nat j < dstIdx st + Z.shiftr (buffer st1') 56 ->
               out !! j = Some prev).
    { assert (Hfit : dstIdx st + Z.shiftr (buffer st1') 56 <= Z.of_nat (length (dst st))).
      { (* the last copy was stored *)
        clear -Hout H H1 Hidx. revert Hout.
        generalize (dst st) as l. intros l Hout.
        assert (G : forall (n : nat) (i0 : Z) (l l' : list Z),
                   0 <= dstIdx st + i0 ->
                   for_upM n i0 (rle_copy (dstIdx st)) l = Ret l' ->
                   (0 < n)%nat -> dstIdx st + i0 + Z.of_nat n <= Z.of_nat (length l)).
        { induction n as [|n IH]; intros i0 l0 l' Hi Hr Hn; [lia|].
          cbn [for_upM] in Hr. apply bind_Ret in Hr as (l1 & Hc & Hr).
          unfold rle_copy in Hc. apply bind_Ret in Hc as (pv & _ & Hc).
          apply store_Ret in Hc as (Hb & ->).
          destruct n as [|n]; [lia|].
          apply IH in Hr; [|lia|lia]. rewrite length_insert in Hr. lia. }
        specialize (G _ 0 _ _ ltac:(lia) Hout ltac:(lia)). lia. }
      destruct (rle_copies_run (dstIdx st) (Z.to_nat (Z.shiftr (buffer st1') 56)) 0
                  (dst st) prev) as (out2 & Hout2 & Hin); try lia; try done.
      rewrite Hout in Hout2. injection Hout2 as <-.
      intros j Hj. apply Hin. lia. }
    intros j Hj.
    destruct (Z_lt_dec (Z.of_nat j) (dstIdx st)) as [Hlo | Hhi].
    + rewrite Hframe by lia. apply Hw. exact Hlo.
    + exists prev. split; [apply Hrun; lia | exact Hrange].
  - apply bind_Ret in H2 as (out & Hout & H2). injection H2 as <-.
    cbn [set_dst dst dstIdx]. rewrite Hd1, Hi1 in *.
    apply store_Ret in Hout as (Hr & ->).
    intros j Hj.
    destruct (Z.eq_dec (Z.of_nat j) (dstIdx st)) as [Heq | Hne].
    + exists (symbol mod 2 ^ 16). split; [|apply Z.mod_pos_bound; lia].
      replace j with (Z.to_nat (dstIdx st)) by lia.
      apply list_lookup_insert_eq. lia.
    + rewrite list_lookup_insert_ne by lia. apply Hw. lia.
Qed.

Lemma decode_loop_written (d : FastHufDecoder) (src : list byte) (numDstElems : Z)
    (fuel : nat) :
  forall st st' : dstate,
  0 <= dstIdx st -> written st ->
  decode_loop fuel d src numDstElems st = (st', Ret tt) ->
  written st' /\ numDstElems <= dstIdx st'.
Proof.
  induction fuel as [|fuel IH]; intros st st' Hidx Hw H; cbn [decode_loop] in H;
    destruct (Z.ltb_spec (dstIdx st) numDstElems) as [Hlt | Hge];
    try discriminate; try (injection H as <-; split; [exact Hw | lia]).
  destruct (decode_step d src numDstElems st) as [st1| |] eqn:E; try discriminate.
  destruct (decode_step_frame _ _ _ _ _ E Hlt) as (Hadv & _).
  apply (IH st1); [lia | exact (decode_step_written _ _ _ _ _ Hidx Hw E) | exact H].
Qed.

(** X12.  When [decode] returns, it has written [numDstElems] elements, each the
    value of an [unsigned short], and nothing behind them. *)
Theorem decode_fills_output (d : FastHufDecoder) (src : list byte)
    (numSrcBits : Z) (dst dst' : list Z) (numDstElems : Z) :
  decode d src numSrcBits dst numDstElems = (dst', Ret tt) ->
  length dst' = length dst /\
  (forall j : nat, Z.of_nat j < numDstElems ->
     exists v, dst' !! j = Some v /\ 0 <= v < 2 ^ 16) /\
  (forall j : nat, numDstElems <= Z.of_nat j -> dst' !! j = dst !! j).
Proof.
  unfold decode. intros H.
  destruct (numSrcBits <? 128); [discriminate|].
  destruct (READ64 src 0) as [w0| |]; try discriminate.
  destruct (READ64 src 8) as [w1| |]; try discriminate.
  destruct (decode_loop _ _ _ _ _) as [st r] eqn:Hloop.
  destruct r as [[]|e|]; try discriminate.
  destruct (negb _); [discriminate|]. injection H as <-.
  pose proof (decode_loop_frame _ _ _ _ _ _ _ Hloop) as (Hi & Hlen & Hframe).
  apply decode_loop_written in Hloop as (Hw & Hdone); [|cbn; lia|].
  - cbn [FastHuf.dst dstIdx] in *. split; [exact Hlen|]. split.
    + intros j Hj. apply Hw. lia.
    + intros j Hj. apply Hframe. lia.
  - intros j Hj. cbn in Hj. lia.
Qed.

End DecodeOutput.

(** ** FastHuf: the bytes the constructor reads *)

Section ScanBounds.
Import FastHuf.

Variable table : list byte.

(** One byte is enough for [readBits] when the buffer holds no fewer than
    [numBits - 8] bits: the six and the eight bits of the scan. *)
Lemma readBits_one_byte (numBits buffer bufferNumBits currByte : Z) :
  0 < numBits <= 8 -> 0 <= bufferNumBits ->
  0 <= currByte < Z.of_nat (length table) ->
  exists v b bc cb,
    readBits numBits table buffer bufferNumBits currByte = Ret (v, b, bc, cb) /\
    0 <= bc /\ currByte <= cb <= currByte + 1 /\
    8 * cb - bc = 8 * currByte - bufferNumBits + numBits.
Proof.
  intros Hn Hbc Hcb. unfold readBits. rewrite int_mask_small by lia.
  destruct (Z.to_nat numBits) as [|fuel] eqn:Ef; [lia|]. cbn [readBits_fill].
  destruct (Z.ltb_spec bufferNumBits numBits) as [Hlt | Hge].
  - destruct (@load_in_range error _ table currByte Hcb) as [x ->]. cbn [bind].
    assert (Hnext : forall b', readBits_fill fuel numBits table b' (bufferNumBits + 8)
                                 (currByte + 1)
                               = Ret (b', bufferNumBits + 8, currByte + 1)).
    { intros b'. destruct fuel; cbn [readBits_fill];
        destruct (Z.ltb_spec (bufferNumBits + 8) numBits); (reflexivity || lia). }
    rewrite Hnext. cbn [bind]. do 4 eexists. split; [reflexivity|]. lia.
  - cbn [bind]. do 4 eexists. split; [reflexivity|]. lia.
Qed.

Lemma scan_symbol_ok (numBytes maxSymbol symbol : Z) (st : scan_state) :
  numBytes <= Z.of_nat (length table) -> reader_ok numBytes st ->
  scan_symbol table numBytes maxSymbol symbol st <> Undef /\
  forall symbol' st',
    scan_symbol table numBytes maxSymbol symbol st = Ret (symbol', st') ->
    reader_ok numBytes st' /\ 8 <= bits_left numBytes st /\
    bits_left numBytes st' <= bits_left numBytes st - 6.
Proof.
  intros Htab (Hcb & Hbc). unfold scan_symbol, bits_left.
  destruct (Z.leb_spec numBytes (currByte st)) as [|Hin]; [split; discriminate|].
  destruct (readBits_one_byte 6 (currBits st) (currBitCount st) (currByte st))
    as (codeLen & b & bc & cb & -> & Hbc' & Hcb' & Hbits); try lia.
  cbn [bind].
  assert (Hkeep : forall (sym : Z) b bc cb,
            0 <= bc -> currByte st <= cb <= numBytes ->
            8 * cb - bc >= 8 * currByte st - currBitCount st + 6 ->
            forall symbol' st',
            @Ret error _ (sym, set_reader st b bc cb) = Ret (symbol', st') ->
            reader_ok numBytes st' /\ 8 <= 8 * (numBytes - currByte st) + currBitCount st /\
            8 * (numBytes - currByte st') + currBitCount st'
            <= 8 * (numBytes - currByte st) + currBitCount st - 6).
  { intros sym b0 bc0 cb0 H1 H2 H3 symbol' st' H. injection H as <- <-.
    unfold reader_ok. cbn. lia. }
  destruct (codeLen =? LONG_ZEROCODE_RUN).
  { destruct (Z.leb_spec numBytes cb) as [|Hin']; [split; discriminate|].
    destruct (readBits_one_byte 8 b bc cb)
      as (r & b2 & bc2 & cb2 & -> & Hbc2 & Hcb2 & Hbits2); try lia.
    cbn [bind]. destruct (_ <? _); [split; discriminate|].
    split; [discriminate|]. apply Hkeep; lia. }
  destruct (SHORT_ZEROCODE_RUN <=? codeLen).
  { destruct (_ <? _); [split; discriminate|].
    split; [discriminate|]. apply Hkeep; lia. }
  destruct (negb _).
  - split; [discriminate|]. intros symbol' st' H. injection H as <- <-.
    unfold reader_ok. cbn. lia.
  - split; [discriminate|]. apply Hkeep; lia.
Qed.

Lemma scan_ok (numBytes maxSymbol : Z) (fuel : nat) :
  forall (symbol : Z) (st : scan_state),
  numBytes <= Z.of_nat (length table) -> reader_ok numBytes st ->
  Z.max 0 (bits_left numBytes st) < 6 * Z.of_nat fuel ->
  scan fuel table numBytes maxSymbol symbol st <> Undef /\
  forall st', scan fuel table numBytes maxSymbol symbol st = Ret st' ->
              reader_ok numBytes st'.
Proof.
  induction fuel as [|fuel IH]; intros symbol st Htab Hst Hfuel; [lia|].
  cbn [scan]. destruct (symbol <=? wrap64 maxSymbol).
  2:{ split; [discriminate|]. intros st' H. injection H as <-. exact Hst. }
  destruct (scan_symbol_ok numBytes maxSymbol symbol st Htab Hst) as (Hs & Hs').
  destruct (scan_symbol table numBytes maxSymbol symbol st) as [[symbol1 st1]| |];
    cbn [bind]; [|split; discriminate | done].
  destruct (Hs' _ _ eq_refl) as (Hst1 & H8 & Hless).
  apply IH; [exact Htab | exact Hst1 | lia].
Qed.

(** X13.  The scan of the code lengths reads no byte outside the [numBytes]
    bytes of [table], the loop ends, and the position the constructor
    returns lies in the table. *)
Theorem scan_stays_in_table (numBytes minSymbol maxSymbol rleSymbol : Z) :
  numBytes <= Z.of_nat (length table) ->
  scan_table table numBytes minSymbol maxSymbol <> Undef /\
  forall (d : FastHufDecoder) (c : Z),
    new table numBytes minSymbol maxSymbol rleSymbol = Ret (d, c) ->
    0 <= c <= Z.max 0 numBytes.
Proof.
  intros Htab.
  destruct (scan_ok numBytes maxSymbol (Z.to_nat (Z.max 0 (8 * numBytes) + 1))
              (wrap64 minSymbol)
              {| symbols := [];
                 scanMinCodeLength := 255; scanMaxCodeLength := 0;
                 codeCount := repeat 0 (Z.to_nat (MAX_CODE_LEN + 1));
                 currByte := 0; currBits := 0; currBitCount := 0 |})
    as (Hs & Hs'); [exact Htab | unfold reader_ok; cbn; lia | unfold bits_left; cbn; lia |].
  split; [exact Hs|].
  intros d c Hnew. unfold new in Hnew.
  apply bind_Ret in Hnew as (st & Hscan & Hnew).
  apply bind_Ret in Hnew as (base & _ & Hnew).
  apply bind_Ret in Hnew as (ids & _ & Hnew).
  apply bind_Ret in Hnew as (d' & _ & Hnew).
  apply Ret_inj in Hnew. injection Hnew as _ <-.
  apply (Hs' st Hscan).
Qed.

(** X14.  With no byte to read and a symbol to read a length for, the table is
    truncated. *)
Theorem empty_table_is_truncated (numBytes minSymbol maxSymbol rleSymbol : Z) :
  numBytes <= 0 -> wrap64 minSymbol <= wrap64 maxSymbol ->
  new table numBytes minSymbol maxSymbol rleSymbol = Throw TableTruncated.
Proof.
  intros Hn Hsym. unfold new, scan_table.
  destruct (Z.to_nat (Z.max 0 (8 * numBytes) + 1)) as [|fuel] eqn:Ef; [lia|].
  cbn [scan]. destruct (Z.leb_spec (wrap64 minSymbol) (wrap64 maxSymbol)); [|lia].
  unfold scan_symbol. cbn [currByte].
  destruct (Z.leb_spec numBytes 0); [reflexivity | lia].
Qed.

End ScanBounds.

(** ** FastHuf: the two paths of [decode] *)

Section Paths.
Import FastHuf.

Lemma find_minIdx_spec (lj : list Z) (fuel : nat) :
  forall idx : Z,
  0 <= idx <= Z.of_nat fuel ->
  let r := find_minIdx fuel lj idx in
  0 <= r <= idx /\
  (forall j, r < j <= idx -> arr_get lj j = ALL_ONES) /\
  (0 < r -> arr_get lj r <> ALL_ONES).
Proof.
  induction fuel as [|fuel IH]; intros idx Hidx; cbn [find_minIdx].
  - cbv zeta. split; [lia|]. split; intros; lia.
  - destruct (Z.ltb_spec 0 idx) as [Hpos | H0]; cbn [andb].
    + destruct (Z.eqb_spec (arr_get lj idx) ALL_ONES) as [Eq | Ne].
      * destruct (IH (idx - 1) ltac:(lia)) as (Hr & Hall & Hstop). cbv zeta.
        split; [lia|]. split; [|exact Hstop].
        intros j Hj. destruct (Z.eq_dec j idx) as [-> | Hne]; [exact Eq|].
        apply Hall. lia.
      * cbv zeta. split; [lia|]. split; [intros; lia | intros _; exact Ne].
    + cbv zeta. split; [lia|]. split; intros; lia.
Qed.

Lemma buildTables_tableMin (rle N minCL maxCL : Z) (ids base offset : list Z)
    (d : FastHufDecoder) :
  buildTables rle N minCL maxCL ids base offset = Ret d ->
  tableMin d =
    let minIdx := find_minIdx (Z.to_nat TABLE_LOOKUP_BITS) (ljBase d) TABLE_LOOKUP_BITS in
    if minIdx <? 0 then ALL_ONES else arr_get (ljBase d) minIdx.
Proof.
  unfold buildTables. intros H.
  apply bind_Ret in H as ([ts tcl] & _ & H). apply Ret_inj in H. subst d.
  reflexivity.
Qed.

(** The code lengths of an accepted code book. *)
Lemma code_lengths (table : list byte) (numBytes minSymbol maxSymbol rleSymbol : Z)
    (d : FastHufDecoder) (c : Z) :
  new table numBytes minSymbol maxSymbol rleSymbol = Ret (d, c) ->
  minCodeLength d = 255 /\ maxCodeLength d = 0 \/
  1 <= minCodeLength d <= maxCodeLength d /\ maxCodeLength d <= 58.
Proof.
  intros Hnew.
  apply new_inv in Hnew as (st & base & offset & Hscan & _ & _ & _ & Hb).
  apply buildTables_fields in Hb as (_ & -> & -> & _).
  apply scan_table_inv in Hscan as (Hinv & _).
  pose proof (scan_counts st Hinv) as (_ & _ & _ & Hext). cbv zeta in Hext.
  destruct Hext as [(_ & Hmin & Hmax) | (Hmm & Hmax & _)]; [left | right]; lia.
Qed.

Lemma left_justified_not_all_ones (v L : Z) :
  0 <= L <= 58 -> wrap64 (Z.shiftl v (64 - L)) <> ALL_ONES.
Proof.
  intros HL. unfold wrap64, ALL_ONES. rewrite Z.shiftl_mul_pow2 by lia.
  replace (64 - L) with (1 + (63 - L)) by lia.
  rewrite Z.pow_add_r by lia.
  replace (v * (2 ^ 1 * 2 ^ (63 - L))) with (2 * (v * 2 ^ (63 - L))) by lia.
  generalize (v * 2 ^ (63 - L)). intros w E.
  Z.div_mod_to_equations. lia.
Qed.

(** [_tableMin] is the left-justified base of the longest length that the
    table covers, and all ones when no code is that short. *)
Lemma tableMin_spec (table : list byte) (numBytes minSymbol maxSymbol rleSymbol : Z)
    (d : FastHufDecoder) (c : Z) :
  new table numBytes minSymbol maxSymbol rleSymbol = Ret (d, c) ->
  tableMin d =
    if minCodeLength d <=? TABLE_LOOKUP_BITS
    then arr_get (ljBase d) (Z.min TABLE_LOOKUP_BITS (maxCodeLength d))
    else ALL_ONES.
Proof.
  intros Hnew.
  pose proof (code_lengths _ _ _ _ _ _ _ Hnew) as Hcl.
  pose proof (ljBase_spec _ _ _ _ _ _ _ Hnew) as (_ & _ & Hout & Hin).
  apply new_inv in Hnew as (st & base & offset & _ & _ & _ & _ & Hb).
  rewrite (buildTables_tableMin _ _ _ _ _ _ _ _ Hb). cbv zeta.
  pose proof (find_minIdx_spec (ljBase d) (Z.to_nat TABLE_LOOKUP_BITS)
                TABLE_LOOKUP_BITS ltac:(unfold TABLE_LOOKUP_BITS; lia))
    as (Hr & Hall & Hstop).
  cbv zeta in Hr, Hall, Hstop.
  set (r := find_minIdx _ _ _) in *. unfold TABLE_LOOKUP_BITS in *.
  destruct (Z.ltb_spec r 0) as [|_]; [lia|].
  assert (Hused : forall L, minCodeLength d <= L <= maxCodeLength d -> 0 <= L <= 58 ->
                            arr_get (ljBase d) L <> ALL_ONES).
  { intros L HL HL'. destruct (Hin L HL) as (v & _ & _ & ->).
    now apply left_justified_not_all_ones. }
  destruct (Z.leb_spec (minCodeLength d) 12) as [Hshort | Hlong].
  - f_equal.
    destruct (Z.lt_trichotomy r (Z.min 12 (maxCodeLength d))) as [Hlt | [Heq | Hgt]];
      [|exact Heq|].
    + exfalso. apply (Hused (Z.min 12 (maxCodeLength d))); [lia | lia|].
      apply Hall. lia.
    + exfalso. apply Hstop; [lia|]. apply Hout; lia.
  - destruct (Z.eq_dec r 0) as [-> | Hne].
    + apply Hout; lia.
    + exfalso. apply Hstop; [lia|]. apply Hout; lia.
Qed.

(** An entry of the acceleration table that a buffer not below [_tableMin]
    selects: the least length whose left-justified base is not above the
    buffer, and the symbol of the id at that length. *)
Lemma table_entry (table : list byte)
    (numBytes minSymbol maxSymbol rleSymbol : Z) (d : FastHufDecoder) (c b : Z) :
  new table numBytes minSymbol maxSymbol rleSymbol = Ret (d, c) ->
  minCodeLength d <= TABLE_LOOKUP_BITS ->
  tableMin d <= b < 2 ^ 64 ->
  exists Lv,
    spec_smallest_len (count (minCodeLength d) (maxCodeLength d)) (minCodeLength d)
      (ljBase d) b = Some Lv /\
    minCodeLength d <= Lv <= Z.min TABLE_LOOKUP_BITS (maxCodeLength d) /\
    table_lookup d b =
      (Lv, arr_get (idToSymbol d)
             (wrap64 (arr_get (ljOffset d) Lv + Z.shiftr b (64 - Lv)))).
Proof.
  intros Hnew Hshort Hb.
  pose proof (code_lengths _ _ _ _ _ _ _ Hnew) as Hcl.
  pose proof (tableMin_spec _ _ _ _ _ _ _ Hnew) as Hmin.
  pose proof (ljBase_spec _ _ _ _ _ _ _ Hnew) as (_ & _ & Hout & Hin).
  apply new_inv in Hnew as (st & base & offset & _ & _ & _ & _ & Hbt).
  apply buildTables_fields in Hbt as (_ & Emin & Emax & _ & ElB & ElO & Htab).
  rewrite <- ElO, <- ElB, <- Emin, <- Emax in Htab. clear Emin Emax ElB ElO.
  assert (Hb0 : 0 <= b < 2 ^ 64).
  { split; [|lia]. unfold TABLE_LOOKUP_BITS in *.
    destruct (Z.leb_spec (minCodeLength d) 12); [|lia].
    destruct (Hin (Z.min 12 (maxCodeLength d)) ltac:(lia)) as (x & _ & _ & Ex).
    rewrite Ex in Hmin. unfold wrap64 in Hmin.
    pose proof (Z.mod_pos_bound (Z.shiftl x (64 - Z.min 12 (maxCodeLength d))) (2 ^ 64)
                  ltac:(lia)). lia. }
  pose proof (prefix_value b Hb0) as (Hp & Hv & Hvb & Hwrap). cbv zeta in *.
  set (p := Z.shiftr b (64 - TABLE_LOOKUP_BITS)) in *.
  set (v := Z.shiftl p (64 - TABLE_LOOKUP_BITS)) in *.
  unfold TABLE_LOOKUP_BITS in Hshort, Hmin.
  destruct (Z.leb_spec (minCodeLength d) 12) as [_|]; [|lia].
  set (L0 := Z.min 12 (maxCodeLength d)) in *.
  assert (HL0 : minCodeLength d <= L0 <= maxCodeLength d /\ L0 <= 12) by lia.
  (* the base of [L0] is not above the prefix *)
  assert (Hmatch : arr_get (ljBase d) L0 <= v).
  { destruct (Hin L0 ltac:(lia)) as (x & _ & _ & Ex).
    destruct (left_justified_multiple x L0 ltac:(unfold TABLE_LOOKUP_BITS; lia))
      as (k & Ek).
    rewrite Ex, Ek in *.
    destruct (Z_le_dec (k * 2 ^ 52) v) as [|Hgt]; [assumption|].
    pose proof (multiple_above k p b ltac:(lia) ltac:(lia)). lia. }
  set (n := count (minCodeLength d) (maxCodeLength d)).
  destruct (spec_smallest_len n (minCodeLength d) (ljBase d) v) as [Lv|] eqn:Ev.
  2:{ pose proof (spec_smallest_len_none _ _ _ _ Ev L0) as Hnone.
      unfold n, count in Hnone. lia. }
  pose proof Ev as Hleast. apply spec_smallest_len_least in Hleast as (HLv & Hle & Hleast).
  assert (HLv12 : Lv <= L0).
  { destruct (Z_le_dec Lv L0) as [|Hgt]; [lia|]. specialize (Hleast L0 ltac:(lia)). lia. }
  assert (Eb : spec_smallest_len n (minCodeLength d) (ljBase d) b = Some Lv).
  { apply spec_smallest_len_least. split; [exact HLv|]. split; [lia|].
    intros L' HL'. specialize (Hleast L' HL').
    destruct (Hin L' ltac:(unfold n, count in HLv; lia)) as (x & _ & _ & Ex).
    destruct (left_justified_multiple x L' ltac:(unfold TABLE_LOOKUP_BITS; lia))
      as (k & Ek).
    rewrite Ex, Ek in *. apply (multiple_above k p b); lia. }
  assert (Etab : table_lookup d b =
                 (Lv, arr_get (idToSymbol d)
                        (wrap64 (arr_get (ljOffset d) Lv + Z.shiftr b (64 - Lv))))).
  { unfold table_lookup. fold p.
    rewrite (accel_tables_spec _ _ _ _ _ _ _ _ Htab p Hp).
    fold v. fold n. rewrite Hwrap, Ev.
    do 4 f_equal. apply shiftr_prefix; unfold TABLE_LOOKUP_BITS; lia. }
  exists Lv. split; [exact Eb|]. split; [|exact Etab].
  unfold n, count in HLv. unfold TABLE_LOOKUP_BITS. lia.
Qed.

(** [_tableMin] has no bit below the bits the table looks at. *)
Lemma tableMin_multiple (table : list byte)
    (numBytes minSymbol maxSymbol rleSymbol : Z) (d : FastHufDecoder) (c : Z) :
  new table numBytes minSymbol maxSymbol rleSymbol = Ret (d, c) ->
  minCodeLength d <= TABLE_LOOKUP_BITS ->
  exists k, tableMin d = k * 2 ^ 52.
Proof.
  intros Hnew Hshort.
  pose proof (code_lengths _ _ _ _ _ _ _ Hnew) as Hcl.
  pose proof (tableMin_spec _ _ _ _ _ _ _ Hnew) as Hmin.
  pose proof (ljBase_spec _ _ _ _ _ _ _ Hnew) as (_ & _ & _ & Hin).
  unfold TABLE_LOOKUP_BITS in *.
  destruct (Z.leb_spec (minCodeLength d) 12) as [_|]; [|lia].
  destruct (Hin (Z.min 12 (maxCodeLength d)) ltac:(lia)) as (x & _ & _ & Ex).
  rewrite Hmin, Ex. apply left_justified_multiple. unfold TABLE_LOOKUP_BITS. lia.
Qed.

(** X15.  A buffer that is not below [_tableMin] takes the accelerated path,
    and when the code book has a code of at most [TABLE_LOOKUP_BITS] bits the
    table then gives what the linear search over the lengths gives: the
    least length whose left-justified base is not above the buffer, one the
    table covers, and the symbol of the id at that length. *)
Theorem table_path_is_linear_search (table : list byte)
    (numBytes minSymbol maxSymbol rleSymbol : Z) (d : FastHufDecoder) (c b : Z) :
  new table numBytes minSymbol maxSymbol rleSymbol = Ret (d, c) ->
  minCodeLength d <= TABLE_LOOKUP_BITS ->
  tableMin d <= b < 2 ^ 64 ->
  spec_linear_lookup d b = Some (table_lookup d b) /\
  minCodeLength d <= fst (table_lookup d b) <= TABLE_LOOKUP_BITS /\
  fst (table_lookup d b) <= maxCodeLength d.
Proof.
  intros Hnew Hshort Hb.
  destruct (table_entry _ _ _ _ _ _ _ _ Hnew Hshort Hb) as (Lv & Eb & HLv & Etab).
  rewrite Etab. cbn [fst]. unfold TABLE_LOOKUP_BITS in *.
  split; [|lia].
  unfold spec_linear_lookup. now rewrite Eb.
Qed.

(** The search path: the loop over the lengths above [TABLE_LOOKUP_BITS]. *)
Lemma search_codeLen_spec (d : FastHufDecoder) (b : Z) (fuel : nat) :
  forall L0 : Z,
  L0 + Z.of_nat fuel = maxCodeLength d + 1 ->
  let r := search_codeLen fuel d b L0 in
  L0 <= r <= maxCodeLength d + 1 /\
  (forall L, L0 <= L < r -> b < arr_get (ljBase d) L) /\
  (r <= maxCodeLength d -> arr_get (ljBase d) r <= b).
Proof.
  induction fuel as [|fuel IH]; intros L0 HL0; cbn [search_codeLen].
  - cbv zeta. split; [lia|]. split; intros; lia.
  - destruct (Z.ltb_spec b (arr_get (ljBase d) L0)) as [Hlt | Hge]; cbn [andb].
    + destruct (Z.leb_spec L0 (maxCodeLength d)) as [_|]; [|lia].
      destruct (IH (L0 + 1) ltac:(lia)) as (Hr & Hall & Hstop). cbv zeta.
      split; [lia|]. split; [|exact Hstop].
      intros L HL. destruct (Z.eq_dec L L0) as [-> | Hne]; [exact Hlt|].
      apply Hall. lia.
    + cbv zeta. split; [lia|]. split; [intros; lia | intros _; exact Hge].
Qed.

Lemma search_codeLen_ge (d : FastHufDecoder) (b : Z) (fuel : nat) :
  forall L0 : Z, L0 <= search_codeLen fuel d b L0.
Proof.
  induction fuel as [|fuel IH]; intros L0; cbn [search_codeLen]; [lia|].
  destruct (_ && _); [|lia]. specialize (IH (L0 + 1)). lia.
Qed.

(** The search path finds lengths above [TABLE_LOOKUP_BITS] only. *)
Lemma search_lookup_range (d : FastHufDecoder) (b L s : Z) :
  search_lookup d b = Ret (L, s) -> TABLE_LOOKUP_BITS < L <= maxCodeLength d.
Proof.
  unfold search_lookup.
  pose proof (search_codeLen_ge d b (Z.to_nat (maxCodeLength d - TABLE_LOOKUP_BITS))
                (TABLE_LOOKUP_BITS + 1)) as Hge.
  set (r := search_codeLen _ d b _) in *.
  destruct (Z.ltb_spec (maxCodeLength d) r) as [|Hle]; [discriminate|].
  destruct (_ <? _); [|discriminate].
  intros H. apply Ret_inj in H. injection H as <- _. lia.
Qed.

(** X16.  Below [_tableMin], a buffer takes the search path, which looks at the
    lengths above [TABLE_LOOKUP_BITS] only.  When no shorter length of the
    code book matches the buffer, it finds what the linear search over all
    lengths finds, and it throws when that search finds no length or an id
    that is no symbol. *)
Theorem search_path_is_linear_search (table : list byte)
    (numBytes minSymbol maxSymbol rleSymbol : Z) (d : FastHufDecoder) (c b : Z) :
  new table numBytes minSymbol maxSymbol rleSymbol = Ret (d, c) ->
  0 <= b < tableMin d ->
  (forall L, minCodeLength d <= L <= TABLE_LOOKUP_BITS -> b < arr_get (ljBase d) L) ->
  search_lookup d b =
    match spec_linear_lookup d b with
    | Some (L, symbol) =>
        if wrap64 (arr_get (ljOffset d) L + Z.shiftr b (64 - L)) <? wrap64 (numSymbols d)
        then Ret (L, symbol) else Throw InvalidSymbol
    | None => Throw InvalidSymbol
    end.
Proof.
  intros Hnew Hb Hshort.
  pose proof (code_lengths _ _ _ _ _ _ _ Hnew) as Hcl.
  pose proof (tableMin_spec _ _ _ _ _ _ _ Hnew) as Hmin.
  pose proof (ljBase_spec _ _ _ _ _ _ _ Hnew) as (_ & _ & Hout & Hin).
  assert (Hones : b < ALL_ONES).
  { destruct (Z.leb_spec (minCodeLength d) TABLE_LOOKUP_BITS) as [Hs|]; [|lia].
    unfold TABLE_LOOKUP_BITS in *.
    destruct (Hin (Z.min 12 (maxCodeLength d)) ltac:(lia)) as (x & _ & _ & Ex).
    rewrite Ex in Hmin. unfold wrap64 in Hmin.
    pose proof (Z.mod_pos_bound (Z.shiftl x (64 - Z.min 12 (maxCodeLength d))) (2 ^ 64)
                  ltac:(lia)). unfold ALL_ONES. lia. }
  unfold search_lookup, spec_linear_lookup. unfold TABLE_LOOKUP_BITS in *.
  change (12 + 1) with 13.
  set (n := count (minCodeLength d) (maxCodeLength d)).
  destruct (Z_le_dec 13 (maxCodeLength d)) as [Hlong | Hnone].
  - (* some length is above the table *)
    destruct (search_codeLen_spec d b (Z.to_nat (maxCodeLength d - 12)) 13 ltac:(lia))
      as (Hr & Hall & Hstop).
    cbv zeta in Hr, Hall, Hstop. set (r := search_codeLen _ d b _) in *.
    assert (Hbelow : forall L, minCodeLength d <= L < r -> b < arr_get (ljBase d) L).
    { intros L HL. destruct (Z_le_dec L 12) as [|Hgt]; [apply Hshort; lia|].
      apply Hall. lia. }
    destruct (Z.ltb_spec (maxCodeLength d) r) as [Hover | Hfound].
    + destruct (spec_smallest_len n (minCodeLength d) (ljBase d) b) as [L|] eqn:E;
        [|reflexivity].
      apply spec_smallest_len_least in E as (HL & Hle & _).
      unfold n, count in HL. specialize (Hbelow L ltac:(lia)). lia.
    + assert (Hrmin : minCodeLength d <= r).
      { destruct (Z_le_dec (minCodeLength d) r) as [|Hlt]; [assumption|].
        rewrite (Hout r) in Hstop by lia. lia. }
      assert (E : spec_smallest_len n (minCodeLength d) (ljBase d) b = Some r).
      { apply spec_smallest_len_least. unfold n, count.
        split; [lia|]. split; [apply Hstop; lia | exact Hbelow]. }
      rewrite E. reflexivity.
  - (* no length is above the table *)
    replace (Z.to_nat (maxCodeLength d - 12)) with 0%nat by lia.
    cbn [search_codeLen].
    destruct (Z.ltb_spec (maxCodeLength d) 13) as [_|]; [|lia].
    destruct (spec_smallest_len n (minCodeLength d) (ljBase d) b) as [L|] eqn:E;
      [|reflexivity].
    apply spec_smallest_len_least in E as (HL & Hle & _).
    unfold n, count in HL. specialize (Hshort L ltac:(lia)). lia.
Qed.

End Paths.

(** ** FastHuf: [readBits] *)

Section ReadBits.
Import FastHuf.

Lemma be_value_range (bs : list byte) :
  0 <= be_value bs < 2 ^ (8 * Z.of_nat (length bs)).
Proof.
  induction bs as [|b bs IH]; [cbn; lia|].
  cbn [be_value length]. rewrite Nat2Z.inj_succ.
  replace (8 * Z.succ (Z.of_nat (length bs))) with (8 + 8 * Z.of_nat (length bs)) by lia.
  rewrite Z.pow_add_r by lia.
  pose proof (byte_to_Z_range b).
  assert (0 < 2 ^ (8 * Z.of_nat (length bs))) by (apply Z.pow_pos_nonneg; lia).
  nia.
Qed.

Lemma push_byte (b bc x : Z) :
  0 <= bc -> bc + 8 <= 64 -> 0 <= x < 256 ->
  (Z.lor (wrap64 (Z.shiftl b 8)) x) mod 2 ^ (bc + 8) = (b mod 2 ^ bc) * 256 + x.
Proof.
  intros Hbc H64 Hx. unfold wrap64. rewrite Z.shiftl_mul_pow2 by lia.
  assert (Hp : 0 < 2 ^ bc) by (apply Z.pow_pos_nonneg; lia).
  assert (Hw : (b * 2 ^ 8) mod 2 ^ 64 = ((b * 2 ^ 8) mod 2 ^ 64 / 2 ^ 8) * 2 ^ 8).
  { Z.div_mod_to_equations. lia. }
  rewrite Hw, lor_high_low by lia. rewrite <- Hw.
  rewrite Z.add_mod by lia.
  rewrite Z.mod_mod_divide.
  2:{ exists (2 ^ (64 - (bc + 8))). rewrite <- Z.pow_add_r by lia. f_equal. lia. }
  rewrite Z.pow_add_r by lia.
  rewrite Z.mul_mod_distr_r by lia.
  pose proof (Z.mod_pos_bound b (2 ^ bc) Hp) as Hb.
  rewrite (Z.mod_small x) by nia.
  apply Z.mod_small. change (2 ^ 8) with 256. nia.
Qed.

Lemma be_value_drop (table : list byte) (cb : Z) (x : byte) :
  0 <= cb -> table !! Z.to_nat cb = Some x ->
  be_value (drop (Z.to_nat cb) table) =
  byte_to_Z x * 2 ^ (8 * (Z.of_nat (length table) - cb - 1))
  + be_value (drop (Z.to_nat (cb + 1)) table).
Proof.
  intros Hcb Hx. pose proof (lookup_lt_Some _ _ _ Hx) as Hlt.
  rewrite (drop_S _ _ _ Hx). cbn [be_value].
  rewrite length_drop. replace (Z.to_nat (cb + 1)) with (S (Z.to_nat cb)) by lia.
  do 3 f_equal. lia.
Qed.

(** Filling the buffer changes neither the bits at hand nor their number. *)
Lemma readBits_fill_spec (table : list byte) (numBits : Z) (fuel : nat) :
  forall buffer bufferNumBits currByte : Z,
  0 < numBits <= 57 -> 0 <= bufferNumBits ->
  0 <= currByte <= Z.of_nat (length table) ->
  numBits <= bits_avail table bufferNumBits currByte ->
  numBits - bufferNumBits <= 8 * Z.of_nat fuel ->
  exists b bc cb,
    readBits_fill fuel numBits table buffer bufferNumBits currByte = Ret (b, bc, cb) /\
    numBits <= bc /\ currByte <= cb <= Z.of_nat (length table) /\
    bits_avail table bc cb = bits_avail table bufferNumBits currByte /\
    bits_pending table b bc cb = bits_pending table buffer bufferNumBits currByte.
Proof.
  unfold bits_avail.
  induction fuel as [|fuel IH]; intros b bc cb Hn Hbc Hcb Havail Hfuel;
    cbn [readBits_fill]; destruct (Z.ltb_spec bc numBits) as [Hlt | Hge]; try lia;
    try (exists b, bc, cb; repeat split; (reflexivity || lia)).
  destruct (lookup_lt_is_Some_2 table (Z.to_nat cb) ltac:(lia)) as [x Hx].
  rewrite (load_ok table cb x ltac:(lia) Hx). cbn [bind].
  destruct (IH (Z.lor (wrap64 (Z.shiftl b 8)) (byte_to_Z x)) (bc + 8) (cb + 1))
    as (b' & bc' & cb' & Hrun & Hbc' & Hcb' & Hav' & Hpend'); try lia.
  exists b', bc', cb'. split; [exact Hrun|]. split; [exact Hbc'|].
  split; [lia|]. split; [lia|].
  rewrite Hpend'. unfold bits_pending.
  pose proof (byte_to_Z_range x) as Hxr.
  rewrite push_byte by lia.
  rewrite (be_value_drop table cb x ltac:(lia) Hx).
  replace (8 * (Z.of_nat (length table) - cb))
    with (8 + 8 * (Z.of_nat (length table) - (cb + 1))) by lia.
  rewrite Z.pow_add_r by lia.
  replace (Z.of_nat (length table) - cb - 1) with (Z.of_nat (length table) - (cb + 1))
    by lia.
  change (2 ^ 8) with 256. ring.
Qed.

Lemma leading_bits (b s n : Z) :
  0 <= s -> 0 <= n ->
  Z.land (Z.shiftr b s) (Z.shiftl 1 n - 1) = (b mod 2 ^ (s + n)) / 2 ^ s.
Proof.
  intros Hs Hn.
  rewrite Z.shiftl_1_l. change (2 ^ n - 1) with (Z.pred (2 ^ n)).
  rewrite <- Z.ones_equiv, Z.land_ones, Z.shiftr_div_pow2 by lia.
  assert (Hps : 0 < 2 ^ s) by (apply Z.pow_pos_nonneg; lia).
  assert (Hpn : 0 < 2 ^ n) by (apply Z.pow_pos_nonneg; lia).
  rewrite Z.pow_add_r, Z.rem_mul_r by lia.
  rewrite (Z.mul_comm (2 ^ s)), Z.div_add by lia.
  rewrite (Z.div_small (b mod 2 ^ s)) by (apply Z.mod_pos_bound; lia).
  reflexivity.
Qed.

(** X17.  [readBits] hands out the leading [numBits] bits of the bits at hand
    and keeps the others: it reads the table as a stream of bits, the most
    significant bit of a byte first.  The number of bits is one for which
    the mask [(1 << numBits) - 1] of line 565 is defined in [int], at most
    30, and [buffer] holds at most its 64 bits, so that the shifts of
    lines 560 and 565 are by less than 64. *)
Theorem readBits_takes_leading_bits (table : list byte)
    (numBits buffer bufferNumBits currByte : Z) :
  0 < numBits <= 30 -> 0 <= bufferNumBits <= 64 ->
  0 <= currByte <= Z.of_nat (length table) ->
  numBits <= bits_avail table bufferNumBits currByte ->
  exists v b bc cb,
    readBits numBits table buffer bufferNumBits currByte = Ret (v, b, bc, cb) /\
    0 <= bc /\ currByte <= cb <= Z.of_nat (length table) /\
    bits_avail table bc cb = bits_avail table bufferNumBits currByte - numBits /\
    v = bits_pending table buffer bufferNumBits currByte / 2 ^ bits_avail table bc cb /\
    bits_pending table b bc cb =
      bits_pending table buffer bufferNumBits currByte mod 2 ^ bits_avail table bc cb.
Proof.
  intros Hn Hbc Hcb Havail. unfold readBits. rewrite int_mask_small by lia.
  destruct (readBits_fill_spec table numBits (Z.to_nat numBits) buffer bufferNumBits
              currByte ltac:(lia) ltac:(lia) Hcb Havail ltac:(lia))
    as (b & bc & cb & -> & Hbc' & Hcb' & Hav & Hpend).
  cbn [bind]. exists (Z.land (Z.shiftr b (bc - numBits)) (Z.shiftl 1 numBits - 1)),
    b, (bc - numBits), cb.
  split; [reflexivity|]. split; [lia|]. split; [exact Hcb'|].
  rewrite <- Hpend, <- Hav. clear Hpend Hav Havail.
  unfold bits_avail, bits_pending.
  set (R := 8 * (Z.of_nat (length table) - cb)).
  set (s := bc - numBits).
  assert (HR : 0 <= R) by (subst R; lia).
  assert (Hs : 0 <= s) by (subst s; lia).
  pose proof (be_value_range (drop (Z.to_nat cb) table)) as Hrest.
  rewrite length_drop in Hrest.
  replace (8 * Z.of_nat (length table - Z.to_nat cb)) with R in Hrest by (subst R; lia).
  set (rest := be_value (drop (Z.to_nat cb) table)) in *.
  assert (HpR : 0 < 2 ^ R) by (apply Z.pow_pos_nonneg; lia).
  assert (Hps : 0 < 2 ^ s) by (apply Z.pow_pos_nonneg; lia).
  split; [lia|].
  replace (2 ^ bc) with (2 ^ (s + numBits)) by (f_equal; subst s; lia).
  assert (Hdiv : ((b mod 2 ^ (s + numBits)) * 2 ^ R + rest) / 2 ^ R
                 = b mod 2 ^ (s + numBits)).
  { rewrite Z.div_add_l by lia. rewrite Z.div_small by lia. lia. }
  assert (Hmod : ((b mod 2 ^ (s + numBits)) * 2 ^ R + rest) mod 2 ^ R = rest).
  { rewrite Z.add_comm, Z.mod_add by lia. apply Z.mod_small. lia. }
  replace (s + R) with (R + s) by lia. rewrite (Z.pow_add_r 2 R s) by lia.
  split.
  - rewrite <- Z.div_div, Hdiv by lia. apply leading_bits; lia.
  - rewrite Z.rem_mul_r, Hdiv, Hmod by lia.
    rewrite Z.mod_mod_divide.
    2:{ exists (2 ^ numBits). rewrite <- Z.pow_add_r by lia. f_equal. lia. }
    ring.
Qed.

End ReadBits.

(** ** FastHuf: the ids of the symbols *)

Section Ids.
Import FastHuf.

Lemma count_len_take_lt (L : Z) (l : list Z) (k : nat) (x : Z) :
  l !! k = Some x -> Z.land x 63 = L ->
  count_len L (take k l) < count_len L l.
Proof.
  intros Hk HL. rewrite <- (take_drop_middle l k x Hk) at 2.
  rewrite count_len_app. cbn [count_len]. rewrite HL, Z.eqb_refl.
  pose proof (count_len_nonneg L (drop (S k) l)). lia.
Qed.

(** The mapping from code lengths to the next id, as the loop of lines
    251-252 leaves it. *)
Lemma mapping_spec (minCL maxCL : Z) (offset : list Z) :
  0 <= minCL -> maxCL <= 58 ->
  let mapping :=
    for_up (count minCL maxCL) minCL
      (fun i mapping => arr_set mapping i (arr_get offset i))
      (repeat ALL_ONES (Z.to_nat (MAX_CODE_LEN + 1))) in
  length mapping = 59%nat /\
  forall L, minCL <= L <= maxCL -> arr_get mapping L = arr_get offset L.
Proof.
  intros Hmin Hmax.
  pose proof (for_up_inv
    (fun i m => length m = 59%nat /\
                forall L, minCL <= L < i -> arr_get m L = arr_get offset L)
    (fun i mapping => arr_set mapping i (arr_get offset i))
    (count minCL maxCL) minCL (repeat ALL_ONES (Z.to_nat (MAX_CODE_LEN + 1)))) as Hm.
  cbv beta in Hm. destruct Hm as (Hl & Hv).
  - split; [reflexivity | intros; lia].
  - intros i m Hi (Hl & Hv). split; [now rewrite length_arr_set|]. intros L HL.
    unfold count in Hi.
    destruct (Z.eq_dec L i) as [-> | Hne].
    + apply arr_get_set_same. lia.
    + rewrite arr_get_set_other by lia. apply Hv. lia.
  - cbv zeta. split; [exact Hl|]. intros L HL. apply Hv. unfold count. lia.
Qed.

(** The ids the loop of lines 254-270 gives: the entry [k] of [symbols],
    of code length [L], gets the id [off L] plus the number of entries of
    that length before it. *)
Lemma fill_idToSymbol_spec (N minCL maxCL : Z) (offset syms ids : list Z)
    (cc off : Z -> Z) :
  0 <= minCL -> maxCL <= 58 ->
  Forall (fun x => minCL <= Z.land x 63 <= maxCL) syms ->
  (forall L, 0 <= cc L) ->
  (forall L, count_len L syms = cc L) ->
  (forall L, minCL <= L <= maxCL -> arr_get offset L = off L) ->
  (forall L, minCL <= L <= maxCL -> 0 <= off L) ->
  (forall L L', minCL <= L < L' -> L' <= maxCL -> off L' + cc L' <= off L) ->
  fill_idToSymbol N minCL maxCL offset syms = Ret ids ->
  length ids = Z.to_nat N /\
  forall (k : nat) (x : Z), syms !! k = Some x ->
    ids !! Z.to_nat (off (Z.land x 63) + count_len (Z.land x 63) (take k syms))
    = Some (to_int (Z.shiftr x 6)).
Proof.
  intros Hmin Hmax Hall Hcc Hcount Hoff Hoff0 Hsep Hfill.
  unfold fill_idToSymbol in Hfill.
  apply bind_Ret in Hfill as ([ids' m'] & Hfold & Hfill). apply Ret_inj in Hfill.
  subst ids'.
  pose proof (mapping_spec minCL maxCL offset Hmin Hmax) as (Hml & Hmv).
  cbv zeta in Hml, Hmv.
  set (P := fun (done : list Z) (s : list Z * list Z) =>
       forall rest, done ++ rest = syms ->
       length (snd s) = 59%nat /\ length (fst s) = Z.to_nat N /\
       (forall L, minCL <= L <= maxCL ->
                  arr_get (snd s) L = off L + count_len L done) /\
       (forall (k : nat) (x : Z), done !! k = Some x ->
          fst s !! Z.to_nat (off (Z.land x 63) + count_len (Z.land x 63) (take k done))
          = Some (to_int (Z.shiftr x 6)))).
  assert (Hrun : P ([] ++ syms) (ids, m')).
  2:{ cbn [app] in Hrun. destruct (Hrun [] (app_nil_r _)) as (_ & Hl & _ & Hids).
      split; [exact Hl | exact Hids]. }
  eapply (foldM_inv P (assign_id N) syms []); [| |exact Hfold]; subst P; cbv beta.
  - intros rest _. cbn [fst snd count_len]. split; [exact Hml|].
    split; [apply repeat_length|]. split.
    + intros L HL. rewrite Hmv, Hoff by lia. lia.
    + intros k x Hk. discriminate.
  - intros x done [ids0 m0] [ids1 m1] Hinv Hx rest Hrest. cbn [fst snd] in *.
    rewrite <- app_assoc in Hrest. cbn [app] in Hrest.
    destruct (Hinv _ Hrest) as (Hl & Hli & Hv & Hids). clear Hinv.
    assert (HxL : minCL <= Z.land x 63 <= maxCL).
    { rewrite Forall_forall in Hall. apply Hall. rewrite <- Hrest.
      apply in_or_app. right. left. reflexivity. }
    set (L := Z.land x 63) in *.
    assert (Hdone : forall L', count_len L' done + (if L =? L' then 1 else 0) <= cc L').
    { intros L'. rewrite <- Hcount, <- Hrest, count_len_app. cbn [count_len].
      fold L. pose proof (count_len_nonneg L' rest). lia. }
    unfold assign_id in Hx. fold L in Hx.
    destruct (Z.leb_spec (wrap64 N) (arr_get m0 L)) as [|Hchk]; [discriminate|].
    apply bind_Ret in Hx as (ids2 & Hst & Hx). apply Ret_inj in Hx.
    injection Hx as <- <-.
    apply store_Ret in Hst as (Hpos & ->).
    pose proof (count_len_nonneg L done) as Hcl.
    assert (Hw : wrap64 N < 2 ^ 64) by (apply Z.mod_pos_bound; lia).
    rewrite (Hv L HxL) in *.
    split; [now rewrite length_arr_set|]. split; [now rewrite length_insert|].
    split.
    + intros L' HL'. rewrite count_len_app. cbn [count_len]. fold L.
      destruct (Z.eqb_spec L L') as [<- | Hne].
      * rewrite arr_get_set_same by lia. rewrite wrap64_small by lia. lia.
      * rewrite arr_get_set_other by lia. rewrite Hv by lia. lia.
    + intros k y Hk.
      destruct (lookup_app_Some done [x] k y) as [Hcase _].
      destruct (Hcase Hk) as [Hin | (Hge & Hlast)].
      * (* an earlier entry keeps its id *)
        pose proof (lookup_lt_Some _ _ _ Hin) as Hklt.
        rewrite take_app_le by lia.
        rewrite list_lookup_insert_ne; [apply Hids, Hin|].
        assert (HyL : minCL <= Z.land y 63 <= maxCL).
        { rewrite Forall_forall in Hall. apply Hall. rewrite <- Hrest.
          apply in_or_app. left. apply list_elem_of_In.
          eapply list_elem_of_lookup_2. exact Hin. }
        pose proof (count_len_take_lt (Z.land y 63) done k y Hin eq_refl) as Hlt.
        pose proof (count_len_nonneg (Z.land y 63) (take k done)) as Hnn.
        pose proof (Hdone (Z.land y 63)) as Hd1. pose proof (Hdone L) as Hd2.
        rewrite Z.eqb_refl in Hd2.
        pose proof (Hoff0 L HxL). pose proof (Hoff0 (Z.land y 63) HyL).
        destruct (Z.lt_trichotomy (Z.land y 63) L) as [Hlo | [Heq | Hhi]].
        -- pose proof (Hsep (Z.land y 63) L ltac:(lia) ltac:(lia)).
           destruct (L =? Z.land y 63); lia.
        -- rewrite Heq in *. lia.
        -- pose proof (Hsep L (Z.land y 63) ltac:(lia) ltac:(lia)).
           destruct (L =? Z.land y 63); lia.
      * (* the new entry *)
        assert (k = length done) as -> by (apply lookup_lt_Some in Hlast; cbn in Hlast; lia).
        rewrite Nat.sub_diag in Hlast. injection Hlast as <-.
        rewrite take_app_length. fold L. apply list_lookup_insert_eq. lia.
Qed.

(** The ids after a scan: what the loop makes of the offsets the
    constructor computes from [codeCount]. *)
Lemma ids_of_scan (st : scan_state) (N : Z) (ids : list Z) :
  scan_inv st ->
  Z.of_nat (length (symbols st)) < 2 ^ 64 ->
  fill_idToSymbol N (scanMinCodeLength st) (scanMaxCodeLength st)
    (compute_offset (scanMinCodeLength st) (scanMaxCodeLength st) (codeCount st)
       (repeat 0 (Z.to_nat (MAX_CODE_LEN + 1))))
    (symbols st) = Ret ids ->
  length ids = Z.to_nat N /\
  forall (k : nat) (x : Z), symbols st !! k = Some x ->
    let L := Z.land x 63 in
    scanMinCodeLength st <= L <= scanMaxCodeLength st /\
    ids !!
      Z.to_nat (sum_range (arr_get (codeCount st)) (L + 1) (scanMaxCodeLength st)
                + count_len L (take k (symbols st)))
    = Some (to_int (Z.shiftr x 6)).
Proof.
  intros Hinv Hlen Hfill.
  pose proof (scan_counts st Hinv) as (Hcc & Htot & Hout & Hext). cbv zeta in *.
  destruct Hinv as (_ & Hcount & Hall & _).
  set (cc := arr_get (codeCount st)) in *.
  set (minCL := scanMinCodeLength st) in *. set (maxCL := scanMaxCodeLength st) in *.
  destruct Hext as [(Hnil & Hmin & Hmax) | (Hmin & Hmax & Hcmin & Hcmax)].
  - (* no symbol has a code *)
    rewrite Hnil in *. unfold fill_idToSymbol in Hfill. cbn [foldM bind] in Hfill.
    apply Ret_inj in Hfill. rewrite <- Hfill. split; [apply repeat_length|].
    intros k x Hk. discriminate.
  - pose proof (compute_offset_spec minCL maxCL (codeCount st)
                  (repeat 0 (Z.to_nat (MAX_CODE_LEN + 1))) eq_refl
                  ltac:(lia) ltac:(lia) Hcc ltac:(fold cc; lia)) as (_ & Hoff).
    cbv zeta in Hoff. fold cc in Hoff.
    set (cc' := fun L => count_len L (symbols st)).
    assert (Hcc' : forall L, 0 <= L <= 58 -> cc L = cc' L) by (intros; now apply Hcount).
    pose proof (fill_idToSymbol_spec N minCL maxCL
                  (compute_offset minCL maxCL (codeCount st)
                     (repeat 0 (Z.to_nat (MAX_CODE_LEN + 1))))
                  (symbols st) ids cc'
                  (fun L => sum_range cc (L + 1) maxCL)
                  ltac:(lia) ltac:(lia)) as Hspec.
    cbv beta in Hspec.
    specialize (fun A B C D E F => Hspec A B C D E F Hfill).
    destruct Hspec as (Hl & Hids).
    + eapply Forall_impl; [|exact Hall]. cbn. tauto.
    + intros L. apply count_len_nonneg.
    + reflexivity.
    + exact Hoff.
    + intros L HL. apply sum_range_nonneg. intros k Hk. apply Hcc. lia.
    + intros L L' HL HL'.
      rewrite (sum_range_split cc (L + 1) (L' - 1) maxCL) by lia.
      replace (L' - 1 + 1) with L' by lia.
      rewrite (sum_range_first cc L' maxCL) by lia.
      pose proof (sum_range_nonneg cc (L + 1) (L' - 1)
                    ltac:(intros; apply Hcc; lia)).
      rewrite <- Hcc' by lia. lia.
    + split; [exact Hl|]. intros k x Hk. cbv zeta. split.
      * rewrite Forall_forall in Hall.
        apply (Hall x). apply list_elem_of_In.
        eapply list_elem_of_lookup_2. exact Hk.
      * apply Hids, Hk.
Qed.

(** X18.  The constructor numbers the symbols that have a code by decreasing
    code length, and in the order of the symbols within a length: the id of
    a symbol of code length [L] is the number of codes longer than [L] plus
    the number of symbols of length [L] before it, and [_idToSymbol] holds
    the symbol at this id. *)
Theorem ids_follow_code_lengths (table : list byte)
    (numBytes minSymbol maxSymbol rleSymbol : Z) (d : FastHufDecoder) (c : Z) :
  numBytes < 2 ^ 31 ->
  new table numBytes minSymbol maxSymbol rleSymbol = Ret (d, c) ->
  exists st : scan_state,
    scan_table table numBytes minSymbol maxSymbol = Ret st /\
    length (idToSymbol d) = Z.to_nat (numSymbols d) /\
    forall (k : nat) (x : Z), symbols st !! k = Some x ->
      let L := Z.land x 63 in
      minCodeLength d <= L <= maxCodeLength d /\
      idToSymbol d !!
        Z.to_nat (sum_range (arr_get (codeCount st)) (L + 1) (maxCodeLength d)
                  + count_len L (take k (symbols st)))
      = Some (to_int (Z.shiftr x 6)).
Proof.
  intros Hbytes Hnew.
  apply new_inv in Hnew as (st & base & offset & Hscan & _ & -> & Hfill & Hb).
  apply buildTables_fields in Hb as (HN & Emin & Emax & _).
  exists st. split; [exact Hscan|]. rewrite HN, Emin, Emax.
  apply scan_table_inv in Hscan as (Hinv & Hlen).
  apply (ids_of_scan st _ _ Hinv); [lia | exact Hfill].
Qed.

End Ids.

(** ** FastHuf: the code of a symbol *)

Section Codes.
Import FastHuf.

Lemma build_ljOffset_spec (offset ljB : list Z) :
  forall i, 1 <= i <= 58 ->
    arr_get (build_ljOffset offset ljB) i =
    wrap64 (arr_get offset i - Z.shiftr (arr_get ljB i) (64 - i)).
Proof.
  unfold build_ljOffset.
  pose proof (for_up_inv
    (fun k ljO => length ljO = 59%nat /\
       forall i, 1 <= i < k ->
         arr_get ljO i = wrap64 (arr_get offset i - Z.shiftr (arr_get ljB i) (64 - i)))
    (fun i ljOffset =>
       arr_set ljOffset i
         (wrap64 (arr_get offset i - Z.shiftr (arr_get ljB i) (64 - i))))
    (count 1 MAX_CODE_LEN) 1
    (arr_set (repeat 0 (Z.to_nat (MAX_CODE_LEN + 1))) 0
       (wrap64 (arr_get offset 0 - arr_get ljB 0)))) as H.
  cbv beta in H. destruct H as (Hl & Hv).
  - split; [rewrite length_arr_set; apply repeat_length | lia].
  - intros i ljO Hi (Hl & Hv). unfold count, MAX_CODE_LEN in Hi.
    split; [now rewrite length_arr_set|]. intros j Hj.
    destruct (Z.eq_dec j i) as [-> | Hne].
    + rewrite arr_get_set_same by lia. reflexivity.
    + rewrite arr_get_set_other by lia. apply Hv. lia.
  - intros i Hi. apply Hv. unfold count, MAX_CODE_LEN. lia.
Qed.

(** The offsets of an accepted code book: [offset[L]] is the number of
    codes longer than [L]. *)
Lemma new_ljOffset (table : list byte)
    (numBytes minSymbol maxSymbol rleSymbol : Z) (d : FastHufDecoder) (c : Z)
    (st : scan_state) :
  numBytes < 2 ^ 31 ->
  new table numBytes minSymbol maxSymbol rleSymbol = Ret (d, c) ->
  scan_table table numBytes minSymbol maxSymbol = Ret st ->
  forall L, 1 <= L -> minCodeLength d <= L <= maxCodeLength d ->
    let off := sum_range (arr_get (codeCount st)) (L + 1) (maxCodeLength d) in
    arr_get (ljOffset d) L = wrap64 (off - Z.shiftr (arr_get (ljBase d) L) (64 - L)) /\
    0 <= off /\
    off + count_len L (symbols st) <= Z.max 0 (8 * numBytes) + 1.
Proof.
  intros Hbytes Hnew Hscan0 L HL1 HL.
  apply new_inv in Hnew as (st' & base & offset & Hscan & _ & -> & _ & Hb).
  rewrite Hscan0 in Hscan. apply Ret_inj in Hscan. subst st'.
  apply buildTables_fields in Hb as (_ & Emin & Emax & _ & ElB & ElO & _).
  rewrite Emin, Emax in *. rewrite ElO, ElB. clear Emin Emax ElO ElB.
  apply scan_table_inv in Hscan0 as (Hinv & Hlen).
  pose proof (scan_counts st Hinv) as (Hcc & Htot & Hout & Hext). cbv zeta in *.
  destruct Hinv as (_ & Hcount & Hall & _).
  set (cc := arr_get (codeCount st)) in *.
  set (minCL := scanMinCodeLength st) in *. set (maxCL := scanMaxCodeLength st) in *.
  destruct Hext as [(Hnil & Hmin & Hmax) | (Hmin & Hmax & Hcmin & Hcmax)]; [lia|].
  pose proof (compute_offset_spec minCL maxCL (codeCount st)
                (repeat 0 (Z.to_nat (MAX_CODE_LEN + 1))) eq_refl
                ltac:(lia) ltac:(lia) Hcc ltac:(fold cc; lia)) as (_ & Hoff).
  cbv zeta in Hoff. fold cc in Hoff.
  rewrite build_ljOffset_spec by lia. rewrite Hoff by lia.
  split; [reflexivity|].
  pose proof (sum_range_nonneg cc (L + 1) maxCL ltac:(intros; apply Hcc; lia)) as H0.
  split; [exact H0|].
  rewrite <- Hcount by lia.
  pose proof (sum_range_nonneg cc 0 (L - 1) ltac:(intros; apply Hcc; lia)).
  pose proof (sum_range_nonneg cc (maxCL + 1) 58 ltac:(intros; apply Hcc; lia)).
  rewrite (sum_range_split cc 0 (L - 1) 58) in Htot by lia.
  replace (L - 1 + 1) with L in Htot by lia.
  rewrite (sum_range_split cc L maxCL 58) in Htot by lia.
  rewrite (sum_range_first cc L maxCL) in Htot by lia.
  lia.
Qed.

(** X19.  The code of a symbol.  Among the symbols with a code of [L] bits, the
    one that comes [j]-th has the code of value [base + j], where [base]
    is the base of the length, the top [L] bits of [_ljBase[L]]: the
    linear search over the lengths yields this symbol for every buffer
    that starts with these [L] bits and is below the left-justified bases
    of the shorter lengths. *)
Theorem code_of_symbol_is_looked_up (table : list byte)
    (numBytes minSymbol maxSymbol rleSymbol : Z) (d : FastHufDecoder) (c : Z)
    (st : scan_state) (k : nat) (x b : Z) :
  numBytes < 2 ^ 31 ->
  new table numBytes minSymbol maxSymbol rleSymbol = Ret (d, c) ->
  scan_table table numBytes minSymbol maxSymbol = Ret st ->
  symbols st !! k = Some x ->
  0 <= b < 2 ^ 64 ->
  Z.shiftr b (64 - Z.land x 63) =
    Z.shiftr (arr_get (ljBase d) (Z.land x 63)) (64 - Z.land x 63)
    + count_len (Z.land x 63) (take k (symbols st)) ->
  (forall L', minCodeLength d <= L' < Z.land x 63 -> b < arr_get (ljBase d) L') ->
  spec_linear_lookup d b = Some (Z.land x 63, to_int (Z.shiftr x 6)).
Proof.
  intros Hbytes Hnew Hscan Hk Hb Hcode Hshort.
  assert (Hids : minCodeLength d <= Z.land x 63 <= maxCodeLength d /\
            idToSymbol d !!
              Z.to_nat (sum_range (arr_get (codeCount st)) (Z.land x 63 + 1)
                          (maxCodeLength d)
                        + count_len (Z.land x 63) (take k (symbols st)))
            = Some (to_int (Z.shiftr x 6))).
  { pose proof Hnew as Hnew'.
    apply new_inv in Hnew' as (st' & base & offset & Hscan' & _ & -> & Hfill & Hbt).
    rewrite Hscan in Hscan'. apply Ret_inj in Hscan'. subst st'.
    apply buildTables_fields in Hbt as (_ & Emin & Emax & _). rewrite Emin, Emax.
    pose proof (scan_table_inv _ _ _ _ _ Hscan) as (Hinv & Hlen).
    destruct (ids_of_scan st _ _ Hinv ltac:(lia) Hfill) as (_ & Hall).
    exact (Hall k x Hk). }
  destruct Hids as (HL & Hid).
  pose proof (code_lengths _ _ _ _ _ _ _ Hnew) as [? | Hcl]; [lia|].
  set (L := Z.land x 63) in *.
  destruct (new_ljOffset _ _ _ _ _ _ _ _ Hbytes Hnew Hscan L ltac:(lia) HL)
    as (HljO & Hoff0 & Hoffb).
  cbv zeta in HljO, Hoff0, Hoffb.
  set (off := sum_range (arr_get (codeCount st)) (L + 1) (maxCodeLength d)) in *.
  set (j := count_len L (take k (symbols st))) in *.
  pose proof (count_len_take_lt L (symbols st) k x Hk eq_refl) as Hj. fold j in Hj.
  pose proof (count_len_nonneg L (take k (symbols st))) as Hj0. fold j in Hj0.
  pose proof (ljBase_spec _ _ _ _ _ _ _ Hnew) as (_ & _ & _ & Hin).
  destruct (Hin L HL) as (v & _ & _ & Ev).
  assert (Hp : 0 < 2 ^ (64 - L)) by (apply Z.pow_pos_nonneg; lia).
  (* the left-justified base is a multiple of 2^(64 - L) *)
  assert (Hmult : arr_get (ljBase d) L
                  = Z.shiftr (arr_get (ljBase d) L) (64 - L) * 2 ^ (64 - L)).
  { rewrite Ev, Z.shiftr_div_pow2 by lia. unfold wrap64.
    rewrite Z.shiftl_mul_pow2 by lia.
    replace (2 ^ 64) with (2 ^ L * 2 ^ (64 - L))
      by (rewrite <- Z.pow_add_r by lia; f_equal; lia).
    rewrite Z.mul_mod_distr_r by lia. now rewrite Z.div_mul by lia. }
  set (base := Z.shiftr (arr_get (ljBase d) L) (64 - L)) in *.
  assert (Hbase : 0 <= base).
  { subst base. rewrite Z.shiftr_div_pow2 by lia. apply Z.div_pos; [|lia].
    rewrite Ev. apply Z.mod_pos_bound. lia. }
  assert (Hge : arr_get (ljBase d) L <= b).
  { rewrite Hmult. rewrite Z.shiftr_div_pow2 in Hcode by lia.
    pose proof (Z.mul_div_le b (2 ^ (64 - L)) Hp). nia. }
  unfold spec_linear_lookup.
  assert (E : spec_smallest_len (count (minCodeLength d) (maxCodeLength d))
                (minCodeLength d) (ljBase d) b = Some L).
  { apply spec_smallest_len_least. unfold count. split; [lia|].
    split; [exact Hge | exact Hshort]. }
  rewrite E. do 2 f_equal.
  rewrite HljO, Hcode.
  replace (wrap64 (wrap64 (off - base) + (base + j))) with (off + j).
  - unfold arr_get. apply nth_lookup_Some with (d := 0). exact Hid.
  - unfold wrap64. rewrite Z.add_mod_idemp_l by lia.
    replace (off - base + (base + j)) with (off + j) by lia.
    symmetry. apply Z.mod_small. lia.
Qed.

End Codes.

(** ** FastHuf: a code book without codes *)

Section NoCodes.
Import FastHuf.

Lemma lor_range (a b n : Z) :
  0 <= n -> 0 <= a < 2 ^ n -> 0 <= b < 2 ^ n -> 0 <= Z.lor a b < 2 ^ n.
Proof.
  intros Hn Ha Hb. split; [apply Z.lor_nonneg; lia|].
  destruct (Z.eq_dec a 0) as [-> | Ha0]; [rewrite Z.lor_0_l; lia|].
  destruct (Z.eq_dec b 0) as [-> | Hb0]; [rewrite Z.lor_0_r; lia|].
  assert (Hpos : 0 < Z.lor a b).
  { pose proof (proj2 (Z.lor_nonneg a b) (conj (proj1 Ha) (proj1 Hb))).
    pose proof (Z.lor_eq_0_iff a b). lia. }
  apply Z.log2_lt_pow2; [exact Hpos|].
  rewrite Z.log2_lor by lia.
  apply Z.max_lub_lt; apply Z.log2_lt_pow2; lia.
Qed.

Lemma READ64_range (c : list byte) (p w : Z) : READ64 c p = Ret w -> 0 <= w < 2 ^ 64.
Proof.
  unfold READ64. intros H.
  apply bind_Ret in H as (b0 & _ & H). apply bind_Ret in H as (b1 & _ & H).
  apply bind_Ret in H as (b2 & _ & H). apply bind_Ret in H as (b3 & _ & H).
  apply bind_Ret in H as (b4 & _ & H). apply bind_Ret in H as (b5 & _ & H).
  apply bind_Ret in H as (b6 & _ & H). apply bind_Ret in H as (b7 & _ & H).
  apply Ret_inj in H. subst w.
  pose proof (byte_to_Z_range b0). pose proof (byte_to_Z_range b1).
  pose proof (byte_to_Z_range b2). pose proof (byte_to_Z_range b3).
  pose proof (byte_to_Z_range b4). pose proof (byte_to_Z_range b5).
  pose proof (byte_to_Z_range b6). pose proof (byte_to_Z_range b7).
  rewrite !Z.shiftl_mul_pow2 by lia.
  repeat (apply lor_range; [lia | lia |]). lia.
Qed.

(** The constructor on a code book without codes. *)
Lemma no_codes_decoder (table : list byte)
    (numBytes minSymbol maxSymbol rleSymbol : Z) (d : FastHufDecoder) (c : Z) :
  new table numBytes minSymbol maxSymbol rleSymbol = Ret (d, c) ->
  maxCodeLength d = 0 ->
  tableMin d = ALL_ONES /\
  table_lookup d ALL_ONES = (0, 0xffff) /\
  forall b, search_lookup d b = Throw InvalidSymbol.
Proof.
  intros Hnew Hmax.
  pose proof (code_lengths _ _ _ _ _ _ _ Hnew) as [(Hmin & _) | ?]; [|lia].
  pose proof (tableMin_spec _ _ _ _ _ _ _ Hnew) as Htm.
  rewrite Hmin in Htm. split; [exact Htm|].
  apply new_inv in Hnew as (st & base & offset & _ & _ & _ & _ & Hbt).
  apply buildTables_fields in Hbt as (_ & Emin & Emax & _ & ElB & ElO & Htab).
  split.
  - unfold table_lookup.
    rewrite (accel_tables_spec _ _ _ _ _ _ _ _ Htab
               (Z.shiftr ALL_ONES (64 - TABLE_LOOKUP_BITS))
               ltac:(change (0 <= 4095 < 4096); lia)).
    rewrite <- Emin, <- Emax, Hmin, Hmax. reflexivity.
  - intros b. unfold search_lookup. rewrite Hmax. reflexivity.
Qed.

(** The loop on such a decoder when [buffer] is all ones: every turn
    writes [0xffff] and takes no bit. *)
Lemma no_codes_loop (d : FastHufDecoder) (src : list byte) (numDstElems : Z)
    (fuel : nat) :
  tableMin d = ALL_ONES -> table_lookup d ALL_ONES = (0, 0xffff) ->
  rleSymbol d <> 0xffff ->
  forall st : dstate,
  buffer st = ALL_ONES -> bufferNumBits st = 64 ->
  0 <= dstIdx st <= numDstElems -> numDstElems <= Z.of_nat (length (dst st)) ->
  numDstElems - dstIdx st <= Z.of_nat fuel ->
  exists st',
    decode_loop fuel d src numDstElems st = (st', Ret tt) /\
    numSrcBits st' = numSrcBits st /\
    dst st' = take (Z.to_nat (dstIdx st)) (dst st)
              ++ replicate (Z.to_nat (numDstElems - dstIdx st)) 0xffff
              ++ drop (Z.to_nat numDstElems) (dst st).
Proof.
  intros Htm Htab Hrle.
  induction fuel as [|fuel IH]; intros st Hb Hn Hidx Hlen Hfuel; cbn [decode_loop];
    destruct (Z.ltb_spec (dstIdx st) numDstElems) as [Hlt | Hge]; try lia.
  - exists st. split; [reflexivity|]. split; [reflexivity|].
    replace (Z.to_nat (numDstElems - dstIdx st)) with 0%nat by lia.
    cbn [replicate]. rewrite app_nil_l.
    replace (Z.to_nat (dstIdx st)) with (Z.to_nat numDstElems) by lia.
    now rewrite take_drop.
  - assert (Hstep : decode_step d src numDstElems st =
              Ret (set_dst st (<[Z.to_nat (dstIdx st) := 0xffff]> (dst st))
                     (dstIdx st + 1))).
    { unfold decode_step, next_symbol. rewrite Htm, Hb.
      destruct (Z.leb_spec ALL_ONES ALL_ONES) as [_|]; [|lia].
      rewrite Htab. cbn [bind]. rewrite Z.shiftl_0_r.
      change (wrap64 ALL_ONES) with ALL_ONES. rewrite Hn, Z.sub_0_r.
      destruct (Z.eqb_spec 0xffff (rleSymbol d)) as [E|_]; [congruence|].
      cbn [set_buffer dst dstIdx]. rewrite store_ok by lia. cbn [bind].
      unfold ensure_bits. cbn [set_dst set_buffer bufferNumBits].
      change (64 <? TABLE_LOOKUP_BITS) with false. cbv iota.
      destruct st; cbn in *; subst; reflexivity. }
    rewrite Hstep.
    destruct (IH (set_dst st (<[Z.to_nat (dstIdx st) := 0xffff]> (dst st))
                    (dstIdx st + 1)))
      as (st' & Hrun & Hbits & Hdst);
      cbn [set_dst buffer bufferNumBits dst dstIdx]; try lia; try assumption.
    { rewrite length_insert. lia. }
    exists st'. split; [exact Hrun|]. split; [exact Hbits|].
    rewrite Hdst. cbn [set_dst dst dstIdx].
    replace (Z.to_nat (dstIdx st + 1)) with (S (Z.to_nat (dstIdx st))) by lia.
    rewrite (take_S_r _ _ 0xffff) by (apply list_lookup_insert_eq; lia).
    rewrite take_insert_ge by lia. rewrite drop_insert_lt by lia.
    replace (Z.to_nat (numDstElems - dstIdx st))
      with (S (Z.to_nat (numDstElems - (dstIdx st + 1)))) by lia.
    cbn [replicate]. rewrite <- app_assoc. reflexivity.
  - exists st. split; [reflexivity|]. split; [reflexivity|].
    replace (Z.to_nat (numDstElems - dstIdx st)) with 0%nat by lia.
    cbn [replicate]. rewrite app_nil_l.
    replace (Z.to_nat (dstIdx st)) with (Z.to_nat numDstElems) by lia.
    now rewrite take_drop.
Qed.

(** X20.  A decoder built for no code takes no stream apart: [decode] throws
    at the first element, unless the stream starts with 64 one-bits; then
    every element is [0xffff], the entry of the table for a prefix without
    a code, of length zero, and no bit of the stream is used up. *)
Theorem decode_without_codes (table : list byte)
    (numBytes minSymbol maxSymbol rleSymbol : Z) (d : FastHufDecoder) (c : Z)
    (src : list byte) (numSrcBits w : Z) (dst : list Z) (numDstElems : Z) :
  new table numBytes minSymbol maxSymbol rleSymbol = Ret (d, c) ->
  maxCodeLength d = 0 ->
  128 <= numSrcBits <= 8 * Z.of_nat (length src) ->
  READ64 src 0 = Ret w ->
  1 <= numDstElems <= Z.of_nat (length dst) ->
  decode d src numSrcBits dst numDstElems =
    if w =? ALL_ONES then
      if rleSymbol =? 0xffff then (dst, Throw RleBeforeFirst)
      else (replicate (Z.to_nat numDstElems) 0xffff ++ drop (Z.to_nat numDstElems) dst,
            if numSrcBits =? 128 then Ret tt else Throw TrailingData)
    else (dst, Throw InvalidSymbol).
Proof.
  intros Hnew Hmax Hbits Hw Hn.
  pose proof (READ64_range _ _ _ Hw) as Hwr.
  destruct (no_codes_decoder _ _ _ _ _ _ _ Hnew Hmax) as (Htm & Htab & Hsearch).
  assert (Hrle : FastHuf.rleSymbol d = rleSymbol).
  { apply new_inv in Hnew as (st & base & offset & _ & _ & _ & _ & Hbt).
    unfold buildTables in Hbt. apply bind_Ret in Hbt as ([ts tcl] & _ & Hbt).
    apply Ret_inj in Hbt. rewrite <- Hbt. reflexivity. }
  unfold decode. destruct (Z.ltb_spec numSrcBits 128) as [|_]; [lia|].
  rewrite Hw. destruct (READ64_in_range src 8) as [w1 ->]; [lia | lia |].
  destruct (Z.eqb_spec w ALL_ONES) as [-> | Hne].
  - destruct (Z.eqb_spec rleSymbol 0xffff) as [E | E].
    + (* the entry of the table is the RLE symbol *)
      destruct (Z.to_nat numDstElems) as [|fuel] eqn:Ef; [lia|].
      cbn [decode_loop dstIdx]. destruct (Z.ltb_spec 0 numDstElems) as [_|]; [|lia].
      unfold decode_step, next_symbol. cbn [buffer bufferNumBits].
      rewrite Htm. destruct (Z.leb_spec ALL_ONES ALL_ONES) as [_|]; [|lia].
      rewrite Htab. cbn [bind]. rewrite Hrle, E, Z.eqb_refl.
      unfold rle_run, ensure_bits. cbn [set_buffer bufferNumBits].
      change (64 - 0 <? 8) with false. cbv iota. cbn [bind dstIdx FastHuf.dst].
      reflexivity.
    + match goal with |- context [decode_loop ?f d src numDstElems ?s] =>
        destruct (no_codes_loop d src numDstElems f Htm Htab ltac:(congruence) s)
          as (st' & -> & Hb' & Hd')
      end; cbn [buffer bufferNumBits FastHuf.dst dstIdx]; try lia; try reflexivity.
      cbn [FastHuf.numSrcBits FastHuf.dst dstIdx] in Hb', Hd'.
      rewrite Hb', Hd'. rewrite Z.sub_0_r. cbn [Z.to_nat take app].
      destruct (Z.eqb_spec numSrcBits 128) as [-> | Hne'].
      * reflexivity.
      * destruct (Z.eqb_spec (numSrcBits - 128) 0); [lia | reflexivity].
  - destruct (Z.to_nat numDstElems) as [|fuel] eqn:Ef; [lia|].
    cbn [decode_loop dstIdx]. destruct (Z.ltb_spec 0 numDstElems) as [_|]; [|lia].
    unfold decode_step, next_symbol. cbn [buffer bufferNumBits].
    rewrite Htm. destruct (Z.leb_spec ALL_ONES w) as [Hle|_]; [unfold ALL_ONES in *; lia|].
    unfold ensure_bits. cbn [bufferNumBits]. change (64 <? 64) with false. cbv iota.
    cbn [bind]. rewrite Hsearch. reflexivity.
Qed.

End NoCodes.

(** ** FastHuf: the bit stream of [decode] *)

Section Stream.
Import FastHuf.

Variable src : list byte.

Lemma pow2_pos (n : Z) : 0 <= n -> 0 < 2 ^ n.
Proof. intros. apply Z.pow_pos_nonneg; lia. Qed.

Lemma stream_window_range (pos n : Z) : 0 <= n -> 0 <= stream_window src pos n < 2 ^ n.
Proof. intros Hn. apply Z.mod_pos_bound. now apply pow2_pos. Qed.

Lemma stream_window_0 (pos : Z) : stream_window src pos 0 = 0.
Proof. unfold stream_window. rewrite Z.add_0_r. cbn. apply Z.mod_1_r. Qed.

(** A window is its leading bits followed by the others. *)
Lemma stream_window_split (pos a b : Z) :
  0 <= pos -> 0 <= a -> 0 <= b ->
  stream_window src pos (a + b) =
  stream_window src pos a * 2 ^ b + stream_window src (pos + a) b.
Proof.
  intros Hp Ha Hb. unfold stream_window.
  set (V := be_value src). set (B := 8 * Z.of_nat (length src)).
  assert (HB : 0 < 2 ^ B) by (apply pow2_pos; subst B; lia).
  pose proof (pow2_pos a Ha). pose proof (pow2_pos b Hb).
  replace (pos + a + b) with (pos + (a + b)) by lia.
  set (X := V * 2 ^ (pos + (a + b)) / 2 ^ B).
  assert (HX : V * 2 ^ (pos + a) / 2 ^ B = X / 2 ^ b).
  { subst X. rewrite Z.div_div by lia.
    replace (pos + (a + b)) with (pos + a + b) by lia.
    rewrite (Z.pow_add_r 2 (pos + a) b) by lia.
    rewrite Z.mul_assoc. now rewrite Z.div_mul_cancel_r by lia. }
  rewrite HX. rewrite (Z.pow_add_r 2 a b) by lia.
  rewrite (Z.mul_comm (2 ^ a) (2 ^ b)), Z.rem_mul_r by lia. lia.
Qed.

Lemma stream_window_top (pos m n : Z) :
  0 <= pos -> 0 <= n <= m ->
  stream_window src pos m / 2 ^ (m - n) = stream_window src pos n.
Proof.
  intros Hp Hn. replace m with (n + (m - n)) at 1 by lia.
  rewrite stream_window_split by lia.
  pose proof (stream_window_range (pos + n) (m - n) ltac:(lia)).
  pose proof (pow2_pos (m - n) ltac:(lia)).
  rewrite Z.div_add_l by lia. rewrite (Z.div_small (stream_window _ _ _)) by lia. lia.
Qed.

Lemma stream_window_low (pos m n : Z) :
  0 <= pos -> 0 <= n <= m ->
  stream_window src pos m mod 2 ^ (m - n) = stream_window src (pos + n) (m - n).
Proof.
  intros Hp Hn. replace m with (n + (m - n)) at 1 by lia.
  rewrite stream_window_split by lia.
  pose proof (stream_window_range (pos + n) (m - n) ltac:(lia)).
  pose proof (pow2_pos (m - n) ltac:(lia)).
  rewrite Z.add_comm, Z.mod_add by lia. apply Z.mod_small. lia.
Qed.

(** Behind the bytes of [src] the stream is zero. *)
Lemma stream_window_end (pos n : Z) :
  8 * Z.of_nat (length src) <= pos -> 0 <= n -> stream_window src pos n = 0.
Proof.
  intros Hp Hn. unfold stream_window.
  set (B := 8 * Z.of_nat (length src)) in *.
  replace (pos + n) with (B + ((pos - B) + n)) by lia.
  rewrite (Z.pow_add_r 2 B) by (subst B; lia).
  rewrite (Z.mul_comm (2 ^ B)), Z.mul_assoc.
  rewrite Z.div_mul by (pose proof (pow2_pos B ltac:(subst B; lia)); lia).
  rewrite Z.pow_add_r by lia. rewrite Z.mul_assoc. apply Z.mod_mul.
  pose proof (pow2_pos n Hn). lia.
Qed.

Lemma be_value_app (l1 l2 : list byte) :
  be_value (l1 ++ l2) = be_value l1 * 2 ^ (8 * Z.of_nat (length l2)) + be_value l2.
Proof.
  induction l1 as [|b l1 IH]; [cbn; lia|].
  cbn [app be_value]. rewrite IH, length_app, Nat2Z.inj_add.
  replace (8 * (Z.of_nat (length l1) + Z.of_nat (length l2)))
    with (8 * Z.of_nat (length l1) + 8 * Z.of_nat (length l2)) by lia.
  rewrite Z.pow_add_r by lia. ring.
Qed.

(** The eight bits at a byte position are the byte. *)
Lemma stream_window_byte (i : nat) (x : byte) :
  src !! i = Some x -> stream_window src (8 * Z.of_nat i) 8 = byte_to_Z x.
Proof.
  intros Hx. pose proof (lookup_lt_Some _ _ _ Hx) as Hlt.
  unfold stream_window.
  rewrite <- (take_drop_middle src i x Hx) at 1 2.
  rewrite be_value_app. cbn [be_value length].
  rewrite length_app, length_take. cbn [length]. rewrite length_drop.
  set (r := Z.of_nat (length src - S i)).
  replace (Z.of_nat (S (length src - S i))) with (1 + r) by lia.
  replace (Z.of_nat (i `min` length src + S (length src - S i)))
    with (Z.of_nat i + 1 + r) by lia.
  pose proof (be_value_range (drop (S i) src)) as HR. rewrite length_drop in HR.
  fold r in HR. set (R := be_value (drop (S i) src)) in *.
  set (A := be_value (take i src)).
  pose proof (byte_to_Z_range x) as Hxr.
  assert (Hr : 0 <= r) by (subst r; lia).
  pose proof (pow2_pos (8 * r) ltac:(lia)) as Hpr.
  replace (8 * (Z.of_nat i + 1 + r)) with (8 * r + (8 * Z.of_nat i + 8)) by lia.
  rewrite (Z.pow_add_r 2 (8 * r)) by lia.
  rewrite Z.div_mul_cancel_r by (pose proof (pow2_pos (8 * Z.of_nat i + 8)); lia).
  replace (8 * (1 + r)) with (8 + 8 * r) by lia.
  rewrite (Z.pow_add_r 2 8) by lia.
  replace (A * (2 ^ 8 * 2 ^ (8 * r)) + (byte_to_Z x * 2 ^ (8 * r) + R))
    with ((A * 2 ^ 8 + byte_to_Z x) * 2 ^ (8 * r) + R) by ring.
  rewrite Z.div_add_l by lia. rewrite (Z.div_small R) by lia.
  rewrite Z.add_0_r, Z.add_comm, Z.mod_add by lia.
  apply Z.mod_small. change (2 ^ 8) with 256. lia.
Qed.

Lemma load_window (p : Z) (x : byte) :
  @load error _ src p = Ret x -> 0 <= p /\ stream_window src (8 * p) 8 = byte_to_Z x.
Proof.
  unfold load. destruct (Z.ltb_spec p 0) as [|Hp]; [discriminate|].
  destruct (src !! Z.to_nat p) as [y|] eqn:Hy; [|discriminate].
  intros H. apply Ret_inj in H. subst y. split; [exact Hp|].
  rewrite <- (stream_window_byte _ _ Hy). f_equal. lia.
Qed.

(** One more byte behind a window that ends at a byte position. *)
Lemma stream_window_push (pos n p : Z) (x : byte) :
  0 <= pos -> 0 <= n -> pos + n = 8 * p -> @load error _ src p = Ret x ->
  stream_window src pos (n + 8) = stream_window src pos n * 2 ^ 8 + byte_to_Z x.
Proof.
  intros Hpos Hn Hp Hx. apply load_window in Hx as (_ & <-).
  rewrite stream_window_split by lia. now rewrite Hp.
Qed.

(** [READ64] reads the 64 bits at a byte position. *)
Lemma READ64_window (p w : Z) :
  READ64 src p = Ret w -> stream_window src (8 * p) 64 = w.
Proof.
  unfold READ64. intros H.
  apply bind_Ret in H as (b0 & H0 & H). apply bind_Ret in H as (b1 & H1 & H).
  apply bind_Ret in H as (b2 & H2 & H). apply bind_Ret in H as (b3 & H3 & H).
  apply bind_Ret in H as (b4 & H4 & H). apply bind_Ret in H as (b5 & H5 & H).
  apply bind_Ret in H as (b6 & H6 & H). apply bind_Ret in H as (b7 & H7 & H).
  apply Ret_inj in H. subst w.
  pose proof (proj1 (load_window _ _ H0)) as Hp.
  pose proof (byte_to_Z_range b0). pose proof (byte_to_Z_range b1).
  pose proof (byte_to_Z_range b2). pose proof (byte_to_Z_range b3).
  pose proof (byte_to_Z_range b4). pose proof (byte_to_Z_range b5).
  pose proof (byte_to_Z_range b6). pose proof (byte_to_Z_range b7).
  change 64 with (0 + 8 + 8 + 8 + 8 + 8 + 8 + 8 + 8).
  rewrite (stream_window_push _ _ (p + 7) b7) by (assumption || lia).
  rewrite (stream_window_push _ _ (p + 6) b6) by (assumption || lia).
  rewrite (stream_window_push _ _ (p + 5) b5) by (assumption || lia).
  rewrite (stream_window_push _ _ (p + 4) b4) by (assumption || lia).
  rewrite (stream_window_push _ _ (p + 3) b3) by (assumption || lia).
  rewrite (stream_window_push _ _ (p + 2) b2) by (assumption || lia).
  rewrite (stream_window_push _ _ (p + 1) b1) by (assumption || lia).
  rewrite (stream_window_push _ _ p b0) by (assumption || lia).
  rewrite stream_window_0.
  rewrite !Z.shiftl_mul_pow2 by lia.
  rewrite (lor_high_low (byte_to_Z b6) (byte_to_Z b7) 8) by lia.
  rewrite (lor_high_low (byte_to_Z b5) _ 16) by lia.
  rewrite (lor_high_low (byte_to_Z b4) _ 24) by lia.
  rewrite (lor_high_low (byte_to_Z b3) _ 32) by lia.
  rewrite (lor_high_low (byte_to_Z b2) _ 40) by lia.
  rewrite (lor_high_low (byte_to_Z b1) _ 48) by lia.
  rewrite (lor_high_low (byte_to_Z b0) _ 56) by lia.
  lia.
Qed.

(** The last bytes of the stream, read one by one, are the 64 bits at the
    byte position the reading starts from: zeros follow the stream. *)
Lemma refill_tail_window (sb : Z) (fuel : nat) :
  forall j bb shift cb bl : Z,
  0 <= sb -> 0 <= j -> cb = sb + j -> shift = 56 - 8 * j ->
  bb = stream_window src (8 * sb) (8 * j) * 2 ^ (64 - 8 * j) ->
  8 * Z.of_nat (length src) - 8 < 8 * cb + bl <= 8 * Z.of_nat (length src) ->
  -8 < bl -> 8 * j + bl <= 64 -> bl <= 8 * Z.of_nat fuel ->
  exists bl',
    refill_tail fuel src bb shift cb bl =
      Ret (stream_window src (8 * sb) 64, Z.of_nat (length src), bl') /\
    -8 < bl' <= 0.
Proof.
  induction fuel as [|fuel IH]; intros j bb shift cb bl Hsb Hj Hcb Hshift Hbb Hin Hlow
    Hsum Hfuel; cbn [refill_tail]; destruct (Z.ltb_spec 0 bl) as [Hpos | Hneg]; try lia.
  - exists bl. split; [|lia].
    replace cb with (Z.of_nat (length src)) by lia.
    replace (stream_window src (8 * sb) 64) with bb; [reflexivity|].
    replace 64 with (8 * j + (64 - 8 * j)) at 1 by lia.
    rewrite stream_window_split by lia.
    rewrite (stream_window_end (8 * sb + 8 * j)) by lia. lia.
  - destruct (@load_in_range error _ src cb) as [b Hb]; [lia|].
    rewrite Hb. cbn [bind].
    apply (IH (j + 1)); try lia.
    pose proof (byte_to_Z_range b) as Hbr.
    assert (Hs : 0 <= shift) by lia.
    pose proof (pow2_pos shift Hs) as Hps.
    rewrite Z.shiftl_mul_pow2 by lia. unfold wrap64.
    assert (Hlt : byte_to_Z b * 2 ^ shift < 2 ^ (shift + 8)).
    { rewrite Z.pow_add_r by lia. change (2 ^ 8) with 256. nia. }
    rewrite Z.mod_small.
    2:{ split; [nia|]. assert (2 ^ (shift + 8) <= 2 ^ 64) by (apply Z.pow_le_mono_r; lia).
        lia. }
    rewrite Hbb. replace (64 - 8 * j) with (shift + 8) by lia.
    rewrite lor_high_low by first [lia | split; [nia | lia]].
    replace (8 * (j + 1)) with (8 * j + 8) by lia.
    rewrite (stream_window_push (8 * sb) (8 * j) cb b) by (assumption || lia).
    replace (64 - (8 * j + 8)) with shift by lia.
    rewrite (Z.pow_add_r 2 shift 8) by lia. ring.
  - exists bl. split; [|lia].
    replace cb with (Z.of_nat (length src)) by lia.
    replace (stream_window src (8 * sb) 64) with bb; [reflexivity|].
    replace 64 with (8 * j + (64 - 8 * j)) at 1 by lia.
    rewrite stream_window_split by lia.
    rewrite (stream_window_end (8 * sb + 8 * j)) by lia. lia.
Qed.

Lemma lj_shiftr_fits (w b a : Z) :
  0 <= a -> 0 <= b -> a + b <= 64 ->
  Z.shiftr (w * 2 ^ (64 - b)) a = w * 2 ^ (64 - b - a).
Proof.
  intros Ha Hb Hab. rewrite Z.shiftr_div_pow2 by lia.
  replace (64 - b) with (64 - b - a + a) at 1 by lia.
  rewrite Z.pow_add_r, Z.mul_assoc by lia.
  apply Z.div_mul. pose proof (pow2_pos a Ha). lia.
Qed.

Lemma lj_shiftr_over (w b a : Z) :
  0 <= a <= 64 -> 0 <= b <= 64 -> 64 <= a + b ->
  Z.shiftr (w * 2 ^ (64 - b)) a = w / 2 ^ (a + b - 64).
Proof.
  intros Ha Hb Hab. rewrite Z.shiftr_div_pow2 by lia.
  replace a with (a + b - 64 + (64 - b)) at 1 by lia.
  rewrite (Z.pow_add_r 2 (a + b - 64)) by lia.
  apply Z.div_mul_cancel_r.
  - pose proof (pow2_pos (a + b - 64) ltac:(lia)). lia.
  - pose proof (pow2_pos (64 - b) ltac:(lia)). lia.
Qed.

Lemma lj_shiftl (w b n : Z) :
  0 <= n <= b -> b <= 64 ->
  wrap64 (Z.shiftl (w * 2 ^ (64 - b)) n) = (w mod 2 ^ (b - n)) * 2 ^ (64 - (b - n)).
Proof.
  intros Hn Hb. unfold wrap64. rewrite Z.shiftl_mul_pow2 by lia.
  rewrite <- Z.mul_assoc, <- Z.pow_add_r by lia.
  replace (64 - b + n) with (64 - (b - n)) by lia.
  replace 64 with (b - n + (64 - (b - n))) at 2 by lia.
  rewrite (Z.pow_add_r 2 (b - n)) by lia.
  apply Z.mul_mod_distr_r.
  - pose proof (pow2_pos (b - n) ltac:(lia)). lia.
  - pose proof (pow2_pos (64 - (b - n)) ltac:(lia)). lia.
Qed.

(** The bits behind the two registers, fetched as [refill] fetches them
    (lines 488-520). *)
Lemma fetch_window (st : dstate) (u : Z) :
  0 <= srcByte st -> 0 <= numSrcBits st ->
  (0 < numSrcBits st ->
   u = 8 * srcByte st /\
   8 * Z.of_nat (length src) - 8 < 8 * srcByte st + numSrcBits st
     <= 8 * Z.of_nat (length src)) ->
  (numSrcBits st = 0 -> 8 * Z.of_nat (length src) <= u) ->
  exists cb bl,
    (if 64 <=? numSrcBits st then
       w <- READ64 src (srcByte st) ;;
       Ret (w, srcByte st + 8, numSrcBits st - 64)
     else
       '(bufferBack, currByte, currBitsLeft) <-
         refill_tail 8 src 0 56 (srcByte st) (numSrcBits st) ;;
       Ret (bufferBack, currByte, if currBitsLeft <? 0 then 0 else currBitsLeft))
    = Ret (stream_window src u 64, cb, bl) /\
    0 <= cb /\ 0 <= bl /\
    (0 < bl ->
     u + 64 = 8 * cb /\
     8 * Z.of_nat (length src) - 8 < 8 * cb + bl <= 8 * Z.of_nat (length src)) /\
    (bl = 0 -> 8 * Z.of_nat (length src) <= u + 64).
Proof.
  intros Hsb Hns Hmore Hdone.
  destruct (Z.leb_spec 64 (numSrcBits st)) as [H64 | H64].
  - destruct (Hmore ltac:(lia)) as (-> & Hin).
    destruct (READ64_in_range src (srcByte st)) as [w Hw]; [lia | lia |].
    rewrite Hw. cbn [bind]. rewrite (READ64_window _ _ Hw).
    exists (srcByte st + 8), (numSrcBits st - 64).
    split; [reflexivity|]. split; [lia|]. split; [lia|]. split; intros; lia.
  - destruct (Z.eq_dec (numSrcBits st) 0) as [E0 | Hne].
    + rewrite E0. cbn [refill_tail bind]. change (0 <? 0) with false. cbn [bind].
      rewrite stream_window_end by lia.
      exists (srcByte st), 0. split; [reflexivity|]. split; [lia|]. split; [lia|].
      split; intros; lia.
    + destruct (Hmore ltac:(lia)) as (-> & Hin).
      destruct (refill_tail_window (srcByte st) 8 0 0 56 (srcByte st) (numSrcBits st))
        as (bl' & Hrun & Hbl'); try lia.
      { rewrite stream_window_0. reflexivity. }
      rewrite Hrun. cbn [bind].
      exists (Z.of_nat (length src)), 0.
      split; [destruct (Z.ltb_spec bl' 0); [reflexivity | do 3 f_equal; lia]|].
      split; [lia|]. split; [lia|]. split; intros; lia.
Qed.

(** [refill] for all the bits [buffer] lacks: with [bufferNumBits] set to
    64, as every call site does, the registers are in order again. *)
Lemma refill_window (st : dstate) (pos : Z) :
  window_ok src st pos ->
  exists st',
    refill src (64 - bufferNumBits st) st = Ret st' /\
    window_ok src (set_buffer st' (buffer st') 64) pos /\
    FastHuf.dst st' = FastHuf.dst st /\ dstIdx st' = dstIdx st.
Proof.
  intros (Hpos & Ha & Hb & Ebuf & Eback & Hsb & Hns & Hmore & Hdone).
  unfold refill.
  set (a := bufferNumBits st) in *. set (b := bufferBackNumBits st) in *.
  replace (64 - (64 - a)) with a by lia.
  pose proof (stream_window_range pos a ltac:(lia)) as HWa.
  pose proof (stream_window_range (pos + a) b ltac:(lia)) as HWb.
  destruct (Z.ltb_spec b (64 - a)) as [Hless | Henough].
  - (* the back buffer runs out *)
    destruct (fetch_window st (pos + a + b) Hsb Hns Hmore Hdone)
      as (cb & bl & -> & Hcb & Hbl & Hmore' & Hdone').
    cbn [bind]. eexists. split; [reflexivity|].
    split; [|cbn; auto].
    set (c := 64 - a - b).
    assert (E0 : Z.lor (buffer st) (Z.shiftr (bufferBack st) a) =
                 stream_window src pos (a + b) * 2 ^ c).
    { rewrite Ebuf, Eback, lj_shiftr_fits by lia.
      replace (64 - a) with (b + c) by (subst c; lia).
      replace (64 - b - a) with c by (subst c; lia).
      assert (Hc : 0 < c) by (subst c; lia).
      pose proof (pow2_pos c ltac:(lia)).
      rewrite lor_high_low; [| lia | rewrite Z.pow_add_r by lia; nia].
      rewrite stream_window_split by lia. rewrite Z.pow_add_r by lia. ring. }
    unfold window_ok, set_buffer.
    cbn [buffer bufferNumBits bufferBack bufferBackNumBits srcByte numSrcBits].
    replace (64 - (64 - a - b)) with (a + b) by lia. fold c.
    split; [exact Hpos|]. split; [lia|]. split; [subst c; lia|].
    split; [|split; [|split; [exact Hcb|split; [exact Hbl|split]]]].
    + rewrite E0. change (64 - 64) with 0. rewrite Z.mul_1_r.
      rewrite Z.shiftr_div_pow2 by lia.
      replace (2 ^ (a + b)) with (2 ^ (64 - c)) by (f_equal; subst c; lia).
      rewrite (stream_window_top (pos + a + b) 64 c) by (subst c; lia).
      rewrite lor_high_low;
        [| subst c; lia | apply stream_window_range; subst c; lia].
      replace (stream_window src pos 64) with (stream_window src pos (a + b + c))
        by (f_equal; subst c; lia).
      rewrite (stream_window_split pos (a + b) c) by (subst c; lia).
      now rewrite Z.add_assoc.
    + destruct (Z.leb_spec 64 c) as [Hc | Hc].
      * replace (64 - c) with 0 by lia. now rewrite stream_window_0.
      * pose proof (lj_shiftl (stream_window src (pos + a + b) 64) 64 c
                      ltac:(subst c; lia) ltac:(lia)) as Hl.
        change (64 - 64) with 0 in Hl. rewrite Z.mul_1_r in Hl. rewrite Hl.
        rewrite stream_window_low by (subst c; lia).
        do 2 f_equal. subst c. lia.
    + intros Hpos'. destruct (Hmore' Hpos'). subst c. lia.
    + intros Hz. specialize (Hdone' Hz). subst c. lia.
  - (* the back buffer has the bits *)
    cbn [bind]. eexists. split; [reflexivity|].
    split; [|cbn; auto].
    unfold window_ok, set_buffer.
    cbn [buffer bufferNumBits bufferBack bufferBackNumBits srcByte numSrcBits].
    fold a. fold b.
    split; [exact Hpos|]. split; [lia|]. split; [lia|].
    split; [|split; [|split; [exact Hsb|split; [exact Hns|split]]]].
    + change (64 - 64) with 0. rewrite Z.mul_1_r.
      rewrite Ebuf, Eback, lj_shiftr_over by lia.
      replace (a + b - 64) with (b - (64 - a)) by lia.
      rewrite (stream_window_top (pos + a) b (64 - a)) by lia.
      rewrite lor_high_low; [| lia | apply stream_window_range; lia].
      replace (stream_window src pos 64) with (stream_window src pos (a + (64 - a)))
        by (f_equal; lia).
      now rewrite (stream_window_split pos a (64 - a)) by lia.
    + destruct (Z.leb_spec b (64 - a)) as [Hc | Hc].
      * replace (b - (64 - a)) with 0 by lia. now rewrite stream_window_0.
      * rewrite Eback, lj_shiftl by lia.
        rewrite stream_window_low by lia.
        do 2 f_equal. lia.
    + intros Hpos'. destruct (Hmore Hpos'). lia.
    + intros Hz. specialize (Hdone Hz). lia.
Qed.

(** Taking [n] bits off [buffer] moves the position by [n]. *)
Lemma consume_window (st : dstate) (pos n : Z) :
  window_ok src st pos -> 0 <= n <= bufferNumBits st ->
  window_ok src
    (set_buffer st (wrap64 (Z.shiftl (buffer st) n)) (bufferNumBits st - n)) (pos + n).
Proof.
  intros (Hpos & Ha & Hb & Ebuf & Eback & Hsb & Hns & Hmore & Hdone) Hn.
  unfold window_ok, set_buffer.
  cbn [buffer bufferNumBits bufferBack bufferBackNumBits srcByte numSrcBits].
  replace (pos + n + (bufferNumBits st - n)) with (pos + bufferNumBits st) by lia.
  split; [lia|]. split; [lia|]. split; [exact Hb|].
  split; [|split; [exact Eback|split; [exact Hsb|split; [exact Hns|split]]]];
    [| exact Hmore | exact Hdone].
  rewrite Ebuf, lj_shiftl by lia. now rewrite stream_window_low by lia.
Qed.

(** The leading bits of [buffer] are the bits of the stream. *)
Lemma buffer_top (st : dstate) (pos k : Z) :
  window_ok src st pos -> 0 <= k <= bufferNumBits st ->
  Z.shiftr (buffer st) (64 - k) = stream_window src pos k.
Proof.
  intros (Hpos & Ha & Hb & Ebuf & _) Hk.
  rewrite Ebuf, lj_shiftr_over by lia.
  replace (64 - k + bufferNumBits st - 64) with (bufferNumBits st - k) by lia.
  apply stream_window_top; lia.
Qed.

(** [buffer] and the 64 bits of the stream start with the same bits. *)
Lemma buffer_below_window (st : dstate) (pos : Z) :
  window_ok src st pos ->
  0 <= buffer st /\
  buffer st <= stream_window src pos 64 < buffer st + 2 ^ (64 - bufferNumBits st).
Proof.
  intros (Hpos & Ha & Hb & Ebuf & _).
  pose proof (stream_window_range pos (bufferNumBits st) ltac:(lia)) as Hw.
  pose proof (stream_window_range (pos + bufferNumBits st) (64 - bufferNumBits st)
                ltac:(lia)) as Ht.
  pose proof (pow2_pos (64 - bufferNumBits st) ltac:(lia)).
  replace (stream_window src pos 64)
    with (stream_window src pos (bufferNumBits st + (64 - bufferNumBits st)))
    by (f_equal; lia).
  rewrite stream_window_split by lia. rewrite Ebuf. nia.
Qed.

Lemma set_dst_window (st : dstate) (pos : Z) (out : list Z) (i : Z) :
  window_ok src st pos -> window_ok src (set_dst st out i) pos.
Proof. intros H. exact H. Qed.

Lemma ensure_bits_window (n : Z) (st : dstate) (pos : Z) :
  window_ok src st pos -> n <= 64 ->
  exists st',
    ensure_bits src n st = Ret st' /\ window_ok src st' pos /\
    n <= bufferNumBits st' /\
    FastHuf.dst st' = FastHuf.dst st /\ dstIdx st' = dstIdx st.
Proof.
  intros Hst Hn. unfold ensure_bits, refill_full.
  destruct (Z.ltb_spec (bufferNumBits st) n) as [Hlt | Hge].
  - destruct (refill_window st pos Hst) as (st' & -> & Hst' & Hd & Hi).
    cbn [bind]. eexists. split; [reflexivity|]. split; [exact Hst'|].
    cbn [bufferNumBits FastHuf.dst dstIdx]. auto.
  - exists st. auto.
Qed.

End Stream.

(** X21.  [refill] for the bits that [buffer] lacks, followed by
    [bufferNumBits = 64] as at every call site in [decode], which calls it
    when [buffer] lacks bits: when the registers hold the stream at a
    position, the call reads no byte outside [src], leaves the 64 bits of
    the stream at that position in [buffer] and the registers in order, and
    does not touch the output. *)
Theorem refill_reads_stream (src : list byte) (st : FastHuf.dstate) (pos : Z) :
  FastHuf.window_ok src st pos ->
  FastHuf.bufferNumBits st < 64 ->
  exists st',
    FastHuf.refill_full src st = Ret st' /\
    FastHuf.buffer st' = FastHuf.stream_window src pos 64 /\
    FastHuf.bufferNumBits st' = 64 /\
    FastHuf.window_ok src st' pos /\
    FastHuf.dst st' = FastHuf.dst st /\ FastHuf.dstIdx st' = FastHuf.dstIdx st.
Proof.
  intros Hst _. unfold FastHuf.refill_full.
  destruct (refill_window src st pos Hst) as (st' & -> & Hst' & Hd & Hi).
  cbn [bind]. eexists. split; [reflexivity|].
  pose proof Hst' as (_ & _ & _ & Ebuf & _).
  cbn [FastHuf.set_buffer FastHuf.buffer FastHuf.bufferNumBits] in Ebuf.
  change (2 ^ (64 - 64)) with 1 in Ebuf. rewrite Z.mul_1_r in Ebuf.
  cbn [FastHuf.buffer FastHuf.bufferNumBits FastHuf.dst FastHuf.dstIdx].
  split; [exact Ebuf|]. split; [reflexivity|]. split; [exact Hst'|]. auto.
Qed.

(** ** FastHuf: a turn of [decode] on the bit stream *)

Section Turn.
Import FastHuf.

Variable src : list byte.

(** A multiple of [2^52] is not above [buffer] exactly when it is not
    above the 64 bits of the stream. *)
Lemma tableMin_test (st : dstate) (pos k : Z) :
  window_ok src st pos -> TABLE_LOOKUP_BITS <= bufferNumBits st ->
  (k * 2 ^ 52 <=? buffer st) = (k * 2 ^ 52 <=? stream_window src pos 64).
Proof.
  unfold TABLE_LOOKUP_BITS. intros Hst Hbits.
  pose proof (buffer_below_window src st pos Hst) as (_ & Hlo & Hhi).
  destruct Hst as (Hpos & Ha & _ & Ebuf & _).
  set (e := 64 - bufferNumBits st) in *.
  assert (He : 0 <= e <= 52) by (subst e; lia).
  pose proof (pow2_pos e ltac:(lia)) as Hpe.
  assert (E52 : 2 ^ 52 = 2 ^ (52 - e) * 2 ^ e).
  { rewrite <- Z.pow_add_r by lia. f_equal. lia. }
  destruct (Z.leb_spec (k * 2 ^ 52) (buffer st)) as [Hle | Hgt];
    destruct (Z.leb_spec (k * 2 ^ 52) (stream_window src pos 64)) as [Hle' | Hgt'];
    try reflexivity; try lia.
  exfalso. rewrite E52, Z.mul_assoc in Hgt, Hle'.
  set (K := k * 2 ^ (52 - e)) in *. rewrite Ebuf in Hgt, Hhi.
  set (W := stream_window src pos (bufferNumBits st)) in *.
  assert (W + 1 <= K) by nia. nia.
Qed.

(** The entry of the acceleration table that [buffer] selects is the one
    the 64 bits of the stream select. *)
Lemma table_lookup_window (d : FastHufDecoder) (st : dstate) (pos : Z) :
  window_ok src st pos -> TABLE_LOOKUP_BITS <= bufferNumBits st ->
  table_lookup d (buffer st) = table_lookup d (stream_window src pos 64).
Proof.
  unfold TABLE_LOOKUP_BITS. intros Hst Hbits. unfold table_lookup.
  rewrite (buffer_top src st pos TABLE_LOOKUP_BITS Hst)
    by (unfold TABLE_LOOKUP_BITS; lia).
  pose proof Hst as (Hpos & _).
  rewrite (Z.shiftr_div_pow2 (stream_window src pos 64)) by (unfold TABLE_LOOKUP_BITS; lia).
  rewrite (stream_window_top src pos 64 TABLE_LOOKUP_BITS)
    by (unfold TABLE_LOOKUP_BITS; lia).
  reflexivity.
Qed.

Lemma full_buffer (st : dstate) (pos : Z) :
  window_ok src st pos -> 64 <= bufferNumBits st ->
  bufferNumBits st = 64 /\ buffer st = stream_window src pos 64.
Proof.
  intros (_ & Ha & _ & Ebuf & _) H64.
  assert (E : bufferNumBits st = 64) by lia.
  rewrite E in Ebuf. change (2 ^ (64 - 64)) with 1 in Ebuf. split; [exact E | lia].
Qed.

(** The next code is looked up in the 64 bits of the stream at the
    position of [buffer], and the position moves by the length of the
    code. *)
Lemma next_symbol_window (table : list byte) (numBytes minSymbol maxSymbol rle : Z)
    (d : FastHufDecoder) (c : Z) (st st' : dstate) (pos symbol : Z) :
  new table numBytes minSymbol maxSymbol rle = Ret (d, c) ->
  minCodeLength d <= TABLE_LOOKUP_BITS ->
  window_ok src st pos -> TABLE_LOOKUP_BITS <= bufferNumBits st ->
  next_symbol d src st = Ret (symbol, st') ->
  exists codeLen,
    (if tableMin d <=? stream_window src pos 64
     then table_lookup d (stream_window src pos 64) = (codeLen, symbol)
     else search_lookup d (stream_window src pos 64) = Ret (codeLen, symbol)) /\
    minCodeLength d <= codeLen <= maxCodeLength d /\
    window_ok src st' (pos + codeLen) /\
    FastHuf.dst st' = FastHuf.dst st /\ dstIdx st' = dstIdx st.
Proof.
  intros Hnew Hshort Hst Hbits H.
  destruct (tableMin_multiple _ _ _ _ _ _ _ Hnew Hshort) as (k & Ek).
  pose proof (code_lengths _ _ _ _ _ _ _ Hnew) as Hcl.
  pose proof (stream_window_range src pos 64 ltac:(lia)) as Hw.
  unfold next_symbol in H.
  rewrite Ek, (tableMin_test st pos k Hst Hbits), <- Ek in H.
  destruct (Z.leb_spec (tableMin d) (stream_window src pos 64)) as [Htab | Hsearch].
  - rewrite (table_lookup_window d st pos Hst Hbits) in H.
    destruct (table_entry _ _ _ _ _ _ _ (stream_window src pos 64) Hnew Hshort
                ltac:(lia)) as (Lv & _ & HLv & Etab).
    rewrite Etab in H. cbn [bind] in H. apply Ret_inj in H. injection H as <- <-.
    exists Lv. split; [exact Etab|]. split; [lia|].
    split; [apply consume_window; [exact Hst | unfold TABLE_LOOKUP_BITS in *; lia]|].
    split; reflexivity.
  - destruct (ensure_bits_window src 64 st pos Hst ltac:(lia))
      as (st1 & E1 & Hst1 & Hb1 & Hd1 & Hi1).
    rewrite E1 in H. cbn [bind] in H.
    destruct (full_buffer st1 pos Hst1 Hb1) as (Hfull & Ebuf1).
    rewrite Ebuf1 in H.
    destruct (search_lookup d (stream_window src pos 64)) as [[cl sy]| |] eqn:Es;
      try discriminate.
    cbn [bind] in H. apply Ret_inj in H. injection H as <- <-.
    pose proof (search_lookup_range _ _ _ _ Es) as Hr. unfold TABLE_LOOKUP_BITS in *.
    exists cl. split; [reflexivity|]. split; [lia|].
    split; [|split; [exact Hd1 | exact Hi1]].
    apply consume_window; [exact Hst1 | lia].
Qed.

(** A run: its count is the eight bits of the stream at the position of
    [buffer]. *)
Lemma rle_run_window (numDstElems : Z) (st st' : dstate) (pos : Z) :
  window_ok src st pos ->
  rle_run src numDstElems st = Ret st' ->
  0 < stream_window src pos 8 /\
  dstIdx st' = dstIdx st + stream_window src pos 8 /\
  window_ok src st' (pos + 8).
Proof.
  intros Hst H. unfold rle_run in H.
  destruct (ensure_bits_window src 8 st pos Hst ltac:(lia))
    as (st1 & E1 & Hst1 & Hb1 & Hd1 & Hi1).
  rewrite E1 in H. cbn [bind] in H.
  change 56 with (64 - 8) in H.
  rewrite (buffer_top src st1 pos 8 Hst1) in H by lia.
  destruct (dstIdx st1 <? 1); [discriminate|].
  destruct (numDstElems <? _); [discriminate|].
  destruct (Z.leb_spec (stream_window src pos 8) 0) as [|Hcount]; [discriminate|].
  apply bind_Ret in H as (out & _ & H). apply Ret_inj in H. subst st'.
  split; [exact Hcount|]. split; [cbn; lia|].
  apply set_dst_window, consume_window; [exact Hst1 | lia].
Qed.

End Turn.

(** X22.  One turn of the loop of [decode], for a code book with a code of
    at most [TABLE_LOOKUP_BITS] bits: when the registers hold the stream at
    a position and [buffer] has [TABLE_LOOKUP_BITS] bits, the code is looked
    up in the 64 bits of the stream at that position, in the table when
    they are not below [_tableMin] and by the search otherwise.  A symbol
    other than the RLE symbol is FastHuf.written to [dst] and the position moves by
    the length of the code; for the RLE symbol the eight bits behind the
    code are the length of the run.  The registers then hold the stream at
    the new position, with [TABLE_LOOKUP_BITS] bits in [buffer]. *)
Theorem decode_step_reads_stream (table : list byte)
    (numBytes minSymbol maxSymbol rle : Z) (d : FastHuf.FastHufDecoder) (c : Z)
    (src : list byte) (numDstElems : Z) (st st' : FastHuf.dstate) (pos : Z) :
  FastHuf.new table numBytes minSymbol maxSymbol rle = Ret (d, c) ->
  FastHuf.minCodeLength d <= FastHuf.TABLE_LOOKUP_BITS ->
  FastHuf.window_ok src st pos -> FastHuf.TABLE_LOOKUP_BITS <= FastHuf.bufferNumBits st ->
  FastHuf.decode_step d src numDstElems st = Ret st' ->
  exists codeLen symbol,
    (if FastHuf.tableMin d <=? FastHuf.stream_window src pos 64
     then FastHuf.table_lookup d (FastHuf.stream_window src pos 64) = (codeLen, symbol)
     else FastHuf.search_lookup d (FastHuf.stream_window src pos 64) = Ret (codeLen, symbol)) /\
    FastHuf.minCodeLength d <= codeLen <= FastHuf.maxCodeLength d /\
    (if symbol =? FastHuf.rleSymbol d
     then FastHuf.dstIdx st' =
            FastHuf.dstIdx st + FastHuf.stream_window src (pos + codeLen) 8 /\
          FastHuf.window_ok src st' (pos + codeLen + 8)
     else FastHuf.dst st' =
            <[Z.to_nat (FastHuf.dstIdx st) := symbol mod 2 ^ 16]> (FastHuf.dst st) /\
          FastHuf.dstIdx st' = FastHuf.dstIdx st + 1 /\
          FastHuf.window_ok src st' (pos + codeLen)) /\
    FastHuf.TABLE_LOOKUP_BITS <= FastHuf.bufferNumBits st'.
Proof.
  intros Hnew Hshort Hst Hbits H. unfold FastHuf.decode_step in H.
  apply bind_Ret in H as ([symbol st1] & H1 & H).
  destruct (next_symbol_window src _ _ _ _ _ _ _ _ _ _ _ Hnew Hshort Hst Hbits H1)
    as (codeLen & Hlook & Hlen & Hst1 & Hd1 & Hi1).
  apply bind_Ret in H as (st2 & H2 & H3).
  exists codeLen, symbol. split; [exact Hlook|]. split; [exact Hlen|].
  destruct (symbol =? FastHuf.rleSymbol d).
  - destruct (rle_run_window src _ _ _ _ Hst1 H2) as (_ & Hi2 & Hst2).
    destruct (ensure_bits_window src FastHuf.TABLE_LOOKUP_BITS st2 _ Hst2)
      as (st3 & E3 & Hst3 & Hb3 & _ & Hi3); [unfold FastHuf.TABLE_LOOKUP_BITS; lia|].
    rewrite E3 in H3. apply Ret_inj in H3. subst st3.
    split; [|exact Hb3]. split; [|exact Hst3]. rewrite Hi3, Hi2, Hi1. reflexivity.
  - apply bind_Ret in H2 as (out & Hout & H2). apply Ret_inj in H2. subst st2.
    apply store_Ret in Hout as (_ & ->).
    destruct (ensure_bits_window src FastHuf.TABLE_LOOKUP_BITS
                (FastHuf.set_dst st1 (<[Z.to_nat (FastHuf.dstIdx st1) := symbol mod 2 ^ 16]>
                                        (FastHuf.dst st1)) (FastHuf.dstIdx st1 + 1))
                (pos + codeLen))
      as (st3 & E3 & Hst3 & Hb3 & Hd3 & Hi3);
      [apply set_dst_window; exact Hst1 | unfold FastHuf.TABLE_LOOKUP_BITS; lia |].
    rewrite E3 in H3. apply Ret_inj in H3. subst st3.
    split; [|exact Hb3].
    rewrite Hd3, Hi3. cbn [FastHuf.set_dst FastHuf.dst FastHuf.dstIdx].
    rewrite Hd1, Hi1. auto.
Qed.

(** ** FastHuf: the bytes behind the stream *)

Section Behind.
Import FastHuf.

Variables src more : list byte.

Lemma load_app (p : Z) :
  0 <= p < Z.of_nat (length src) -> @load error _ (src ++ more) p = load src p.
Proof.
  intros Hp. unfold load. destruct (p <? 0); [reflexivity|].
  now rewrite lookup_app_l by lia.
Qed.

Lemma READ64_app (p : Z) :
  0 <= p -> p + 8 <= Z.of_nat (length src) -> READ64 (src ++ more) p = READ64 src p.
Proof.
  intros H0 H8. unfold READ64. now rewrite !load_app by lia.
Qed.

Lemma refill_tail_app (fuel : nat) :
  forall bufferBack shift currByte currBitsLeft : Z,
  0 <= currByte -> 8 * currByte + currBitsLeft <= 8 * Z.of_nat (length src) ->
  refill_tail fuel (src ++ more) bufferBack shift currByte currBitsLeft =
  refill_tail fuel src bufferBack shift currByte currBitsLeft.
Proof.
  induction fuel as [|fuel IH]; intros bb shift cb bl Hcb Hin; cbn [refill_tail];
    [reflexivity|].
  destruct (Z.ltb_spec 0 bl) as [Hpos | Hneg]; [|reflexivity].
  rewrite load_app by lia.
  destruct (load src cb) as [b| |]; cbn [bind]; [|reflexivity..].
  apply IH; lia.
Qed.

Lemma refill_app (n : Z) (st : dstate) :
  stream_ok src st -> refill (src ++ more) n st = refill src n st.
Proof.
  intros (Hb & Hn & Hin). unfold refill.
  destruct (bufferBackNumBits st <? n); [|reflexivity].
  destruct (Z.leb_spec 64 (numSrcBits st)) as [H64 | H64].
  - now rewrite READ64_app by lia.
  - now rewrite refill_tail_app by lia.
Qed.

Lemma ensure_bits_app (n : Z) (st : dstate) :
  stream_ok src st -> ensure_bits (src ++ more) n st = ensure_bits src n st.
Proof.
  intros Hst. unfold ensure_bits, refill_full. now rewrite refill_app.
Qed.

Lemma next_symbol_app (d : FastHufDecoder) (st : dstate) :
  stream_ok src st -> next_symbol d (src ++ more) st = next_symbol d src st.
Proof.
  intros Hst. unfold next_symbol. now rewrite ensure_bits_app.
Qed.

Lemma rle_run_app (numDstElems : Z) (st : dstate) :
  stream_ok src st -> rle_run (src ++ more) numDstElems st = rle_run src numDstElems st.
Proof.
  intros Hst. unfold rle_run. now rewrite ensure_bits_app.
Qed.

(** A run leaves what is left of the stream inside [src]. *)
Lemma rle_run_stream (numDstElems : Z) (st st' : dstate) :
  stream_ok src st -> rle_run src numDstElems st = Ret st' -> stream_ok src st'.
Proof.
  intros Hst H. unfold rle_run in H.
  destruct (ensure_bits_ok src 8 st Hst) as (st1 & E1 & Hst1).
  rewrite E1 in H. cbn [bind] in H.
  destruct (dstIdx st1 <? 1); [discriminate|].
  destruct (numDstElems <? _); [discriminate|].
  destruct (_ <=? 0); [discriminate|].
  apply bind_Ret in H as (out & _ & H). apply Ret_inj in H. subst st'. exact Hst1.
Qed.

Lemma decode_step_stream (d : FastHufDecoder) (numDstElems : Z) (st st' : dstate) :
  stream_ok src st -> decode_step d src numDstElems st = Ret st' -> stream_ok src st'.
Proof.
  intros Hst H. unfold decode_step in H.
  apply bind_Ret in H as ([symbol st1] & H1 & H).
  apply (proj2 (next_symbol_ok src d st Hst)) in H1.
  apply bind_Ret in H as (st2 & H2 & H3).
  assert (Hst2 : stream_ok src st2).
  { destruct (symbol =? rleSymbol d).
    - exact (rle_run_stream _ _ _ H1 H2).
    - apply bind_Ret in H2 as (out & _ & H2). apply Ret_inj in H2. subst st2. exact H1. }
  destruct (ensure_bits_ok src TABLE_LOOKUP_BITS st2 Hst2) as (st3 & E3 & Hst3).
  rewrite E3 in H3. apply Ret_inj in H3. now subst st3.
Qed.

Lemma decode_step_app (d : FastHufDecoder) (numDstElems : Z) (st : dstate) :
  stream_ok src st ->
  decode_step d (src ++ more) numDstElems st = decode_step d src numDstElems st.
Proof.
  intros Hst. unfold decode_step. rewrite next_symbol_app by exact Hst.
  destruct (next_symbol d src st) as [[symbol st1]| |] eqn:E1; cbn [bind];
    [|reflexivity..].
  apply (proj2 (next_symbol_ok src d st Hst)) in E1.
  destruct (symbol =? rleSymbol d).
  - rewrite rle_run_app by exact E1.
    destruct (rle_run src numDstElems st1) as [st2| |] eqn:E2; cbn [bind];
      [|reflexivity..].
    apply ensure_bits_app. exact (rle_run_stream _ _ _ E1 E2).
  - destruct (store (dst st1) (dstIdx st1) (symbol mod 2 ^ 16)) as [out| |];
      cbn [bind]; [|reflexivity..].
    apply ensure_bits_app. exact E1.
Qed.

Lemma decode_loop_app (d : FastHufDecoder) (numDstElems : Z) (fuel : nat) :
  forall st : dstate,
  stream_ok src st ->
  decode_loop fuel d (src ++ more) numDstElems st = decode_loop fuel d src numDstElems st.
Proof.
  induction fuel as [|fuel IH]; intros st Hst; cbn [decode_loop]; [reflexivity|].
  destruct (dstIdx st <? numDstElems); [|reflexivity].
  rewrite decode_step_app by exact Hst.
  destruct (decode_step d src numDstElems st) as [st1| |] eqn:E; [|reflexivity..].
  apply IH. exact (decode_step_stream _ _ _ _ Hst E).
Qed.

(** X23.  [decode] reads the bytes of the stream and no others: with
    [numSrcBits] bits in [src], bytes that follow them in memory change
    neither the output nor the way the call ends. *)
Theorem decode_ignores_bytes_behind (d : FastHufDecoder) (numSrcBits : Z)
    (dst : list Z) (numDstElems : Z) :
  numSrcBits <= 8 * Z.of_nat (length src) ->
  decode d (src ++ more) numSrcBits dst numDstElems =
  decode d src numSrcBits dst numDstElems.
Proof.
  intros Hsrc. unfold decode.
  destruct (Z.ltb_spec numSrcBits 128) as [|H128]; [reflexivity|].
  rewrite !READ64_app by lia.
  destruct (READ64 src 0) as [w0| |]; [|reflexivity..].
  destruct (READ64 src 8) as [w1| |]; [|reflexivity..].
  rewrite decode_loop_app; [reflexivity|].
  unfold stream_ok. cbn. lia.
Qed.

End Behind.

(** ** FastHuf: the bytes behind the table *)

Section TableBehind.
Import FastHuf.

Variables table more : list byte.

Lemma readBits_app (numBits buffer bufferNumBits currByte : Z) :
  0 < numBits <= 8 -> 0 <= bufferNumBits ->
  0 <= currByte < Z.of_nat (length table) ->
  readBits numBits (table ++ more) buffer bufferNumBits currByte =
  readBits numBits table buffer bufferNumBits currByte.
Proof.
  intros Hn Hbc Hcb. unfold readBits. rewrite int_mask_small by lia.
  destruct (Z.to_nat numBits) as [|fuel] eqn:Ef; [lia|]. cbn [readBits_fill].
  destruct (Z.ltb_spec bufferNumBits numBits) as [Hlt | Hge]; [|reflexivity].
  rewrite load_app by lia.
  destruct (load table currByte) as [x| |]; cbn [bind]; [|reflexivity..].
  assert (Hnext : forall (t : list byte) b',
            readBits_fill fuel numBits t b' (bufferNumBits + 8) (currByte + 1)
            = Ret (b', bufferNumBits + 8, currByte + 1)).
  { intros t b'. destruct fuel; cbn [readBits_fill];
      destruct (Z.ltb_spec (bufferNumBits + 8) numBits); (reflexivity || lia). }
  now rewrite !Hnext.
Qed.

Lemma scan_symbol_app (numBytes maxSymbol symbol : Z) (st : scan_state) :
  numBytes <= Z.of_nat (length table) -> reader_ok numBytes st ->
  scan_symbol (table ++ more) numBytes maxSymbol symbol st =
  scan_symbol table numBytes maxSymbol symbol st.
Proof.
  intros Htab (Hcb & Hbc). unfold scan_symbol.
  destruct (Z.leb_spec numBytes (currByte st)) as [|Hin]; [reflexivity|].
  rewrite readBits_app by lia.
  destruct (readBits_one_byte table 6 (currBits st) (currBitCount st) (currByte st))
    as (codeLen & b & bc & cb & -> & Hbc' & Hcb' & _); try lia.
  cbn [bind].
  destruct (codeLen =? LONG_ZEROCODE_RUN); [|reflexivity].
  destruct (Z.leb_spec numBytes cb) as [|Hin']; [reflexivity|].
  now rewrite readBits_app by lia.
Qed.

Lemma scan_app (numBytes maxSymbol : Z) (fuel : nat) :
  forall (symbol : Z) (st : scan_state),
  numBytes <= Z.of_nat (length table) -> reader_ok numBytes st ->
  scan fuel (table ++ more) numBytes maxSymbol symbol st =
  scan fuel table numBytes maxSymbol symbol st.
Proof.
  induction fuel as [|fuel IH]; intros symbol st Htab Hst; cbn [scan]; [reflexivity|].
  destruct (symbol <=? wrap64 maxSymbol); [|reflexivity].
  rewrite scan_symbol_app by assumption.
  destruct (scan_symbol_ok table numBytes maxSymbol symbol st Htab Hst) as (_ & Hs').
  destruct (scan_symbol table numBytes maxSymbol symbol st) as [[symbol1 st1]| |];
    cbn [bind]; [|reflexivity..].
  apply IH; [exact Htab|]. apply (Hs' _ _ eq_refl).
Qed.

(** X24.  The constructor reads the [numBytes] bytes of the table and no
    others: bytes that follow them in memory change neither the decoder nor
    the position it returns, nor the way it throws. *)
Theorem new_ignores_bytes_behind (numBytes minSymbol maxSymbol rle : Z) :
  numBytes <= Z.of_nat (length table) ->
  new (table ++ more) numBytes minSymbol maxSymbol rle =
  new table numBytes minSymbol maxSymbol rle.
Proof.
  intros Htab. unfold new, scan_table.
  rewrite scan_app; [reflexivity | exact Htab|].
  unfold reader_ok. cbn. lia.
Qed.

End TableBehind.

(** ** FastHuf: the symbols the constructor counts *)

Section Counted.
Import FastHuf.

Variable table : list byte.

Lemma readBits_fill_window (numBits : Z) (fuel : nat) :
  forall b bc cb b' bc' cb' pos : Z,
  0 < numBits <= 30 ->
  reader_at table b bc cb pos ->
  readBits_fill fuel numBits table b bc cb = Ret (b', bc', cb') ->
  reader_at table b' bc' cb' pos /\ numBits <= bc' /\ bc' <= Z.max bc (numBits + 7).
Proof.
  induction fuel as [|fuel IH]; intros b bc cb b' bc' cb' pos Hn Hat H;
    cbn [readBits_fill] in H; destruct (Z.ltb_spec bc numBits) as [Hlt | Hge];
    try discriminate; try (apply Ret_inj in H; injection H as <- <- <-;
                           split; [exact Hat | lia]).
  apply bind_Ret in H as (x & Hx & H).
  destruct Hat as (Hbc & Hpos & Ep & Eb).
  pose proof (load_window table cb x Hx) as (Hcb & Ex).
  pose proof (byte_to_Z_range x) as Hxr.
  assert (Hat1 : reader_at table (Z.lor (wrap64 (Z.shiftl b 8)) (byte_to_Z x)) (bc + 8)
                   (cb + 1) pos).
  { unfold reader_at. split; [lia|]. split; [exact Hpos|]. split; [lia|].
    rewrite push_byte by lia. rewrite Eb.
    rewrite (stream_window_split table pos bc 8) by lia.
    replace (pos + bc) with (8 * cb) by lia. rewrite Ex.
    change (2 ^ 8) with 256. reflexivity. }
  destruct (IH _ _ _ _ _ _ pos Hn Hat1 H) as (Hat' & Hle & Hup).
  split; [exact Hat' | lia].
Qed.

(** [readBits] hands out the bits at the position of the reader and moves
    on by that many bits. *)
Lemma readBits_window (numBits b bc cb v b' bc' cb' pos : Z) :
  0 < numBits <= 30 ->
  reader_at table b bc cb pos ->
  readBits numBits table b bc cb = Ret (v, b', bc', cb') ->
  v = stream_window table pos numBits /\
  reader_at table b' bc' cb' (pos + numBits) /\ bc' <= Z.max bc 7.
Proof.
  intros Hn Hat H. unfold readBits in H. rewrite int_mask_small in H by lia.
  apply bind_Ret in H as ([[b1 bc1] cb1] & Hfill & H).
  cbn [bind] in H. apply Ret_inj in H. injection H as <- <- <- <-.
  destruct (readBits_fill_window _ _ _ _ _ _ _ _ _ Hn Hat Hfill)
    as ((Hbc & Hpos & Ep & Eb) & Hle & Hup).
  assert (Hps : 0 < 2 ^ (bc1 - numBits)) by (apply Z.pow_pos_nonneg; lia).
  split; [|split; [|lia]].
  - rewrite leading_bits by lia.
    replace (bc1 - numBits + numBits) with bc1 by lia.
    rewrite Eb. apply stream_window_top; lia.
  - unfold reader_at. split; [lia|]. split; [lia|]. split; [lia|].
    rewrite <- (stream_window_low table pos bc1 numBits) by lia. rewrite <- Eb.
    symmetry. apply Z.mod_mod_divide.
    exists (2 ^ numBits). rewrite <- Z.pow_add_r by lia. f_equal. lia.
Qed.

Lemma spec_code_lengths_stop (n : nat) (pos symbol maxSymbol : Z) :
  maxSymbol < symbol -> spec_code_lengths n table pos symbol maxSymbol = [].
Proof.
  intros H. destruct n; cbn [spec_code_lengths]; [reflexivity|].
  destruct (Z.ltb_spec maxSymbol symbol); [reflexivity | lia].
Qed.

Lemma length_spec_code_lengths (n : nat) :
  forall pos symbol maxSymbol : Z,
  (length (spec_code_lengths n table pos symbol maxSymbol) <= n)%nat.
Proof.
  induction n as [|n IH]; intros pos symbol maxSymbol; cbn [spec_code_lengths length];
    [lia|].
  destruct (_ <? _); cbn [length]; [lia|].
  destruct (_ =? 63); [etransitivity; [apply IH | lia]|].
  destruct (59 <=? _); [etransitivity; [apply IH | lia]|].
  cbn [length]. specialize (IH (pos + 6) (symbol + 1) maxSymbol). lia.
Qed.

(** One turn of the scan takes one step of the stream of lengths. *)
Lemma scan_symbol_window (numBytes maxSymbol symbol symbol' : Z)
    (st st' : scan_state) (pos : Z) :
  0 <= symbol <= maxSymbol -> maxSymbol < 2 ^ 31 ->
  reader_at table (currBits st) (currBitCount st) (currByte st) pos ->
  scan_symbol table numBytes maxSymbol symbol st = Ret (symbol', st') ->
  exists (pos' : Z) (new : list (Z * Z)),
    reader_at table (currBits st') (currBitCount st') (currByte st') pos' /\
    symbol <= symbol' <= maxSymbol /\
    symbols st' =
      symbols st ++ map symbol_entry (List.filter (fun sl => negb (snd sl =? 0)) new) /\
    forall n : nat,
      spec_code_lengths (S n) table pos symbol maxSymbol =
      new ++ spec_code_lengths n table pos' (symbol' + 1) maxSymbol.
Proof.
  intros Hsym Hmax Hat H. unfold scan_symbol in H.
  destruct (numBytes <=? currByte st); [discriminate|].
  destruct (readBits 6 _ _ _ _) as [[[[codeLen bits] bitCount] byte]| |] eqn:Hread;
    try discriminate.
  cbn [bind] in H.
  destruct (readBits_window 6 _ _ _ _ _ _ _ _ ltac:(lia) Hat Hread)
    as (Ev & Hat6 & _).
  pose proof (stream_window_range table pos 6 ltac:(lia)) as Hv.
  rewrite <- Ev in Hv.
  assert (Hspec : forall n : nat,
            spec_code_lengths (S n) table pos symbol maxSymbol =
            if codeLen =? 63 then
              spec_code_lengths n table (pos + 14)
                (symbol + (stream_window table (pos + 6) 8 + 6)) maxSymbol
            else if 59 <=? codeLen then
              spec_code_lengths n table (pos + 6) (symbol + (codeLen - 59 + 2)) maxSymbol
            else (symbol, codeLen)
                 :: spec_code_lengths n table (pos + 6) (symbol + 1) maxSymbol).
  { intros n. cbn [spec_code_lengths]. rewrite <- Ev.
    destruct (Z.ltb_spec maxSymbol symbol); [lia | reflexivity]. }
  unfold SHORTEST_LONG_RUN, LONG_ZEROCODE_RUN, SHORT_ZEROCODE_RUN in H.
  destruct (Z.eqb_spec codeLen 63) as [E63 | N63]; cbv iota in H.
  { destruct (numBytes <=? byte); [discriminate|].
    destruct (readBits 8 _ _ _ _) as [[[[r bits'] bitCount'] byte']| |] eqn:Hread8;
      try discriminate.
    cbn [bind] in H.
    destruct (readBits_window 8 _ _ _ _ _ _ _ _ ltac:(lia) Hat6 Hread8)
      as (Er & Hat14 & _).
    pose proof (stream_window_range table (pos + 6) 8 ltac:(lia)) as Hr.
    rewrite <- Er in Hr. change (2 ^ 8) with 256 in Hr.
    rewrite !wrap64_small in H by lia.
    destruct (Z.ltb_spec (maxSymbol + 1) (symbol + (r + (2 + 63 - 59)))); [discriminate|].
    apply Ret_inj in H. injection H as <- <-.
    exists (pos + 14), []. cbn [set_reader currBits currBitCount currByte symbols].
    replace (pos + 6 + 8) with (pos + 14) in Hat14 by lia.
    split; [exact Hat14|]. split; [lia|]. split; [now rewrite app_nil_r|].
    intros n. rewrite Hspec, <- Er. cbn [app]. f_equal. lia. }
  destruct (Z.leb_spec 59 codeLen) as [H59 | H59]; cbv iota in H.
  { rewrite !wrap64_small in H by lia.
    destruct (Z.ltb_spec (maxSymbol + 1) (symbol + (codeLen - 59 + 2))); [discriminate|].
    apply Ret_inj in H. injection H as <- <-.
    exists (pos + 6), []. cbn [set_reader currBits currBitCount currByte symbols].
    split; [exact Hat6|]. split; [lia|]. split; [now rewrite app_nil_r|].
    intros n. rewrite Hspec. cbn [app]. f_equal. lia. }
  destruct (Z.eqb_spec codeLen 0) as [E0 | N0]; cbn [negb] in H;
    apply Ret_inj in H; injection H as <- <-.
  - exists (pos + 6), [(symbol, codeLen)].
    cbn [set_reader currBits currBitCount currByte symbols].
    split; [exact Hat6|]. split; [lia|]. split.
    + cbn [List.filter snd]. destruct (Z.eqb_spec codeLen 0); [|lia].
      cbn. now rewrite app_nil_r.
    + intros n. now rewrite Hspec.
  - exists (pos + 6), [(symbol, codeLen)].
    cbn [currBits currBitCount currByte symbols].
    split; [exact Hat6|]. split; [lia|]. split.
    + cbn [List.filter snd]. destruct (Z.eqb_spec codeLen 0); [lia|]. reflexivity.
    + intros n. now rewrite Hspec.
Qed.

(** The scan lists the symbols that the stream of lengths gives a length
    other than zero. *)
Lemma scan_window (numBytes maxSymbol : Z) (fuel : nat) :
  forall (symbol : Z) (st st' : scan_state) (pos : Z) (n : nat),
  0 <= symbol -> 0 <= maxSymbol < 2 ^ 31 - 1 ->
  reader_at table (currBits st) (currBitCount st) (currByte st) pos ->
  maxSymbol - symbol + 1 <= Z.of_nat n ->
  scan fuel table numBytes maxSymbol symbol st = Ret st' ->
  symbols st' =
    symbols st ++
    map symbol_entry
      (List.filter (fun sl => negb (snd sl =? 0))
         (spec_code_lengths n table pos symbol maxSymbol)).
Proof.
  induction fuel as [|fuel IH]; intros symbol st st' pos n Hsym Hmax Hat Hn H;
    cbn [scan] in H; rewrite wrap64_small in H by lia;
    destruct (Z.leb_spec symbol maxSymbol) as [Hle | Hgt]; try discriminate;
    try (apply Ret_inj in H; subst st';
         rewrite spec_code_lengths_stop by lia; cbn; now rewrite app_nil_r).
  destruct (scan_symbol table numBytes maxSymbol symbol st) as [[symbol1 st1]| |] eqn:Hs;
    try discriminate.
  cbn [bind] in H.
  destruct (scan_symbol_window numBytes maxSymbol symbol _ _ _ _ ltac:(lia) ltac:(lia) Hat Hs)
    as (pos1 & new & Hat1 & Hadv & Hnew & Hspec).
  destruct n as [|n]; [lia|].
  rewrite wrap64_small in H by lia.
  rewrite (IH (symbol1 + 1) st1 st' pos1 n ltac:(lia) Hmax Hat1 ltac:(lia) H).
  rewrite Hnew, Hspec, List.filter_app, map_app, app_assoc. reflexivity.
Qed.

Lemma scan_table_window (numBytes minSymbol maxSymbol : Z) (st : scan_state) :
  0 <= minSymbol < 2 ^ 31 -> 0 <= maxSymbol < 2 ^ 31 - 1 ->
  scan_table table numBytes minSymbol maxSymbol = Ret st ->
  symbols st = map symbol_entry (spec_coded_symbols table minSymbol maxSymbol).
Proof.
  intros Hmin Hmax H. unfold scan_table in H. rewrite wrap64_small in H by lia.
  apply (scan_window _ _ _ _ _ _ 0 (Z.to_nat (maxSymbol - minSymbol + 1))) in H;
    [exact H | lia | exact Hmax | | lia].
  unfold reader_at. cbn [currBits currBitCount currByte].
  split; [lia|]. split; [lia|]. split; [lia|]. now rewrite stream_window_0.
Qed.

End Counted.

Section CountFits.
Import FastHuf.

Lemma to_int_mod (z : Z) : to_int z mod 2 ^ 32 = z mod 2 ^ 32.
Proof.
  unfold to_int. cbv zeta. destruct (_ <? _).
  - apply Z.mod_mod. lia.
  - replace (z mod 2 ^ 32 - 2 ^ 32) with (z mod 2 ^ 32 + (-1) * 2 ^ 32) by lia.
    rewrite Z.mod_add by lia. apply Z.mod_mod. lia.
Qed.

Lemma to_int_add (a b : Z) : to_int (to_int a + b) = to_int (a + b).
Proof.
  assert (E : (to_int a + b) mod 2 ^ 32 = (a + b) mod 2 ^ 32).
  { rewrite Z.add_mod, to_int_mod, <- Z.add_mod by lia. reflexivity. }
  unfold to_int at 1 3. cbv zeta. now rewrite E.
Qed.

Lemma to_int_le (z : Z) : 0 <= z -> to_int z <= z.
Proof.
  intros Hz. unfold to_int. cbv zeta.
  pose proof (Z.mod_le z (2 ^ 32) Hz ltac:(lia)).
  destruct (_ <? _); lia.
Qed.

(** [_numSymbols] is the sum of lines 195-196, as an [int]. *)
Lemma count_symbols_to_int (cc : list Z) :
  count_symbols cc = to_int (sum_range (arr_get cc) 0 57).
Proof.
  unfold count_symbols.
  pose proof (for_up_inv (fun i acc => acc = to_int (sum_range (arr_get cc) 0 (i - 1)))
                (fun i n => to_int (n + arr_get cc i)) (Z.to_nat MAX_CODE_LEN) 0 0)
    as H.
  cbv beta in H. rewrite H.
  - reflexivity.
  - reflexivity.
  - intros i s Hi ->. unfold MAX_CODE_LEN in Hi.
    replace (i + 1 - 1) with i by lia.
    rewrite (sum_range_last _ 0 i) by lia. apply to_int_add.
Qed.

(** The last entry of a given length. *)
Lemma last_of_length (L : Z) (l : list Z) :
  1 <= count_len L l ->
  exists (k : nat) (x : Z),
    l !! k = Some x /\ Z.land x 63 = L /\
    count_len L (take k l) = count_len L l - 1.
Proof.
  induction l as [|y l IH] using rev_ind; cbn [count_len]; [lia|].
  rewrite count_len_app. cbn [count_len].
  destruct (Z.eqb_spec (Z.land y 63) L) as [E | N]; intros H.
  - exists (length l), y. split; [apply list_lookup_middle; reflexivity|].
    split; [exact E|]. rewrite take_app_length. lia.
  - destruct IH as (k & x & Hk & Hx & Hc); [lia|].
    pose proof (lookup_lt_Some _ _ _ Hk) as Hlt.
    exists k, x. split; [rewrite lookup_app_l by exact Hlt; exact Hk|].
    split; [exact Hx|]. rewrite take_app_le by lia. lia.
Qed.

(** A code book that the constructor accepts has as many symbols with a
    code as [_numSymbols] says: every id is stored in [_idToSymbol], whose
    size is [_numSymbols], so that the sum has not left the range of [int],
    and no code has [MAX_CODE_LEN] bits, which the sum leaves out. *)
Lemma numSymbols_of_scan (table : list byte)
    (numBytes minSymbol maxSymbol rle : Z) (d : FastHufDecoder) (c : Z) :
  new table numBytes minSymbol maxSymbol rle = Ret (d, c) ->
  exists st : scan_state,
    scan_table table numBytes minSymbol maxSymbol = Ret st /\
    (Z.of_nat (length (symbols st)) < 2 ^ 64 ->
     numSymbols d = Z.of_nat (length (symbols st)) /\
     arr_get (codeCount st) MAX_CODE_LEN = 0).
Proof.
  intros Hnew.
  apply new_inv in Hnew as (st & base & offset & Hscan & _ & -> & Hfill & Hb).
  apply buildTables_fields in Hb as (HN & _).
  exists st. split; [exact Hscan|]. intros Hsize. rewrite HN. clear HN.
  apply scan_table_inv in Hscan as (Hinv & _).
  pose proof (scan_counts st Hinv) as (Hcc & Htot & Hout & Hext). cbv zeta in *.
  pose proof (ids_of_scan st _ _ Hinv Hsize Hfill) as (Hlen & Hids).
  destruct Hinv as (_ & Hcount & Hall & _).
  rewrite count_symbols_to_int in *.
  set (cc := arr_get (codeCount st)) in *. unfold MAX_CODE_LEN.
  assert (H57 : sum_range cc 0 57 = Z.of_nat (length (symbols st)) - cc 58).
  { rewrite <- Htot, (sum_range_last cc 0 58) by lia. change (58 - 1) with 57. lia. }
  pose proof (Hcc 58 ltac:(lia)) as H58.
  destruct Hext as [(Hnil & Hmin & Hmax) | (Hmin & Hmax & Hcmin & Hcmax)].
  - assert (E58 : cc 58 = 0) by (apply Hout; lia).
    rewrite H57, Hnil, E58. cbn. split; reflexivity.
  - set (minCL := scanMinCodeLength st) in *. set (maxCL := scanMaxCodeLength st) in *.
    assert (Hin : sum_range cc minCL maxCL = Z.of_nat (length (symbols st))).
    { rewrite <- Htot.
      rewrite (sum_range_split cc 0 (minCL - 1) 58) by lia.
      replace (minCL - 1 + 1) with minCL by lia.
      rewrite (sum_range_split cc minCL maxCL 58) by lia.
      rewrite (sum_range_zero cc 0 (minCL - 1)) by (intros; apply Hout; lia).
      rewrite (sum_range_zero cc (maxCL + 1) 58) by (intros; apply Hout; lia).
      lia. }
    rewrite sum_range_first in Hin by lia.
    destruct (last_of_length minCL (symbols st)) as (k & x & Hk & Hx & Hlast).
    { rewrite <- Hcount by lia. exact Hcmin. }
    destruct (Hids k x Hk) as (_ & Hid). cbv zeta in Hid. rewrite Hx in Hid.
    rewrite Hlast, <- Hcount in Hid by lia. fold cc in Hid.
    apply lookup_lt_Some in Hid. rewrite Hlen in Hid.
    pose proof (sum_range_nonneg cc (minCL + 1) maxCL ltac:(intros; apply Hcc; lia)).
    pose proof (sum_range_nonneg cc 0 57 ltac:(intros; apply Hcc; lia)) as Hs57.
    pose proof (to_int_le (sum_range cc 0 57) Hs57).
    lia.
Qed.

End CountFits.

(** C5.  For every code book that the constructor accepts, [_numSymbols]
    is the number of symbols of [min_symbol .. max_symbol] with a code
    length that is not zero, as the stream of lengths of the table gives
    them, the length [MAX_CODE_LEN] = 58 included: the sum of the code
    leaves out [codeCount[58]], and an accepted code book has no code of
    that length.  The symbols are symbols: [min_symbol] and [max_symbol]
    are not negative (line 131 compares them as [uint64_t]), and
    [max_symbol + 1], which lines 153 and 166 form in [int], is an [int]. *)
Theorem numSymbols_counts_coded_symbols (table : list byte)
    (numBytes minSymbol maxSymbol rle : Z) (d : FastHuf.FastHufDecoder) (c : Z) :
  0 <= minSymbol < 2 ^ 31 -> 0 <= maxSymbol < 2 ^ 31 - 1 ->
  FastHuf.new table numBytes minSymbol maxSymbol rle = Ret (d, c) ->
  FastHuf.numSymbols d = Z.of_nat (length (FastHuf.spec_coded_symbols table minSymbol maxSymbol)).
Proof.
  intros Hmin Hmax Hnew.
  destruct (numSymbols_of_scan _ _ _ _ _ _ _ Hnew) as (st & Hscan & Hcount).
  pose proof (scan_table_window table _ _ _ _ Hmin Hmax Hscan) as Hsyms.
  assert (Hlen : length (FastHuf.symbols st)
                 = length (FastHuf.spec_coded_symbols table minSymbol maxSymbol)).
  { rewrite Hsyms. apply length_map. }
  rewrite <- Hlen. apply Hcount.
  rewrite Hlen. unfold FastHuf.spec_coded_symbols.
  pose proof (List.filter_length_le (fun sl : Z * Z => negb (snd sl =? 0))
                (FastHuf.spec_code_lengths (Z.to_nat (maxSymbol - minSymbol + 1)) table 0
                   minSymbol maxSymbol)) as Hf.
  pose proof (length_spec_code_lengths table (Z.to_nat (maxSymbol - minSymbol + 1)) 0
                minSymbol maxSymbol) as Hs.
  lia.
Qed.

(** The stream of lengths of [rle_table]: the lengths 1, 0 and 1 for the
    symbols 5, 6 and 7. *)
Lemma rle_table_coded_symbols :
  FastHuf.spec_coded_symbols FastHuf.rle_table 5 7 = [(5, 1); (7, 1)] /\
  FastHuf.numSymbols FastHuf.rle_decoder = 2.
Proof. split; vm_compute; reflexivity. Qed.

Lemma numSymbols_counts_coded_symbols_witness :
  FastHuf.numSymbols FastHuf.rle_decoder =
  Z.of_nat (length (FastHuf.spec_coded_symbols FastHuf.rle_table 5 7)).
Proof.
  apply (numSymbols_counts_coded_symbols FastHuf.rle_table 3 5 7 7
           FastHuf.rle_decoder 3).
  - lia.
  - lia.
  - exact rle_decoder_new.
Defined.

(** ** FastHuf: what an error leaves in [dst] *)

Section Prefix.
Import FastHuf.





End Prefix.


(** ** The decoder on the examples *)

Lemma deep_decoder_new :
  FastHuf.new FastHuf.deep_table 2 0 1 7 = Ret (FastHuf.deep_decoder, 2).
Proof.
  apply (new_run FastHuf.deep_table 2 0 1 7 FastHuf.deep_scan FastHuf.deep_base
           (FastHuf.idToSymbol FastHuf.deep_decoder) FastHuf.deep_decoder).
  - vm_compute. reflexivity.
  - vm_compute. reflexivity.
  - vm_compute. reflexivity.
  - rewrite (buildTables_run _ _ _ _ _ _ _
               (combine (FastHuf.tableCodeLen FastHuf.deep_decoder)
                        (FastHuf.tableSymbol FastHuf.deep_decoder))).
    + vm_compute. reflexivity.
    + vm_compute. reflexivity.
Qed.

Lemma blank_decoder_new :
  FastHuf.new [] 0 1 0 7 = Ret (FastHuf.blank_decoder, 0).
Proof.
  apply (new_run [] 0 1 0 7 FastHuf.empty_scan
           (repeat FastHuf.ALL_ONES (Z.to_nat (FastHuf.MAX_CODE_LEN + 1)))
           (FastHuf.idToSymbol FastHuf.blank_decoder) FastHuf.blank_decoder).
  - vm_compute. reflexivity.
  - vm_compute. reflexivity.
  - vm_compute. reflexivity.
  - rewrite (buildTables_run _ _ _ _ _ _ _
               (combine (FastHuf.tableCodeLen FastHuf.blank_decoder)
                        (FastHuf.tableSymbol FastHuf.blank_decoder))).
    + vm_compute. reflexivity.
    + vm_compute. reflexivity.
Qed.

Lemma decode_stays_in_bounds_witness :
  snd (FastHuf.decode FastHuf.rle_decoder FastHuf.rle_payload 128 [0; 0; 0; 0] 4)
  <> Undef.
Proof.
  apply (decode_stays_in_bounds FastHuf.rle_payload FastHuf.rle_decoder 128
           [0; 0; 0; 0] 4).
  - vm_compute. discriminate.
  - vm_compute. discriminate.
Defined.

Lemma decode_fills_output_witness :
  length [5; 5; 5; 5] = length [0; 0; 0; 0] /\
  (forall j : nat, Z.of_nat j < 4 ->
     exists v, [5; 5; 5; 5] !! j = Some v /\ 0 <= v < 2 ^ 16) /\
  (forall j : nat, 4 <= Z.of_nat j -> [5; 5; 5; 5] !! j = [0; 0; 0; 0] !! j).
Proof.
  apply (decode_fills_output FastHuf.rle_decoder FastHuf.rle_payload 128
           [0; 0; 0; 0] [5; 5; 5; 5] 4).
  vm_compute. reflexivity.
Defined.

Lemma scan_stays_in_table_witness :
  FastHuf.scan_table FastHuf.rle_table 3 5 7 <> Undef /\
  forall (d : FastHuf.FastHufDecoder) (c : Z),
    FastHuf.new FastHuf.rle_table 3 5 7 7 = Ret (d, c) -> 0 <= c <= Z.max 0 3.
Proof.
  apply (scan_stays_in_table FastHuf.rle_table 3 5 7 7).
  vm_compute. discriminate.
Defined.

Lemma empty_table_is_truncated_witness :
  FastHuf.new [] 0 5 7 7 = Throw FastHuf.TableTruncated.
Proof.
  apply (empty_table_is_truncated [] 0 5 7 7).
  - lia.
  - vm_compute. discriminate.
Defined.

Lemma table_path_is_linear_search_witness :
  FastHuf.spec_linear_lookup FastHuf.rle_decoder 0x8180000000000000 =
    Some (FastHuf.table_lookup FastHuf.rle_decoder 0x8180000000000000) /\
  FastHuf.minCodeLength FastHuf.rle_decoder
    <= fst (FastHuf.table_lookup FastHuf.rle_decoder 0x8180000000000000)
    <= FastHuf.TABLE_LOOKUP_BITS /\
  fst (FastHuf.table_lookup FastHuf.rle_decoder 0x8180000000000000)
    <= FastHuf.maxCodeLength FastHuf.rle_decoder.
Proof.
  apply (table_path_is_linear_search FastHuf.rle_table 3 5 7 7 FastHuf.rle_decoder 3).
  - exact rle_decoder_new.
  - vm_compute. discriminate.
  - split; [vm_compute; discriminate | vm_compute; reflexivity].
Defined.

Lemma search_path_is_linear_search_witness :
  FastHuf.search_lookup FastHuf.deep_decoder 0 =
    match FastHuf.spec_linear_lookup FastHuf.deep_decoder 0 with
    | Some (L, symbol) =>
        if wrap64 (arr_get (FastHuf.ljOffset FastHuf.deep_decoder) L + Z.shiftr 0 (64 - L))
           <? wrap64 (FastHuf.numSymbols FastHuf.deep_decoder)
        then Ret (L, symbol) else Throw FastHuf.InvalidSymbol
    | None => Throw FastHuf.InvalidSymbol
    end.
Proof.
  apply (search_path_is_linear_search FastHuf.deep_table 2 0 1 7 FastHuf.deep_decoder 2 0).
  - exact deep_decoder_new.
  - split; [lia | vm_compute; reflexivity].
  - intros L HL.
    assert (HL' : 1 <= L <= 12) by exact HL.
    assert (Hcases : L = 1 \/ L = 2 \/ L = 3 \/ L = 4 \/ L = 5 \/ L = 6 \/ L = 7 \/
                     L = 8 \/ L = 9 \/ L = 10 \/ L = 11 \/ L = 12) by lia.
    repeat (destruct Hcases as [-> | Hcases]; [vm_compute; reflexivity|]).
    subst L. vm_compute. reflexivity.
Defined.

Lemma readBits_takes_leading_bits_witness :
  exists v b bc cb,
    FastHuf.readBits 6 FastHuf.rle_table 0 0 0 = Ret (v, b, bc, cb) /\
    0 <= bc /\ 0 <= cb <= Z.of_nat (length FastHuf.rle_table) /\
    FastHuf.bits_avail FastHuf.rle_table bc cb = FastHuf.bits_avail FastHuf.rle_table 0 0 - 6 /\
    v = FastHuf.bits_pending FastHuf.rle_table 0 0 0 / 2 ^ FastHuf.bits_avail FastHuf.rle_table bc cb /\
    FastHuf.bits_pending FastHuf.rle_table b bc cb =
      FastHuf.bits_pending FastHuf.rle_table 0 0 0 mod 2 ^ FastHuf.bits_avail FastHuf.rle_table bc cb.
Proof.
  apply (readBits_takes_leading_bits FastHuf.rle_table 6 0 0 0).
  - lia.
  - lia.
  - split; [lia | vm_compute; discriminate].
  - vm_compute. discriminate.
Defined.

Lemma ids_follow_code_lengths_witness :
  exists st : FastHuf.scan_state,
    FastHuf.scan_table FastHuf.rle_table 3 5 7 = Ret st /\
    length (FastHuf.idToSymbol FastHuf.rle_decoder)
      = Z.to_nat (FastHuf.numSymbols FastHuf.rle_decoder) /\
    forall (k : nat) (x : Z), FastHuf.symbols st !! k = Some x ->
      let L := Z.land x 63 in
      FastHuf.minCodeLength FastHuf.rle_decoder <= L
        <= FastHuf.maxCodeLength FastHuf.rle_decoder /\
      FastHuf.idToSymbol FastHuf.rle_decoder !!
        Z.to_nat (sum_range (arr_get (FastHuf.codeCount st)) (L + 1)
                    (FastHuf.maxCodeLength FastHuf.rle_decoder)
                  + FastHuf.count_len L (take k (FastHuf.symbols st)))
      = Some (FastHuf.to_int (Z.shiftr x 6)).
Proof.
  apply (ids_follow_code_lengths FastHuf.rle_table 3 5 7 7 FastHuf.rle_decoder 3).
  - lia.
  - exact rle_decoder_new.
Defined.

Lemma code_of_symbol_is_looked_up_witness :
  FastHuf.spec_linear_lookup FastHuf.deep_decoder 0x8000000000000000 =
  Some (Z.land 1 63, FastHuf.to_int (Z.shiftr 1 6)).
Proof.
  apply (code_of_symbol_is_looked_up FastHuf.deep_table 2 0 1 7 FastHuf.deep_decoder 2 FastHuf.deep_scan 0 1).
  - lia.
  - exact deep_decoder_new.
  - vm_compute. reflexivity.
  - vm_compute. reflexivity.
  - lia.
  - vm_compute. reflexivity.
  - intros L' HL'. exfalso. revert HL'. vm_compute. intros [H1 H2].
    apply H1. destruct L'; try reflexivity; try discriminate H2.
    destruct p; cbn in H2 |- *; try discriminate H2; reflexivity.
Defined.

Lemma decode_without_codes_witness :
  FastHuf.decode FastHuf.blank_decoder FastHuf.ones_payload 128 [0; 0; 0] 3 =
  if 0xffffffffffffffff =? FastHuf.ALL_ONES then
    if 7 =? 0xffff then ([0; 0; 0], Throw FastHuf.RleBeforeFirst)
    else (replicate (Z.to_nat 3) 0xffff ++ drop (Z.to_nat 3) [0; 0; 0],
          if 128 =? 128 then Ret tt else Throw FastHuf.TrailingData)
  else ([0; 0; 0], Throw FastHuf.InvalidSymbol).
Proof.
  apply (decode_without_codes [] 0 1 0 7 FastHuf.blank_decoder 0 FastHuf.ones_payload 128
           0xffffffffffffffff [0; 0; 0] 3).
  - exact blank_decoder_new.
  - reflexivity.
  - split; [lia | vm_compute; discriminate].
  - vm_compute. reflexivity.
  - split; [lia | vm_compute; discriminate].
Defined.

Lemma refill_reads_stream_witness :
  exists st',
    FastHuf.refill_full FastHuf.tail_payload FastHuf.tail_state = Ret st' /\
    FastHuf.buffer st' = FastHuf.stream_window FastHuf.tail_payload 123 64 /\
    FastHuf.bufferNumBits st' = 64 /\
    FastHuf.window_ok FastHuf.tail_payload st' 123 /\
    FastHuf.dst st' = FastHuf.dst FastHuf.tail_state /\
    FastHuf.dstIdx st' = FastHuf.dstIdx FastHuf.tail_state.
Proof.
  apply (refill_reads_stream FastHuf.tail_payload FastHuf.tail_state 123).
  - unfold FastHuf.window_ok.
    split; [lia|].
    split; [vm_compute; split; discriminate|].
    split; [vm_compute; split; discriminate|].
    split; [vm_compute; reflexivity|].
    split; [vm_compute; reflexivity|].
    split; [vm_compute; discriminate|].
    split; [vm_compute; discriminate|].
    split.
    + intros _. vm_compute. split; [reflexivity|]. split; [reflexivity | discriminate].
    + vm_compute. discriminate.
  - vm_compute. reflexivity.
Defined.

Lemma decode_step_reads_stream_witness :
  exists codeLen symbol,
    (if FastHuf.tableMin FastHuf.rle_decoder <=? FastHuf.stream_window FastHuf.rle_payload 1 64
     then FastHuf.table_lookup FastHuf.rle_decoder
            (FastHuf.stream_window FastHuf.rle_payload 1 64) = (codeLen, symbol)
     else FastHuf.search_lookup FastHuf.rle_decoder
            (FastHuf.stream_window FastHuf.rle_payload 1 64) = Ret (codeLen, symbol)) /\
    FastHuf.minCodeLength FastHuf.rle_decoder <= codeLen
      <= FastHuf.maxCodeLength FastHuf.rle_decoder /\
    (if symbol =? FastHuf.rleSymbol FastHuf.rle_decoder
     then FastHuf.dstIdx FastHuf.rle_third_state =
            FastHuf.dstIdx FastHuf.rle_second_state
            + FastHuf.stream_window FastHuf.rle_payload (1 + codeLen) 8 /\
          FastHuf.window_ok FastHuf.rle_payload FastHuf.rle_third_state (1 + codeLen + 8)
     else FastHuf.dst FastHuf.rle_third_state =
            <[Z.to_nat (FastHuf.dstIdx FastHuf.rle_second_state) := symbol mod 2 ^ 16]>
              (FastHuf.dst FastHuf.rle_second_state) /\
          FastHuf.dstIdx FastHuf.rle_third_state = FastHuf.dstIdx FastHuf.rle_second_state + 1 /\
          FastHuf.window_ok FastHuf.rle_payload FastHuf.rle_third_state (1 + codeLen)) /\
    FastHuf.TABLE_LOOKUP_BITS <= FastHuf.bufferNumBits FastHuf.rle_third_state.
Proof.
  apply (decode_step_reads_stream FastHuf.rle_table 3 5 7 7 FastHuf.rle_decoder 3
           FastHuf.rle_payload 4 FastHuf.rle_second_state FastHuf.rle_third_state 1).
  - exact rle_decoder_new.
  - vm_compute. discriminate.
  - unfold FastHuf.window_ok.
    split; [lia|].
    split; [vm_compute; split; discriminate|].
    split; [vm_compute; split; discriminate|].
    split; [vm_compute; reflexivity|].
    split; [vm_compute; reflexivity|].
    split; [vm_compute; discriminate|].
    split; [vm_compute; discriminate|].
    split.
    + vm_compute. discriminate.
    + intros _. vm_compute. discriminate.
  - vm_compute. discriminate.
  - vm_compute. reflexivity.
Defined.

Lemma decode_ignores_bytes_behind_witness :
  FastHuf.decode FastHuf.rle_decoder (FastHuf.rle_payload ++ [xff]) 128 [0; 0; 0; 0] 4 =
  FastHuf.decode FastHuf.rle_decoder FastHuf.rle_payload 128 [0; 0; 0; 0] 4.
Proof.
  apply (decode_ignores_bytes_behind FastHuf.rle_payload [xff] FastHuf.rle_decoder 128
           [0; 0; 0; 0] 4).
  vm_compute. discriminate.
Defined.

Lemma new_ignores_bytes_behind_witness :
  FastHuf.new (FastHuf.rle_table ++ [xff]) 3 5 7 7 = FastHuf.new FastHuf.rle_table 3 5 7 7.
Proof.
  apply (new_ignores_bytes_behind FastHuf.rle_table [xff] 3 5 7 7).
  vm_compute. discriminate.
Defined.
